(** * GPU hash join of PG-Strom (gpuhashjoin.c): a shallow embedding

    The development follows the source file function by function.

    - [Pg]: the executor and allocator interfaces the file is written
      against (row sources, shared memory, CRC macros, alignment).
    - [MultiHash]: the hash table builder ([multihash_preload_khashtable],
      [expand_multihash_tables], [multihash_exec_multi], [multihash_rescan]).
    - [Exec]: the execution node ([gpuhashjoin_load_next_chunk],
      [pgstrom_fetch_gpuhashjoin], [gpuhashjoin_rescan]).
    - [ClServ]: the OpenCL server side of a join session
      ([clserv_process_gpuhashjoin], [clserv_respond_hashjoin]).
    - [PseudoScan]: the pseudo relation ([build_pscan_varlist_walker],
      [build_pseudo_scan_vartrans]).

    Definitions come first, the theorems about them follow. *)

From Stdlib Require Import ZArith List Bool Lia String.
From stdpp Require Import base option list gmap.
Import ListNotations.

Local Open Scope Z_scope.

(** ** Results of fallible code *)

(** [elog(ERROR, ...)] unwinds the query; [OutOfFuel] is the model's own
    answer when a loop was given too few iterations. *)
Inductive error :=
| Elog (msg : string)
| OutOfFuel.

Inductive result (A : Type) :=
| Ok (a : A)
| Err (e : error).
Arguments Ok {A} a.
Arguments Err {A} e.

Definition rbind {A B} (m : result A) (k : A -> result B) : result B :=
  match m with
  | Ok a => k a
  | Err e => Err e
  end.

#[global] Instance result_bind : MBind result := fun A B k m => rbind m k.
#[global] Instance result_ret : MRet result := fun A a => Ok a.

(** Fixed-width casts of C. *)
Definition cl_uint (x : Z) : Z := x mod 2 ^ 32.

(** * Interfaces of PostgreSQL and of the shared memory allocator *)
Module Pg.

(** [TYPEALIGN(ALIGNVAL, LEN)] of c.h:
    [(LEN + (ALIGNVAL - 1)) & ~(ALIGNVAL - 1)]. *)
Definition TYPEALIGN (alignval len : Z) : Z :=
  Z.land (len + (alignval - 1)) (Z.lnot (alignval - 1)).
Definition LONGALIGN (len : Z) : Z := TYPEALIGN 8 len.
Definition MAXALIGN (len : Z) : Z := TYPEALIGN 8 len.

(** What the file takes from headers that are not part of it: structure
    offsets of opencl_hashjoin.h and htup_details.h, the CRC macros of
    pg_crc.h, the varlena macros of postgres.h and the memory the backend
    reads by-reference datums from. *)
Class Env := {
  (** [offsetof(kern_hashentry, htup)] *)
  hentry_htup_offset : Z;
  (** [offsetof(kern_hashtable, colmeta[natts])] *)
  khtable_colmeta_offset : Z -> Z;
  (** [KERN_HASHTABLE_SLOT(khtable)] as an offset from [khtable], for a
      table of so many columns *)
  khtable_slot_offset : Z -> Z;
  (** [offsetof(kern_multihash, htable_offset[n])] *)
  kmhash_htable_offset : Z -> Z;
  (** [STROMALIGN] of the device headers *)
  STROMALIGN : Z -> Z;
  (** [offsetof(pgstrom_multihash_tables, kern)] *)
  mhtables_kern_offset : Z;
  (** [offsetof(HeapTupleHeaderData, t_bits)] *)
  heap_t_bits_offset : Z;
  (** [typealign_get_width] *)
  typealign_get_width : Z -> Z;
  (** bytes of the backend's address space *)
  mem : Z -> Byte.byte;
  (** the bytes a Datum variable occupies in memory, lowest address first *)
  Datum_image : Z -> list Byte.byte;
  (** [VARDATA_ANY(value)]: address of the payload of a varlena *)
  VARDATA_ANY : Z -> Z;
  (** [VARSIZE_ANY_EXHDR(value)]: payload length of a varlena *)
  VARSIZE_ANY_EXHDR : Z -> Z;
  (** [INIT_CRC32(crc)] stores this value *)
  INIT_CRC32 : Z;
  (** one round of the loop of [COMP_CRC32]: the table-driven update of
      the running CRC with the next byte *)
  crc32_update : Z -> Byte.byte -> Z;
  (** [FIN_CRC32(crc)] *)
  FIN_CRC32 : Z -> Z
}.

(** [len] bytes of memory from address [ptr] on. *)
Definition read_bytes `{Env} (ptr : Z) (len : Z) : list Byte.byte :=
  map (fun i => mem (ptr + Z.of_nat i)) (seq 0 (Z.to_nat len)).

(** [COMP_CRC32(crc, data, len)]: the bytes of [data] are folded into the
    running value one after the other. *)
Definition COMP_CRC32 `{Env} (crc : Z) (data : list Byte.byte) : Z :=
  fold_left crc32_update data crc.

(** A heap tuple: [t_len] bytes at [t_data]. *)
Record HeapTupleData := {
  t_len : Z;
  t_data : list Byte.byte
}.

(** A tuple table slot holding a physical tuple ([ExecFetchSlotTuple]). *)
Record TupleTableSlot := {
  tts_tuple : HeapTupleData
}.

(** An initialised expression: [ExecEvalExpr] yields the value and
    [isnull]. *)
Definition ExprState := TupleTableSlot -> Z * bool.

Record Form_pg_attribute := {
  attbyval : bool;
  attalign : Z;
  attlen : Z;
  attnum : Z
}.

Record TupleDesc := {
  natts : Z;
  tdhasoid : bool;
  attrs : list Form_pg_attribute
}.

(** A plan node below ours, read through [ExecProcNode] (one row) or
    [MultiExecProcNode] (one bulk): what it yields in all, what is left
    of the current scan, whether parameters changed ([chgParam != NULL])
    and how often it was rewound. *)
Record PlanState (A : Type) := {
  ps_all : list A;
  ps_rest : list A;
  ps_chgParam : bool;
  ps_rescans : nat
}.
Arguments ps_all {A} _.
Arguments ps_rest {A} _.
Arguments ps_chgParam {A} _.
Arguments ps_rescans {A} _.

Definition ExecProcNode {A} (ps : PlanState A) : option A * PlanState A :=
  match ps_rest ps with
  | [] => (None, ps)
  | x :: rest =>
      (Some x,
       {| ps_all := ps_all ps; ps_rest := rest;
          ps_chgParam := ps_chgParam ps; ps_rescans := ps_rescans ps |})
  end.

Definition ExecReScan {A} (ps : PlanState A) : PlanState A :=
  {| ps_all := ps_all ps; ps_rest := ps_all ps;
     ps_chgParam := ps_chgParam ps; ps_rescans := S (ps_rescans ps) |}.

(** Shared memory: the allocator answers each request with the size it
    granted or with NULL.  Its answers are scripted, one per call, and it
    answers NULL once the script is used up; every call is logged. *)
Record Shmem := {
  shmem_script : list (option Z);
  shmem_log : list (Z * option Z)
}.

(** [pgstrom_shmem_alloc_alap(required, &allocated)] *)
Definition pgstrom_shmem_alloc_alap (required : Z) (w : Shmem)
  : option Z * Shmem :=
  match shmem_script w with
  | [] =>
      (None, {| shmem_script := []; shmem_log := shmem_log w ++ [(required, None)] |})
  | a :: script =>
      (a, {| shmem_script := script; shmem_log := shmem_log w ++ [(required, a)] |})
  end.

(** [pgstrom_shmem_alloc(required)] *)
Definition pgstrom_shmem_alloc (required : Z) (w : Shmem) : bool * Shmem :=
  let '(a, w') := pgstrom_shmem_alloc_alap required w in
  (bool_decide (is_Some a), w').

End Pg.

(** * The hash table builder (MultiHash) *)
Module MultiHash.
Import Pg.

Record kern_colmeta := {
  cm_attbyval : bool;
  cm_attalign : Z;
  cm_attlen : Z;
  cm_attnum : Z;
  cm_attcacheoff : Z
}.

(** One inner row in the buffer.  [next] is the offset of the next entry
    of the same slot, counted from the start of the hash table; 0 ends
    the chain. *)
Record kern_hashentry := {
  hash : Z;
  next : Z;
  rowid : Z;
  he_t_len : Z;
  htup : list Byte.byte
}.

(** One hash table.  [hentries] holds the entries by the offset, from the
    start of the table, they were written at. *)
Record kern_hashtable := {
  kh_length : Z;
  ncols : Z;
  nslots : Z;
  is_outer : bool;
  colmeta : list kern_colmeta;
  hash_slots : list Z;
  hentries : gmap Z kern_hashentry
}.

(** [kern_multihash]: the part of the buffer sent to the device.
    [htables] holds the tables by their offset in the buffer. *)
Record kern_multihash := {
  ntables : Z;
  htable_offset : list Z;
  htables : gmap Z kern_hashtable
}.

Record pgstrom_multihash_tables := {
  mh_length : Z;
  usage : Z;
  ntuples : Z;
  is_divided : bool;
  refcnt : Z;
  dindex : Z;
  n_kernel : Z;
  m_hash : option nat;
  ev_hash : option nat;
  kern : kern_multihash
}.

Record MultiHashNode := {
  mhtables : pgstrom_multihash_tables;
  nrels : Z
}.

(** [threshold_exceeded required length] stands for the comparison
    [required > mhs->threshold_ratio * mhtables->length], which the source
    evaluates in double precision. *)
Record MultiHashState := {
  depth : Z;
  mhs_nslots : Z;
  threshold_exceeded : Z -> Z -> bool;
  hashtable_size : Z;
  outer_overflow : option TupleTableSlot;
  outer_done : bool;
  curr_chunk : option kern_hashtable;
  hash_keys : list ExprState;
  hash_keylen : list Z;
  hash_keybyval : list bool;
  outer_tupdesc : TupleDesc;
  outer_ps : PlanState TupleTableSlot
}.

(** A MultiHash node with the MultiHash nodes below it: the head is the
    node itself, the tail is [innerPlanState] and its descendants. *)
Definition MultiHashChain := list MultiHashState.

Definition set_hashtable_size (v : Z) (m : MultiHashState) : MultiHashState :=
  {| depth := depth m; mhs_nslots := mhs_nslots m;
     threshold_exceeded := threshold_exceeded m; hashtable_size := v;
     outer_overflow := outer_overflow m; outer_done := outer_done m;
     curr_chunk := curr_chunk m; hash_keys := hash_keys m;
     hash_keylen := hash_keylen m; hash_keybyval := hash_keybyval m;
     outer_tupdesc := outer_tupdesc m; outer_ps := outer_ps m |}.

Definition set_outer_overflow (v : option TupleTableSlot) (m : MultiHashState)
  : MultiHashState :=
  {| depth := depth m; mhs_nslots := mhs_nslots m;
     threshold_exceeded := threshold_exceeded m;
     hashtable_size := hashtable_size m;
     outer_overflow := v; outer_done := outer_done m;
     curr_chunk := curr_chunk m; hash_keys := hash_keys m;
     hash_keylen := hash_keylen m; hash_keybyval := hash_keybyval m;
     outer_tupdesc := outer_tupdesc m; outer_ps := outer_ps m |}.

Definition set_outer_done (v : bool) (m : MultiHashState) : MultiHashState :=
  {| depth := depth m; mhs_nslots := mhs_nslots m;
     threshold_exceeded := threshold_exceeded m;
     hashtable_size := hashtable_size m;
     outer_overflow := outer_overflow m; outer_done := v;
     curr_chunk := curr_chunk m; hash_keys := hash_keys m;
     hash_keylen := hash_keylen m; hash_keybyval := hash_keybyval m;
     outer_tupdesc := outer_tupdesc m; outer_ps := outer_ps m |}.

Definition set_curr_chunk (v : option kern_hashtable) (m : MultiHashState)
  : MultiHashState :=
  {| depth := depth m; mhs_nslots := mhs_nslots m;
     threshold_exceeded := threshold_exceeded m;
     hashtable_size := hashtable_size m;
     outer_overflow := outer_overflow m; outer_done := outer_done m;
     curr_chunk := v; hash_keys := hash_keys m;
     hash_keylen := hash_keylen m; hash_keybyval := hash_keybyval m;
     outer_tupdesc := outer_tupdesc m; outer_ps := outer_ps m |}.

Definition set_outer_ps (v : PlanState TupleTableSlot) (m : MultiHashState)
  : MultiHashState :=
  {| depth := depth m; mhs_nslots := mhs_nslots m;
     threshold_exceeded := threshold_exceeded m;
     hashtable_size := hashtable_size m;
     outer_overflow := outer_overflow m; outer_done := outer_done m;
     curr_chunk := curr_chunk m; hash_keys := hash_keys m;
     hash_keylen := hash_keylen m; hash_keybyval := hash_keybyval m;
     outer_tupdesc := outer_tupdesc m; outer_ps := v |}.

Definition set_mh_length (v : Z) (t : pgstrom_multihash_tables)
  : pgstrom_multihash_tables :=
  {| mh_length := v; usage := usage t; ntuples := ntuples t;
     is_divided := is_divided t; refcnt := refcnt t; dindex := dindex t;
     n_kernel := n_kernel t; m_hash := m_hash t; ev_hash := ev_hash t;
     kern := kern t |}.

Definition set_is_divided (v : bool) (t : pgstrom_multihash_tables)
  : pgstrom_multihash_tables :=
  {| mh_length := mh_length t; usage := usage t; ntuples := ntuples t;
     is_divided := v; refcnt := refcnt t; dindex := dindex t;
     n_kernel := n_kernel t; m_hash := m_hash t; ev_hash := ev_hash t;
     kern := kern t |}.

Definition set_htable_offset (d : Z) (off : Z) (t : pgstrom_multihash_tables)
  : pgstrom_multihash_tables :=
  {| mh_length := mh_length t; usage := usage t; ntuples := ntuples t;
     is_divided := is_divided t; refcnt := refcnt t; dindex := dindex t;
     n_kernel := n_kernel t; m_hash := m_hash t; ev_hash := ev_hash t;
     kern := {| ntables := ntables (kern t);
                htable_offset := <[Z.to_nat d := off]> (htable_offset (kern t));
                htables := htables (kern t) |} |}.

(** The bytes of a finished table become part of the buffer: the table is
    stored at [off], and [usage] and [ntuples] advance. *)
Definition commit_htable (off : Z) (kht : kern_hashtable) (nrows : Z)
  (t : pgstrom_multihash_tables) : pgstrom_multihash_tables :=
  {| mh_length := mh_length t; usage := usage t + kh_length kht;
     ntuples := ntuples t + nrows;
     is_divided := is_divided t; refcnt := refcnt t; dindex := dindex t;
     n_kernel := n_kernel t; m_hash := m_hash t; ev_hash := ev_hash t;
     kern := {| ntables := ntables (kern t);
                htable_offset := htable_offset (kern t);
                htables := <[off := kht]> (htables (kern t)) |} |}.

Definition set_kh_length (v : Z) (k : kern_hashtable) : kern_hashtable :=
  {| kh_length := v; ncols := ncols k; nslots := nslots k;
     is_outer := is_outer k; colmeta := colmeta k;
     hash_slots := hash_slots k; hentries := hentries k |}.

Section Builder.
Context `{Env}.

(** The body of the [forthree] loop of multihash_preload_khashtable that
    folds one hash key into the running CRC. *)
Definition comp_hash_key (crc : Z) (clause : ExprState) (keylen : Z)
  (keybyval : bool) (slot : TupleTableSlot) : Z :=
  let '(value, isnull) := clause slot in
  if isnull then crc
  else if 0 <? keylen then
    if keybyval
    then COMP_CRC32 crc (take (Z.to_nat keylen) (Datum_image value))
    else COMP_CRC32 crc (read_bytes value keylen)
  else COMP_CRC32 crc (read_bytes (VARDATA_ANY value) (VARSIZE_ANY_EXHDR value)).

(** [forthree (lc1, hash_keys, lc2, hash_keylen, lc3, hash_keybyval)] *)
Fixpoint comp_hash_keys (crc : Z) (keys : list ExprState) (keylens : list Z)
  (keybyvals : list bool) (slot : TupleTableSlot) : Z :=
  match keys, keylens, keybyvals with
  | clause :: keys', keylen :: keylens', keybyval :: keybyvals' =>
      comp_hash_keys (comp_hash_key crc clause keylen keybyval slot)
        keys' keylens' keybyvals' slot
  | _, _, _ => crc
  end.

(** [INIT_CRC32(hash); forthree ...; FIN_CRC32(hash)] *)
Definition hash_value (mhs : MultiHashState) (slot : TupleTableSlot) : Z :=
  FIN_CRC32
    (comp_hash_keys INIT_CRC32 (hash_keys mhs) (hash_keylen mhs)
       (hash_keybyval mhs) slot).

(** The loop over [tupdesc->attrs] that fills [khtable->colmeta]. *)
Fixpoint preload_colmeta (atts : list Form_pg_attribute) (attcacheoff : Z)
  : list kern_colmeta :=
  match atts with
  | [] => []
  | attr :: rest =>
      let align := typealign_get_width (attalign attr) in
      let off :=
        if 0 <? attcacheoff
        then (if 0 <? attlen attr then TYPEALIGN align attcacheoff else -1)
        else attcacheoff in
      {| cm_attbyval := attbyval attr; cm_attalign := align;
         cm_attlen := attlen attr; cm_attnum := attnum attr;
         cm_attcacheoff := off |}
      :: preload_colmeta rest (if 0 <=? off then off + attlen attr else off)
  end.

(** Allocation of a hash entry at offset [consumed] and its insertion:
    [hentry->next = hash_slots[i]; hash_slots[i] = (cl_uint)consumed]
    with [i = hash % khtable->nslots]. *)
Definition preload_insert_entry (khtable : kern_hashtable)
  (consumed ntuples hash : Z) (scan_tuple : HeapTupleData) : kern_hashtable :=
  let i := Z.to_nat (hash mod nslots khtable) in
  let hentry :=
    {| hash := hash;
       next := default 0 (hash_slots khtable !! i);
       rowid := ntuples;
       he_t_len := t_len scan_tuple;
       htup := take (Z.to_nat (t_len scan_tuple)) (t_data scan_tuple) |} in
  {| kh_length := kh_length khtable; ncols := ncols khtable;
     nslots := nslots khtable; is_outer := is_outer khtable;
     colmeta := colmeta khtable;
     hash_slots := <[i := cl_uint consumed]> (hash_slots khtable);
     hentries := <[consumed := hentry]> (hentries khtable) |}.

(** [expand_multihash_tables]: the buffer of twice the length is
    requested; the old content is copied, so only the length changes, and
    the hashtable_size of the node and of every MultiHash below it is set
    to what was allocated.  [None] is the source's [false]. *)
Definition expand_multihash_tables (mhs : MultiHashState)
  (inner : MultiHashChain) (mhtables_old : pgstrom_multihash_tables)
  (consumed : Z) (w : Shmem)
  : option (MultiHashState * MultiHashChain * pgstrom_multihash_tables) * Shmem :=
  let length_old := mh_length mhtables_old in
  match pgstrom_shmem_alloc_alap (2 * length_old) w with
  | (None, w') => (None, w')
  | (Some allocated, w') =>
      (Some (set_hashtable_size allocated mhs,
             map (set_hashtable_size allocated) inner,
             set_mh_length (allocated - mhtables_kern_offset) mhtables_old),
       w')
  end.

(** [while (required > mhs->threshold_ratio * mhtables->length)] around
    expand_multihash_tables with [mhtables = *p_mhtables] after each
    success.  The boolean tells whether the loop ran to its end (true) or
    met a failed expansion (false); the state is the one reached.  Every
    round takes one answer of the allocator, so [n] beyond the length of
    its script is never used up. *)
Fixpoint expand_loop (n : nat) (required consumed : Z) (mhs : MultiHashState)
  (inner : MultiHashChain) (mhtables : pgstrom_multihash_tables) (w : Shmem)
  : result (bool * (MultiHashState * MultiHashChain * pgstrom_multihash_tables)
            * Shmem) :=
  if threshold_exceeded mhs required (mh_length mhtables) then
    match n with
    | O => Err OutOfFuel
    | S n' =>
        match expand_multihash_tables mhs inner mhtables consumed w with
        | (None, w') => Ok (false, (mhs, inner, mhtables), w')
        | (Some (mhs', inner', mhtables'), w') =>
            expand_loop n' required consumed mhs' inner' mhtables' w'
        end
    end
  else Ok (true, (mhs, inner, mhtables), w).

(** The loop before the table header is laid out.  It passes the address
    of its local [mhtables] to expand_multihash_tables and then reloads
    [mhtables = *p_mhtables], so the test is repeated on the buffer it
    started with; the loop is left only when the header fits at once or
    when an expansion fails. *)
Fixpoint preload_header_loop (n : nat) (required : Z) (mhs : MultiHashState)
  (inner : MultiHashChain) (mhtables : pgstrom_multihash_tables) (w : Shmem)
  : result (MultiHashState * MultiHashChain * Shmem) :=
  if threshold_exceeded mhs required (mh_length mhtables) then
    match n with
    | O => Err OutOfFuel
    | S n' =>
        match expand_multihash_tables mhs inner mhtables 0 w with
        | (None, _) => Err (Elog "No multi-hashtables expandable any more")
        | (Some (mhs', inner', _), w') =>
            preload_header_loop n' required mhs' inner' mhtables w'
        end
    end
  else Ok (mhs, inner, w).

(** What the [while (true)] loop of multihash_preload_khashtable carries. *)
Record preload_vars := {
  pv_mhs : MultiHashState;
  pv_inner : MultiHashChain;
  pv_mhtables : pgstrom_multihash_tables;
  pv_khtable : kern_hashtable;
  pv_consumed : Z;
  pv_ntuples : Z;
  pv_shmem : Shmem
}.

(** The row of one round of the [while (true)] loop: the row kept in
    outer_overflow if there is one, the next row of the outer plan
    otherwise. *)
Definition preload_next_slot (mhs : MultiHashState)
  : option TupleTableSlot * MultiHashState :=
  match outer_overflow mhs with
  | None =>
      let '(slot, ps) := ExecProcNode (outer_ps mhs) in
      (slot, set_outer_ps ps mhs)
  | Some slot => (Some slot, set_outer_overflow None mhs)
  end.

(** The [while (true)] loop, one row per round. *)
Fixpoint preload_scan (n : nat) (v : preload_vars) : result preload_vars :=
  match n with
  | O => Err OutOfFuel
  | S n' =>
      let '(scan_slot, mhs) := preload_next_slot (pv_mhs v) in
      match scan_slot with
      | None =>
          Ok {| pv_mhs := set_outer_done true mhs; pv_inner := pv_inner v;
                pv_mhtables := pv_mhtables v; pv_khtable := pv_khtable v;
                pv_consumed := pv_consumed v; pv_ntuples := pv_ntuples v;
                pv_shmem := pv_shmem v |}
      | Some scan_slot =>
          let scan_tuple := tts_tuple scan_slot in
          let consumed := pv_consumed v in
          let entry_size := LONGALIGN (hentry_htup_offset + t_len scan_tuple) in
          let required := usage (pv_mhtables v) + consumed + entry_size in
          '(fits, (mhs, inner, mhtables), w) ←
            expand_loop (S (length (shmem_script (pv_shmem v)))) required consumed
              mhs (pv_inner v) (pv_mhtables v) (pv_shmem v);
          if negb fits then
            Ok {| pv_mhs := set_outer_overflow (Some scan_slot) mhs;
                  pv_inner := inner; pv_mhtables := mhtables;
                  pv_khtable := pv_khtable v; pv_consumed := consumed;
                  pv_ntuples := pv_ntuples v; pv_shmem := w |}
          else
            let hash := hash_value mhs scan_slot in
            preload_scan n'
              {| pv_mhs := mhs; pv_inner := inner; pv_mhtables := mhtables;
                 pv_khtable :=
                   preload_insert_entry (pv_khtable v) consumed (pv_ntuples v)
                     hash scan_tuple;
                 pv_consumed := consumed + entry_size;
                 pv_ntuples := cl_uint (pv_ntuples v + 1);
                 pv_shmem := w |}
      end
  end.

(** [multihash_preload_khashtable(mhs, p_mhtables, scan_forward)] *)
Definition multihash_preload_khashtable (mhs : MultiHashState)
  (inner : MultiHashChain) (mhtables : pgstrom_multihash_tables)
  (scan_forward : bool) (w : Shmem)
  : result (MultiHashState * MultiHashChain * pgstrom_multihash_tables * Shmem) :=
  let tupdesc := outer_tupdesc mhs in
  let mhtables := set_htable_offset (depth mhs) (usage mhtables) mhtables in
  if negb scan_forward then
    match curr_chunk mhs with
    | None => Err (Elog "curr_chunk is NULL")
    | Some chunk =>
        let required := usage mhtables + kh_length chunk in
        '(fits, (mhs, inner, mhtables), w) ←
          expand_loop (S (length (shmem_script w))) required 0 mhs inner mhtables w;
        if negb fits then Err (Elog "No multi-hashtables expandable any more")
        else
          let mhtables := commit_htable (usage mhtables) chunk 0 mhtables in
          Ok (mhs, inner,
              (if negb (outer_done mhs) then set_is_divided true mhtables
               else mhtables),
              w)
    end
  else
    let required :=
      usage mhtables + LONGALIGN (khtable_colmeta_offset (natts tupdesc))
      + LONGALIGN (4 * mhs_nslots mhs) in
    '(mhs, inner, w) ←
      preload_header_loop (S (length (shmem_script w))) required mhs inner mhtables w;
    let attcacheoff :=
      MAXALIGN (heap_t_bits_offset + (if tdhasoid tupdesc then 4 else 0)) in
    let khtable :=
      {| kh_length := 0; ncols := natts tupdesc; nslots := mhs_nslots mhs;
         is_outer := false;
         colmeta :=
           preload_colmeta (take (Z.to_nat (natts tupdesc)) (attrs tupdesc))
             attcacheoff;
         hash_slots := replicate (Z.to_nat (mhs_nslots mhs)) 0;
         hentries := ∅ |} in
    let consumed :=
      LONGALIGN (khtable_slot_offset (natts tupdesc) + 4 * mhs_nslots mhs) in
    v ← preload_scan (S (S (length (ps_rest (outer_ps mhs)))))
          {| pv_mhs := mhs; pv_inner := inner; pv_mhtables := mhtables;
             pv_khtable := khtable; pv_consumed := consumed; pv_ntuples := 0;
             pv_shmem := w |};
    let mhs := pv_mhs v in
    let khtable := set_kh_length (pv_consumed v) (pv_khtable v) in
    let mhtables :=
      commit_htable (usage (pv_mhtables v)) khtable (pv_ntuples v) (pv_mhtables v) in
    let mhtables :=
      if bool_decide (is_Some (curr_chunk mhs)) || negb (outer_done mhs)
      then set_is_divided true mhtables else mhtables in
    Ok (set_curr_chunk (Some khtable) mhs, pv_inner v, mhtables, pv_shmem v).

(** [multihash_rescan], applied by ExecReScan to the node and, through
    the same call on innerPlanState, to every MultiHash below it. *)
Definition multihash_rescan_node (mhs : MultiHashState) : MultiHashState :=
  set_outer_overflow None
    (set_outer_done false
       (set_curr_chunk None (set_outer_ps (ExecReScan (outer_ps mhs)) mhs))).

Definition multihash_rescan (chain : MultiHashChain) : MultiHashChain :=
  map multihash_rescan_node chain.

(** The MultiHashNode the deepest MultiHash creates. *)
Definition new_multihash_tables (nrels allocated : Z) : pgstrom_multihash_tables :=
  {| mh_length := allocated - mhtables_kern_offset;
     usage := STROMALIGN (kmhash_htable_offset (nrels + 1));
     ntuples := 0;
     is_divided := false;
     refcnt := 1;
     dindex := -1;
     n_kernel := 0;
     m_hash := None;
     ev_hash := None;
     kern := {| ntables := nrels;
                htable_offset := replicate (Z.to_nat (nrels + 1)) 0;
                htables := ∅ |} |}.

(** [multihash_exec_multi]; [n] bounds the nesting of MultiHash nodes and
    [multihash_exec_multi] below passes the length of the chain. *)
Fixpoint multihash_exec_multi_rec (n : nat) (chain : MultiHashChain) (w : Shmem)
  : result (option MultiHashNode * MultiHashChain * Shmem) :=
  match n, chain with
  | _, [] => Err (Elog "no MultiHash node")
  | O, _ => Err OutOfFuel
  | S n', mhs :: [] =>
      if outer_done mhs then Ok (None, chain, w)
      else
        let nrels := depth mhs in
        match pgstrom_shmem_alloc_alap (hashtable_size mhs) w with
        | (None, _) => Err (Elog "out of shared memory")
        | (Some allocated, w) =>
            '(mhs, inner, mhtables, w) ←
              multihash_preload_khashtable mhs []
                (new_multihash_tables nrels allocated) true w;
            Ok (Some {| mhtables := mhtables; nrels := nrels |}, mhs :: inner, w)
        end
  | S n', mhs :: inner_ps =>
      '(mhnode, inner_ps, w) ← multihash_exec_multi_rec n' inner_ps w;
      match mhnode with
      | None =>
          if outer_done mhs then Ok (None, mhs :: inner_ps, w)
          else
            '(mhnode, inner_ps, w) ←
              multihash_exec_multi_rec n' (multihash_rescan inner_ps) w;
            match mhnode with
            | None => Ok (None, mhs :: inner_ps, w)
            | Some mhnode =>
                '(mhs, inner, mhtables, w) ←
                  multihash_preload_khashtable mhs inner_ps (mhtables mhnode) true w;
                Ok (Some {| mhtables := mhtables; nrels := nrels mhnode |},
                    mhs :: inner, w)
            end
      | Some mhnode =>
          let scan_forward := negb (bool_decide (is_Some (curr_chunk mhs))) in
          '(mhs, inner, mhtables, w) ←
            multihash_preload_khashtable mhs inner_ps (mhtables mhnode)
              scan_forward w;
          Ok (Some {| mhtables := mhtables; nrels := nrels mhnode |},
              mhs :: inner, w)
      end
  end.

Definition multihash_exec_multi (chain : MultiHashChain) (w : Shmem)
  : result (option MultiHashNode * MultiHashChain * Shmem) :=
  multihash_exec_multi_rec (length chain) chain w.

End Builder.

End MultiHash.

(** * Join sessions: the message exchanged with the OpenCL server *)
Module Session.
Import Pg.

(** Values of [msg.errcode]: the StromError codes this file uses, or the
    status [rc] of a failed OpenCL call. *)
Inductive errcode :=
| StromError_Success
| StromError_CpuReCheck
| StromError_DataStoreNoSpace
| StromError_DataStoreCorruption
| StromError_OutOfSharedMemory
| StromError_OpenCLInternal
| CL_status (rc : Z).

#[global] Instance errcode_eq_dec : EqDecision errcode.
Proof. solve_decision. Defined.

Inductive kds_format :=
| KDS_FORMAT_ROW
| KDS_FORMAT_ROW_FLAT
| KDS_FORMAT_TUPSLOT
| KDS_FORMAT_other (tag : Z).

#[global] Instance kds_format_eq_dec : EqDecision kds_format.
Proof. solve_decision. Defined.

Record kern_data_store := {
  kds_length : Z;
  kds_usage : Z;
  kds_ncols : Z;
  kds_nitems : Z;
  kds_nrooms : Z;
  kds_nblocks : Z;
  kds_maxblocks : Z;
  kds_format_of : kds_format
}.

(** A data store with the rows put into it on the host side. *)
Record pgstrom_data_store := {
  kds : kern_data_store;
  ktoast : option kern_data_store;
  pds_rows : list TupleTableSlot
}.

Record pgstrom_bulkslot := {
  bulk_pds : pgstrom_data_store;
  bulk_nvalids : Z;
  bulk_rindex : list Z
}.

Record kern_resultbuf := {
  nrels : Z;
  nrooms : Z;
  nitems : Z;
  kr_errcode : errcode
}.

Record kern_row_map := {
  nvalids : Z;
  rindex : list Z
}.

(** [pgstrom_gpuhashjoin]: the message of one join session.  [mhtables]
    names the shared multihash-tables object the session holds a reference
    to. *)
Record pgstrom_gpuhashjoin := {
  msg_errcode : errcode;
  mhtables : MultiHash.pgstrom_multihash_tables;
  pds : pgstrom_data_store;
  pds_dest : pgstrom_data_store;
  kparams_length : Z;
  kresults : kern_resultbuf;
  krowmap : kern_row_map
}.

Definition set_msg_errcode (e : errcode) (m : pgstrom_gpuhashjoin)
  : pgstrom_gpuhashjoin :=
  {| msg_errcode := e; mhtables := mhtables m; pds := pds m;
     pds_dest := pds_dest m; kparams_length := kparams_length m;
     kresults := kresults m; krowmap := krowmap m |}.

(** The data store routines of datastore.c this file calls. *)
Class DataStore := {
  (** [pgstrom_create_data_store_row(tupdesc, pgstrom_chunk_size << 20,
      ntups_per_page)] *)
  pgstrom_create_data_store_row : TupleDesc -> pgstrom_data_store;
  (** [pgstrom_data_store_insert_tuple]: the store with the row added, or
      nothing when the row does not fit *)
  pgstrom_data_store_insert_tuple :
    pgstrom_data_store -> TupleTableSlot -> option pgstrom_data_store;
  (** [pgstrom_create_data_store_tupslot(tupdesc, nrooms)] *)
  pgstrom_create_data_store_tupslot : TupleDesc -> Z -> pgstrom_data_store;
  (** [pgstrom_create_data_store_row_flat(tupdesc, length)] *)
  pgstrom_create_data_store_row_flat : TupleDesc -> Z -> pgstrom_data_store;
  (** [offsetof(kern_data_store, colmeta[ncols])] *)
  kds_colmeta_offset : Z -> Z;
  (** [sizeof(kern_rowitem)] and [sizeof(kern_blkitem)] *)
  sizeof_kern_rowitem : Z;
  sizeof_kern_blkitem : Z;
  (** size of a pgstrom_gpuhashjoin message without its parameter buffer
      and row map: [offsetof(pgstrom_gpuhashjoin, khashjoin) +
      STROMALIGN(sizeof(kern_resultbuf))] *)
  gpuhashjoin_head_size : Z;
  (** [offsetof(kern_row_map, rindex[n])] *)
  krowmap_rindex_offset : Z -> Z;
  (** [sizeof(pgstrom_data_store)] *)
  sizeof_pgstrom_data_store : Z
}.

(** The message queue towards the OpenCL server.  [mq_pending] are the
    messages enqueued and not yet taken back.  Each attempt to dequeue
    reads one item of [mq_script]: the position of the pending message
    the server has answered by then, with the error code of the answer,
    or nothing when no answer is there (an attempt without waiting
    returns NULL, a waiting one times out).  [mq_waits] counts the calls
    that wait, and [mq_peak] is the largest number of messages that were
    pending at a time. *)
Record MQueue := {
  mq_closed : bool;
  mq_pending : list pgstrom_gpuhashjoin;
  mq_script : list (option (nat * errcode));
  mq_waits : nat;
  mq_peak : nat
}.

Definition pgstrom_enqueue_message (m : pgstrom_gpuhashjoin) (q : MQueue)
  : bool * MQueue :=
  if mq_closed q then (false, q)
  else (true, {| mq_closed := false; mq_pending := mq_pending q ++ [m];
                 mq_script := mq_script q; mq_waits := mq_waits q;
                 mq_peak := Nat.max (mq_peak q) (S (length (mq_pending q))) |}).

Definition pgstrom_try_dequeue_message (q : MQueue)
  : option pgstrom_gpuhashjoin * MQueue :=
  match mq_script q with
  | [] => (None, q)
  | item :: script =>
      let q' := {| mq_closed := mq_closed q; mq_pending := mq_pending q;
                   mq_script := script; mq_waits := mq_waits q;
                   mq_peak := mq_peak q |} in
      match item with
      | None => (None, q')
      | Some (i, e) =>
          match mq_pending q !! i with
          | None => (None, q')
          | Some m =>
              (Some (set_msg_errcode e m),
               {| mq_closed := mq_closed q; mq_pending := delete i (mq_pending q);
                  mq_script := script; mq_waits := mq_waits q;
                  mq_peak := mq_peak q |})
          end
      end
  end.

(** [pgstrom_dequeue_message] waits for an answer; NULL is the timeout. *)
Definition pgstrom_dequeue_message (q : MQueue)
  : option pgstrom_gpuhashjoin * MQueue :=
  pgstrom_try_dequeue_message
    {| mq_closed := mq_closed q; mq_pending := mq_pending q;
       mq_script := mq_script q; mq_waits := S (mq_waits q);
       mq_peak := mq_peak q |}.

End Session.

(** * The execution node (GpuHashJoin) *)
Module Exec.
Import Pg Session.

(** [outerPlanState(ghjs)]: the relation to be joined, read row by row
    through ExecProcNode or bulk by bulk through MultiExecProcNode. *)
Record OuterPlanState := {
  op_rows : PlanState TupleTableSlot;
  op_bulks : PlanState pgstrom_bulkslot
}.

Definition ExecReScan_outer (ops : OuterPlanState) : OuterPlanState :=
  {| op_rows := ExecReScan (op_rows ops); op_bulks := ExecReScan (op_bulks ops) |}.

(** [estimate_nrooms n] stands for
    [(cl_uint)((double) n * ghjs->row_population_ratio * 1.1)];
    [inner_chgParam] tells whether [innerPlanState(ghjs)->chgParam] is
    set. *)
Record GpuHashJoinState := {
  mhtables : option MultiHash.pgstrom_multihash_tables;
  pscan_tupdesc : TupleDesc;
  outer_tupdesc : TupleDesc;
  plan_width : Z;
  estimate_nrooms : Z -> Z;
  outer_done : bool;
  outer_bulkload : bool;
  outer_overflow : option TupleTableSlot;
  kparams_length : Z;
  curr_ghjoin : option pgstrom_gpuhashjoin;
  curr_index : Z;
  curr_recheck : bool;
  num_running : Z;
  ready_pscans : list pgstrom_gpuhashjoin;
  outer_ps : OuterPlanState;
  inner_ps : MultiHash.MultiHashChain;
  inner_chgParam : bool
}.

(** Shared memory, the message queue, and the multihash-tables and
    messages the node has put back (its reference dropped), latest
    last. *)
Record World := {
  w_shmem : Shmem;
  w_mqueue : MQueue;
  w_put_tables : list MultiHash.pgstrom_multihash_tables;
  w_put_messages : list pgstrom_gpuhashjoin
}.

Definition set_w_shmem (v : Shmem) (w : World) : World :=
  {| w_shmem := v; w_mqueue := w_mqueue w; w_put_tables := w_put_tables w;
     w_put_messages := w_put_messages w |}.

Definition set_w_mqueue (v : MQueue) (w : World) : World :=
  {| w_shmem := w_shmem w; w_mqueue := v; w_put_tables := w_put_tables w;
     w_put_messages := w_put_messages w |}.

(** [multihash_put_tables] called by the node. *)
Definition multihash_put_tables (t : MultiHash.pgstrom_multihash_tables)
  (w : World) : World :=
  {| w_shmem := w_shmem w; w_mqueue := w_mqueue w;
     w_put_tables := w_put_tables w ++ [t];
     w_put_messages := w_put_messages w |}.

(** [pgstrom_put_message] called by the node. *)
Definition pgstrom_put_message (m : pgstrom_gpuhashjoin) (w : World) : World :=
  {| w_shmem := w_shmem w; w_mqueue := w_mqueue w;
     w_put_tables := w_put_tables w;
     w_put_messages := w_put_messages w ++ [m] |}.

Definition set_mhtables (v : option MultiHash.pgstrom_multihash_tables) (g : GpuHashJoinState) : GpuHashJoinState :=
  {| mhtables := v; pscan_tupdesc := pscan_tupdesc g; outer_tupdesc :=
     outer_tupdesc g; plan_width := plan_width g; estimate_nrooms :=
     estimate_nrooms g; outer_done := outer_done g; outer_bulkload :=
     outer_bulkload g; outer_overflow := outer_overflow g; kparams_length :=
     kparams_length g; curr_ghjoin := curr_ghjoin g; curr_index := curr_index
     g; curr_recheck := curr_recheck g; num_running := num_running g;
     ready_pscans := ready_pscans g; outer_ps := outer_ps g; inner_ps :=
     inner_ps g; inner_chgParam := inner_chgParam g |}.

Definition set_outer_done (v : bool) (g : GpuHashJoinState) : GpuHashJoinState :=
  {| mhtables := mhtables g; pscan_tupdesc := pscan_tupdesc g; outer_tupdesc
     := outer_tupdesc g; plan_width := plan_width g; estimate_nrooms :=
     estimate_nrooms g; outer_done := v; outer_bulkload := outer_bulkload g;
     outer_overflow := outer_overflow g; kparams_length := kparams_length g;
     curr_ghjoin := curr_ghjoin g; curr_index := curr_index g; curr_recheck
     := curr_recheck g; num_running := num_running g; ready_pscans :=
     ready_pscans g; outer_ps := outer_ps g; inner_ps := inner_ps g;
     inner_chgParam := inner_chgParam g |}.

Definition set_outer_overflow (v : option TupleTableSlot) (g : GpuHashJoinState) : GpuHashJoinState :=
  {| mhtables := mhtables g; pscan_tupdesc := pscan_tupdesc g; outer_tupdesc
     := outer_tupdesc g; plan_width := plan_width g; estimate_nrooms :=
     estimate_nrooms g; outer_done := outer_done g; outer_bulkload :=
     outer_bulkload g; outer_overflow := v; kparams_length := kparams_length
     g; curr_ghjoin := curr_ghjoin g; curr_index := curr_index g;
     curr_recheck := curr_recheck g; num_running := num_running g;
     ready_pscans := ready_pscans g; outer_ps := outer_ps g; inner_ps :=
     inner_ps g; inner_chgParam := inner_chgParam g |}.

Definition set_curr_ghjoin (v : option pgstrom_gpuhashjoin) (g : GpuHashJoinState) : GpuHashJoinState :=
  {| mhtables := mhtables g; pscan_tupdesc := pscan_tupdesc g; outer_tupdesc
     := outer_tupdesc g; plan_width := plan_width g; estimate_nrooms :=
     estimate_nrooms g; outer_done := outer_done g; outer_bulkload :=
     outer_bulkload g; outer_overflow := outer_overflow g; kparams_length :=
     kparams_length g; curr_ghjoin := v; curr_index := curr_index g;
     curr_recheck := curr_recheck g; num_running := num_running g;
     ready_pscans := ready_pscans g; outer_ps := outer_ps g; inner_ps :=
     inner_ps g; inner_chgParam := inner_chgParam g |}.

Definition set_curr_index (v : Z) (g : GpuHashJoinState) : GpuHashJoinState :=
  {| mhtables := mhtables g; pscan_tupdesc := pscan_tupdesc g; outer_tupdesc
     := outer_tupdesc g; plan_width := plan_width g; estimate_nrooms :=
     estimate_nrooms g; outer_done := outer_done g; outer_bulkload :=
     outer_bulkload g; outer_overflow := outer_overflow g; kparams_length :=
     kparams_length g; curr_ghjoin := curr_ghjoin g; curr_index := v;
     curr_recheck := curr_recheck g; num_running := num_running g;
     ready_pscans := ready_pscans g; outer_ps := outer_ps g; inner_ps :=
     inner_ps g; inner_chgParam := inner_chgParam g |}.

Definition set_curr_recheck (v : bool) (g : GpuHashJoinState) : GpuHashJoinState :=
  {| mhtables := mhtables g; pscan_tupdesc := pscan_tupdesc g; outer_tupdesc
     := outer_tupdesc g; plan_width := plan_width g; estimate_nrooms :=
     estimate_nrooms g; outer_done := outer_done g; outer_bulkload :=
     outer_bulkload g; outer_overflow := outer_overflow g; kparams_length :=
     kparams_length g; curr_ghjoin := curr_ghjoin g; curr_index := curr_index
     g; curr_recheck := v; num_running := num_running g; ready_pscans :=
     ready_pscans g; outer_ps := outer_ps g; inner_ps := inner_ps g;
     inner_chgParam := inner_chgParam g |}.

Definition set_num_running (v : Z) (g : GpuHashJoinState) : GpuHashJoinState :=
  {| mhtables := mhtables g; pscan_tupdesc := pscan_tupdesc g; outer_tupdesc
     := outer_tupdesc g; plan_width := plan_width g; estimate_nrooms :=
     estimate_nrooms g; outer_done := outer_done g; outer_bulkload :=
     outer_bulkload g; outer_overflow := outer_overflow g; kparams_length :=
     kparams_length g; curr_ghjoin := curr_ghjoin g; curr_index := curr_index
     g; curr_recheck := curr_recheck g; num_running := v; ready_pscans :=
     ready_pscans g; outer_ps := outer_ps g; inner_ps := inner_ps g;
     inner_chgParam := inner_chgParam g |}.

Definition set_ready_pscans (v : list pgstrom_gpuhashjoin) (g : GpuHashJoinState) : GpuHashJoinState :=
  {| mhtables := mhtables g; pscan_tupdesc := pscan_tupdesc g; outer_tupdesc
     := outer_tupdesc g; plan_width := plan_width g; estimate_nrooms :=
     estimate_nrooms g; outer_done := outer_done g; outer_bulkload :=
     outer_bulkload g; outer_overflow := outer_overflow g; kparams_length :=
     kparams_length g; curr_ghjoin := curr_ghjoin g; curr_index := curr_index
     g; curr_recheck := curr_recheck g; num_running := num_running g;
     ready_pscans := v; outer_ps := outer_ps g; inner_ps := inner_ps g;
     inner_chgParam := inner_chgParam g |}.

Definition set_outer_ps (v : OuterPlanState) (g : GpuHashJoinState) : GpuHashJoinState :=
  {| mhtables := mhtables g; pscan_tupdesc := pscan_tupdesc g; outer_tupdesc
     := outer_tupdesc g; plan_width := plan_width g; estimate_nrooms :=
     estimate_nrooms g; outer_done := outer_done g; outer_bulkload :=
     outer_bulkload g; outer_overflow := outer_overflow g; kparams_length :=
     kparams_length g; curr_ghjoin := curr_ghjoin g; curr_index := curr_index
     g; curr_recheck := curr_recheck g; num_running := num_running g;
     ready_pscans := ready_pscans g; outer_ps := v; inner_ps := inner_ps g;
     inner_chgParam := inner_chgParam g |}.

Definition set_inner_ps (v : MultiHash.MultiHashChain) (g : GpuHashJoinState) : GpuHashJoinState :=
  {| mhtables := mhtables g; pscan_tupdesc := pscan_tupdesc g; outer_tupdesc
     := outer_tupdesc g; plan_width := plan_width g; estimate_nrooms :=
     estimate_nrooms g; outer_done := outer_done g; outer_bulkload :=
     outer_bulkload g; outer_overflow := outer_overflow g; kparams_length :=
     kparams_length g; curr_ghjoin := curr_ghjoin g; curr_index := curr_index
     g; curr_recheck := curr_recheck g; num_running := num_running g;
     ready_pscans := ready_pscans g; outer_ps := outer_ps g; inner_ps := v;
     inner_chgParam := inner_chgParam g |}.

Definition set_inner_chgParam (v : bool) (g : GpuHashJoinState) : GpuHashJoinState :=
  {| mhtables := mhtables g; pscan_tupdesc := pscan_tupdesc g; outer_tupdesc
     := outer_tupdesc g; plan_width := plan_width g; estimate_nrooms :=
     estimate_nrooms g; outer_done := outer_done g; outer_bulkload :=
     outer_bulkload g; outer_overflow := outer_overflow g; kparams_length :=
     kparams_length g; curr_ghjoin := curr_ghjoin g; curr_index := curr_index
     g; curr_recheck := curr_recheck g; num_running := num_running g;
     ready_pscans := ready_pscans g; outer_ps := outer_ps g; inner_ps :=
     inner_ps g; inner_chgParam := v |}.

Definition set_op_rows (v : PlanState TupleTableSlot) (g : GpuHashJoinState)
  : GpuHashJoinState :=
  set_outer_ps {| op_rows := v; op_bulks := op_bulks (outer_ps g) |} g.

Definition set_op_bulks (v : PlanState pgstrom_bulkslot) (g : GpuHashJoinState)
  : GpuHashJoinState :=
  set_outer_ps {| op_rows := op_rows (outer_ps g); op_bulks := v |} g.

Section Node.
Context `{Env} `{DataStore}.

(** The configuration variable pgstrom_max_async_chunks. *)
Variable pgstrom_max_async_chunks : Z.

(** [BITMAPLEN(NATTS)] of htup_details.h *)
Definition BITMAPLEN (n : Z) : Z := (n + 7) / 8.

(** [pgstrom_create_gpuhashjoin] *)
Definition pgstrom_create_gpuhashjoin (ghjs : GpuHashJoinState)
  (bulk : pgstrom_bulkslot) (result_format : kds_format) (w : World)
  : result (pgstrom_gpuhashjoin * GpuHashJoinState * World) :=
  match mhtables ghjs with
  | None => Err (Elog "mhtables is NULL")
  | Some mht =>
      let pds := bulk_pds bulk in
      let kds := kds pds in
      let nvalids := bulk_nvalids bulk in
      let nrels := MultiHash.ntables (MultiHash.kern mht) in
      let required :=
        gpuhashjoin_head_size + STROMALIGN (kparams_length ghjs)
        + (if nvalids <? 0 then STROMALIGN (krowmap_rindex_offset 0)
           else STROMALIGN (krowmap_rindex_offset nvalids)) in
      let '(allocated, shm) := pgstrom_shmem_alloc required (w_shmem w) in
      if negb allocated then Err (Elog "out of shared memory")
      else
        let w := set_w_shmem shm w in
        (* multihash_get_tables *)
        let mht :=
          {| MultiHash.mh_length := MultiHash.mh_length mht;
             MultiHash.usage := MultiHash.usage mht;
             MultiHash.ntuples := MultiHash.ntuples mht;
             MultiHash.is_divided := MultiHash.is_divided mht;
             MultiHash.refcnt := MultiHash.refcnt mht + 1;
             MultiHash.dindex := MultiHash.dindex mht;
             MultiHash.n_kernel := MultiHash.n_kernel mht;
             MultiHash.m_hash := MultiHash.m_hash mht;
             MultiHash.ev_hash := MultiHash.ev_hash mht;
             MultiHash.kern := MultiHash.kern mht |} in
        let nrooms :=
          estimate_nrooms ghjs (if nvalids <? 0 then kds_nitems kds else nvalids) in
        let kresults :=
          {| nrels := nrels + 1; nrooms := nrooms; nitems := 0;
             kr_errcode := StromError_Success |} in
        let krowmap :=
          if nvalids <? 0 then {| nvalids := -1; rindex := [] |}
          else {| nvalids := nvalids;
                  rindex := take (Z.to_nat nvalids) (bulk_rindex bulk) |} in
        let tupdesc := pscan_tupdesc ghjs in
        pds_dest ←
          match result_format with
          | KDS_FORMAT_TUPSLOT =>
              Ok (pgstrom_create_data_store_tupslot tupdesc nrooms)
          | KDS_FORMAT_ROW_FLAT =>
              let length :=
                STROMALIGN (kds_colmeta_offset (natts tupdesc))
                + STROMALIGN (sizeof_kern_rowitem * nrooms)
                + (MAXALIGN (heap_t_bits_offset + BITMAPLEN (natts tupdesc)
                             + (if tdhasoid tupdesc then 4 else 0))
                   + MAXALIGN (plan_width ghjs)) * nrooms in
              Ok (pgstrom_create_data_store_row_flat tupdesc length)
          | _ => Err (Elog "Bug? unexpected result format")
          end;
        Ok ({| msg_errcode := StromError_Success; Session.mhtables := mht;
               pds := pds; pds_dest := pds_dest;
               Session.kparams_length := kparams_length ghjs;
               kresults := kresults; krowmap := krowmap |},
            set_mhtables (Some mht) ghjs, w)
  end.

(** The row-by-row scan of the outer relation in
    gpuhashjoin_load_next_chunk: rows go into the data store until the
    relation ends or a row does not fit. *)
Fixpoint load_outer_rows (n : nat) (ghjs : GpuHashJoinState)
  (pds : option pgstrom_data_store)
  : result (GpuHashJoinState * option pgstrom_data_store) :=
  match n with
  | O => Err OutOfFuel
  | S n' =>
      let '(slot, ghjs) :=
        match outer_overflow ghjs with
        | Some slot => (Some slot, set_outer_overflow None ghjs)
        | None =>
            let '(slot, ps) := ExecProcNode (op_rows (outer_ps ghjs)) in
            (slot, set_op_rows ps ghjs)
        end in
      match slot with
      | None => Ok (set_outer_done true ghjs, pds)
      | Some slot =>
          let pds :=
            match pds with
            | None => pgstrom_create_data_store_row (outer_tupdesc ghjs)
            | Some pds => pds
            end in
          match pgstrom_data_store_insert_tuple pds slot with
          | None => Ok (set_outer_overflow (Some slot) ghjs, Some pds)
          | Some pds => load_outer_rows n' ghjs (Some pds)
          end
      end
  end.

(** The first block of gpuhashjoin_load_next_chunk, run when the outer
    scan is done or there is no hash table yet: the previous
    multihash-tables are unlinked, the next inner hash table is loaded
    and the outer scan is rewound for it.  [false] is the [return NULL]
    at the end of the inner multi-hashtable. *)
Definition load_inner_hash_table (ghjs : GpuHashJoinState) (w : World)
  : result (bool * GpuHashJoinState * World) :=
  (* unlink the previous pgstrom_multihash_tables *)
  let '(ghjs, w) :=
    match mhtables ghjs with
    | Some mht => (set_mhtables None ghjs, multihash_put_tables mht w)
    | None => (ghjs, w)
    end in
  (* load an inner hash-table *)
  '(mhnode, inner, shm) ←
    MultiHash.multihash_exec_multi (inner_ps ghjs) (w_shmem w);
  let ghjs := set_inner_ps inner ghjs in
  let w := set_w_shmem shm w in
  match mhnode with
  | None => Ok (false, ghjs, w)
  | Some mhnode =>
      let ghjs := set_mhtables (Some (MultiHash.mhtables mhnode)) ghjs in
      (* rewind the outer scan for the new inner hash table *)
      if outer_done ghjs
      then Ok (true,
               set_outer_done false
                 (set_outer_ps (ExecReScan_outer (outer_ps ghjs)) ghjs),
               w)
      else Ok (true, ghjs, w)
  end.

(** [gpuhashjoin_load_next_chunk]; [n] bounds the number of passes
    through its [retry] label. *)
Fixpoint gpuhashjoin_load_next_chunk (n : nat) (ghjs : GpuHashJoinState)
  (result_format : kds_format) (w : World)
  : result (option pgstrom_gpuhashjoin * GpuHashJoinState * World) :=
  match n with
  | O => Err OutOfFuel
  | S n' =>
      '(more, ghjs, w) ←
        (if outer_done ghjs || negb (bool_decide (is_Some (mhtables ghjs)))
         then load_inner_hash_table ghjs w
         else Ok (true, ghjs, w));
      if negb more then Ok (None, ghjs, w)
      else
        '(bulk, ghjs) ←
          (if negb (outer_bulkload ghjs) then
             '(ghjs, pds) ←
               load_outer_rows
                 (S (S (length (ps_rest (op_rows (outer_ps ghjs)))))) ghjs None;
             Ok (match pds with
                 | Some pds =>
                     Some {| bulk_pds := pds; bulk_nvalids := -1; bulk_rindex := [] |}
                 | None => None
                 end, ghjs)
           else
             let '(bulk, ps) := ExecProcNode (op_bulks (outer_ps ghjs)) in
             let ghjs := set_op_bulks ps ghjs in
             Ok (bulk, if bulk is None then set_outer_done true ghjs else ghjs));
        match bulk with
        | Some bulk =>
            '(gpuhashjoin, ghjs, w) ←
              pgstrom_create_gpuhashjoin ghjs bulk result_format w;
            Ok (Some gpuhashjoin, ghjs, w)
        | None => gpuhashjoin_load_next_chunk n' ghjs result_format w
        end
  end.

(** The first loop of pgstrom_fetch_gpuhashjoin, which issues sessions.
    [fuel] is what each call of gpuhashjoin_load_next_chunk gets. *)
Fixpoint fetch_issue_loop (n fuel : nat) (ghjs : GpuHashJoinState)
  (result_format : kds_format) (w : World)
  : result (GpuHashJoinState * World) :=
  if negb (outer_done ghjs) && (num_running ghjs <=? pgstrom_max_async_chunks)
  then
    match n with
    | O => Err OutOfFuel
    | S n' =>
        '(ghjoin, ghjs, w) ←
          gpuhashjoin_load_next_chunk fuel ghjs result_format w;
        match ghjoin with
        | None => Ok (ghjs, w)
        | Some ghjoin =>
            let '(enqueued, q) := pgstrom_enqueue_message ghjoin (w_mqueue w) in
            if negb enqueued
            then Err (Elog "failed to enqueue pgstrom_gpuhashjoin message")
            else
              let ghjs := set_num_running (num_running ghjs + 1) ghjs in
              let '(msg, q) := pgstrom_try_dequeue_message q in
              let w := set_w_mqueue q w in
              match msg with
              | Some msg =>
                  Ok (set_ready_pscans (ready_pscans ghjs ++ [msg])
                        (set_num_running (num_running ghjs - 1) ghjs), w)
              | None => fetch_issue_loop n' fuel ghjs result_format w
              end
        end
    end
  else Ok (ghjs, w).

(** [pgstrom_fetch_gpuhashjoin]: the session handed out (if any) and
    [*needs_recheck]. *)
Definition pgstrom_fetch_gpuhashjoin (fuel : nat) (ghjs : GpuHashJoinState)
  (result_format : kds_format) (w : World)
  : result (option (pgstrom_gpuhashjoin * bool) * GpuHashJoinState * World) :=
  '(ghjs, w) ←
    fetch_issue_loop
      (S (Z.to_nat (pgstrom_max_async_chunks + 1 - num_running ghjs)))
      fuel ghjs result_format w;
  (* wait for server's response if no available chunks were replied *)
  '(stop, ghjs, w) ←
    (match ready_pscans ghjs with
     | [] =>
         if num_running ghjs =? 0 then Ok (true, ghjs, w)
         else
           let '(msg, q) := pgstrom_dequeue_message (w_mqueue w) in
           match msg with
           | None => Err (Elog "message queue wait timeout")
           | Some msg =>
               Ok (false,
                   set_ready_pscans (ready_pscans ghjs ++ [msg])
                     (set_num_running (num_running ghjs - 1) ghjs),
                   set_w_mqueue q w)
           end
     | _ :: _ => Ok (false, ghjs, w)
     end);
  if (stop : bool) then Ok (None, ghjs, w)
  else
    match ready_pscans ghjs with
    | [] => Err (Elog "ready_pscans is empty")
    | ghjoin :: ready =>
        let ghjs := set_ready_pscans ready ghjs in
        if bool_decide (msg_errcode ghjoin = StromError_Success)
        then Ok (Some (ghjoin, false), ghjs, w)
        else Err (Elog "PG-Strom: OpenCL execution error")
    end.

(** The loop of gpuhashjoin_rescan that takes back what is running. *)
Fixpoint rescan_drain (n : nat) (ghjs : GpuHashJoinState) (w : World)
  : result (GpuHashJoinState * World) :=
  if 0 <? num_running ghjs then
    match n with
    | O => Err OutOfFuel
    | S n' =>
        let '(ghjoin, q) := pgstrom_dequeue_message (w_mqueue w) in
        match ghjoin with
        | None => Err (Elog "message queue wait timeout")
        | Some ghjoin =>
            rescan_drain n' (set_num_running (num_running ghjs - 1) ghjs)
              (pgstrom_put_message ghjoin (set_w_mqueue q w))
        end
    end
  else Ok (ghjs, w).

(** [gpuhashjoin_rescan] *)
Definition gpuhashjoin_rescan (ghjs : GpuHashJoinState) (w : World)
  : result (GpuHashJoinState * World) :=
  (* release asynchronous jobs, if any *)
  let '(ghjs, w) :=
    match curr_ghjoin ghjs with
    | Some ghjoin =>
        (set_curr_recheck false (set_curr_index 0 (set_curr_ghjoin None ghjs)),
         pgstrom_put_message ghjoin w)
    | None => (ghjs, w)
    end in
  '(ghjs, w) ← rescan_drain (Z.to_nat (num_running ghjs)) ghjs w;
  let '(ghjs, w) :=
    match mhtables ghjs with
    | Some mht =>
        if MultiHash.is_divided mht || negb (inner_chgParam ghjs) then
          let ghjs :=
            if negb (inner_chgParam ghjs)
            then set_inner_ps (MultiHash.multihash_rescan (inner_ps ghjs)) ghjs
            else ghjs in
          (* Release previous multi-hash-table *)
          (set_mhtables None ghjs, multihash_put_tables mht w)
        else (ghjs, w)
    | None => (ghjs, w)
    end in
  let ghjs := set_outer_overflow None (set_outer_done false ghjs) in
  Ok (if negb (ps_chgParam (op_rows (outer_ps ghjs)))
      then set_outer_ps (ExecReScan_outer (outer_ps ghjs)) ghjs
      else ghjs,
      w).

End Node.

End Exec.

(** * The execution node: handing out rows, end of the scan *)
Module ExecScan.
Import Pg Session Exec.

(** [pgstrom_close_queue] *)
Definition pgstrom_close_queue (q : MQueue) : MQueue :=
  {| mq_closed := true; mq_pending := mq_pending q; mq_script := mq_script q;
     mq_waits := mq_waits q; mq_peak := mq_peak q |}.

(** The conversion of a cl_uint to [int]. *)
Definition to_int (x : Z) : Z := if x <? 2 ^ 31 then x else x - 2 ^ 32.

Section Scan.
Context `{Env} `{DataStore}.

(** The configuration variable pgstrom_max_async_chunks. *)
Variable pgstrom_max_async_chunks : Z.

(** The rows the pseudo scan slot holds. [kern_data_store_row] stands
    for [KERN_DATA_STORE_VALUES(kds, index)] and
    [KERN_DATA_STORE_ISNULL(kds, index)], [pgstrom_fetch_data_store] for
    the routine of datastore.c, which fails for a row that is not there.
    [host_clauses] and [qual] are nothing for NIL and what ExecQual
    answers otherwise; [pscan_projection] is nothing when the slot needs
    no projection and ExecProject otherwise. *)
Variable Row : Type.
Variable kern_data_store_row : pgstrom_data_store -> Z -> Row.
Variable pgstrom_fetch_data_store : pgstrom_data_store -> Z -> option Row.
Variable host_clauses : option (Row -> bool).
Variable qual : option (Row -> bool).
Variable pscan_projection : option (Row -> Row).

(** [gpuhashjoin_next_tuple]; [n] bounds the rows it may skip. *)
Fixpoint gpuhashjoin_next_tuple (n : nat) (ghjs : GpuHashJoinState)
  : result (option Row * GpuHashJoinState) :=
  match curr_ghjoin ghjs with
  | None => Err (Elog "curr_ghjoin is NULL")
  | Some gpuhashjoin =>
      let pds_dest := pds_dest gpuhashjoin in
      if curr_index ghjs <? kds_nitems (kds pds_dest) then
        match n with
        | O => Err OutOfFuel
        | S n' =>
            let index := to_int (curr_index ghjs) in
            let ghjs := set_curr_index (cl_uint (curr_index ghjs + 1)) ghjs in
            let pslot := kern_data_store_row pds_dest index in
            match host_clauses with
            | Some ExecQual =>
                if negb (ExecQual pslot)
                then gpuhashjoin_next_tuple n' ghjs (* try to fetch next tuple *)
                else Ok (Some pslot, ghjs)
            | None => Ok (Some pslot, ghjs)
            end
        end
      else Ok (None, ghjs)
  end.

(** [gpuhashjoin_exec]; [n] bounds the sessions it may fetch and [fuel]
    is what each call of pgstrom_fetch_gpuhashjoin gets. *)
Fixpoint gpuhashjoin_exec (n fuel : nat) (ghjs : GpuHashJoinState) (w : World)
  : result (option Row * GpuHashJoinState * World) :=
  '(pscan_slot, ghjs) ←
    (match curr_ghjoin ghjs with
     | None => Ok (None, ghjs)
     | Some gpuhashjoin =>
         gpuhashjoin_next_tuple
           (Z.to_nat (kds_nitems (kds (pds_dest gpuhashjoin)))) ghjs
     end);
  match pscan_slot with
  | Some pscan_slot =>
      Ok (Some (match pscan_projection with
                | Some ExecProject => ExecProject pscan_slot
                | None => pscan_slot
                end), ghjs, w)
  | None =>
      match n with
      | O => Err OutOfFuel
      | S n' =>
          (* Release previous hashjoin chunk *)
          let '(ghjs, w) :=
            match curr_ghjoin ghjs with
            | Some gpuhashjoin =>
                (set_curr_index 0 (set_curr_ghjoin None ghjs),
                 pgstrom_put_message gpuhashjoin w)
            | None => (ghjs, w)
            end in
          (* Fetch a next hashjoin chunk already processed *)
          '(fetched, ghjs, w) ←
            pgstrom_fetch_gpuhashjoin pgstrom_max_async_chunks fuel ghjs
              KDS_FORMAT_TUPSLOT w;
          match fetched with
          | None => Ok (None, ghjs, w)
          | Some (ghjoin, recheck) =>
              gpuhashjoin_exec n' fuel
                (set_curr_index 0
                   (set_curr_ghjoin (Some ghjoin) (set_curr_recheck recheck ghjs)))
                w
          end
      end
  end.

(** The loop of gpuhashjoin_exec_multi that reduces the result by the
    host qualifiers: [i] is the row looked at, [j] the number of rows
    kept so far, [n] the number of rows still to look at. *)
Fixpoint exec_multi_reduce (ExecQual : Row -> bool) (pds : pgstrom_data_store)
  (n : nat) (i j : Z) (rindex : list Z) : result (list Z * Z) :=
  match n with
  | O => Ok (rindex, j)
  | S n' =>
      match pgstrom_fetch_data_store pds i with
      | None => Err (Elog "Bug? unable to fetch a result slot")
      | Some slot =>
          if negb (ExecQual slot)
          then exec_multi_reduce ExecQual pds n' (i + 1) j rindex
          else exec_multi_reduce ExecQual pds n' (i + 1) (j + 1)
                 (<[Z.to_nat j := i]> rindex)
      end
  end.

(** [gpuhashjoin_exec_multi] *)
Definition gpuhashjoin_exec_multi (fuel : nat) (ghjs : GpuHashJoinState)
  (w : World) : result (option pgstrom_bulkslot * GpuHashJoinState * World) :=
  '(fetched, ghjs, w) ←
    pgstrom_fetch_gpuhashjoin pgstrom_max_async_chunks fuel ghjs
      KDS_FORMAT_ROW_FLAT w;
  match fetched with
  | None => Ok (None, ghjs, w)
  | Some (ghjoin, needs_rechecks) =>
      if (needs_rechecks : bool)
      then Err (Elog "CPU Recheck not implemented yet")
      else
        let pds_dest := pds_dest ghjoin in
        let nitems := kds_nitems (kds pds_dest) in
        let rindex := replicate (Z.to_nat nitems) 0 in
        let w := pgstrom_put_message ghjoin w in
        match qual with
        | Some ExecQual =>
            '(rindex, j) ←
              exec_multi_reduce ExecQual pds_dest (Z.to_nat nitems) 0 0 rindex;
            Ok (Some {| bulk_pds := pds_dest; bulk_nvalids := j;
                        bulk_rindex := rindex |}, ghjs, w)
        | None =>
            Ok (Some {| bulk_pds := pds_dest; bulk_nvalids := -1;
                        bulk_rindex := rindex |}, ghjs, w)
        end
  end.

(** [gpuhashjoin_end]: the sessions and the hash table are given back
    and the queue is closed.  The loop over the running sessions is the
    one of gpuhashjoin_rescan. *)
Definition gpuhashjoin_end (ghjs : GpuHashJoinState) (w : World)
  : result (GpuHashJoinState * World) :=
  (* release asynchronous jobs *)
  let w :=
    match curr_ghjoin ghjs with
    | Some ghjoin => pgstrom_put_message ghjoin w
    | None => w
    end in
  '(ghjs, w) ← rescan_drain (Z.to_nat (num_running ghjs)) ghjs w;
  (* clean out multiple hash tables *)
  let w :=
    match mhtables ghjs with
    | Some mhtables => multihash_put_tables mhtables w
    | None => w
    end in
  (* clean out the message queue *)
  Ok (ghjs, set_w_mqueue (pgstrom_close_queue (w_mqueue w)) w).

End Scan.

End ExecScan.


(** * The OpenCL server side of a join session *)
Module ClServ.
Import Pg Session.

(** ** OpenCL objects and commands *)

Inductive cl_buffer :=
| BufHash | BufJoin | BufRowmap | BufDstore | BufKtoast | BufDest.

Inductive cl_kernel := KernMain | KernProj.

#[global] Instance cl_buffer_eq_dec : EqDecision cl_buffer.
Proof. solve_decision. Defined.
#[global] Instance cl_kernel_eq_dec : EqDecision cl_kernel.
Proof. solve_decision. Defined.

(** What clserv_process_gpuhashjoin puts into the command queue.  Memory
    objects and events are named by handles; [wait] is the event wait
    list of the command and [ev] the event it signals. *)
Inductive cl_command :=
| EnqueueWriteBuffer (b : cl_buffer) (m : nat) (ev : nat)
| EnqueueNDRangeKernel (k : cl_kernel) (nitems : Z) (wait : list nat) (ev : nat)
| EnqueueReadBuffer (b : cl_buffer) (m : nat) (wait : list nat) (ev : nat)
| SetEventCallback (ev : nat).

#[global] Instance cl_command_eq_dec : EqDecision cl_command.
Proof. solve_decision. Defined.

(** The OpenCL runtime: the next unused handle, the commands enqueued so
    far (oldest first) and the reference count of every object. *)
Record ClWorld := {
  cl_next : nat;
  cl_queue : list cl_command;
  cl_refcnt : gmap nat Z
}.

(** The calls that can fail in clserv_process_gpuhashjoin. *)
Inductive cl_call :=
| Call_calloc
| Call_CreateBuffer (b : cl_buffer)
| Call_EnqueueWriteBuffer (b : cl_buffer)
| Call_CreateKernel (k : cl_kernel)
| Call_dmasend_data_store
| Call_compute_workgroup_size (k : cl_kernel)
| Call_SetKernelArg (k : cl_kernel) (arg : Z)
| Call_EnqueueNDRangeKernel (k : cl_kernel)
| Call_EnqueueReadBuffer (b : cl_buffer)
| Call_SetEventCallback.

(** What clserv_lookup_device_program answers. *)
Inductive program_lookup :=
| ProgramBuilding
| BAD_OPENCL_PROGRAM
| ProgramReady (prog : nat).

(** The behaviour of the runtime during one run of
    clserv_process_gpuhashjoin: the status every call returns (0 is
    CL_SUCCESS; for the boolean clserv_compute_workgroup_size anything
    else is false), the program looked up and the device chosen by
    pgstrom_opencl_device_schedule. *)
Record Device := {
  cl_status : cl_call -> Z;
  lookup_device_program : program_lookup;
  device_schedule : Z
}.

Definition CL_SUCCESS : Z := 0.
Definition CL_OUT_OF_HOST_MEMORY : Z := -6.
Definition CL_BUILD_PROGRAM_FAILURE : Z := -11.

(** [msg.errcode = rc]: StromError_Success is 0, as CL_SUCCESS is. *)
Definition errcode_of_rc (rc : Z) : errcode :=
  if rc =? CL_SUCCESS then StromError_Success else CL_status rc.

Record clstate_gpuhashjoin := {
  program : option nat;
  kern_main : option nat;
  kern_proj : option nat;
  m_join : option nat;
  m_hash : option nat;
  m_dstore : option nat;
  m_ktoast : option nat;
  m_rowmap : option nat;
  m_kresult : option nat;
  dindex : Z;
  hash_loader : bool;
  ev_kern_main : Z;
  ev_kern_proj : Z;
  events : list nat
}.

(** [calloc]: everything zero. *)
Definition clghj_zero : clstate_gpuhashjoin :=
  {| program := None; kern_main := None; kern_proj := None; m_join := None;
     m_hash := None; m_dstore := None; m_ktoast := None; m_rowmap := None;
     m_kresult := None; dindex := 0; hash_loader := false;
     ev_kern_main := 0; ev_kern_proj := 0; events := [] |}.

Definition set_program (v : option nat) (c : clstate_gpuhashjoin) : clstate_gpuhashjoin :=
  {| program := v; kern_main := kern_main c; kern_proj := kern_proj c; m_join
     := m_join c; m_hash := m_hash c; m_dstore := m_dstore c; m_ktoast :=
     m_ktoast c; m_rowmap := m_rowmap c; m_kresult := m_kresult c; dindex :=
     dindex c; hash_loader := hash_loader c; ev_kern_main := ev_kern_main c;
     ev_kern_proj := ev_kern_proj c; events := events c |}.

Definition set_kern_main (v : option nat) (c : clstate_gpuhashjoin) : clstate_gpuhashjoin :=
  {| program := program c; kern_main := v; kern_proj := kern_proj c; m_join
     := m_join c; m_hash := m_hash c; m_dstore := m_dstore c; m_ktoast :=
     m_ktoast c; m_rowmap := m_rowmap c; m_kresult := m_kresult c; dindex :=
     dindex c; hash_loader := hash_loader c; ev_kern_main := ev_kern_main c;
     ev_kern_proj := ev_kern_proj c; events := events c |}.

Definition set_kern_proj (v : option nat) (c : clstate_gpuhashjoin) : clstate_gpuhashjoin :=
  {| program := program c; kern_main := kern_main c; kern_proj := v; m_join
     := m_join c; m_hash := m_hash c; m_dstore := m_dstore c; m_ktoast :=
     m_ktoast c; m_rowmap := m_rowmap c; m_kresult := m_kresult c; dindex :=
     dindex c; hash_loader := hash_loader c; ev_kern_main := ev_kern_main c;
     ev_kern_proj := ev_kern_proj c; events := events c |}.

Definition set_m_join (v : option nat) (c : clstate_gpuhashjoin) : clstate_gpuhashjoin :=
  {| program := program c; kern_main := kern_main c; kern_proj := kern_proj
     c; m_join := v; m_hash := m_hash c; m_dstore := m_dstore c; m_ktoast :=
     m_ktoast c; m_rowmap := m_rowmap c; m_kresult := m_kresult c; dindex :=
     dindex c; hash_loader := hash_loader c; ev_kern_main := ev_kern_main c;
     ev_kern_proj := ev_kern_proj c; events := events c |}.

Definition set_m_hash (v : option nat) (c : clstate_gpuhashjoin) : clstate_gpuhashjoin :=
  {| program := program c; kern_main := kern_main c; kern_proj := kern_proj
     c; m_join := m_join c; m_hash := v; m_dstore := m_dstore c; m_ktoast :=
     m_ktoast c; m_rowmap := m_rowmap c; m_kresult := m_kresult c; dindex :=
     dindex c; hash_loader := hash_loader c; ev_kern_main := ev_kern_main c;
     ev_kern_proj := ev_kern_proj c; events := events c |}.

Definition set_m_dstore (v : option nat) (c : clstate_gpuhashjoin) : clstate_gpuhashjoin :=
  {| program := program c; kern_main := kern_main c; kern_proj := kern_proj
     c; m_join := m_join c; m_hash := m_hash c; m_dstore := v; m_ktoast :=
     m_ktoast c; m_rowmap := m_rowmap c; m_kresult := m_kresult c; dindex :=
     dindex c; hash_loader := hash_loader c; ev_kern_main := ev_kern_main c;
     ev_kern_proj := ev_kern_proj c; events := events c |}.

Definition set_m_ktoast (v : option nat) (c : clstate_gpuhashjoin) : clstate_gpuhashjoin :=
  {| program := program c; kern_main := kern_main c; kern_proj := kern_proj
     c; m_join := m_join c; m_hash := m_hash c; m_dstore := m_dstore c;
     m_ktoast := v; m_rowmap := m_rowmap c; m_kresult := m_kresult c; dindex
     := dindex c; hash_loader := hash_loader c; ev_kern_main := ev_kern_main
     c; ev_kern_proj := ev_kern_proj c; events := events c |}.

Definition set_m_rowmap (v : option nat) (c : clstate_gpuhashjoin) : clstate_gpuhashjoin :=
  {| program := program c; kern_main := kern_main c; kern_proj := kern_proj
     c; m_join := m_join c; m_hash := m_hash c; m_dstore := m_dstore c;
     m_ktoast := m_ktoast c; m_rowmap := v; m_kresult := m_kresult c; dindex
     := dindex c; hash_loader := hash_loader c; ev_kern_main := ev_kern_main
     c; ev_kern_proj := ev_kern_proj c; events := events c |}.

Definition set_m_kresult (v : option nat) (c : clstate_gpuhashjoin) : clstate_gpuhashjoin :=
  {| program := program c; kern_main := kern_main c; kern_proj := kern_proj
     c; m_join := m_join c; m_hash := m_hash c; m_dstore := m_dstore c;
     m_ktoast := m_ktoast c; m_rowmap := m_rowmap c; m_kresult := v; dindex
     := dindex c; hash_loader := hash_loader c; ev_kern_main := ev_kern_main
     c; ev_kern_proj := ev_kern_proj c; events := events c |}.

Definition set_dindex (v : Z) (c : clstate_gpuhashjoin) : clstate_gpuhashjoin :=
  {| program := program c; kern_main := kern_main c; kern_proj := kern_proj
     c; m_join := m_join c; m_hash := m_hash c; m_dstore := m_dstore c;
     m_ktoast := m_ktoast c; m_rowmap := m_rowmap c; m_kresult := m_kresult
     c; dindex := v; hash_loader := hash_loader c; ev_kern_main :=
     ev_kern_main c; ev_kern_proj := ev_kern_proj c; events := events c |}.

Definition set_hash_loader (v : bool) (c : clstate_gpuhashjoin) : clstate_gpuhashjoin :=
  {| program := program c; kern_main := kern_main c; kern_proj := kern_proj
     c; m_join := m_join c; m_hash := m_hash c; m_dstore := m_dstore c;
     m_ktoast := m_ktoast c; m_rowmap := m_rowmap c; m_kresult := m_kresult
     c; dindex := dindex c; hash_loader := v; ev_kern_main := ev_kern_main c;
     ev_kern_proj := ev_kern_proj c; events := events c |}.

Definition set_ev_kern_main (v : Z) (c : clstate_gpuhashjoin) : clstate_gpuhashjoin :=
  {| program := program c; kern_main := kern_main c; kern_proj := kern_proj
     c; m_join := m_join c; m_hash := m_hash c; m_dstore := m_dstore c;
     m_ktoast := m_ktoast c; m_rowmap := m_rowmap c; m_kresult := m_kresult
     c; dindex := dindex c; hash_loader := hash_loader c; ev_kern_main := v;
     ev_kern_proj := ev_kern_proj c; events := events c |}.

Definition set_ev_kern_proj (v : Z) (c : clstate_gpuhashjoin) : clstate_gpuhashjoin :=
  {| program := program c; kern_main := kern_main c; kern_proj := kern_proj
     c; m_join := m_join c; m_hash := m_hash c; m_dstore := m_dstore c;
     m_ktoast := m_ktoast c; m_rowmap := m_rowmap c; m_kresult := m_kresult
     c; dindex := dindex c; hash_loader := hash_loader c; ev_kern_main :=
     ev_kern_main c; ev_kern_proj := v; events := events c |}.

Definition set_events (v : list nat) (c : clstate_gpuhashjoin) : clstate_gpuhashjoin :=
  {| program := program c; kern_main := kern_main c; kern_proj := kern_proj
     c; m_join := m_join c; m_hash := m_hash c; m_dstore := m_dstore c;
     m_ktoast := m_ktoast c; m_rowmap := m_rowmap c; m_kresult := m_kresult
     c; dindex := dindex c; hash_loader := hash_loader c; ev_kern_main :=
     ev_kern_main c; ev_kern_proj := ev_kern_proj c; events := v |}.

(** [clghj->ev_index] is the number of events recorded. *)
Definition ev_index (c : clstate_gpuhashjoin) : Z := Z.of_nat (length (events c)).

(** ** The runtime calls *)

Definition cl_fresh (w : ClWorld) : nat * ClWorld :=
  (cl_next w,
   {| cl_next := S (cl_next w); cl_queue := cl_queue w;
      cl_refcnt := <[cl_next w := 1]> (cl_refcnt w) |}).

Definition cl_enqueue (c : cl_command) (w : ClWorld) : ClWorld :=
  {| cl_next := cl_next w; cl_queue := cl_queue w ++ [c];
     cl_refcnt := cl_refcnt w |}.

(** [clRetainMemObject], [clRetainEvent] *)
Definition cl_retain (h : nat) (w : ClWorld) : ClWorld :=
  {| cl_next := cl_next w; cl_queue := cl_queue w;
     cl_refcnt := <[h := default 0 (cl_refcnt w !! h) + 1]> (cl_refcnt w) |}.

(** [clReleaseMemObject], [clReleaseEvent], [clReleaseKernel],
    [clReleaseProgram] *)
Definition cl_release (h : nat) (w : ClWorld) : ClWorld :=
  {| cl_next := cl_next w; cl_queue := cl_queue w;
     cl_refcnt := <[h := default 0 (cl_refcnt w !! h) - 1]> (cl_refcnt w) |}.

Definition cl_release_opt (h : option nat) (w : ClWorld) : ClWorld :=
  match h with
  | Some h => cl_release h w
  | None => w
  end.

(** ** The hash table on the device *)

(** The fields of pgstrom_multihash_tables the server writes under
    [mhtables->lock]. *)
Definition set_residency (n : Z) (m ev : option nat) (d : Z)
  (t : MultiHash.pgstrom_multihash_tables) : MultiHash.pgstrom_multihash_tables :=
  {| MultiHash.mh_length := MultiHash.mh_length t;
     MultiHash.usage := MultiHash.usage t;
     MultiHash.ntuples := MultiHash.ntuples t;
     MultiHash.is_divided := MultiHash.is_divided t;
     MultiHash.refcnt := MultiHash.refcnt t;
     MultiHash.dindex := d;
     MultiHash.n_kernel := n;
     MultiHash.m_hash := m;
     MultiHash.ev_hash := ev;
     MultiHash.kern := MultiHash.kern t |}.

(** The section of clserv_process_gpuhashjoin between SpinLockAcquire and
    SpinLockRelease: "Allocation of kernel memory for hash table. If
    someone already allocated it, we can reuse it."  The left result is
    the status that leads to [goto error].  (When n_kernel is not 0 the
    handles are set, as the Assert says; were they NULL, nothing would be
    retained or recorded.) *)
Definition load_hash_table (dev : Device)
  (mhtables : MultiHash.pgstrom_multihash_tables) (clghj : clstate_gpuhashjoin)
  (w : ClWorld)
  : (Z + unit) * MultiHash.pgstrom_multihash_tables * clstate_gpuhashjoin * ClWorld :=
  if MultiHash.n_kernel mhtables =? 0 then
    let dindex := device_schedule dev in
    let mhtables :=
      set_residency (MultiHash.n_kernel mhtables) (MultiHash.m_hash mhtables)
        (MultiHash.ev_hash mhtables) dindex mhtables in
    let clghj := set_dindex dindex clghj in
    let rc := cl_status dev (Call_CreateBuffer BufHash) in
    if negb (rc =? CL_SUCCESS) then (inl rc, mhtables, clghj, w)
    else
      let '(m, w) := cl_fresh w in
      let clghj := set_m_hash (Some m) clghj in
      let rc := cl_status dev (Call_EnqueueWriteBuffer BufHash) in
      if negb (rc =? CL_SUCCESS)
      then (inl rc, mhtables, set_m_hash None clghj, cl_release m w)
      else
        let '(ev, w) := cl_fresh w in
        let w := cl_enqueue (EnqueueWriteBuffer BufHash m ev) w in
        (inr (),
         set_residency (MultiHash.n_kernel mhtables + 1) (Some m) (Some ev)
           dindex mhtables,
         set_hash_loader true (set_events (events clghj ++ [ev]) clghj),
         w)
  else
    let w := cl_release_opt None w in
    let w :=
      match MultiHash.m_hash mhtables with
      | Some m => cl_retain m w
      | None => w
      end in
    let w :=
      match MultiHash.ev_hash mhtables with
      | Some ev => cl_retain ev w
      | None => w
      end in
    (inr (),
     set_residency (MultiHash.n_kernel mhtables + 1) (MultiHash.m_hash mhtables)
       (MultiHash.ev_hash mhtables) (MultiHash.dindex mhtables) mhtables,
     set_events (events clghj ++ option_list (MultiHash.ev_hash mhtables))
       (set_m_hash (MultiHash.m_hash mhtables)
          (set_dindex (MultiHash.dindex mhtables) clghj)),
     w).

(** "Unload hashjoin-table, if no longer referenced": the section under
    [mhtables->lock] at the end of clserv_respond_hashjoin and in the
    error path of clserv_process_gpuhashjoin. *)
Definition unload_hash_table (mhtables : MultiHash.pgstrom_multihash_tables)
  (w : ClWorld) : MultiHash.pgstrom_multihash_tables * ClWorld :=
  let w := cl_release_opt (MultiHash.m_hash mhtables) w in
  let w := cl_release_opt (MultiHash.ev_hash mhtables) w in
  let n := MultiHash.n_kernel mhtables - 1 in
  (if n =? 0
   then set_residency n None None (MultiHash.dindex mhtables) mhtables
   else set_residency n (MultiHash.m_hash mhtables) (MultiHash.ev_hash mhtables)
          (MultiHash.dindex mhtables) mhtables,
   w).

(** ** clserv_process_gpuhashjoin *)

(** The state the body works on, and the body as a computation that
    either goes on or leaves through [goto error] with the value of
    [rc]. *)
Record pstate := {
  st_clghj : clstate_gpuhashjoin;
  st_mhtables : MultiHash.pgstrom_multihash_tables;
  st_w : ClWorld
}.

Definition CL (A : Type) : Type := pstate -> (Z * pstate) + (A * pstate).

Definition cl_bind {A B} (m : CL A) (k : A -> CL B) : CL B := fun st =>
  match m st with
  | inl e => inl e
  | inr (a, st') => k a st'
  end.

Definition cl_ret {A} (a : A) : CL A := fun st => inr (a, st).

Notation "'do' x <- m ; k" := (cl_bind m (fun x => k))
  (at level 10, x name, m at level 100, k at level 200).
Notation "'do_' m ; k" := (cl_bind m (fun _ => k))
  (at level 10, m at level 100, k at level 200).

(** [goto error] with [rc] at this value *)
Definition goto_error {A} (rc : Z) : CL A := fun st => inl (rc, st).

(** a call whose status decides between going on and [goto error] *)
Definition cl_check (dev : Device) (c : cl_call) : CL unit := fun st =>
  let rc := cl_status dev c in
  if rc =? CL_SUCCESS then inr ((), st) else inl (rc, st).

Definition with_clghj (f : clstate_gpuhashjoin -> clstate_gpuhashjoin) : CL unit :=
  fun st =>
    inr ((), {| st_clghj := f (st_clghj st); st_mhtables := st_mhtables st;
                st_w := st_w st |}).

Definition get_clghj : CL clstate_gpuhashjoin := fun st => inr (st_clghj st, st).

(** a new OpenCL object *)
Definition cl_new : CL nat := fun st =>
  let '(h, w) := cl_fresh (st_w st) in
  inr (h, {| st_clghj := st_clghj st; st_mhtables := st_mhtables st; st_w := w |}).

(** an enqueue call that succeeded: the command enters the queue and its
    event is stored at [events[ev_index++]] *)
Definition cl_submit (cmd : nat -> cl_command) : CL unit := fun st =>
  let '(ev, w) := cl_fresh (st_w st) in
  inr ((), {| st_clghj := set_events (events (st_clghj st) ++ [ev]) (st_clghj st);
              st_mhtables := st_mhtables st;
              st_w := cl_enqueue (cmd ev) w |}).

Definition cl_load_hash_table (dev : Device) : CL unit := fun st =>
  let '(r, mhtables, clghj, w) :=
    load_hash_table dev (st_mhtables st) (st_clghj st) (st_w st) in
  let st' := {| st_clghj := clghj; st_mhtables := mhtables; st_w := w |} in
  match r with
  | inl rc => inl (rc, st')
  | inr _ => inr ((), st')
  end.

(** [clSetKernelArg] for the arguments 0 to 5 of a kernel *)
Definition cl_set_kernel_args (dev : Device) (k : cl_kernel) : CL unit :=
  do_ cl_check dev (Call_SetKernelArg k 0);
  do_ cl_check dev (Call_SetKernelArg k 1);
  do_ cl_check dev (Call_SetKernelArg k 2);
  do_ cl_check dev (Call_SetKernelArg k 3);
  do_ cl_check dev (Call_SetKernelArg k 4);
  cl_check dev (Call_SetKernelArg k 5).

(** the last event recorded, [clghj->events[clghj->ev_index - 1]] *)
Definition last_event (c : clstate_gpuhashjoin) : list nat :=
  option_list (last (events c)).

(** Modelled from the spec: clserv_dmasend_data_store is not part of the
    sources; it stands for step (2) of the submission, "outer-chunk
    transfer": the data store is written to [m_dstore], and its toast
    store, if there is one, to [m_ktoast]; the events are appended to
    [clghj->events]. *)
Definition clserv_dmasend_data_store (dev : Device) (pds : pgstrom_data_store)
  : CL unit :=
  do_ cl_check dev Call_dmasend_data_store;
  do c <- get_clghj;
  do_ cl_submit (EnqueueWriteBuffer BufDstore (default 0%nat (m_dstore c)));
  match m_ktoast c with
  | Some m => cl_submit (EnqueueWriteBuffer BufKtoast m)
  | None => cl_ret ()
  end.

(** The body of clserv_process_gpuhashjoin after the hash table: kernel
    and buffer objects, then the commands. *)
Definition process_submit (dev : Device) (gpuhashjoin : pgstrom_gpuhashjoin)
  : CL unit :=
  let pds := pds gpuhashjoin in
  let kds_src := kds pds in
  let kds_dest := kds (pds_dest gpuhashjoin) in
  let krowmap := krowmap gpuhashjoin in
  (* kern_gpuhashjoin_main *)
  do_ cl_check dev (Call_CreateKernel KernMain);
  do k <- cl_new;
  do_ with_clghj (set_kern_main (Some k));
  (* kern_gpuhashjoin_projection *)
  do_ (match kds_format_of kds_dest with
       | KDS_FORMAT_TUPSLOT | KDS_FORMAT_ROW_FLAT =>
           do_ cl_check dev (Call_CreateKernel KernProj);
           do k <- cl_new;
           with_clghj (set_kern_proj (Some k))
       | _ => goto_error CL_SUCCESS
       end);
  (* buffer objects *)
  do_ cl_check dev (Call_CreateBuffer BufJoin);
  do m <- cl_new;
  do_ with_clghj (set_m_join (Some m));
  do_ cl_check dev (Call_CreateBuffer BufDstore);
  do m <- cl_new;
  do_ with_clghj (set_m_dstore (Some m));
  do_ (match ktoast pds with
       | None => with_clghj (set_m_ktoast None)
       | Some _ =>
           do_ cl_check dev (Call_CreateBuffer BufKtoast);
           do m <- cl_new;
           with_clghj (set_m_ktoast (Some m))
       end);
  do_ (if nvalids krowmap <? 0 then with_clghj (set_m_rowmap None)
       else
         do_ cl_check dev (Call_CreateBuffer BufRowmap);
         do m <- cl_new;
         with_clghj (set_m_rowmap (Some m)));
  do_ cl_check dev (Call_CreateBuffer BufDest);
  do m <- cl_new;
  do_ with_clghj (set_m_kresult (Some m));
  (* Enqueue DMA send of kern_hashjoin *)
  do_ cl_check dev (Call_EnqueueWriteBuffer BufJoin);
  do c <- get_clghj;
  do_ cl_submit (EnqueueWriteBuffer BufJoin (default 0%nat (m_join c)));
  (* Enqueue DMA send of kern_rowmap, if any *)
  do_ (match m_rowmap c with
       | Some m =>
           do_ cl_check dev (Call_EnqueueWriteBuffer BufRowmap);
           cl_submit (EnqueueWriteBuffer BufRowmap m)
       | None => cl_ret ()
       end);
  (* Enqueue DMA send of kern_data_store *)
  do_ clserv_dmasend_data_store dev pds;
  (* Enqueue DMA send of destination kern_data_store *)
  do_ cl_check dev (Call_EnqueueWriteBuffer BufDest);
  do_ cl_submit (EnqueueWriteBuffer BufDest (default 0%nat (m_kresult c)));
  (* kern_gpuhashjoin_main *)
  let nitems :=
    if nvalids krowmap <? 0 then kds_nitems kds_src else nvalids krowmap in
  do_ (if cl_status dev (Call_compute_workgroup_size KernMain) =? CL_SUCCESS
       then cl_ret () else goto_error CL_SUCCESS);
  do_ cl_set_kernel_args dev KernMain;
  do_ cl_check dev (Call_EnqueueNDRangeKernel KernMain);
  do c <- get_clghj;
  do_ cl_submit (EnqueueNDRangeKernel KernMain nitems (events c));
  do_ with_clghj (set_ev_kern_main (ev_index c));
  (* kern_gpuhashjoin_projection *)
  do_ (if cl_status dev (Call_compute_workgroup_size KernProj) =? CL_SUCCESS
       then cl_ret () else goto_error CL_SUCCESS);
  do_ cl_set_kernel_args dev KernProj;
  do_ cl_check dev (Call_EnqueueNDRangeKernel KernProj);
  do c <- get_clghj;
  do_ cl_submit (EnqueueNDRangeKernel KernProj (kds_nrooms kds_dest) (last_event c));
  do_ with_clghj (set_ev_kern_proj (ev_index c));
  (* Write back result status *)
  do_ cl_check dev (Call_EnqueueReadBuffer BufJoin);
  do c <- get_clghj;
  do_ cl_submit (EnqueueReadBuffer BufJoin (default 0%nat (m_join c)) (last_event c));
  (* Write back projection data-store *)
  do_ cl_check dev (Call_EnqueueReadBuffer BufDest);
  do c <- get_clghj;
  do_ cl_submit (EnqueueReadBuffer BufDest (default 0%nat (m_kresult c)) (last_event c));
  (* register the callback on the last event *)
  do_ cl_check dev Call_SetEventCallback;
  do c <- get_clghj;
  fun st =>
    inr ((), {| st_clghj := st_clghj st; st_mhtables := st_mhtables st;
                st_w := cl_enqueue (SetEventCallback (default 0%nat (last (events c))))
                          (st_w st) |}).

(** The body of clserv_process_gpuhashjoin from the hash table on. *)
Definition process_body (dev : Device) (gpuhashjoin : pgstrom_gpuhashjoin)
  : CL unit :=
  do_ cl_load_hash_table dev;
  process_submit dev gpuhashjoin.

(** What became of a message handed to clserv_process_gpuhashjoin: it
    waits for its program to be built, its commands are in the queue and
    the callback is registered, or it was answered at once. *)
Inductive process_outcome :=
| InWaitq
| Submitted (clghj : clstate_gpuhashjoin)
| Replied (gpuhashjoin : pgstrom_gpuhashjoin).

(** [while (clghj->ev_index > 1) clReleaseEvent(clghj->events[--ev_index])] *)
Definition release_events (c : clstate_gpuhashjoin) (w : ClWorld) : ClWorld :=
  foldr cl_release w (drop 1 (events c)).

(** The code at the label [error] of clserv_process_gpuhashjoin, for a
    state object that was allocated. *)
Definition process_error_path (st : pstate)
  : MultiHash.pgstrom_multihash_tables * ClWorld :=
  let c := st_clghj st in
  let w := release_events c (st_w st) in
  let w := cl_release_opt (m_kresult c) w in
  let w := cl_release_opt (m_ktoast c) w in
  let w := cl_release_opt (m_dstore c) w in
  let w := cl_release_opt (m_join c) w in
  let '(mhtables, w) :=
    match m_hash c with
    | Some _ => unload_hash_table (st_mhtables st) w
    | None => (st_mhtables st, w)
    end in
  let w := cl_release_opt (kern_main c) w in
  let w := cl_release_opt (kern_proj c) w in
  let w := cl_release_opt (program c) w in
  (mhtables, w).

(** [clserv_process_gpuhashjoin(message)] *)
Definition clserv_process_gpuhashjoin (dev : Device)
  (gpuhashjoin : pgstrom_gpuhashjoin)
  (mhtables : MultiHash.pgstrom_multihash_tables) (w : ClWorld)
  : process_outcome * MultiHash.pgstrom_multihash_tables * ClWorld :=
  if negb (cl_status dev Call_calloc =? CL_SUCCESS) then
    (Replied (set_msg_errcode (errcode_of_rc CL_OUT_OF_HOST_MEMORY) gpuhashjoin),
     mhtables, w)
  else
    match lookup_device_program dev with
    | ProgramBuilding => (InWaitq, mhtables, w)
    | BAD_OPENCL_PROGRAM =>
        let '(mhtables, w) :=
          process_error_path
            {| st_clghj := clghj_zero; st_mhtables := mhtables; st_w := w |} in
        (Replied (set_msg_errcode (errcode_of_rc CL_BUILD_PROGRAM_FAILURE) gpuhashjoin),
         mhtables, w)
    | ProgramReady prog =>
        match process_body dev gpuhashjoin
                {| st_clghj := set_program (Some prog) clghj_zero;
                   st_mhtables := mhtables; st_w := w |} with
        | inr (_, st) => (Submitted (st_clghj st), st_mhtables st, st_w st)
        | inl (rc, st) =>
            let '(mhtables, w) := process_error_path st in
            (Replied (set_msg_errcode (errcode_of_rc rc) gpuhashjoin), mhtables, w)
        end
    end.

(** ** clserv_respond_hashjoin *)

Definition CL_COMPLETE : Z := 0.

(** What the callback does with the message in the end:
    pgstrom_reply_message or pgstrom_enqueue_message. *)
Inductive server_action :=
| Reply (gpuhashjoin : pgstrom_gpuhashjoin)
| Enqueue (gpuhashjoin : pgstrom_gpuhashjoin).

Definition set_kds_room (length nrooms : Z) (k : kern_data_store)
  : kern_data_store :=
  {| kds_length := length; kds_usage := 0; kds_ncols := kds_ncols k;
     kds_nitems := 0; kds_nrooms := nrooms; kds_nblocks := kds_nblocks k;
     kds_maxblocks := kds_maxblocks k; kds_format_of := kds_format_of k |}.

Section Respond.
Context `{Env} `{DataStore}.

(** The branch of clserv_respond_hashjoin for
    StromError_DataStoreNoSpace: "Expand the result buffer then retry". *)
Definition respond_expand_result (gpuhashjoin : pgstrom_gpuhashjoin)
  (shm : Shmem) : server_action * Shmem :=
  let old_pds := pds_dest gpuhashjoin in
  let old_kds := kds old_pds in
  let ncols := kds_ncols old_kds in
  let nitems := kds_nitems old_kds in
  (* adjust kern_resultbuf *)
  let kresults :=
    {| nrels := nrels (kresults gpuhashjoin); nrooms := nitems; nitems := 0;
       kr_errcode := StromError_Success |} in
  let gpuhashjoin :=
    {| msg_errcode := msg_errcode gpuhashjoin; mhtables := mhtables gpuhashjoin;
       pds := pds gpuhashjoin; pds_dest := old_pds;
       kparams_length := kparams_length gpuhashjoin;
       kresults := kresults; krowmap := krowmap gpuhashjoin |} in
  let head_len := STROMALIGN (kds_colmeta_offset ncols) in
  let with_new_kds (required nrooms : Z) : server_action * Shmem :=
    let '(allocated, shm) := pgstrom_shmem_alloc required shm in
    if negb allocated
    then (Reply (set_msg_errcode StromError_OutOfSharedMemory gpuhashjoin), shm)
    else
      let new_kds := set_kds_room required nrooms old_kds in
      (* allocate a new pgstrom_data_store *)
      let '(allocated, shm) := pgstrom_shmem_alloc sizeof_pgstrom_data_store shm in
      if negb allocated
      then (Reply (set_msg_errcode StromError_OutOfSharedMemory gpuhashjoin), shm)
      else
        let new_pds := {| kds := new_kds; ktoast := None; pds_rows := [] |} in
        (* replace an old pds by new pds, retry with larger result buffer *)
        (Enqueue
           {| msg_errcode := msg_errcode gpuhashjoin;
              mhtables := mhtables gpuhashjoin; pds := pds gpuhashjoin;
              pds_dest := new_pds; kparams_length := kparams_length gpuhashjoin;
              kresults := kresults; krowmap := krowmap gpuhashjoin |},
         shm) in
  match kds_format_of old_kds with
  | KDS_FORMAT_TUPSLOT =>
      let required :=
        STROMALIGN (head_len + (LONGALIGN (8 * ncols) + LONGALIGN (1 * ncols)) * nitems) in
      with_new_kds required nitems
  | KDS_FORMAT_ROW_FLAT =>
      let required :=
        head_len + STROMALIGN (sizeof_kern_blkitem * kds_maxblocks old_kds)
        + STROMALIGN (sizeof_kern_rowitem * nitems)
        + STROMALIGN (kds_usage old_kds) in
      with_new_kds required ((required - head_len) / sizeof_kern_rowitem)
  | _ => (Reply (set_msg_errcode StromError_DataStoreCorruption gpuhashjoin), shm)
  end.

(** [clserv_respond_hashjoin(event, ev_status, private)] *)
Definition clserv_respond_hashjoin (ev_status : Z) (clghj : clstate_gpuhashjoin)
  (gpuhashjoin : pgstrom_gpuhashjoin)
  (mhtables : MultiHash.pgstrom_multihash_tables) (w : ClWorld) (shm : Shmem)
  : server_action * MultiHash.pgstrom_multihash_tables * ClWorld * Shmem :=
  let gpuhashjoin :=
    if ev_status =? CL_COMPLETE
    then set_msg_errcode (kr_errcode (kresults gpuhashjoin)) gpuhashjoin
    else set_msg_errcode StromError_OpenCLInternal gpuhashjoin in
  (* release opencl resources *)
  let w := release_events clghj w in
  let w := cl_release_opt (m_kresult clghj) w in
  let w := cl_release_opt (m_rowmap clghj) w in
  let w := cl_release_opt (m_ktoast clghj) w in
  let w := cl_release_opt (m_dstore clghj) w in
  let w := cl_release_opt (m_join clghj) w in
  let w := cl_release_opt (kern_main clghj) w in
  let w := cl_release_opt (kern_proj clghj) w in
  let w := cl_release_opt (program clghj) w in
  (* Unload hashjoin-table, if no longer referenced *)
  let '(mhtables, w) := unload_hash_table mhtables w in
  if bool_decide (msg_errcode gpuhashjoin = StromError_DataStoreNoSpace) then
    let '(action, shm) := respond_expand_result gpuhashjoin shm in
    (action, mhtables, w, shm)
  else
    (* otherwise, hash-join is successfully done *)
    (Reply gpuhashjoin, mhtables, w, shm).

End Respond.

(** ** A session from its first submission to its answer *)

(** Modelled from the spec: the device kernels (opencl_hashjoin.h) are
    not part of the sources.  The join of one outer chunk with the hash
    buffer yields [nmatches] rows, whatever the capacity offered.  The
    device reports "destination buffer too small" exactly when "the match
    count produced exceeded destination capacity", and it reports "the
    actual row count produced" in either case. *)
Definition device_execute (nmatches : Z) (gpuhashjoin : pgstrom_gpuhashjoin)
  : pgstrom_gpuhashjoin :=
  let kr := kresults gpuhashjoin in
  let dest := pds_dest gpuhashjoin in
  let kd := kds dest in
  let overflow := (nrooms kr <? nmatches) || (kds_nrooms kd <? nmatches) in
  {| msg_errcode := msg_errcode gpuhashjoin; mhtables := mhtables gpuhashjoin;
     pds := pds gpuhashjoin;
     pds_dest :=
       {| kds := {| kds_length := kds_length kd; kds_usage := kds_usage kd;
                    kds_ncols := kds_ncols kd; kds_nitems := nmatches;
                    kds_nrooms := kds_nrooms kd; kds_nblocks := kds_nblocks kd;
                    kds_maxblocks := kds_maxblocks kd;
                    kds_format_of := kds_format_of kd |};
          ktoast := ktoast dest; pds_rows := pds_rows dest |};
     kparams_length := kparams_length gpuhashjoin;
     kresults :=
       {| nrels := nrels kr; nrooms := nrooms kr; nitems := nmatches;
          kr_errcode :=
            if overflow then StromError_DataStoreNoSpace else kr_errcode kr |};
     krowmap := krowmap gpuhashjoin |}.

(** How a session ended: the message as answered, how often
    clserv_process_gpuhashjoin ran the join kernel for it and how often
    the message was enqueued again by clserv_respond_hashjoin. *)
Record session_end := {
  se_reply : pgstrom_gpuhashjoin;
  se_retries : nat;
  se_mhtables : MultiHash.pgstrom_multihash_tables;
  se_w : ClWorld;
  se_shmem : Shmem
}.

Section Serve.
Context `{Env} `{DataStore}.

(** Modelled from the spec: the loop of the OpenCL server is not part of
    the sources.  A message in its queue is handed to the function
    registered for it by pgstrom_init_message, which is
    clserv_process_gpuhashjoin (see pgstrom_create_gpuhashjoin); the
    device runs the submitted commands to completion and the callback
    registered on the last event, clserv_respond_hashjoin, is called with
    CL_COMPLETE.  A message kept in the wait queue of the program cache
    is handed over again later.  [n] bounds the number of hand-overs. *)
Fixpoint run_session (n : nat) (dev : Device) (nmatches : Z)
  (gpuhashjoin : pgstrom_gpuhashjoin)
  (mhtables : MultiHash.pgstrom_multihash_tables) (w : ClWorld) (shm : Shmem)
  : result session_end :=
  match n with
  | O => Err OutOfFuel
  | S n' =>
      match clserv_process_gpuhashjoin dev gpuhashjoin mhtables w with
      | (InWaitq, mhtables, w) =>
          run_session n' dev nmatches gpuhashjoin mhtables w shm
      | (Replied gpuhashjoin, mhtables, w) =>
          Ok {| se_reply := gpuhashjoin; se_retries := 0;
                se_mhtables := mhtables; se_w := w; se_shmem := shm |}
      | (Submitted clghj, mhtables, w) =>
          match clserv_respond_hashjoin CL_COMPLETE clghj
                  (device_execute nmatches gpuhashjoin) mhtables w shm with
          | (Reply gpuhashjoin, mhtables, w, shm) =>
              Ok {| se_reply := gpuhashjoin; se_retries := 0;
                    se_mhtables := mhtables; se_w := w; se_shmem := shm |}
          | (Enqueue gpuhashjoin, mhtables, w, shm) =>
              e ← run_session n' dev nmatches gpuhashjoin mhtables w shm;
              Ok {| se_reply := se_reply e; se_retries := S (se_retries e);
                    se_mhtables := se_mhtables e; se_w := se_w e;
                    se_shmem := se_shmem e |}
          end
      end
  end.

End Serve.

(** ** Sessions of the server that share one hash table *)

(** The sessions a server works on at a time share [mhtables] and the
    runtime.  What a session does outside the two sections under
    [mhtables->lock] touches neither the residency fields of [mhtables]
    nor the state object of another session, so a run of the server with
    its callback threads is a sequence of these sections.  [sv_running]
    are the sessions between their two sections, [sv_seen] the state
    object of every session as it left the first one. *)
Record server := {
  sv_mhtables : MultiHash.pgstrom_multihash_tables;
  sv_w : ClWorld;
  sv_running : gset nat;
  sv_seen : gmap nat clstate_gpuhashjoin
}.

(** The section of clserv_process_gpuhashjoin run for session [i] (with
    the runtime answering as [dev] says), and the section at the end of
    clserv_respond_hashjoin, or in the error path of
    clserv_process_gpuhashjoin, run for it. *)
Inductive section_call :=
| LoadHashTable (i : nat) (dev : Device)
| UnloadHashTable (i : nat).

(** A session enters the first section once, with a state object fresh
    from calloc, and the second one only after the first. *)
Definition server_step (a : section_call) (sv : server) : server :=
  match a with
  | LoadHashTable i dev =>
      match sv_seen sv !! i with
      | Some _ => sv
      | None =>
          let '(r, t, c, w) :=
            load_hash_table dev (sv_mhtables sv) clghj_zero (sv_w sv) in
          match r with
          | inr _ =>
              {| sv_mhtables := t; sv_w := w;
                 sv_running := {[i]} ∪ sv_running sv;
                 sv_seen := <[i := c]> (sv_seen sv) |}
          | inl _ =>
              {| sv_mhtables := t; sv_w := w; sv_running := sv_running sv;
                 sv_seen := sv_seen sv |}
          end
      end
  | UnloadHashTable i =>
      if bool_decide (i ∈ sv_running sv) then
        let '(t, w) := unload_hash_table (sv_mhtables sv) (sv_w sv) in
        {| sv_mhtables := t; sv_w := w;
           sv_running := sv_running sv ∖ {[i]};
           sv_seen := sv_seen sv |}
      else sv
  end.

Definition server_run (sched : list section_call) (sv : server) : server :=
  fold_left (fun sv a => server_step a sv) sched sv.

(** The sessions overlap: once a session is between its two sections,
    there is always one that is. *)
Fixpoint sessions_overlap (sched : list section_call) (sv : server) : bool :=
  match sched with
  | [] => true
  | a :: sched =>
      let sv' := server_step a sv in
      (bool_decide (sv_running sv = ∅) || negb (bool_decide (sv_running sv' = ∅)))
      && sessions_overlap sched sv'
  end.

(** the commands that transfer the hash table *)
Definition is_hash_write (c : cl_command) : bool :=
  match c with
  | EnqueueWriteBuffer BufHash _ _ => true
  | _ => false
  end.

Definition hash_writes (q : list cl_command) : nat :=
  length (List.filter is_hash_write q).

End ClServ.

(** * The pseudo relation of the join *)
Module PseudoScan.

(** Expression trees.  [Var] and [PlaceHolderVar] are the leaves the
    walker looks for; every other node, lists and target entries
    included, is a tag with its children. *)
#[local] Set Warnings "-register-all".
Inductive Node :=
| Var (varno varattno : Z)
| PlaceHolderVar (phid : Z)
| Expr (tag : Z) (args : list Node).

(** [equal(a, b)] *)
Fixpoint equal (a b : Node) {struct a} : bool :=
  match a, b with
  | Var n1 a1, Var n2 a2 => (n1 =? n2)%Z && (a1 =? a2)%Z
  | PlaceHolderVar p1, PlaceHolderVar p2 => (p1 =? p2)%Z
  | Expr t1 l1, Expr t2 l2 =>
      (t1 =? t2)%Z &&
      (fix equal_list (l1 l2 : list Node) {struct l1} : bool :=
         match l1, l2 with
         | [], [] => true
         | x :: l1', y :: l2' => equal x y && equal_list l1' l2'
         | _, _ => false
         end) l1 l2
  | _, _ => false
  end.

Record TargetEntry := {
  expr : Node;
  resno : Z;
  resname : option string
}.

Record vartrans_info := {
  srcdepth : Z;
  srcresno : Z;
  vt_resno : Z;
  vt_resname : option string;
  vartype : Z;
  vartypmod : Z;
  varcollid : Z;
  ref_host : bool;
  ref_device : bool;
  vt_expr : Node
}.

(** The plan: the expressions of the GpuHashJoin node and, for the node
    (depth 0) and every MultiHash below it (depth 1, 2, ...), the target
    list of its outer plan. *)
Record GpuHashJoin := {
  targetlist : list Node;
  qual : list Node;
  host_clauses : list Node;
  hash_clauses : list Node;
  qual_clauses : list Node;
  outer_targetlists : list (list TargetEntry)
}.

Record pscan_varlist_context := {
  varlist : list Node;
  varrefs : list Z;
  resnums : list Z;
  refmode : Z
}.

(** The [forthree] loop of the walker: the reference flags with
    [refmode] or'ed into the entry of the first variable equal to
    [node], if there is one. *)
Fixpoint mark_varref (node : Node) (mode : Z) (vars : list Node)
  (refs nums : list Z) : option (list Z) :=
  match vars, refs, nums with
  | v :: vars', r :: refs', _ :: nums' =>
      if equal node v then Some (Z.lor r mode :: refs')
      else cons r <$> mark_varref node mode vars' refs' nums'
  | _, _, _ => None
  end.

(** What the walker does at a [Var] or [PlaceHolderVar]. *)
Definition walker_leaf (node : Node) (context : pscan_varlist_context)
  : pscan_varlist_context :=
  match mark_varref node (refmode context) (varlist context) (varrefs context)
          (resnums context) with
  | Some refs =>
      {| varlist := varlist context; varrefs := refs;
         resnums := resnums context; refmode := refmode context |}
  | None =>
      {| varlist := varlist context ++ [node];
         varrefs := varrefs context ++ [refmode context];
         resnums := resnums context ++ [Z.of_nat (length (resnums context)) + 1];
         refmode := refmode context |}
  end.

(** [build_pscan_varlist_walker]: it never stops the walk (it returns
    false throughout), so only the context it leaves is of interest. *)
Fixpoint build_pscan_varlist_walker (node : Node)
  (context : pscan_varlist_context) : pscan_varlist_context :=
  match node with
  | Var _ _ | PlaceHolderVar _ => walker_leaf node context
  | Expr _ args =>
      (fix walk (l : list Node) (context : pscan_varlist_context) :=
         match l with
         | [] => context
         | x :: l' => walk l' (build_pscan_varlist_walker x context)
         end) args context
  end.

(** The walker on a list of expressions. *)
Definition walk_list (l : list Node) (context : pscan_varlist_context)
  : pscan_varlist_context :=
  fold_left (fun c x => build_pscan_varlist_walker x c) l context.

Definition set_refmode (mode : Z) (c : pscan_varlist_context)
  : pscan_varlist_context :=
  {| varlist := varlist c; varrefs := varrefs c; resnums := resnums c;
     refmode := mode |}.

Section VarTrans.

(** [exprType], [exprTypmod] and [exprCollation] of nodeFuncs.c *)
Variables exprType exprTypmod exprCollation : Node -> Z.

(** One pass of the [forthree] loop over the pending variables at one
    depth.  A variable equal to the expression of an entry of the target
    list (the first such entry) yields a vartrans_info and its cells are
    deleted from the three lists; the loop then goes on with the cell
    after the deleted one (from the head again when the head was
    deleted).  The others stay, in their order. *)
Fixpoint match_depth (depth : Z) (tlist : list TargetEntry)
  (vars : list Node) (refs nums : list Z)
  : list vartrans_info * (list Node * list Z * list Z) :=
  match vars, refs, nums with
  | node :: vars', mode :: refs', resnum :: nums' =>
      let '(temp_vartrans, (vars'', refs'', nums'')) :=
        match_depth depth tlist vars' refs' nums' in
      match List.find (fun tle => equal node (expr tle)) tlist with
      | Some tle =>
          ({| srcdepth := depth; srcresno := resno tle; vt_resno := resnum;
              vt_resname := resname tle;
              vartype := exprType (expr tle);
              vartypmod := exprTypmod (expr tle);
              varcollid := exprCollation (expr tle);
              ref_host := negb (Z.land mode 1 =? 0);
              ref_device := negb (Z.land mode 2 =? 0);
              vt_expr := node |} :: temp_vartrans,
           (vars'', refs'', nums''))
      | None =>
          (temp_vartrans, (node :: vars'', mode :: refs'', resnum :: nums''))
      end
  | _, _, _ => ([], (vars, refs, nums))
  end.

(** The loop over the depths, [curr_plan = innerPlan(curr_plan), depth++]. *)
Fixpoint match_depths (depth : Z) (tlists : list (list TargetEntry))
  (vars : list Node) (refs nums : list Z)
  : list vartrans_info * (list Node * list Z * list Z) :=
  match tlists with
  | [] => ([], (vars, refs, nums))
  | tlist :: tlists' =>
      let '(temp_vartrans, (vars', refs', nums')) :=
        match_depth depth tlist vars refs nums in
      let '(pscan_vartrans, rest) :=
        match_depths (depth + 1) tlists' vars' refs' nums' in
      (temp_vartrans ++ pscan_vartrans, rest)
  end.

(** The context after the five walks of build_pseudo_scan_vartrans. *)
Definition collect_pscan_vars (ghjoin : GpuHashJoin) : pscan_varlist_context :=
  let context :=
    {| varlist := []; varrefs := []; resnums := []; refmode := 1 |} in
  let context := walk_list (targetlist ghjoin) context in
  let context := walk_list (qual ghjoin) context in
  let context := walk_list (host_clauses ghjoin) context in
  let context := set_refmode 2 context in
  let context := walk_list (hash_clauses ghjoin) context in
  walk_list (qual_clauses ghjoin) context.

(** [build_pseudo_scan_vartrans] with the variables no depth provides
    (the source asserts that there are none). *)
Definition build_pseudo_scan_vartrans_pending (ghjoin : GpuHashJoin)
  : list vartrans_info * list Node :=
  let context := collect_pscan_vars ghjoin in
  let '(pscan_vartrans, (pending, _, _)) :=
    match_depths 0 (outer_targetlists ghjoin) (varlist context)
      (varrefs context) (resnums context) in
  (pscan_vartrans, pending).

Definition build_pseudo_scan_vartrans (ghjoin : GpuHashJoin)
  : list vartrans_info :=
  fst (build_pseudo_scan_vartrans_pending ghjoin).

End VarTrans.

End PseudoScan.

(** * The slots of the pseudo scan (setup_pseudo_scan_slot) *)
Module PseudoSlot.
Import PseudoScan.

(** An attribute of a tuple descriptor, as far as TupleDescInitEntry and
    TupleDescInitEntryCollation set it. *)
Record attribute := {
  attname : option string;
  atttypid : Z;
  atttypmod : Z;
  attnum : Z;
  attcollation : Z
}.

(** The descriptor CreateTemplateTupleDesc returns; an attribute is
    [None] until TupleDescInitEntry has initialised it. *)
Record TupleDesc := {
  tdhasoid : bool;
  attrs : list (option attribute)
}.

Definition INT4OID : Z := 23.

Section Slot.

(** [typcollation] of a type in pg_type, which TupleDescInitEntry copies
    into the attribute (the type is taken to exist). *)
Variable typcollation : Z -> Z.

(** What ExecContextForcesOids answers: nothing when the context does
    not decide it. *)
Variable ExecContextForcesOids : option bool.

(** [tlist_matches_tupdesc] for the target list of the node and
    [ExecBuildProjectionInfo] for it. *)
Variable ProjectionInfo : Type.
Variable tlist_matches_tupdesc : TupleDesc -> bool.
Variable ExecBuildProjectionInfo : TupleDesc -> ProjectionInfo.

Definition CreateTemplateTupleDesc (natts : Z) (hasoid : bool) : TupleDesc :=
  {| tdhasoid := hasoid; attrs := replicate (Z.to_nat natts) None |}.

(** [TupleDescInitEntry(desc, attributeNumber, name, oidtypeid, typmod, 0)];
    an attribute number out of range fails its assertion. *)
Definition TupleDescInitEntry (desc : TupleDesc) (attributeNumber : Z)
  (name : option string) (oidtypeid typmod : Z) : option TupleDesc :=
  if (1 <=? attributeNumber) && (attributeNumber <=? Z.of_nat (length (attrs desc)))
  then Some {| tdhasoid := tdhasoid desc;
               attrs := <[Z.to_nat (attributeNumber - 1) :=
                            Some {| attname := name; atttypid := oidtypeid;
                                    atttypmod := typmod;
                                    attnum := attributeNumber;
                                    attcollation := typcollation oidtypeid |}]>
                          (attrs desc) |}
  else None.

(** [TupleDescInitEntryCollation(desc, attributeNumber, collationid)] *)
Definition TupleDescInitEntryCollation (desc : TupleDesc) (attributeNumber : Z)
  (collationid : Z) : option TupleDesc :=
  if (1 <=? attributeNumber) && (attributeNumber <=? Z.of_nat (length (attrs desc)))
  then Some {| tdhasoid := tdhasoid desc;
               attrs := alter (fmap (fun a =>
                                       {| attname := attname a;
                                          atttypid := atttypid a;
                                          atttypmod := atttypmod a;
                                          attnum := attnum a;
                                          attcollation := collationid |}))
                          (Z.to_nat (attributeNumber - 1)) (attrs desc) |}
  else None.

(** The first loop of setup_pseudo_scan_slot: the largest [resno] among
    the entries the slot is to hold. *)
Fixpoint pscan_slot_nattrs (is_fallback : bool) (vts : list vartrans_info)
  (nattrs : Z) : Z :=
  match vts with
  | [] => nattrs
  | vtrans :: vts' =>
      if negb is_fallback && negb (ref_host vtrans)
      then pscan_slot_nattrs is_fallback vts' nattrs
      else pscan_slot_nattrs is_fallback vts'
             (if nattrs <? vt_resno vtrans then vt_resno vtrans else nattrs)
  end.

(** [for (i=1; i <= nattrs; i++) TupleDescInitEntry(tupdesc, i, NULL,
    INT4OID, -1, 0)], with [n] attributes still to go. *)
Fixpoint pscan_slot_dummy (n : nat) (i : Z) (tupdesc : TupleDesc)
  : option TupleDesc :=
  match n with
  | O => Some tupdesc
  | S n' =>
      tupdesc ← TupleDescInitEntry tupdesc i None INT4OID (-1);
      pscan_slot_dummy n' (i + 1) tupdesc
  end.

(** The loop that describes the columns by their entries. *)
Fixpoint pscan_slot_entries (is_fallback : bool) (vts : list vartrans_info)
  (tupdesc : TupleDesc) : option TupleDesc :=
  match vts with
  | [] => Some tupdesc
  | vtrans :: vts' =>
      if negb is_fallback && negb (ref_host vtrans)
      then pscan_slot_entries is_fallback vts' tupdesc
      else
        tupdesc ← TupleDescInitEntry tupdesc (vt_resno vtrans) (vt_resname vtrans)
                    (vartype vtrans) (vartypmod vtrans);
        tupdesc ← TupleDescInitEntryCollation tupdesc (vt_resno vtrans)
                    (varcollid vtrans);
        pscan_slot_entries is_fallback vts' tupdesc
  end.

(** [setup_pseudo_scan_slot]: the descriptor of the slot and the
    projection stored in [pscan_slot] and [pscan_projection] (in
    [pscan_wider_slot] and [pscan_wider_projection] for the fallback). *)
Definition setup_pseudo_scan_slot (pscan_vartrans : list vartrans_info)
  (is_fallback : bool) : option (TupleDesc * option ProjectionInfo) :=
  let nattrs := pscan_slot_nattrs is_fallback pscan_vartrans 0 in
  let has_oid := default false ExecContextForcesOids in
  let tupdesc := CreateTemplateTupleDesc nattrs has_oid in
  tupdesc ← pscan_slot_dummy (Z.to_nat nattrs) 1 tupdesc;
  tupdesc ← pscan_slot_entries is_fallback pscan_vartrans tupdesc;
  Some (tupdesc,
        if tlist_matches_tupdesc tupdesc then None
        else Some (ExecBuildProjectionInfo tupdesc)).

(** [pscan_vartrans_comp], the order gpuhashjoin_begin sorts the entries
    by. *)
Definition pscan_vartrans_comp (vtrans1 vtrans2 : vartrans_info) : Z :=
  if srcdepth vtrans1 <? srcdepth vtrans2 then -1
  else if srcdepth vtrans2 <? srcdepth vtrans1 then 1
  else if srcresno vtrans1 <? srcresno vtrans2 then -1
  else if srcresno vtrans2 <? srcresno vtrans1 then 1
  else 0.

(** [qsort] of the C library. *)
Variable qsort : (vartrans_info -> vartrans_info -> Z) -> list vartrans_info
                 -> list vartrans_info.

(** The part of gpuhashjoin_begin that sets up the pseudo scan: the
    sorted array of the entries, the slot of the columns the host refers
    to and the wider slot of all columns. *)
Definition gpuhashjoin_begin_pscan (pscan_vartrans : list vartrans_info)
  : option (list vartrans_info * (TupleDesc * option ProjectionInfo)
            * (TupleDesc * option ProjectionInfo)) :=
  let arr := qsort pscan_vartrans_comp pscan_vartrans in
  slot ← setup_pseudo_scan_slot arr false;
  wider ← setup_pseudo_scan_slot arr true;
  Some (arr, slot, wider).

End Slot.

End PseudoSlot.

(** * The sorting kernels of GpuPreAgg (opencl_gpupreagg.h) *)
Module GpuPreAgg.

(** The conversion of a value to [cl_int]. *)
Definition to_cl_int (x : Z) : Z :=
  let y := x mod 2 ^ 32 in
  if y <? 2 ^ 31 then y else y - 2 ^ 32.

Section Kernels.

(** [gpupreagg_keycomp(&errcode, kds, ktoast, x_index, y_index)], the
    comparison of two rows the code generator supplies. *)
Variable gpupreagg_keycomp : Z -> Z -> Z.

(** [gpupreagg_set_rindex] as run by the work-item whose
    [get_global_id(0)] is [global_id], on a store of [nitems] rows: the
    array [rindex] it leaves.  Both numbers are held in [cl_int]
    variables.  (A negative [globalID] addresses memory in front of the
    array, which is not part of [rindex].) *)
Definition gpupreagg_set_rindex (nitems global_id : Z) (rindex : list Z) : list Z :=
  let nrows := to_cl_int nitems in
  let globalID := to_cl_int global_id in
  if globalID <? nrows
  then (if globalID <? 0 then rindex else <[Z.to_nat globalID := globalID]> rindex)
  else rindex.

(** The two positions the work-item [globalID] of gpupreagg_bitonic_step
    looks at. *)
Definition bitonic_step_indices (bitonic_unitsz globalID : Z) : Z * Z :=
  let reversing := bitonic_unitsz <? 0 in
  let unitsz := if bitonic_unitsz <? 0 then - bitonic_unitsz else bitonic_unitsz in
  let halfUnitSize := to_cl_int (Z.quot unitsz 2) in
  let unitMask := to_cl_int (unitsz - 1) in
  let idx0 :=
    to_cl_int (Z.quot globalID halfUnitSize * unitsz + Z.rem globalID halfUnitSize) in
  let idx1 :=
    if reversing
    then Z.lor (Z.land idx0 (Z.lnot unitMask)) (Z.land (Z.lnot idx0) unitMask)
    else to_cl_int (idx0 + halfUnitSize) in
  (idx0, idx1).

(** [gpupreagg_bitonic_step] as run by the work-item [globalID]: the
    array [rindex] it leaves.  (The error status the comparison may
    report is written back apart from it.) *)
Definition gpupreagg_bitonic_step (nrows bitonic_unitsz globalID : Z)
  (rindex : list Z) : list Z :=
  let '(idx0, idx1) := bitonic_step_indices bitonic_unitsz globalID in
  if nrows <=? idx1 then rindex
  else
    let pos0 := rindex !!! Z.to_nat idx0 in
    let pos1 := rindex !!! Z.to_nat idx1 in
    let rv := gpupreagg_keycomp pos0 pos1 in
    if 0 <? rv
    then <[Z.to_nat idx1 := pos0]> (<[Z.to_nat idx0 := pos1]> rindex) (* Swap *)
    else rindex.

End Kernels.

End GpuPreAgg.



(** * Concrete inputs

    A small configuration on which the definitions above can be run. *)
Module Demo.
Import Pg Session.

Definition env : Env :=
  {| hentry_htup_offset := 16;
     khtable_colmeta_offset := fun n => 16 + 16 * n;
     khtable_slot_offset := fun n => LONGALIGN (16 + 16 * n);
     kmhash_htable_offset := fun n => 1040 + 4 * n;
     STROMALIGN := TYPEALIGN 16;
     mhtables_kern_offset := 64;
     heap_t_bits_offset := 23;
     typealign_get_width := fun a => a;
     mem := fun a => default Byte.x00 (Byte.of_N (Z.to_N (a mod 256)));
     Datum_image := fun v =>
       map (fun i => default Byte.x00
                       (Byte.of_N (Z.to_N (Z.shiftr v (8 * Z.of_nat i) mod 256))))
           (seq 0 8);
     VARDATA_ANY := fun p => p + 4;
     VARSIZE_ANY_EXHDR := fun p => p mod 8;
     INIT_CRC32 := 4294967295;
     crc32_update := fun crc b =>
       Z.lxor (Z.shiftl crc 8 mod 2 ^ 32)
         (Z.lxor (Z.shiftr crc 24) (Z.of_N (Byte.to_N b)) * 79764919 mod 2 ^ 32);
     FIN_CRC32 := fun crc => Z.lxor crc 4294967295 |}.

Definition tuple (bytes : list Byte.byte) : TupleTableSlot :=
  {| tts_tuple := {| t_len := Z.of_nat (length bytes); t_data := bytes |} |}.

(** rows of one int4 column, the value in the first byte *)
Definition row (b : Byte.byte) : TupleTableSlot :=
  tuple [b; Byte.x00; Byte.x00; Byte.x00].

Definition scan {A} (l : list A) : PlanState A :=
  {| ps_all := l; ps_rest := l; ps_chgParam := false; ps_rescans := 0 |}.

(** the first column of a row as an int4 key *)
Definition key_col0 : ExprState := fun slot =>
  match t_data (tts_tuple slot) with
  | b :: _ => (Z.of_N (Byte.to_N b), false)
  | [] => (0, true)
  end.

(** a key expression that evaluates to NULL on every row *)
Definition key_null : ExprState := fun _ => (0, true).

Definition tupdesc1 : TupleDesc :=
  {| natts := 1; tdhasoid := false;
     attrs := [{| attbyval := true; attalign := 4; attlen := 4; attnum := 1 |}] |}.

(** A MultiHash over [rows] with [nslots] slots; the buffer may be used
    up to three quarters of its length. *)
Definition mhs (nslots size : Z) (keys : list ExprState)
  (rows : list TupleTableSlot) : MultiHash.MultiHashState :=
  {| MultiHash.depth := 1; MultiHash.mhs_nslots := nslots;
     MultiHash.threshold_exceeded := fun required length => 3 * length <? 4 * required;
     MultiHash.hashtable_size := size;
     MultiHash.outer_overflow := None; MultiHash.outer_done := false;
     MultiHash.curr_chunk := None;
     MultiHash.hash_keys := keys;
     MultiHash.hash_keylen := map (fun _ => 4) keys;
     MultiHash.hash_keybyval := map (fun _ => true) keys;
     MultiHash.outer_tupdesc := tupdesc1;
     MultiHash.outer_ps := scan rows |}.

Definition shmem (script : list (option Z)) : Shmem :=
  {| shmem_script := script; shmem_log := [] |}.

Definition kds0 (format : kds_format) (nrooms length : Z) : kern_data_store :=
  {| kds_length := length; kds_usage := 0; kds_ncols := 1; kds_nitems := 0;
     kds_nrooms := nrooms; kds_nblocks := 0; kds_maxblocks := 0;
     kds_format_of := format |}.

(** Data stores that take two rows each. *)
Definition store : DataStore :=
  {| pgstrom_create_data_store_row := fun _ =>
       {| kds := kds0 KDS_FORMAT_ROW 2 4096; ktoast := None; pds_rows := [] |};
     pgstrom_data_store_insert_tuple := fun pds slot =>
       if (length (pds_rows pds) <? 2)%nat
       then Some {| kds :=
                      {| kds_length := kds_length (kds pds);
                         kds_usage := kds_usage (kds pds);
                         kds_ncols := kds_ncols (kds pds);
                         kds_nitems := kds_nitems (kds pds) + 1;
                         kds_nrooms := kds_nrooms (kds pds);
                         kds_nblocks := kds_nblocks (kds pds);
                         kds_maxblocks := kds_maxblocks (kds pds);
                         kds_format_of := kds_format_of (kds pds) |};
                    ktoast := ktoast pds;
                    pds_rows := pds_rows pds ++ [slot] |}
       else None;
     pgstrom_create_data_store_tupslot := fun _ nrooms =>
       {| kds := kds0 KDS_FORMAT_TUPSLOT nrooms (64 + 16 * nrooms);
          ktoast := None; pds_rows := [] |};
     pgstrom_create_data_store_row_flat := fun _ length =>
       {| kds := kds0 KDS_FORMAT_ROW_FLAT ((length - 64) / 8) length;
          ktoast := None; pds_rows := [] |};
     kds_colmeta_offset := fun n => 48 + 16 * n;
     sizeof_kern_rowitem := 8;
     sizeof_kern_blkitem := 16;
     gpuhashjoin_head_size := 256;
     krowmap_rindex_offset := fun n => 4 + 4 * n;
     sizeof_pgstrom_data_store := 64 |}.

Definition mqueue (script : list (option (nat * errcode))) : MQueue :=
  {| mq_closed := false; mq_pending := []; mq_script := script;
     mq_waits := 0; mq_peak := 0 |}.

Definition world (alloc : list (option Z)) (answers : list (option (nat * errcode)))
  : Exec.World :=
  {| Exec.w_shmem := shmem alloc; Exec.w_mqueue := mqueue answers;
     Exec.w_put_tables := []; Exec.w_put_messages := [] |}.

(** A GpuHashJoin over the outer rows [outer] with one MultiHash over the
    inner rows [inner], before its first fetch. *)
Definition ghjs (outer inner : list TupleTableSlot) : Exec.GpuHashJoinState :=
  {| Exec.mhtables := None;
     Exec.pscan_tupdesc := tupdesc1; Exec.outer_tupdesc := tupdesc1;
     Exec.plan_width := 8;
     Exec.estimate_nrooms := fun n => n;
     Exec.outer_done := false; Exec.outer_bulkload := false;
     Exec.outer_overflow := None;
     Exec.kparams_length := 32;
     Exec.curr_ghjoin := None; Exec.curr_index := 0; Exec.curr_recheck := false;
     Exec.num_running := 0; Exec.ready_pscans := [];
     Exec.outer_ps := {| Exec.op_rows := scan outer; Exec.op_bulks := scan [] |};
     Exec.inner_ps := [mhs 4 2000 [key_col0] inner];
     Exec.inner_chgParam := false |}.

End Demo.

(** * Theorems *)

(** * The hash value of an inner row *)
Section HashValue.
Import Pg MultiHash.
Context `{Env}.

(** The bytes one key field that is not NULL contributes: its first
    [keylen] value bytes when it is of fixed length and passed by value,
    [keylen] bytes at the datum pointer when it is of fixed length and
    passed by reference, the payload without the length header when it is
    of variable length. *)
Definition key_field_bytes (keylen : Z) (keybyval : bool) (value : Z)
  : list Byte.byte :=
  if 0 <? keylen then
    if keybyval then take (Z.to_nat keylen) (Datum_image value)
    else read_bytes value keylen
  else read_bytes (VARDATA_ANY value) (VARSIZE_ANY_EXHDR value).

(** The bytes of all key fields of a row, in the order of the keys. *)
Fixpoint row_key_bytes (keys : list ExprState) (keylens : list Z)
  (keybyvals : list bool) (slot : TupleTableSlot) : list Byte.byte :=
  match keys, keylens, keybyvals with
  | clause :: keys', keylen :: keylens', keybyval :: keybyvals' =>
      (if snd (clause slot) then []
       else key_field_bytes keylen keybyval (fst (clause slot)))
      ++ row_key_bytes keys' keylens' keybyvals' slot
  | _, _, _ => []
  end.

Lemma COMP_CRC32_app crc (a b : list Byte.byte) :
  COMP_CRC32 (COMP_CRC32 crc a) b = COMP_CRC32 crc (a ++ b).
Proof. unfold COMP_CRC32. now rewrite fold_left_app. Qed.

Lemma comp_hash_key_bytes crc clause keylen keybyval slot :
  comp_hash_key crc clause keylen keybyval slot
  = COMP_CRC32 crc
      (if snd (clause slot) then []
       else key_field_bytes keylen keybyval (fst (clause slot))).
Proof.
  unfold comp_hash_key, key_field_bytes.
  destruct (clause slot) as [value isnull]; simpl.
  destruct isnull; [reflexivity|].
  destruct (0 <? keylen); [destruct keybyval|]; reflexivity.
Qed.

Lemma comp_hash_keys_bytes keys : forall keylens keybyvals crc slot,
  comp_hash_keys crc keys keylens keybyvals slot
  = COMP_CRC32 crc (row_key_bytes keys keylens keybyvals slot).
Proof.
  induction keys as [|clause keys IH]; intros [|keylen keylens] [|keybyval keybyvals] crc slot;
    simpl; try reflexivity.
  rewrite IH, comp_hash_key_bytes. apply COMP_CRC32_app.
Qed.

(** C7: the hash of an inner row is the CRC32 (initialisation, byte-wise
    accumulation, finalisation) of the bytes of its key fields taken in
    the order of the keys, where a fixed-length by-value key gives its
    first keylen value bytes, a fixed-length by-reference key the keylen
    bytes at the datum pointer, and a variable-length key the payload
    bytes at VARDATA_ANY of length VARSIZE_ANY_EXHDR. *)
Theorem hash_value_crc32_of_key_bytes (mhs : MultiHashState) (slot : TupleTableSlot) :
  hash_value mhs slot
  = FIN_CRC32
      (COMP_CRC32 INIT_CRC32
         (row_key_bytes (hash_keys mhs) (hash_keylen mhs) (hash_keybyval mhs) slot)).
Proof. unfold hash_value. now rewrite comp_hash_keys_bytes. Qed.

(** The node without its [i]-th hash key. *)
Definition without_hash_key (i : nat) (m : MultiHashState) : MultiHashState :=
  {| depth := depth m; mhs_nslots := mhs_nslots m;
     threshold_exceeded := threshold_exceeded m;
     hashtable_size := hashtable_size m;
     outer_overflow := outer_overflow m; outer_done := outer_done m;
     curr_chunk := curr_chunk m;
     hash_keys := delete i (hash_keys m);
     hash_keylen := delete i (hash_keylen m);
     hash_keybyval := delete i (hash_keybyval m);
     outer_tupdesc := outer_tupdesc m; outer_ps := outer_ps m |}.

Lemma comp_hash_keys_skip_null slot (i : nat) :
  forall (keys : list ExprState) keylens keybyvals crc clause,
    keys !! i = Some clause ->
    snd (clause slot) = true ->
    comp_hash_keys crc (delete i keys) (delete i keylens) (delete i keybyvals) slot
    = comp_hash_keys crc keys keylens keybyvals slot.
Proof.
  induction i as [|i IH]; intros [|k keys] [|l keylens] [|b keybyvals] crc clause Hk Hnull;
    simpl in *; try discriminate; try reflexivity.
  all: try (inversion Hk; subst k).
  all: try (unfold comp_hash_key; destruct (clause slot) as [v n]; simpl in Hnull; subst n; reflexivity).
  all: try (repeat match goal with |- context [match ?l with _ => _ end] => destruct l end; reflexivity).
  all: try (apply (IH _ _ _ _ clause); assumption).
  all: destruct keys; try reflexivity; destruct keylens; reflexivity.
Qed.

(** A hash key that evaluates to NULL for a row contributes nothing to
    the hash of that row. *)
Lemma hash_value_skips_null_key (mhs : MultiHashState) (slot : TupleTableSlot)
  (i : nat) (clause : ExprState) :
  hash_keys mhs !! i = Some clause ->
  snd (clause slot) = true ->
  hash_value mhs slot = hash_value (without_hash_key i mhs) slot.
Proof.
  intros Hk Hnull. unfold hash_value, without_hash_key; simpl.
  now rewrite (comp_hash_keys_skip_null slot i _ _ _ _ clause Hk Hnull).
Qed.

End HashValue.

(** * Insertion into a hash table *)
Section Insert.
Import Pg MultiHash.

(** The chain of a slot as a lookup walks it: the offsets of the entries
    reached from [off] through the [next] fields, until 0 or for [n]
    entries. *)
Fixpoint chain (n : nat) (entries : gmap Z kern_hashentry) (off : Z) : list Z :=
  match n with
  | O => []
  | S n' =>
      if off =? 0 then []
      else off :: match entries !! off with
                  | Some e => chain n' entries (next e)
                  | None => []
                  end
  end.

Definition slot_chain (n : nat) (khtable : kern_hashtable) (i : nat) : list Z :=
  chain n (hentries khtable) (default 0 (hash_slots khtable !! i)).

(** Every link of the table, slot head or [next] field, points below
    [bound], and so does every entry. *)
Definition links_below (khtable : kern_hashtable) (bound : Z) : Prop :=
  (forall (j : nat) h, hash_slots khtable !! j = Some h -> h < bound) /\
  (forall off e, hentries khtable !! off = Some e -> off < bound /\ next e < bound).

Lemma chain_insert_above (entries : gmap Z kern_hashentry) consumed hentry :
  (forall off e, entries !! off = Some e -> next e < consumed) ->
  forall n off, off < consumed ->
    chain n (<[consumed := hentry]> entries) off = chain n entries off.
Proof.
  intros Hnext n. induction n as [|n IH]; intros off Hoff; simpl; [reflexivity|].
  destruct (off =? 0); [reflexivity|].
  rewrite lookup_insert_ne by lia.
  destruct (entries !! off) as [e|] eqn:He; [|reflexivity].
  f_equal. apply IH. eapply Hnext; eauto.
Qed.

Lemma cl_uint_small x : 0 <= x < 2 ^ 32 -> cl_uint x = x.
Proof. intros. unfold cl_uint. now apply Z.mod_small. Qed.

(** The entry is written at the offset [consumed] and linked at the head
    of the slot [hash % nslots]; nothing else changes. *)
Lemma preload_insert_entry_spec
  (khtable : kern_hashtable) (consumed ntuples hash : Z) (scan_tuple : HeapTupleData) :
  0 < nslots khtable ->
  length (hash_slots khtable) = Z.to_nat (nslots khtable) ->
  0 <= hash ->
  let i := Z.to_nat (hash mod nslots khtable) in
  let khtable' := preload_insert_entry khtable consumed ntuples hash scan_tuple in
  hentries khtable' !! consumed
  = Some {| hash := hash; next := default 0 (hash_slots khtable !! i);
            rowid := ntuples; he_t_len := t_len scan_tuple;
            htup := take (Z.to_nat (t_len scan_tuple)) (t_data scan_tuple) |}
  /\ hash_slots khtable' !! i = Some (cl_uint consumed)
  /\ (forall j : nat, j <> i -> hash_slots khtable' !! j = hash_slots khtable !! j)
  /\ (forall off, off <> consumed -> hentries khtable' !! off = hentries khtable !! off)
  /\ (0 < consumed < 2 ^ 32 -> links_below khtable consumed ->
      forall n, slot_chain (S n) khtable' i = consumed :: slot_chain n khtable i).
Proof.
  intros Hn Hlen Hh i khtable'.
  assert (Hi : (i < length (hash_slots khtable))%nat).
  { rewrite Hlen. subst i. apply Z2Nat.inj_lt; try lia.
    - apply Z.mod_pos_bound; lia.
    - apply Z.mod_pos_bound; lia. }
  subst khtable'; unfold preload_insert_entry; simpl.
  repeat split.
  - apply lookup_insert_eq.
  - now apply list_lookup_insert_eq.
  - intros j Hj. now apply list_lookup_insert_ne.
  - intros off Hoff. now apply lookup_insert_ne.
  - intros Hc [Hslots Hent] n. unfold slot_chain; simpl.
    fold i. rewrite list_lookup_insert_eq by assumption. simpl.
    rewrite cl_uint_small by lia.
    destruct (consumed =? 0) eqn:E; [lia|].
    rewrite lookup_insert_eq. f_equal.
    apply chain_insert_above.
    + intros off e He. apply (Hent off e He).
    + destruct (hash_slots khtable !! i) as [h|] eqn:Eh; simpl.
      * eapply Hslots; eauto.
      * lia.
Qed.

(** The links stay below the offset the next entry is written at. *)
Lemma preload_insert_entry_links_below khtable consumed ntuples hash scan_tuple bound :
  0 < consumed < 2 ^ 32 -> consumed < bound ->
  links_below khtable consumed ->
  links_below (preload_insert_entry khtable consumed ntuples hash scan_tuple) bound.
Proof.
  intros Hc Hb [Hslots Hent]. split.
  - intros j h. unfold preload_insert_entry; simpl. intros Hj.
    apply list_lookup_insert_Some in Hj.
    destruct Hj as [(_ & <- & _)|[_ Hj]].
    + rewrite cl_uint_small; lia.
    + specialize (Hslots _ _ Hj). lia.
  - intros off e. unfold preload_insert_entry; simpl. intros He.
    apply lookup_insert_Some in He.
    destruct He as [[<- <-]|[_ He]]; simpl.
    + split; [lia|].
      destruct (hash_slots khtable !! _) as [h|] eqn:Eh; simpl; [|lia].
      specialize (Hslots _ _ Eh). lia.
    + specialize (Hent _ _ He). lia.
Qed.

End Insert.

(** * The preload loop *)
Section Preload.
Import Pg MultiHash.
Context `{Env}.

(** The rows a MultiHash node has not put into a table yet: the row kept
    in outer_overflow, then what is left of the outer scan. *)
Definition pending (mhs : MultiHashState) : list TupleTableSlot :=
  option_list (outer_overflow mhs) ++ ps_rest (outer_ps mhs).

(** An answer of the allocator that granted memory. *)
Definition granted (a : Z * option Z) : Prop := is_Some (snd a).

Lemma set_hashtable_size_id mhs : set_hashtable_size (hashtable_size mhs) mhs = mhs.
Proof. now destruct mhs. Qed.

Lemma set_mh_length_id mht : set_mh_length (mh_length mht) mht = mht.
Proof. now destruct mht. Qed.

Lemma expand_loop_spec n : forall required consumed mhs inner mht w,
  (length (shmem_script w) < n)%nat ->
  exists fits mhs' inner' mht' w' l,
    expand_loop n required consumed mhs inner mht w = Ok (fits, (mhs', inner', mht'), w')
    /\ shmem_log w' = shmem_log w ++ l
    /\ (length (shmem_script w') <= length (shmem_script w))%nat
    /\ mhs' = set_hashtable_size (hashtable_size mhs') mhs
    /\ mht' = set_mh_length (mh_length mht') mht
    /\ (if fits : bool
        then Forall granted l /\ threshold_exceeded mhs required (mh_length mht') = false
        else exists l0 req, l = l0 ++ [(req, None)] /\ Forall granted l0).
Proof.
  induction n as [|n IH]; intros required consumed mhs inner mht w Hn; [lia|].
  simpl. destruct (threshold_exceeded mhs required (mh_length mht)) eqn:Hthr.
  2:{ exists true, mhs, inner, mht, w, []. rewrite app_nil_r.
      repeat split; auto using set_hashtable_size_id, set_mh_length_id. }
  unfold expand_multihash_tables, pgstrom_shmem_alloc_alap.
  destruct w as [script log]; simpl in *.
  destruct script as [|[allocated|] script]; simpl in *.
  - exists false, mhs, inner, mht. eexists. exists [(2 * mh_length mht, None)].
    repeat split; simpl; auto using set_hashtable_size_id, set_mh_length_id.
    exists [], (2 * mh_length mht). split; [reflexivity|constructor].
  - edestruct (IH required consumed (set_hashtable_size allocated mhs)
                 (map (set_hashtable_size allocated) inner)
                 (set_mh_length (allocated - mhtables_kern_offset) mht)
                 {| shmem_script := script;
                    shmem_log := log ++ [(2 * mh_length mht, Some allocated)] |})
      as (fits & mhs' & inner' & mht' & w' & l & Heq & Hlog & Hlen & Hm & Ht & Hfits);
      [simpl; lia|].
    exists fits, mhs', inner', mht', w', ((2 * mh_length mht, Some allocated) :: l).
    simpl in *. repeat split.
    + exact Heq.
    + rewrite Hlog. now rewrite <- app_assoc.
    + lia.
    + rewrite Hm. reflexivity.
    + rewrite Ht. reflexivity.
    + destruct fits.
      * destruct Hfits as [Hall Hthr']. split; [|exact Hthr'].
        constructor; [unfold granted; simpl; eauto|exact Hall].
      * destruct Hfits as (l0 & req & -> & Hall).
        exists ((2 * mh_length mht, Some allocated) :: l0), req. split; [reflexivity|].
        constructor; [unfold granted; simpl; eauto|exact Hall].
  - exists false, mhs, inner, mht. eexists. exists [(2 * mh_length mht, None)].
    repeat split; simpl; auto using set_hashtable_size_id, set_mh_length_id; try lia.
    exists [], (2 * mh_length mht). split; [reflexivity|constructor].
Qed.

(** What the rounds of the loop do to the table for the rows they
    insert: each row gets its entry at the offset reached, which then
    advances by the aligned size of the entry. *)
Fixpoint insert_rows (mhs : MultiHashState) (khtable : kern_hashtable)
  (consumed ntuples : Z) (rows : list TupleTableSlot)
  : kern_hashtable * Z * Z :=
  match rows with
  | [] => (khtable, consumed, ntuples)
  | slot :: rows' =>
      insert_rows mhs
        (preload_insert_entry khtable consumed ntuples (hash_value mhs slot)
           (tts_tuple slot))
        (consumed + LONGALIGN (hentry_htup_offset + t_len (tts_tuple slot)))
        (cl_uint (ntuples + 1)) rows'
  end.

(** The node without what the loop changes: the size of the buffer, the
    row kept back, the end of the scan and the position of the outer
    plan. *)
Definition node_frame (mhs : MultiHashState) : MultiHashState :=
  set_hashtable_size 0
    (set_outer_overflow None
       (set_outer_done false
          (set_outer_ps
             {| ps_all := ps_all (outer_ps mhs); ps_rest := [];
                ps_chgParam := ps_chgParam (outer_ps mhs);
                ps_rescans := ps_rescans (outer_ps mhs) |} mhs))).

Lemma insert_rows_frame mhs mhs' khtable consumed ntuples rows :
  node_frame mhs = node_frame mhs' ->
  insert_rows mhs khtable consumed ntuples rows
  = insert_rows mhs' khtable consumed ntuples rows.
Proof.
  intros Hf. revert khtable consumed ntuples.
  induction rows as [|r rows IH]; intros; simpl; [reflexivity|].
  rewrite IH. do 2 f_equal.
  unfold hash_value.
  assert (hash_keys mhs = hash_keys mhs') as -> by apply (f_equal hash_keys Hf).
  assert (hash_keylen mhs = hash_keylen mhs') as -> by apply (f_equal hash_keylen Hf).
  assert (hash_keybyval mhs = hash_keybyval mhs') as -> by apply (f_equal hash_keybyval Hf).
  reflexivity.
Qed.

Lemma preload_next_slot_spec mhs :
  match preload_next_slot mhs with
  | (None, mhs1) =>
      pending mhs = [] /\ outer_overflow mhs1 = None
      /\ ps_rest (outer_ps mhs1) = []
  | (Some slot, mhs1) =>
      pending mhs = slot :: pending mhs1 /\ outer_overflow mhs1 = None
  end
  /\ outer_done (snd (preload_next_slot mhs)) = outer_done mhs
  /\ node_frame (snd (preload_next_slot mhs)) = node_frame mhs.
Proof.
  unfold preload_next_slot, pending, ExecProcNode.
  destruct mhs as [d ns thr hs ov od cc hk hl hb td [pall prest pchg presc]]; simpl.
  destruct ov as [slot|]; [|destruct prest as [|slot prest]]; simpl; auto.
Qed.

Lemma preload_scan_unfold n v :
  preload_scan (S n) v
  = let '(scan_slot, mhs) := preload_next_slot (pv_mhs v) in
    match scan_slot with
    | None =>
        Ok {| pv_mhs := set_outer_done true mhs; pv_inner := pv_inner v;
              pv_mhtables := pv_mhtables v; pv_khtable := pv_khtable v;
              pv_consumed := pv_consumed v; pv_ntuples := pv_ntuples v;
              pv_shmem := pv_shmem v |}
    | Some scan_slot =>
        let scan_tuple := tts_tuple scan_slot in
        let consumed := pv_consumed v in
        let entry_size := LONGALIGN (hentry_htup_offset + t_len scan_tuple) in
        let required := usage (pv_mhtables v) + consumed + entry_size in
        match expand_loop (S (length (shmem_script (pv_shmem v)))) required consumed
                mhs (pv_inner v) (pv_mhtables v) (pv_shmem v) with
        | Err e => Err e
        | Ok (fits, (mhs, inner, mhtables), w) =>
            if negb fits then
              Ok {| pv_mhs := set_outer_overflow (Some scan_slot) mhs;
                    pv_inner := inner; pv_mhtables := mhtables;
                    pv_khtable := pv_khtable v; pv_consumed := consumed;
                    pv_ntuples := pv_ntuples v; pv_shmem := w |}
            else
              preload_scan n
                {| pv_mhs := mhs; pv_inner := inner; pv_mhtables := mhtables;
                   pv_khtable :=
                     preload_insert_entry (pv_khtable v) consumed (pv_ntuples v)
                       (hash_value mhs scan_slot) scan_tuple;
                   pv_consumed := consumed + entry_size;
                   pv_ntuples := cl_uint (pv_ntuples v + 1);
                   pv_shmem := w |}
        end
    end.
Proof.
  cbn [preload_scan].
  destruct (preload_next_slot (pv_mhs v)) as [[slot|] mhs]; [|reflexivity].
  cbv zeta.
  destruct (expand_loop _ _ _ _ _ _ _) as [[[fits [[? ?] ?]] ?]|e]; reflexivity.
Qed.

Lemma hash_value_frame mhs mhs' slot :
  node_frame mhs = node_frame mhs' -> hash_value mhs slot = hash_value mhs' slot.
Proof.
  intros Hf. unfold hash_value.
  rewrite (f_equal hash_keys Hf : hash_keys mhs = hash_keys mhs').
  rewrite (f_equal hash_keylen Hf : hash_keylen mhs = hash_keylen mhs').
  rewrite (f_equal hash_keybyval Hf : hash_keybyval mhs = hash_keybyval mhs').
  reflexivity.
Qed.

(** The loop returns, given one round more than there are rows pending.
    It ends in one of two ways: the rows are used up and outer_done is
    set, or an expansion of the buffer failed and the row at hand is kept
    in outer_overflow.  Either way the table holds the rows taken before,
    and nothing of the buffer but its length has changed. *)
Lemma preload_scan_spec n : forall v,
  (length (pending (pv_mhs v)) < n)%nat ->
  exists v' l done,
    preload_scan n v = Ok v'
    /\ shmem_log (pv_shmem v') = shmem_log (pv_shmem v) ++ l
    /\ pv_mhtables v' = set_mh_length (mh_length (pv_mhtables v')) (pv_mhtables v)
    /\ node_frame (pv_mhs v') = node_frame (pv_mhs v)
    /\ (pv_khtable v', pv_consumed v', pv_ntuples v')
       = insert_rows (pv_mhs v) (pv_khtable v) (pv_consumed v) (pv_ntuples v) done
    /\ ((Forall granted l /\ done = pending (pv_mhs v)
         /\ outer_overflow (pv_mhs v') = None /\ outer_done (pv_mhs v') = true
         /\ ps_rest (outer_ps (pv_mhs v')) = [])
        \/ (exists l0 req r,
              l = l0 ++ [(req, None)] /\ Forall granted l0
              /\ outer_overflow (pv_mhs v') = Some r
              /\ outer_done (pv_mhs v') = outer_done (pv_mhs v)
              /\ pending (pv_mhs v) = done ++ r :: ps_rest (outer_ps (pv_mhs v')))).
Proof.
  induction n as [|n IH]; intros v Hn; [lia|].
  rewrite preload_scan_unfold.
  destruct v as [mhs inner mht kht consumed ntuples w].
  cbn [pv_mhs pv_inner pv_mhtables pv_khtable pv_consumed pv_ntuples pv_shmem] in *.
  pose proof (preload_next_slot_spec mhs) as (Hrow & Hod1 & Hfr1).
  destruct (preload_next_slot mhs) as [[slot|] mhs1]; simpl in Hod1, Hfr1.
  2:{ (* end of the scan *)
      destruct Hrow as (Hp & Hov & Hrest).
      eexists _, [], []. simpl. rewrite app_nil_r.
      repeat split; auto using set_mh_length_id.
      left. repeat split; auto. }
  destruct Hrow as [Hpend Hov1].
  set (entry_size := LONGALIGN (hentry_htup_offset + t_len (tts_tuple slot))).
  destruct (expand_loop_spec (S (length (shmem_script w)))
              (usage mht + consumed + entry_size) consumed mhs1 inner mht w)
    as (fits & mhs2 & inner2 & mht2 & w2 & l2 & Heq & Hlog & Hlen & Hm & Ht & Hfits);
    [lia|].
  rewrite Heq.
  assert (Hfr2 : node_frame mhs2 = node_frame mhs1) by (rewrite Hm; reflexivity).
  assert (Hp2 : pending mhs2 = pending mhs1) by (rewrite Hm; reflexivity).
  assert (Hod2 : outer_done mhs2 = outer_done mhs) by (rewrite Hm; exact Hod1).
  destruct fits; simpl.
  - (* the row is inserted *)
    destruct Hfits as [Hall _].
    edestruct (IH {| pv_mhs := mhs2; pv_inner := inner2; pv_mhtables := mht2;
                     pv_khtable := preload_insert_entry kht consumed ntuples
                                     (hash_value mhs2 slot) (tts_tuple slot);
                     pv_consumed := consumed + entry_size;
                     pv_ntuples := cl_uint (ntuples + 1); pv_shmem := w2 |})
      as (v' & l & done & Hscan & Hlog' & Hmht' & Hfr' & Htab & Hend).
    { simpl. rewrite Hpend in Hn. simpl in Hn. rewrite Hp2. lia. }
    exists v', (l2 ++ l), (slot :: done). simpl in *.
    repeat split.
    + exact Hscan.
    + rewrite Hlog', Hlog. now rewrite app_assoc.
    + rewrite Hmht', Ht. reflexivity.
    + rewrite Hfr', Hfr2, Hfr1. reflexivity.
    + rewrite Htab. fold entry_size.
      rewrite (insert_rows_frame mhs2 mhs) by congruence.
      rewrite (hash_value_frame mhs2 mhs) by congruence. reflexivity.
    + destruct Hend as [(Hall' & -> & Ho & Hd & Hr)|(l0 & req & r & -> & Hall' & Ho & Hd & Hp)].
      * left. repeat split; auto.
        -- apply Forall_app; auto.
        -- rewrite Hpend, Hp2. reflexivity.
      * right. exists (l2 ++ l0), req, r. repeat split; auto.
        -- now rewrite app_assoc.
        -- apply Forall_app; auto.
        -- congruence.
        -- rewrite Hpend, <- Hp2, Hp. reflexivity.
  - (* the expansion failed *)
    destruct Hfits as (l0 & req & -> & Hall).
    eexists _, _, []. simpl. repeat split.
    + exact Hlog.
    + exact Ht.
    + rewrite Hm, <- Hfr1. reflexivity.
    + right. exists l0, req, slot. simpl. repeat split; auto.
      rewrite Hpend. rewrite Hm. unfold pending. simpl.
      rewrite Hov1. reflexivity.
Qed.

Lemma preload_header_loop_fits n required mhs inner mht w :
  threshold_exceeded mhs required (mh_length mht) = false ->
  preload_header_loop n required mhs inner mht w = Ok (mhs, inner, w).
Proof. intros Hthr. destruct n; simpl; now rewrite Hthr. Qed.

(** The space the header of a new table needs, as the loop before the
    scan computes it. *)
Definition header_required (mhs : MultiHashState) (mht : pgstrom_multihash_tables) : Z :=
  usage mht + LONGALIGN (khtable_colmeta_offset (natts (outer_tupdesc mhs)))
  + LONGALIGN (4 * mhs_nslots mhs).

(** The empty table the scan starts with, and the offset of its first
    entry. *)
Definition empty_khtable (mhs : MultiHashState) : kern_hashtable :=
  let tupdesc := outer_tupdesc mhs in
  {| kh_length := 0; ncols := natts tupdesc; nslots := mhs_nslots mhs;
     is_outer := false;
     colmeta :=
       preload_colmeta (take (Z.to_nat (natts tupdesc)) (attrs tupdesc))
         (MAXALIGN (heap_t_bits_offset + (if tdhasoid tupdesc then 4 else 0)));
     hash_slots := replicate (Z.to_nat (mhs_nslots mhs)) 0;
     hentries := ∅ |}.

Definition first_entry_offset (mhs : MultiHashState) : Z :=
  LONGALIGN (khtable_slot_offset (natts (outer_tupdesc mhs)) + 4 * mhs_nslots mhs).

(** The table built from the rows [done]. *)
Definition khtable_of_rows (mhs : MultiHashState) (done : list TupleTableSlot)
  : kern_hashtable :=
  let '(khtable, consumed, _) :=
    insert_rows mhs (empty_khtable mhs) (first_entry_offset mhs) 0 done in
  set_kh_length consumed khtable.

(** multihash_preload_khashtable with scan_forward on a buffer the
    header of the table fits into: it returns without an error; the
    table built is in the buffer at the offset usage had and a copy is
    kept in curr_chunk; it holds the pending rows up to the end of the
    scan or up to the row at which an expansion failed. *)
Lemma multihash_preload_forward_spec mhs inner mht w :
  threshold_exceeded mhs (header_required mhs mht) (mh_length mht) = false ->
  exists mhs' inner' mht' w' l done,
    multihash_preload_khashtable mhs inner mht true w = Ok (mhs', inner', mht', w')
    /\ shmem_log w' = shmem_log w ++ l
    /\ curr_chunk mhs' = Some (khtable_of_rows mhs done)
    /\ htables (kern mht') !! usage mht = Some (khtable_of_rows mhs done)
    /\ usage mht' = usage mht + kh_length (khtable_of_rows mhs done)
    /\ is_divided mht'
       = (bool_decide (is_Some (curr_chunk mhs)) || negb (outer_done mhs')
          || is_divided mht)
    /\ ((Forall granted l /\ done = pending mhs
         /\ outer_overflow mhs' = None /\ outer_done mhs' = true
         /\ ps_rest (outer_ps mhs') = [])
        \/ (exists l0 req r,
              l = l0 ++ [(req, None)] /\ Forall granted l0
              /\ outer_overflow mhs' = Some r
              /\ outer_done mhs' = outer_done mhs
              /\ pending mhs = done ++ r :: ps_rest (outer_ps mhs'))).
Proof.
  intros Hthr. unfold multihash_preload_khashtable. cbn [negb].
  unfold header_required in Hthr.
  cbn [usage set_htable_offset mh_length].
  rewrite preload_header_loop_fits by exact Hthr.
  cbn [mbind result_bind rbind].
  match goal with |- context [preload_scan ?n ?v] =>
    destruct (preload_scan_spec n v) as (v' & l & done & Hscan & Hlog & Hmht & Hfr & Htab & Hend)
  end.
  { cbn [pv_mhs]. unfold pending. rewrite length_app.
    destruct (outer_overflow mhs); simpl; lia. }
  rewrite Hscan. cbn [pv_mhs pv_inner pv_mhtables pv_khtable pv_consumed pv_ntuples pv_shmem] in *.
  assert (Hk : set_kh_length (pv_consumed v') (pv_khtable v') = khtable_of_rows mhs done).
  { unfold khtable_of_rows, empty_khtable, first_entry_offset.
    rewrite <- Htab. reflexivity. }
  assert (Hcc : curr_chunk (pv_mhs v') = curr_chunk mhs)
    by exact (f_equal curr_chunk Hfr).
  do 6 eexists. split; [reflexivity|].
  rewrite Hk, Hcc.
  repeat split.
  - exact Hlog.
  - rewrite Hmht. destruct (_ || _); cbn; apply lookup_insert_eq.
  - rewrite Hmht. destruct (_ || _); reflexivity.
  - rewrite Hmht. destruct (_ || _) eqn:E; cbn; rewrite ?E; [reflexivity|].
    reflexivity.
  - destruct Hend as [(? & ? & ? & ? & ?)|(l0 & req & r & ? & ? & ? & ? & ?)];
      [left|right; exists l0, req, r]; repeat split; assumption.
Qed.

End Preload.

Section Rounds.
Import Pg MultiHash.
Context `{Env}.

(** One round of the loop for a row the buffer has room for: the row is
    inserted at the offset [consumed], which advances by the aligned size
    of the entry. *)
Lemma preload_scan_round_fits n v slot mhs1 :
  preload_next_slot (pv_mhs v) = (Some slot, mhs1) ->
  threshold_exceeded mhs1
    (usage (pv_mhtables v) + pv_consumed v
     + LONGALIGN (hentry_htup_offset + t_len (tts_tuple slot)))
    (mh_length (pv_mhtables v)) = false ->
  preload_scan (S n) v
  = preload_scan n
      {| pv_mhs := mhs1; pv_inner := pv_inner v; pv_mhtables := pv_mhtables v;
         pv_khtable :=
           preload_insert_entry (pv_khtable v) (pv_consumed v) (pv_ntuples v)
             (hash_value mhs1 slot) (tts_tuple slot);
         pv_consumed :=
           pv_consumed v + LONGALIGN (hentry_htup_offset + t_len (tts_tuple slot));
         pv_ntuples := cl_uint (pv_ntuples v + 1);
         pv_shmem := pv_shmem v |}.
Proof.
  intros Hnext Hthr. rewrite preload_scan_unfold, Hnext. cbv zeta.
  cbn [expand_loop]. rewrite Hthr. reflexivity.
Qed.

End Rounds.

Section Chunking.
Import Pg MultiHash.
Context `{Env} `{Session.DataStore}.


End Chunking.

(** * The builder on concrete rows *)
Section BuilderRuns.
Import Pg MultiHash.

(** Five rows hashed on a key that is NULL throughout and on their first
    column. *)
Definition demo_rows : list TupleTableSlot :=
  map Demo.row [Byte.x01; Byte.x02; Byte.x03; Byte.x05; Byte.x09].

Definition demo_mhs : MultiHashState :=
  Demo.mhs 4 1600 [Demo.key_null; Demo.key_col0] demo_rows.

Definition demo_mhtables : pgstrom_multihash_tables :=
  new_multihash_tables (H := Demo.env) 1 1600.

(** The variables of the loop before its first round. *)
Definition demo_vars : preload_vars :=
  {| pv_mhs := demo_mhs; pv_inner := []; pv_mhtables := demo_mhtables;
     pv_khtable := empty_khtable (H := Demo.env) demo_mhs;
     pv_consumed := first_entry_offset (H := Demo.env) demo_mhs;
     pv_ntuples := 0;
     pv_shmem := Demo.shmem [None] |}.

End BuilderRuns.

(** * The execution node *)
Section ExecNode.
Import Pg Session Exec.
Context `{Env} `{DataStore}.

(** ** Rescan *)

Lemma rescan_drain_frame n : forall ghjs w ghjs' w',
  rescan_drain n ghjs w = Ok (ghjs', w') ->
  mhtables ghjs' = mhtables ghjs
  /\ inner_chgParam ghjs' = inner_chgParam ghjs
  /\ inner_ps ghjs' = inner_ps ghjs
  /\ outer_ps ghjs' = outer_ps ghjs
  /\ w_put_tables w' = w_put_tables w.
Proof.
  induction n as [|n IH]; intros ghjs w ghjs' w'; simpl;
    destruct (0 <? num_running ghjs); try discriminate;
    try (intros [= <- <-]; auto).
  destruct (pgstrom_dequeue_message (w_mqueue w)) as [[m|] q]; [|discriminate].
  intros Hd. apply IH in Hd. simpl in Hd. exact Hd.
Qed.

(** What gpuhashjoin_rescan does with the hash buffer: it is put back
    when it is divided or when no parameter of the inner plan has
    changed, and it is kept otherwise. *)
Lemma gpuhashjoin_rescan_mhtables ghjs w ghjs' w' mht :
  mhtables ghjs = Some mht ->
  gpuhashjoin_rescan ghjs w = Ok (ghjs', w') ->
  mhtables ghjs'
  = (if MultiHash.is_divided mht || negb (inner_chgParam ghjs) then None else Some mht).
Proof.
  intros Hm. unfold gpuhashjoin_rescan.
  set (p := match curr_ghjoin ghjs with Some _ => _ | None => _ end).
  assert (Hp : mhtables (fst p) = Some mht /\ inner_chgParam (fst p) = inner_chgParam ghjs).
  { subst p. destruct (curr_ghjoin ghjs); simpl; auto. }
  destruct p as [g1 w1]. simpl in Hp. destruct Hp as [Hm1 Hc1].
  destruct (rescan_drain (Z.to_nat (num_running g1)) g1 w1) as [[g2 w2]|e] eqn:Hd;
    [|discriminate].
  apply rescan_drain_frame in Hd. destruct Hd as (Hm2 & Hc2 & _).
  cbn [mbind result_bind rbind]. rewrite Hm2, Hm1, Hc2, Hc1.
  destruct (MultiHash.is_divided mht || negb (inner_chgParam ghjs));
    intros [= <- <-].
  - destruct (negb (inner_chgParam ghjs)), (negb (ps_chgParam _)); reflexivity.
  - destruct (negb (ps_chgParam _)); simpl; congruence.
Qed.

(** ** Admission of sessions *)

(** The configuration variable pgstrom_max_async_chunks. *)
Variable pgstrom_max_async_chunks : Z.

(** Loading a chunk touches neither the count of running sessions, nor
    the sessions that are ready, nor the message queue. *)
Definition same_admission (ghjs ghjs' : GpuHashJoinState) (w w' : World) : Prop :=
  num_running ghjs' = num_running ghjs
  /\ ready_pscans ghjs' = ready_pscans ghjs
  /\ w_mqueue w' = w_mqueue w.

Lemma load_outer_rows_frame n : forall ghjs pds ghjs' pds',
  load_outer_rows n ghjs pds = Ok (ghjs', pds') ->
  num_running ghjs' = num_running ghjs /\ ready_pscans ghjs' = ready_pscans ghjs.
Proof.
  induction n as [|n IH]; intros ghjs pds ghjs' pds'; simpl; [discriminate|].
  destruct (outer_overflow ghjs) as [slot|].
  - destruct (pgstrom_data_store_insert_tuple _ slot) as [p|].
    + intros Hl. apply IH in Hl. exact Hl.
    + intros [= <- <-]. auto.
  - destruct (ExecProcNode (op_rows (outer_ps ghjs))) as [[slot|] ps].
    + destruct (pgstrom_data_store_insert_tuple _ slot) as [p|].
      * intros Hl. apply IH in Hl. exact Hl.
      * intros [= <- <-]. auto.
    + intros [= <- <-]. auto.
Qed.

Lemma load_inner_hash_table_frame ghjs w more ghjs' w' :
  load_inner_hash_table ghjs w = Ok (more, ghjs', w') ->
  same_admission ghjs ghjs' w w'.
Proof.
  unfold load_inner_hash_table, same_admission.
  destruct (mhtables ghjs) as [mht|];
    cbn [inner_ps set_mhtables w_shmem multihash_put_tables];
    (destruct (MultiHash.multihash_exec_multi _ _) as [[[[mhnode|] inner] shm]|e];
     cbn [mbind result_bind rbind]; [|intros [= <- <- <-]; auto|discriminate]);
    cbn [outer_done set_mhtables set_inner_ps];
    destruct (outer_done ghjs); intros [= <- <- <-]; auto.
Qed.

Lemma pgstrom_create_gpuhashjoin_frame ghjs bulk fmt w j ghjs' w' :
  pgstrom_create_gpuhashjoin ghjs bulk fmt w = Ok (j, ghjs', w') ->
  same_admission ghjs ghjs' w w'.
Proof.
  unfold pgstrom_create_gpuhashjoin, same_admission.
  destruct (mhtables ghjs) as [mht|]; [|discriminate].
  destruct (pgstrom_shmem_alloc _ _) as [[|] shm]; cbn [negb]; [|discriminate].
  destruct fmt; cbn [mbind result_bind rbind]; try discriminate;
    intros [= <- <- <-]; auto.
Qed.

Lemma gpuhashjoin_load_next_chunk_frame n : forall ghjs fmt w j ghjs' w',
  gpuhashjoin_load_next_chunk n ghjs fmt w = Ok (j, ghjs', w') ->
  same_admission ghjs ghjs' w w'.
Proof.
  induction n as [|n IH]; intros ghjs fmt w j ghjs' w'; [discriminate|].
  cbn [gpuhashjoin_load_next_chunk].
  assert (Hstep1 : forall r,
    (if outer_done ghjs || negb (bool_decide (is_Some (mhtables ghjs)))
     then load_inner_hash_table ghjs w else Ok (true, ghjs, w)) = Ok r ->
    same_admission ghjs (snd (fst r)) w (snd r)).
  { intros [[more g1] w1]. destruct (_ || _).
    - apply load_inner_hash_table_frame.
    - intros [= <- <- <-]. repeat split. }
  destruct (if outer_done ghjs || _ then _ else _) as [[[more g1] w1]|e];
    [|discriminate].
  specialize (Hstep1 _ eq_refl). cbn [fst snd] in Hstep1.
  cbn [mbind result_bind rbind].
  destruct more; cbn [negb].
  2:{ intros [= <- <- <-]. exact Hstep1. }
  destruct Hstep1 as (Hn1 & Hr1 & Hq1).
  assert (Hstep2 : forall r,
    (if negb (outer_bulkload g1)
     then
       '(ghjs0, pds) ← load_outer_rows
                          (S (S (length (ps_rest (op_rows (outer_ps g1)))))) g1 None;
       Ok (match pds with
           | Some pds =>
               Some {| bulk_pds := pds; bulk_nvalids := -1; bulk_rindex := [] |}
           | None => None
           end, ghjs0)
     else
       let '(bulk, ps) := ExecProcNode (op_bulks (outer_ps g1)) in
       let ghjs0 := set_op_bulks ps g1 in
       Ok (bulk, if bulk is None then set_outer_done true ghjs0 else ghjs0)) = Ok r ->
    num_running (snd r) = num_running g1 /\ ready_pscans (snd r) = ready_pscans g1).
  { intros [bulk g2]. destruct (negb (outer_bulkload g1)).
    - destruct (load_outer_rows _ g1 None) as [[g3 pds]|e] eqn:Hl; [|discriminate].
      cbn [mbind result_bind rbind]. intros [= <- <-].
      now apply load_outer_rows_frame in Hl.
    - destruct (ExecProcNode (op_bulks (outer_ps g1))) as [[b|] ps];
        intros [= <- <-]; auto. }
  destruct (if negb (outer_bulkload g1) then _ else _) as [[bulk g2]|e];
    [|discriminate].
  specialize (Hstep2 _ eq_refl). cbn [snd] in Hstep2. destruct Hstep2 as [Hn2 Hr2].
  cbn [mbind result_bind rbind].
  destruct bulk as [bulk|].
  - destruct (pgstrom_create_gpuhashjoin g2 bulk fmt w1) as [[[j3 g3] w3]|e] eqn:Hc;
      [|discriminate].
    cbn [mbind result_bind rbind]. intros [= <- <- <-].
    apply pgstrom_create_gpuhashjoin_frame in Hc. destruct Hc as (Hn3 & Hr3 & Hq3).
    repeat split; congruence.
  - intros Hl. apply IH in Hl. destruct Hl as (Hn3 & Hr3 & Hq3).
    repeat split; congruence.
Qed.

(** The sessions in flight are the messages pending in the queue;
    num_running counts them, and at no time were there more than
    pgstrom_max_async_chunks + 1 of them. *)
Definition inflight_inv (ghjs : GpuHashJoinState) (w : World) : Prop :=
  num_running ghjs = Z.of_nat (length (mq_pending (w_mqueue w)))
  /\ (length (mq_pending (w_mqueue w)) <= mq_peak (w_mqueue w))%nat
  /\ Z.of_nat (mq_peak (w_mqueue w)) <= pgstrom_max_async_chunks + 1.

Lemma pgstrom_try_dequeue_message_spec q :
  let '(msg, q') := pgstrom_try_dequeue_message q in
  mq_peak q' = mq_peak q /\ mq_waits q' = mq_waits q
  /\ match msg with
     | Some _ => S (length (mq_pending q')) = length (mq_pending q)
     | None => mq_pending q' = mq_pending q
     end.
Proof.
  unfold pgstrom_try_dequeue_message.
  destruct (mq_script q) as [|[[i e]|] script]; simpl; auto.
  destruct (mq_pending q !! i) as [m|] eqn:Hi; simpl; auto.
  repeat split. rewrite length_delete by eauto.
  apply lookup_lt_Some in Hi. lia.
Qed.

Lemma pgstrom_dequeue_message_spec q :
  let '(msg, q') := pgstrom_dequeue_message q in
  mq_peak q' = mq_peak q /\ mq_waits q' = S (mq_waits q)
  /\ match msg with
     | Some _ => S (length (mq_pending q')) = length (mq_pending q)
     | None => mq_pending q' = mq_pending q
     end.
Proof.
  unfold pgstrom_dequeue_message.
  pose proof (pgstrom_try_dequeue_message_spec
                {| mq_closed := mq_closed q; mq_pending := mq_pending q;
                   mq_script := mq_script q; mq_waits := S (mq_waits q);
                   mq_peak := mq_peak q |}) as Hs.
  destruct (pgstrom_try_dequeue_message _) as [msg q']. exact Hs.
Qed.

(** The gate of the loop: no session is issued once the outer scan is
    done or num_running is above pgstrom_max_async_chunks. *)
Lemma fetch_issue_loop_gate n fuel ghjs fmt w :
  outer_done ghjs = true \/ pgstrom_max_async_chunks < num_running ghjs ->
  fetch_issue_loop pgstrom_max_async_chunks n fuel ghjs fmt w = Ok (ghjs, w).
Proof.
  intros Hg.
  assert (negb (outer_done ghjs) && (num_running ghjs <=? pgstrom_max_async_chunks)
          = false) as Hc.
  { destruct Hg as [->|Hg]; [reflexivity|].
    apply andb_false_iff. right. apply Z.leb_gt. exact Hg. }
  destruct n; simpl; rewrite Hc; reflexivity.
Qed.

Lemma fetch_issue_loop_inv n : forall fuel ghjs fmt w ghjs' w',
  fetch_issue_loop pgstrom_max_async_chunks n fuel ghjs fmt w = Ok (ghjs', w') ->
  inflight_inv ghjs w ->
  inflight_inv ghjs' w'
  /\ mq_waits (w_mqueue w') = mq_waits (w_mqueue w)
  /\ (ready_pscans ghjs = [] \/ ready_pscans ghjs' <> []).
Proof.
  induction n as [|n IH]; intros fuel ghjs fmt w ghjs' w'; simpl;
    destruct (negb (outer_done ghjs) && (num_running ghjs <=? pgstrom_max_async_chunks))
      eqn:Hc; try discriminate;
    try (intros [= <- <-] Hinv; repeat split; try apply Hinv;
         destruct (ready_pscans ghjs); [left; reflexivity|right; discriminate]).
  apply andb_true_iff in Hc. destruct Hc as [_ Hle]. apply Z.leb_le in Hle.
  destruct (gpuhashjoin_load_next_chunk fuel ghjs fmt w) as [[[j g1] w1]|e] eqn:Hl;
    [|discriminate].
  apply gpuhashjoin_load_next_chunk_frame in Hl. destruct Hl as (Hn1 & Hr1 & Hq1).
  cbn [mbind result_bind rbind].
  destruct j as [j|].
  2:{ intros [= <- <-] (Hi1 & Hi2 & Hi3). unfold inflight_inv.
      rewrite Hn1, Hq1. repeat split; auto.
      rewrite Hr1. destruct (ready_pscans ghjs); [left; reflexivity|right; discriminate]. }
  unfold pgstrom_enqueue_message.
  destruct (mq_closed (w_mqueue w1)) eqn:Hclosed; cbn [negb]; [discriminate|].
  match goal with |- context [pgstrom_try_dequeue_message ?q] =>
    pose proof (pgstrom_try_dequeue_message_spec q) as Hd;
    destruct (pgstrom_try_dequeue_message q) as [msg q2]
  end.
  cbn [mq_peak mq_waits mq_pending] in Hd. destruct Hd as (Hpk & Hwt & Hpend).
  destruct msg as [msg|].
  - intros [= <- <-] (Hi1 & Hi2 & Hi3).
    rewrite Hq1 in *. rewrite length_app in Hpend. simpl in Hpend.
    unfold inflight_inv. cbn. rewrite Hpk, Hwt, Hn1, Hr1.
    repeat split; try lia.
    right. destruct (ready_pscans ghjs); discriminate.
  - intros Hloop (Hi1 & Hi2 & Hi3).
    apply IH in Hloop.
    + destruct Hloop as (Hinv' & Hw' & Hready').
      cbn in Hw', Hready'. rewrite Hwt, Hq1 in Hw'. rewrite Hr1 in Hready'.
      split; [exact Hinv'|split; [exact Hw'|exact Hready']].
    + rewrite Hq1 in *. unfold inflight_inv. cbn. rewrite Hpk, Hpend, Hn1.
      rewrite length_app. simpl. repeat split; lia.
Qed.

(** The rounds pgstrom_fetch_gpuhashjoin gives to its first loop are
    never used up: one more round changes nothing. *)
Lemma fetch_issue_loop_rounds n : forall fuel ghjs fmt w,
  (Z.to_nat (pgstrom_max_async_chunks + 1 - num_running ghjs) < n)%nat ->
  fetch_issue_loop pgstrom_max_async_chunks (S n) fuel ghjs fmt w
  = fetch_issue_loop pgstrom_max_async_chunks n fuel ghjs fmt w.
Proof.
  induction n as [|n IH]; intros fuel ghjs fmt w Hn; [lia|].
  cbn [fetch_issue_loop].
  destruct (negb (outer_done ghjs) && (num_running ghjs <=? pgstrom_max_async_chunks))
    eqn:Hc; [|reflexivity].
  apply andb_true_iff in Hc. destruct Hc as [_ Hle]. apply Z.leb_le in Hle.
  destruct (gpuhashjoin_load_next_chunk fuel ghjs fmt w) as [[[j g1] w1]|e] eqn:Hl;
    [|reflexivity].
  apply gpuhashjoin_load_next_chunk_frame in Hl. destruct Hl as (Hn1 & _).
  cbn [mbind result_bind rbind].
  destruct j as [j|]; [|reflexivity].
  destruct (pgstrom_enqueue_message j (w_mqueue w1)) as [[|] q]; cbn [negb];
    [|reflexivity].
  destruct (pgstrom_try_dequeue_message q) as [[msg|] q2]; [reflexivity|].
  apply IH. cbn. lia.
Qed.

(** C8, as the code has it: pgstrom_fetch_gpuhashjoin issues a session
    only while the outer scan is not done and num_running is at most
    pgstrom_max_async_chunks (not strictly below it), so the sessions in
    flight, which num_running counts, never exceed
    pgstrom_max_async_chunks + 1; and it waits on the message queue only
    when its first loop left no ready session, never otherwise. *)
Theorem admission_window_bounded fuel ghjs fmt w r ghjs' w' :
  pgstrom_fetch_gpuhashjoin pgstrom_max_async_chunks fuel ghjs fmt w = Ok (r, ghjs', w') ->
  inflight_inv ghjs w ->
  (forall n g w0,
     outer_done g = true \/ pgstrom_max_async_chunks < num_running g ->
     fetch_issue_loop pgstrom_max_async_chunks n fuel g fmt w0 = Ok (g, w0))
  /\ inflight_inv ghjs' w'
  /\ num_running ghjs' <= pgstrom_max_async_chunks + 1
  /\ exists ghjs1 w1,
       fetch_issue_loop pgstrom_max_async_chunks
         (S (Z.to_nat (pgstrom_max_async_chunks + 1 - num_running ghjs)))
         fuel ghjs fmt w = Ok (ghjs1, w1)
       /\ inflight_inv ghjs1 w1
       /\ mq_waits (w_mqueue w1) = mq_waits (w_mqueue w)
       /\ (mq_waits (w_mqueue w') = mq_waits (w_mqueue w)
           \/ (mq_waits (w_mqueue w') = S (mq_waits (w_mqueue w))
               /\ ready_pscans ghjs1 = [])).
Proof.
  intros Hf Hinv. split; [intros; now apply fetch_issue_loop_gate|].
  unfold pgstrom_fetch_gpuhashjoin in Hf.
  destruct (fetch_issue_loop _ _ fuel ghjs fmt w) as [[g1 w1]|e] eqn:Hloop;
    [|discriminate].
  cbn [mbind result_bind rbind] in Hf.
  destruct (fetch_issue_loop_inv _ _ _ _ _ _ _ Hloop Hinv) as (Hinv1 & Hw1 & _).
  assert (Hgoal : inflight_inv ghjs' w'
                  /\ (mq_waits (w_mqueue w') = mq_waits (w_mqueue w1)
                      \/ (mq_waits (w_mqueue w') = S (mq_waits (w_mqueue w1))
                          /\ ready_pscans g1 = []))).
  { destruct (ready_pscans g1) as [|m ready] eqn:Hr.
    - destruct (num_running g1 =? 0) eqn:Hz.
      + cbn [mbind result_bind rbind] in Hf. inversion Hf; subst. auto.
      + pose proof (pgstrom_dequeue_message_spec (w_mqueue w1)) as Hd.
        destruct (pgstrom_dequeue_message (w_mqueue w1)) as [[msg|] q]; [|discriminate].
        destruct Hd as (Hpk & Hwt & Hpend).
        cbn [mbind result_bind rbind] in Hf. cbn in Hf.
        destruct (bool_decide (msg_errcode msg = StromError_Success)); [|discriminate].
        inversion Hf; subst. destruct Hinv1 as (Hi1 & Hi2 & Hi3).
        split; [|right; auto].
        unfold inflight_inv. cbn. rewrite Hpk. repeat split; lia.
    - cbn [mbind result_bind rbind] in Hf. rewrite Hr in Hf.
      destruct (bool_decide (msg_errcode m = StromError_Success)); [|discriminate].
      inversion Hf; subst. split; [exact Hinv1|left; reflexivity]. }
  destruct Hgoal as [Hinv' Hwait].
  split; [exact Hinv'|]. split.
  - destruct Hinv' as (Hi1 & Hi2 & Hi3). lia.
  - exists g1, w1. rewrite <- Hw1. auto.
Qed.

End ExecNode.

Section RescanRuns.
Import Pg Session Exec.

(** A node whose hash buffer was built in one piece (is_divided is not
    set), with nothing running. *)
Definition demo_built (inner_params_changed : bool) : GpuHashJoinState :=
  set_inner_chgParam inner_params_changed
    (set_mhtables (Some demo_mhtables) (Demo.ghjs demo_rows demo_rows)).

(** C1 on concrete input.  With an undivided buffer and no parameter
    change below the inner plan, gpuhashjoin_rescan rewinds the inner
    plan and puts the buffer back instead of keeping it; with an
    undivided buffer and a parameter change it keeps the buffer. *)
Theorem gpuhashjoin_rescan_drops_reusable_buffer :
  MultiHash.is_divided demo_mhtables = false
  /\ (exists ghjs' w',
        gpuhashjoin_rescan (demo_built false) (Demo.world [] []) = Ok (ghjs', w')
        /\ mhtables ghjs' = None
        /\ w_put_tables w' = [demo_mhtables]
        /\ map (fun m => ps_rescans (MultiHash.outer_ps m)) (inner_ps ghjs') = [1%nat]
        /\ ps_rescans (op_rows (outer_ps ghjs')) = 1%nat)
  /\ (exists ghjs' w',
        gpuhashjoin_rescan (demo_built true) (Demo.world [] []) = Ok (ghjs', w')
        /\ mhtables ghjs' = Some demo_mhtables
        /\ w_put_tables w' = []).
Proof.
  split; [reflexivity|].
  split; do 2 eexists; (split; [vm_compute; reflexivity|]);
    repeat split; vm_compute; reflexivity.
Qed.

End RescanRuns.

Section FetchRuns.
Import Pg Session Exec.

Definition demo_outer : list TupleTableSlot :=
  map Demo.row [Byte.x01; Byte.x02; Byte.x03; Byte.x04; Byte.x05].

(** Five outer rows in chunks of two; the server answers the first
    session at the fourth attempt to dequeue. *)
Definition demo_node : GpuHashJoinState := Demo.ghjs demo_outer demo_rows.

Definition demo_world : World :=
  Demo.world [Some 2000; Some 64; Some 64; Some 64; Some 64]
    [None; None; None; Some (0%nat, StromError_Success)].

Lemma admission_window_bounded_witness :
  exists r ghjs' w',
    pgstrom_fetch_gpuhashjoin (H := Demo.env) (H0 := Demo.store) 2 5 demo_node
      KDS_FORMAT_TUPSLOT demo_world = Ok (r, ghjs', w')
    /\ inflight_inv 2 demo_node demo_world
    /\ inflight_inv 2 ghjs' w'
    /\ num_running ghjs' <= 2 + 1.
Proof.
  do 3 eexists.
  assert (Hinv : inflight_inv 2 demo_node demo_world).
  { unfold inflight_inv. vm_compute. repeat split; try lia; discriminate. }
  split; [vm_compute; reflexivity|]. split; [exact Hinv|].
  pose proof (admission_window_bounded (H := Demo.env) (H0 := Demo.store) 2 5 demo_node
                KDS_FORMAT_TUPSLOT demo_world _ _ _
                ltac:(vm_compute; reflexivity) Hinv) as (_ & Hi & Hn & _).
  split; [exact Hi|exact Hn].
Defined.

(** C8 as stated fails.  The loop is run with pgstrom_max_async_chunks
    at 0 to get a node with one session running; with the limit at 1
    that count is not strictly below the limit, yet the loop issues a
    session, and num_running is 2, above the limit, when the loop is
    left. *)
Lemma admission_exceeds_limit :
  exists ghjs1 w1 ghjs2 w2,
    fetch_issue_loop (H := Demo.env) (H0 := Demo.store) 0 2 5 demo_node
      KDS_FORMAT_TUPSLOT demo_world = Ok (ghjs1, w1)
    /\ num_running ghjs1 = 1
    /\ fetch_issue_loop (H := Demo.env) (H0 := Demo.store) 1 2 5 ghjs1
         KDS_FORMAT_TUPSLOT w1 = Ok (ghjs2, w2)
    /\ length (mq_pending (w_mqueue w2)) = S (length (mq_pending (w_mqueue w1)))
    /\ num_running ghjs2 = 2
    /\ ~ num_running ghjs2 <= 1.
Proof.
  do 4 eexists. split; [vm_compute; reflexivity|]. split; [vm_compute; reflexivity|].
  split; [vm_compute; reflexivity|]. split; [vm_compute; reflexivity|].
  split; [vm_compute; reflexivity|].
  vm_compute. intros Hc. apply Hc. reflexivity.
Qed.

End FetchRuns.

(** * The OpenCL server *)
Section Server.
Import Pg Session ClServ.

(** A run of clserv_process_gpuhashjoin in which every call succeeds and
    the program is built. *)
Definition device_works (dev : Device) : Prop :=
  (forall c, cl_status dev c = CL_SUCCESS)
  /\ exists prog, lookup_device_program dev = ProgramReady prog.

Definition supported_format (f : kds_format) : Prop :=
  f = KDS_FORMAT_TUPSLOT \/ f = KDS_FORMAT_ROW_FLAT.

Lemma cl_check_works dev c : (forall c, cl_status dev c = CL_SUCCESS) ->
  cl_check dev c = cl_ret ().
Proof. intros Hok. unfold cl_check. rewrite Hok. reflexivity. Qed.

(** The commands of a submission, after the transfers: the join kernel
    over the rows of the outer chunk, waiting for all transfers; the
    projection kernel over the rooms of the destination, waiting for the
    join kernel; the result status and the destination read back; the
    callback on the last event. *)
Definition submission_tail (gpuhashjoin : pgstrom_gpuhashjoin) (waits : list nat)
  (e_main e_proj e_rj e_rd m_j m_r : nat) : list cl_command :=
  [EnqueueNDRangeKernel KernMain
     (if nvalids (krowmap gpuhashjoin) <? 0
      then kds_nitems (kds (pds gpuhashjoin))
      else nvalids (krowmap gpuhashjoin)) waits e_main;
   EnqueueNDRangeKernel KernProj (kds_nrooms (kds (pds_dest gpuhashjoin)))
     [e_main] e_proj;
   EnqueueReadBuffer BufJoin m_j [e_proj] e_rj;
   EnqueueReadBuffer BufDest m_r [e_rj] e_rd;
   SetEventCallback e_rd].

Ltac cl_eval :=
  cbv beta iota zeta delta
    [cl_bind cl_ret cl_new cl_submit with_clghj get_clghj cl_fresh cl_enqueue
     st_clghj st_mhtables st_w cl_next cl_queue cl_refcnt
     program kern_main kern_proj m_join m_hash m_dstore m_ktoast m_rowmap
     m_kresult dindex hash_loader ev_kern_main ev_kern_proj events
     set_program set_kern_main set_kern_proj set_m_join set_m_hash set_m_dstore
     set_m_ktoast set_m_rowmap set_m_kresult set_dindex set_hash_loader
     set_ev_kern_main set_ev_kern_proj set_events].

Lemma cons_app_eq {A} (x : A) l p t : l = p ++ t -> x :: l = (x :: p) ++ t.
Proof. intros ->. reflexivity. Qed.

Lemma nil_app_eq {A} (t : list A) : t = [] ++ t.
Proof. reflexivity. Qed.

Ltac split_tail := repeat first [apply nil_app_eq | apply cons_app_eq].

Lemma process_submit_works dev gpuhashjoin st :
  (forall c, cl_status dev c = CL_SUCCESS) ->
  supported_format (kds_format_of (kds (pds_dest gpuhashjoin))) ->
  exists st' pre evs evs' e_main e_proj e_rj e_rd m_j m_r,
    process_submit dev gpuhashjoin st = inr ((), st')
    /\ st_mhtables st' = st_mhtables st
    /\ m_hash (st_clghj st') = m_hash (st_clghj st)
    /\ events (st_clghj st') = events (st_clghj st) ++ evs
    /\ hash_writes pre = 0%nat
    /\ cl_queue (st_w st')
       = cl_queue (st_w st) ++ pre ++
         submission_tail gpuhashjoin (events (st_clghj st) ++ evs')
           e_main e_proj e_rj e_rd m_j m_r.
Proof.
  intros Hok Hfmt.
  unfold process_submit, clserv_dmasend_data_store, cl_set_kernel_args.
  unfold cl_check. rewrite !Hok. change (CL_SUCCESS =? CL_SUCCESS) with true.
  cbv iota.
  destruct st as [c t w]. destruct c, w.
  unfold submission_tail.
  destruct Hfmt as [-> | ->];
  destruct (ktoast (pds gpuhashjoin));
  destruct (nvalids (krowmap gpuhashjoin) <? 0).
  all: cl_eval; unfold last_event; cl_eval; rewrite ?last_snoc.
  all: match goal with
       | |- ex (fun st' => ex (fun pre => ex (fun evs => ex (fun evs' =>
              ex (fun e1 => ex (fun e2 => ex (fun e3 => ex (fun e4 =>
              ex (fun m1 => ex (fun m2 => ?lhs = _ /\ _)))))))))) =>
           remember lhs as r eqn:E
       end.
  all: rewrite <- ?app_assoc in E; cbn [app option_list default] in E; subst r.
  all: eexists _, _, _, _, _, _, _, _, _, _.
  all: split; [reflexivity|].
  all: split; [reflexivity|].
  all: split; [reflexivity|].
  all: split; [reflexivity|].
  all: cbn [st_w cl_queue st_clghj events].
  all: (split; [| cbn; f_equal; split_tail]); reflexivity.
Qed.

(** The section under the spinlock when no kernel uses the hash table. *)
Lemma load_hash_table_first dev t c w :
  (forall c, cl_status dev c = CL_SUCCESS) ->
  MultiHash.n_kernel t = 0 ->
  load_hash_table dev t c w
  = (inr (),
     set_residency 1 (Some (cl_next w)) (Some (S (cl_next w)))
       (device_schedule dev) t,
     set_hash_loader true
       (set_events (events c ++ [S (cl_next w)])
          (set_m_hash (Some (cl_next w)) (set_dindex (device_schedule dev) c))),
     {| cl_next := S (S (cl_next w));
        cl_queue := cl_queue w
                    ++ [EnqueueWriteBuffer BufHash (cl_next w) (S (cl_next w))];
        cl_refcnt := <[S (cl_next w) := 1]> (<[cl_next w := 1]> (cl_refcnt w)) |}).
Proof.
  intros Hok Hn. unfold load_hash_table. rewrite Hn, !Hok. reflexivity.
Qed.

(** The section under the spinlock when the hash table is on the device. *)
Lemma load_hash_table_shared dev t c w :
  MultiHash.n_kernel t <> 0 ->
  exists w',
    load_hash_table dev t c w
    = (inr (),
       set_residency (MultiHash.n_kernel t + 1) (MultiHash.m_hash t)
         (MultiHash.ev_hash t) (MultiHash.dindex t) t,
       set_events (events c ++ option_list (MultiHash.ev_hash t))
         (set_m_hash (MultiHash.m_hash t) (set_dindex (MultiHash.dindex t) c)),
       w')
    /\ cl_queue w' = cl_queue w /\ cl_next w' = cl_next w.
Proof.
  intros Hn. unfold load_hash_table.
  destruct (Z.eqb_spec (MultiHash.n_kernel t) 0) as [|_]; [contradiction|].
  eexists. split; [reflexivity|].
  destruct (MultiHash.m_hash t), (MultiHash.ev_hash t); split; reflexivity.
Qed.

Lemma hash_writes_app q1 q2 :
  hash_writes (q1 ++ q2) = (hash_writes q1 + hash_writes q2)%nat.
Proof. unfold hash_writes. rewrite List.filter_app, length_app. reflexivity. Qed.

(** With a runtime in which every call succeeds and the program built,
    clserv_process_gpuhashjoin submits the whole sequence: the hash table
    if no kernel uses it yet, the transfers, the join kernel, the
    projection kernel, the two reads and the callback. *)
Lemma clserv_process_gpuhashjoin_works dev gpuhashjoin t w :
  device_works dev ->
  supported_format (kds_format_of (kds (pds_dest gpuhashjoin))) ->
  exists c t' w' pre waits e_main e_proj e_rj e_rd m_j m_r,
    clserv_process_gpuhashjoin dev gpuhashjoin t w = (Submitted c, t', w')
    /\ MultiHash.n_kernel t' = MultiHash.n_kernel t + 1
    /\ hash_writes pre = (if MultiHash.n_kernel t =? 0 then 1%nat else 0%nat)
    /\ cl_queue w'
       = cl_queue w ++ pre ++
         submission_tail gpuhashjoin waits e_main e_proj e_rj e_rd m_j m_r.
Proof.
  intros [Hok [prog Hprog]] Hfmt.
  unfold clserv_process_gpuhashjoin.
  rewrite Hok, Hprog. change (negb (CL_SUCCESS =? CL_SUCCESS)) with false.
  cbv iota. unfold process_body, cl_bind at 1, cl_load_hash_table.
  cbn [st_mhtables st_clghj st_w].
  destruct (Z.eqb_spec (MultiHash.n_kernel t) 0) as [Hn|Hn].
  - rewrite load_hash_table_first by assumption.
    match goal with
    | |- context [process_submit dev gpuhashjoin ?st] =>
        destruct (process_submit_works dev gpuhashjoin st Hok Hfmt)
          as (st' & pre & evs & evs' & e1 & e2 & e3 & e4 & m1 & m2
              & -> & Ht & _ & _ & Hpre & Hq)
    end.
    cbn [st_mhtables st_clghj st_w cl_queue] in Ht, Hq.
    eexists _, _, _, ([EnqueueWriteBuffer BufHash (cl_next w) (S (cl_next w))] ++ pre),
      _, _, _, _, _, _, _.
    split; [reflexivity|]. rewrite Ht, Hq.
    split; [cbn; lia|]. split.
    + rewrite hash_writes_app, Hpre. reflexivity.
    + rewrite <- !app_assoc. reflexivity.
  - destruct (load_hash_table_shared dev t (set_program (Some prog) clghj_zero) w Hn)
      as (w1 & -> & Hq1 & _).
    match goal with
    | |- context [process_submit dev gpuhashjoin ?st] =>
        destruct (process_submit_works dev gpuhashjoin st Hok Hfmt)
          as (st' & pre & evs & evs' & e1 & e2 & e3 & e4 & m1 & m2
              & -> & Ht & _ & _ & Hpre & Hq)
    end.
    cbn [st_mhtables st_clghj st_w cl_queue] in Ht, Hq.
    eexists _, _, _, pre, _, _, _, _, _, _, _.
    split; [reflexivity|]. rewrite Ht, Hq, Hq1.
    split; [reflexivity|]. split; [exact Hpre|reflexivity].
Qed.

End Server.

(** * The answer of the device and the retry *)
Section Retry.
Import Pg Session ClServ.
Context `{Env} `{DataStore}.

(** The message the callback enqueues again differs from the one answered
    in the result buffer and the destination only. *)
Definition retry_of (old new : pgstrom_gpuhashjoin) : Prop :=
  pds new = pds old
  /\ krowmap new = krowmap old
  /\ kparams_length new = kparams_length old
  /\ nrels (kresults new) = nrels (kresults old)
  /\ nrooms (kresults new) = kds_nitems (kds (pds_dest old))
  /\ nitems (kresults new) = 0
  /\ kr_errcode (kresults new) = StromError_Success
  /\ kds_format_of (kds (pds_dest new)) = kds_format_of (kds (pds_dest old))
  /\ kds_nitems (kds (pds_dest new)) = 0.

Definition granted_twice (shm : Shmem) : Prop :=
  exists a b rest, shmem_script shm = Some a :: Some b :: rest.

(** the rooms of the destination "Expand the result buffer then retry"
    allocates *)
Definition expanded_rooms (old_kds : kern_data_store) : Z :=
  match kds_format_of old_kds with
  | KDS_FORMAT_TUPSLOT => kds_nitems old_kds
  | _ =>
      (STROMALIGN (sizeof_kern_blkitem * kds_maxblocks old_kds)
       + STROMALIGN (sizeof_kern_rowitem * kds_nitems old_kds)
       + STROMALIGN (kds_usage old_kds)) / sizeof_kern_rowitem
  end.

Lemma respond_expand_result_spec msg shm :
  supported_format (kds_format_of (kds (pds_dest msg))) ->
  exists shm',
    (granted_twice shm /\
     exists m', respond_expand_result msg shm = (Enqueue m', shm')
                /\ retry_of msg m'
                /\ kds_nrooms (kds (pds_dest m')) = expanded_rooms (kds (pds_dest msg)))
    \/ (~ granted_twice shm /\
        exists m', respond_expand_result msg shm = (Reply m', shm')
                   /\ msg_errcode m' = StromError_OutOfSharedMemory).
Proof.
  intros Hfmt. unfold respond_expand_result, expanded_rooms, granted_twice.
  unfold pgstrom_shmem_alloc, pgstrom_shmem_alloc_alap.
  destruct shm as [script log]. cbn [shmem_script shmem_log].
  destruct Hfmt as [-> | ->].
  all: destruct script as [|[a|] [|[b|] rest]]; cbn.
  all: eexists.
  all: first
    [ left; split; [eexists _, _, _; reflexivity|];
      eexists; split; [reflexivity|]; split;
      [unfold retry_of; cbn; repeat split | cbn; f_equal; lia]
    | right; split; [intros (? & ? & ? & [=])|];
      eexists; split; reflexivity ].
Qed.

(** clserv_respond_hashjoin when the device reported
    StromError_DataStoreNoSpace. *)
Lemma clserv_respond_hashjoin_no_space clghj msg t w shm :
  kr_errcode (kresults msg) = StromError_DataStoreNoSpace ->
  exists t' w',
    clserv_respond_hashjoin CL_COMPLETE clghj msg t w shm
    = (fst (respond_expand_result (set_msg_errcode StromError_DataStoreNoSpace msg) shm),
       t', w',
       snd (respond_expand_result (set_msg_errcode StromError_DataStoreNoSpace msg) shm)).
Proof.
  intros Hno. unfold clserv_respond_hashjoin.
  change (CL_COMPLETE =? CL_COMPLETE) with true. cbv iota. rewrite Hno.
  destruct (unload_hash_table _ _) as [t' w'].
  cbn [msg_errcode set_msg_errcode].
  rewrite bool_decide_eq_true_2 by reflexivity.
  destruct (respond_expand_result _ _). eexists _, _. reflexivity.
Qed.

(** clserv_respond_hashjoin when the device reported anything else. *)
Lemma clserv_respond_hashjoin_done clghj msg t w shm :
  kr_errcode (kresults msg) <> StromError_DataStoreNoSpace ->
  exists t' w',
    clserv_respond_hashjoin CL_COMPLETE clghj msg t w shm
    = (Reply (set_msg_errcode (kr_errcode (kresults msg)) msg), t', w', shm).
Proof.
  intros Hno. unfold clserv_respond_hashjoin.
  change (CL_COMPLETE =? CL_COMPLETE) with true. cbv iota.
  destruct (unload_hash_table _ _) as [t' w'].
  cbn [msg_errcode set_msg_errcode].
  rewrite bool_decide_eq_false_2 by exact Hno.
  eexists _, _. reflexivity.
Qed.

(** The layout of a flat row store: aligning does not shrink, an item
    has a size, and the block items and the used bytes are not negative. *)
Definition layout_sane (k : kern_data_store) : Prop :=
  (forall x, x <= STROMALIGN x)
  /\ 0 < sizeof_kern_rowitem
  /\ 0 <= sizeof_kern_blkitem * kds_maxblocks k
  /\ 0 <= kds_usage k.

Lemma expanded_rooms_cover k :
  supported_format (kds_format_of k) ->
  (kds_format_of k = KDS_FORMAT_ROW_FLAT -> layout_sane k) ->
  kds_nitems k <= expanded_rooms k.
Proof.
  intros [Hf | Hf] Hsane; unfold expanded_rooms; rewrite Hf; [lia|].
  destruct (Hsane Hf) as (Ha & Hr & Hb & Hu).
  apply Z.div_le_lower_bound; [exact Hr|].
  pose proof (Ha (sizeof_kern_blkitem * kds_maxblocks k)).
  pose proof (Ha (sizeof_kern_rowitem * kds_nitems k)).
  pose proof (Ha (kds_usage k)). lia.
Qed.

Lemma run_session_unfold n dev nmatches msg t w shm :
  run_session (S n) dev nmatches msg t w shm =
  match clserv_process_gpuhashjoin dev msg t w with
  | (InWaitq, mhtables, w) => run_session n dev nmatches msg mhtables w shm
  | (Replied gpuhashjoin, mhtables, w) =>
      Ok {| se_reply := gpuhashjoin; se_retries := 0;
            se_mhtables := mhtables; se_w := w; se_shmem := shm |}
  | (Submitted clghj, mhtables, w) =>
      match clserv_respond_hashjoin CL_COMPLETE clghj
              (device_execute nmatches msg) mhtables w shm with
      | (Reply gpuhashjoin, mhtables, w, shm) =>
          Ok {| se_reply := gpuhashjoin; se_retries := 0;
                se_mhtables := mhtables; se_w := w; se_shmem := shm |}
      | (Enqueue gpuhashjoin, mhtables, w, shm) =>
          e ← run_session n dev nmatches gpuhashjoin mhtables w shm;
          Ok {| se_reply := se_reply e; se_retries := S (se_retries e);
                se_mhtables := se_mhtables e; se_w := se_w e;
                se_shmem := se_shmem e |}
      end
  end.
Proof. reflexivity. Qed.

(** A session whose destination has room for all matches is answered
    after one submission. *)
Lemma run_session_fits n dev nmatches msg t w shm :
  device_works dev ->
  supported_format (kds_format_of (kds (pds_dest msg))) ->
  nmatches <= nrooms (kresults msg) ->
  nmatches <= kds_nrooms (kds (pds_dest msg)) ->
  kr_errcode (kresults msg) = StromError_Success ->
  exists e,
    run_session (S n) dev nmatches msg t w shm = Ok e
    /\ se_retries e = 0%nat
    /\ msg_errcode (se_reply e) = StromError_Success
    /\ nrooms (kresults (se_reply e)) = nrooms (kresults msg)
    /\ kds_nrooms (kds (pds_dest (se_reply e))) = kds_nrooms (kds (pds_dest msg))
    /\ nitems (kresults (se_reply e)) = nmatches.
Proof.
  intros Hdev Hfmt Hr Hk Hok. rewrite run_session_unfold.
  destruct (clserv_process_gpuhashjoin_works dev msg t w Hdev Hfmt)
    as (c & t1 & w1 & pre & waits & e1 & e2 & e3 & e4 & m1 & m2 & -> & _).
  assert (Herr : kr_errcode (kresults (device_execute nmatches msg))
                 = StromError_Success).
  { cbn. destruct (Z.ltb_spec (nrooms (kresults msg)) nmatches); [lia|].
    destruct (Z.ltb_spec (kds_nrooms (kds (pds_dest msg))) nmatches); [lia|].
    exact Hok. }
  destruct (clserv_respond_hashjoin_done c (device_execute nmatches msg) t1 w1 shm)
    as (t2 & w2 & ->); [rewrite Herr; discriminate|].
  eexists. split; [reflexivity|].
  cbn [se_retries se_reply msg_errcode set_msg_errcode]. rewrite Herr.
  repeat split.
Qed.

(** C3: a session whose first submission yields more matches than its
    destination has rooms ends after at most two submissions: either the
    message is enqueued again exactly once, with a result buffer of as
    many rooms as there are matches and a destination that takes them
    all, and is then answered without error, or the shared memory for the
    new destination is refused and the message is answered with
    StromError_OutOfSharedMemory without being enqueued again. *)
Theorem overflow_retried_once
  n dev nmatches msg t w shm :
  device_works dev ->
  supported_format (kds_format_of (kds (pds_dest msg))) ->
  (kds_format_of (kds (pds_dest msg)) = KDS_FORMAT_ROW_FLAT ->
   layout_sane (kds (pds_dest msg))) ->
  kds_nrooms (kds (pds_dest msg)) < nmatches ->
  exists e,
    run_session (S (S n)) dev nmatches msg t w shm = Ok e
    /\ ((granted_twice shm
         /\ se_retries e = 1%nat
         /\ msg_errcode (se_reply e) = StromError_Success
         /\ nrooms (kresults (se_reply e)) = nmatches
         /\ nitems (kresults (se_reply e)) = nmatches
         /\ nmatches <= kds_nrooms (kds (pds_dest (se_reply e)))
         /\ (kds_format_of (kds (pds_dest msg)) = KDS_FORMAT_TUPSLOT ->
             kds_nrooms (kds (pds_dest (se_reply e))) = nmatches))
        \/ (~ granted_twice shm
            /\ se_retries e = 0%nat
            /\ msg_errcode (se_reply e) = StromError_OutOfSharedMemory)).
Proof.
  intros Hdev Hfmt Hsane Hover. rewrite run_session_unfold.
  destruct (clserv_process_gpuhashjoin_works dev msg t w Hdev Hfmt)
    as (c & t1 & w1 & pre & waits & e1 & e2 & e3 & e4 & m1 & m2 & -> & _).
  set (msg1 := device_execute nmatches msg).
  assert (Hno : kr_errcode (kresults msg1) = StromError_DataStoreNoSpace).
  { cbn. destruct (Z.ltb_spec (kds_nrooms (kds (pds_dest msg))) nmatches); [|lia].
    rewrite orb_true_r. reflexivity. }
  assert (Hfmt1 : supported_format (kds_format_of (kds (pds_dest msg1))))
    by exact Hfmt.
  destruct (clserv_respond_hashjoin_no_space c msg1 t1 w1 shm Hno)
    as (t2 & w2 & ->).
  destruct (respond_expand_result_spec
              (set_msg_errcode StromError_DataStoreNoSpace msg1) shm Hfmt1)
    as (shm' & [(Hg & m' & -> & Hretry & Hrooms) | (Hg & m' & -> & Herr)]);
    cbn [fst snd].
  - destruct Hretry as (_ & _ & _ & _ & Hnr & _ & Hsucc & Hf & _).
    cbn [set_msg_errcode pds_dest] in Hnr, Hf, Hrooms.
    assert (Hitems : kds_nitems (kds (pds_dest msg1)) = nmatches) by reflexivity.
    assert (Hcover : nmatches <= kds_nrooms (kds (pds_dest m'))).
    { rewrite Hrooms, <- Hitems at 1. apply expanded_rooms_cover; [exact Hfmt1|].
      intros Hflat. destruct (Hsane Hflat) as (Ha & Hr & Hb & Hu).
      repeat split; assumption. }
    destruct (run_session_fits n dev nmatches m' t2 w2 shm' Hdev)
      as (e & -> & Hret & Hmsg & Hrooms' & Hkrooms & Hn').
    + rewrite Hf. exact Hfmt1.
    + rewrite Hnr, Hitems. lia.
    + exact Hcover.
    + exact Hsucc.
    + eexists. split; [reflexivity|]. left. cbn [se_retries se_reply].
      rewrite Hret, Hrooms', Hkrooms, Hn', Hnr, Hitems.
      repeat split; try assumption.
      intros Ht. rewrite Hrooms. unfold expanded_rooms.
      change (kds_format_of (kds (pds_dest msg1)))
        with (kds_format_of (kds (pds_dest msg))).
      rewrite Ht. reflexivity.
  - eexists. split; [reflexivity|]. right. repeat split; assumption.
Qed.

End Retry.

(** * Sessions that share one hash table *)
Section Sharing.
Import Pg Session ClServ.
#[local] Set Warnings "-clear-no-such-hyp".

(** No session has run its loading section yet: nothing uses the hash
    table and the queue holds no write of it. *)
Definition fresh_server (sv : server) : Prop :=
  sv_seen sv = ∅ /\ sv_running sv = ∅
  /\ MultiHash.n_kernel (sv_mhtables sv) = 0
  /\ List.filter is_hash_write (cl_queue (sv_w sv)) = [].

(** The hash table is on the device, written once, by session [i0]:
    n_kernel counts the running sessions; the buffer [m] and the event
    [ev] of the one write in the queue are published in [mhtables] and
    retained once per running session; every session that got through
    its loading section holds [m], has [ev] as its only event so far,
    and is marked as the loader exactly if it is [i0]. *)
Definition shared_by (i0 m ev : nat) (sv : server) : Prop :=
  MultiHash.n_kernel (sv_mhtables sv) = Z.of_nat (size (sv_running sv))
  /\ sv_running sv <> ∅
  /\ sv_running sv ⊆ dom (sv_seen sv)
  /\ is_Some (sv_seen sv !! i0)
  /\ MultiHash.m_hash (sv_mhtables sv) = Some m
  /\ MultiHash.ev_hash (sv_mhtables sv) = Some ev
  /\ m <> ev
  /\ cl_refcnt (sv_w sv) !! m = Some (MultiHash.n_kernel (sv_mhtables sv))
  /\ cl_refcnt (sv_w sv) !! ev = Some (MultiHash.n_kernel (sv_mhtables sv))
  /\ List.filter is_hash_write (cl_queue (sv_w sv))
     = [EnqueueWriteBuffer BufHash m ev]
  /\ (forall i c, sv_seen sv !! i = Some c ->
        m_hash c = Some m /\ events c = [ev]
        /\ (hash_loader c = true <-> i = i0)).

Lemma filter_hash_write_snoc q c :
  List.filter is_hash_write (q ++ [c])
  = List.filter is_hash_write q ++ (if is_hash_write c then [c] else []).
Proof. rewrite List.filter_app. reflexivity. Qed.

Lemma server_step_fresh a sv :
  fresh_server sv ->
  fresh_server (server_step a sv)
  \/ exists i dev,
       a = LoadHashTable i dev
       /\ shared_by i (cl_next (sv_w sv)) (S (cl_next (sv_w sv))) (server_step a sv).
Proof.
  intros (Hseen & Hrun & Hn & Hq). destruct sv as [t w running seen].
  cbn [sv_seen sv_running sv_mhtables sv_w] in *. subst seen running.
  destruct a as [i dev | i]; cbn [server_step sv_seen sv_running sv_mhtables sv_w].
  - rewrite lookup_empty. unfold load_hash_table. rewrite Hn.
    change (0 =? 0) with true. cbv iota.
    destruct (negb (cl_status dev (Call_CreateBuffer BufHash) =? CL_SUCCESS)).
    { left. repeat split; assumption. }
    cbn [cl_fresh].
    destruct (negb (cl_status dev (Call_EnqueueWriteBuffer BufHash) =? CL_SUCCESS)).
    { left. repeat split; assumption. }
    right. exists i, dev. split; [reflexivity|].
    unfold shared_by. cbn.
    split. { rewrite union_empty_r_L, size_singleton. reflexivity. }
    split. { set_solver. }
    split. { set_solver. }
    split. { rewrite lookup_insert_eq. eexists; reflexivity. }
    split; [reflexivity|]. split; [reflexivity|].
    split. { lia. }
    split. { rewrite lookup_insert_ne by lia. rewrite lookup_insert_eq. reflexivity. }
    split. { rewrite lookup_insert_eq. reflexivity. }
    split. { rewrite filter_hash_write_snoc, Hq. reflexivity. }
    intros j c Hj.
    destruct (decide (j = i)) as [->|Hne].
    + rewrite lookup_insert_eq in Hj. injection Hj as <-. cbn. 
      repeat split; reflexivity.
    + rewrite lookup_insert_ne, lookup_empty in Hj by congruence. discriminate.
  - left. rewrite bool_decide_eq_false_2 by set_solver.
    repeat split; assumption.
Qed.

Lemma gset_size_zero (X : gset nat) : size X = 0%nat -> X = ∅.
Proof. intros Hz. apply leibniz_equiv, size_empty_inv. exact Hz. Qed.

Lemma load_hash_table_retains dev t c w m ev :
  MultiHash.n_kernel t <> 0 ->
  MultiHash.m_hash t = Some m ->
  MultiHash.ev_hash t = Some ev ->
  load_hash_table dev t c w
  = (inr (),
     set_residency (MultiHash.n_kernel t + 1) (Some m) (Some ev)
       (MultiHash.dindex t) t,
     set_events (events c ++ [ev])
       (set_m_hash (Some m) (set_dindex (MultiHash.dindex t) c)),
     cl_retain ev (cl_retain m w)).
Proof.
  intros Hn Hm Hev. unfold load_hash_table.
  destruct (Z.eqb_spec (MultiHash.n_kernel t) 0) as [|_]; [contradiction|].
  rewrite Hm, Hev. reflexivity.
Qed.

Lemma server_step_shared a sv i0 m ev :
  shared_by i0 m ev sv ->
  sv_running (server_step a sv) <> ∅ ->
  shared_by i0 m ev (server_step a sv).
Proof.
  destruct sv as [t w running seen]. intros Hsh Hrun'.
  pose proof Hsh as (Hn & Hrun & Hsub & Hi0 & Hm & Hev & Hne & Hrm & Hrev & Hq & Hseen).
  cbn [sv_seen sv_running sv_mhtables sv_w] in *.
  assert (Hpos : MultiHash.n_kernel t <> 0).
  { rewrite Hn. intros Hz. apply Hrun. apply gset_size_zero. lia. }
  destruct a as [i dev | i]; cbn [server_step sv_seen sv_running sv_mhtables sv_w] in *.
  - destruct (seen !! i) eqn:Hi.
    { exact Hsh. }
    rewrite (load_hash_table_retains dev t clghj_zero w m ev Hpos Hm Hev).
    assert (Hfresh : i ∉ running).
    { intros Hin. apply Hsub in Hin. apply elem_of_dom in Hin.
      rewrite Hi in Hin. destruct Hin as [? [=]]. }
    unfold shared_by. cbn.
    split. { rewrite size_union by set_solver. rewrite size_singleton. lia. }
    split. { set_solver. }
    split. { rewrite dom_insert_L. set_solver. }
    split. { rewrite lookup_insert_ne; [exact Hi0|].
             intros ->. rewrite Hi in Hi0. destruct Hi0 as [? [=]]. }
    split; [reflexivity|]. split; [reflexivity|]. split; [exact Hne|].
    split. { rewrite lookup_insert_ne by congruence. rewrite lookup_insert_eq.
             rewrite Hrm. reflexivity. }
    split. { rewrite lookup_insert_eq. rewrite lookup_insert_ne by congruence.
             rewrite Hrev. reflexivity. }
    split; [exact Hq|].
    intros j c Hj. destruct (decide (j = i)) as [->|Hji].
    + rewrite lookup_insert_eq in Hj. injection Hj as <-. cbn.
      split; [reflexivity|]. split; [reflexivity|].
      split; [discriminate|]. intros ->.
      rewrite Hi in Hi0. destruct Hi0 as [? [=]].
    + rewrite lookup_insert_ne in Hj by congruence. apply Hseen. exact Hj.
  - destruct (bool_decide (i ∈ running)) eqn:Hin.
    2: { exact Hsh. }
    apply bool_decide_eq_true in Hin.
    unfold unload_hash_table in *. cbn [sv_seen sv_running sv_mhtables sv_w] in *.
    assert (Hsize : size (running ∖ {[i]}) = (size running - 1)%nat).
    { rewrite size_difference by set_solver. rewrite size_singleton. reflexivity. }
    assert (Hsz : size running <> 0%nat).
    { intros Hz. apply Hrun. apply gset_size_zero. exact Hz. }
    assert (Hsz' : size (running ∖ {[i]}) <> 0%nat).
    { intros Hz. apply Hrun'. apply gset_size_zero. exact Hz. }
    destruct (Z.eqb_spec (MultiHash.n_kernel t - 1) 0) as [Hz|Hz]; [lia|].
    rewrite Hm, Hev. unfold shared_by. cbn.
    split. { lia. }
    split. { exact Hrun'. }
    split. { set_solver. }
    split; [exact Hi0|].
    split; [reflexivity|]. split; [reflexivity|]. split; [exact Hne|].
    split. { rewrite lookup_insert_ne by congruence. rewrite lookup_insert_eq.
             rewrite Hrm. reflexivity. }
    split. { rewrite lookup_insert_eq. rewrite lookup_insert_ne by congruence.
             rewrite Hrev. reflexivity. }
    split; [exact Hq|]. exact Hseen.
Qed.

Lemma server_run_shared sched : forall sv i0 m ev,
  shared_by i0 m ev sv ->
  sessions_overlap sched sv = true ->
  shared_by i0 m ev (server_run sched sv).
Proof.
  induction sched as [|a sched IH]; intros sv i0 m ev Hsh Hover; [exact Hsh|].
  cbn [sessions_overlap] in Hover. apply andb_true_iff in Hover as [Hstep Hrest].
  cbn [server_run fold_left]. apply IH; [|exact Hrest].
  apply server_step_shared; [exact Hsh|].
  destruct Hsh as (_ & Hrun & _).
  rewrite bool_decide_eq_false_2 in Hstep by exact Hrun.
  cbn [orb] in Hstep. apply negb_true_iff, bool_decide_eq_false in Hstep.
  exact Hstep.
Qed.

(** C9: sessions that share one hash table run their sections under
    [mhtables->lock] in any order, the loading section of every session
    before its unloading section, and from the first session on there is
    always one between its two sections.  Then either no session got
    through the loading section and nothing was written, or the queue
    holds exactly one write of the hash table, enqueued by the one
    session that found n_kernel at 0 ([hash_loader] is set for it and
    for no other), its buffer and event are the ones published in
    [mhtables], they are retained once per running session, and every
    session that got through holds that buffer and has that event, and
    only it, in its wait list. *)
Theorem hash_table_transferred_once sched sv :
  fresh_server sv ->
  sessions_overlap sched sv = true ->
  fresh_server (server_run sched sv)
  \/ exists i0 m ev, shared_by i0 m ev (server_run sched sv).
Proof.
  revert sv. induction sched as [|a sched IH]; intros sv Hfresh Hover.
  { left. exact Hfresh. }
  cbn [sessions_overlap] in Hover. apply andb_true_iff in Hover as [_ Hrest].
  cbn [server_run fold_left].
  destruct (server_step_fresh a sv Hfresh) as [Hf | (i & dev & _ & Hsh)].
  - apply IH; assumption.
  - right. eexists _, _, _. apply server_run_shared; eassumption.
Qed.

End Sharing.

(** * Runs of the server *)
Section ServerRuns.
Import Pg Session ClServ.

Lemma TYPEALIGN_16_le x : x <= TYPEALIGN 16 x.
Proof.
  unfold TYPEALIGN. rewrite <- Z.ldiff_land.
  change (16 - 1) with (Z.ones 4).
  rewrite Z.ldiff_ones_r by lia.
  rewrite Z.shiftl_mul_pow2, Z.shiftr_div_pow2 by lia.
  change (2 ^ 4) with 16.
  pose proof (Z.div_mod (x + Z.ones 4) 16 ltac:(lia)).
  pose proof (Z.mod_pos_bound (x + Z.ones 4) 16 ltac:(lia)).
  change (Z.ones 4) with 15 in *. lia.
Qed.

(** a runtime in which every call succeeds *)
Definition demo_device : Device :=
  {| cl_status := fun _ => CL_SUCCESS; lookup_device_program := ProgramReady 1000;
     device_schedule := 0 |}.

Definition demo_clworld : ClWorld :=
  {| cl_next := 1; cl_queue := []; cl_refcnt := ∅ |}.

(** a session over an outer chunk of two rows, with a destination of
    [rooms] rooms *)
Definition demo_message (format : kds_format) (rooms : Z) : pgstrom_gpuhashjoin :=
  {| msg_errcode := StromError_Success; mhtables := demo_mhtables;
     pds := {| kds := {| kds_length := 4096; kds_usage := 0; kds_ncols := 1;
                         kds_nitems := 2; kds_nrooms := 2; kds_nblocks := 0;
                         kds_maxblocks := 0; kds_format_of := KDS_FORMAT_ROW |};
               ktoast := None; pds_rows := [] |};
     pds_dest := {| kds := Demo.kds0 format rooms 4096; ktoast := None;
                    pds_rows := [] |};
     kparams_length := 32;
     kresults := {| nrels := 2; nrooms := rooms; nitems := 0;
                    kr_errcode := StromError_Success |};
     krowmap := {| nvalids := -1; rindex := [] |} |}.

Lemma demo_device_works : device_works demo_device.
Proof. split; [reflexivity|]. exists 1000%nat. reflexivity. Qed.

(** the first submission of the session with a destination too small *)
Definition demo_submitted
  : process_outcome * MultiHash.pgstrom_multihash_tables * ClWorld :=
  clserv_process_gpuhashjoin demo_device (demo_message KDS_FORMAT_TUPSLOT 2)
    demo_mhtables demo_clworld.

Definition submitted_clghj (o : process_outcome) : clstate_gpuhashjoin :=
  match o with
  | Submitted c => c
  | _ => clghj_zero
  end.

Lemma demo_layout_sane format rooms :
  layout_sane (H:=Demo.env) (H0:=Demo.store)
    (kds (pds_dest (demo_message format rooms))).
Proof.
  split; [exact TYPEALIGN_16_le|]. split; [reflexivity|].
  split; discriminate.
Qed.

Lemma overflow_retried_once_witness :
  exists e,
    run_session (H:=Demo.env) (H0:=Demo.store) 2 demo_device 7
      (demo_message KDS_FORMAT_ROW_FLAT 2) demo_mhtables demo_clworld
      (Demo.shmem [Some 176; Some 64]) = Ok e
    /\ se_retries e = 1%nat
    /\ nrooms (kresults (se_reply e)) = 7.
Proof.
  destruct (overflow_retried_once (H:=Demo.env) (H0:=Demo.store) 0 demo_device 7
              (demo_message KDS_FORMAT_ROW_FLAT 2) demo_mhtables demo_clworld
              (Demo.shmem [Some 176; Some 64]))
    as (e & He & [(_ & Hr & _ & Hn & _) | (Hg & _)]).
  - exact demo_device_works.
  - right; reflexivity.
  - intros _. apply demo_layout_sane.
  - vm_compute; reflexivity.
  - exists e. split; [exact He|]. split; [exact Hr|exact Hn].
  - exfalso. apply Hg. exists 176, 64, []. reflexivity.
Defined.

(** three sessions: the second enters while the first runs, the third
    while the second runs *)
Definition demo_server : server :=
  {| sv_mhtables := demo_mhtables; sv_w := demo_clworld; sv_running := ∅;
     sv_seen := ∅ |}.

Definition demo_schedule : list section_call :=
  [LoadHashTable 1 demo_device; LoadHashTable 2 demo_device; UnloadHashTable 1;
   LoadHashTable 3 demo_device; UnloadHashTable 2].

Lemma hash_table_transferred_once_witness :
  exists i0 m ev, shared_by i0 m ev (server_run demo_schedule demo_server).
Proof.
  destruct (hash_table_transferred_once demo_schedule demo_server)
    as [(Hseen & _) | Hsh].
  - repeat split; reflexivity.
  - vm_compute; reflexivity.
  - exfalso. vm_compute in Hseen. discriminate Hseen.
  - exact Hsh.
Defined.

End ServerRuns.

(** * The columns of the pseudo scan *)
Section PseudoScanColumns.
Import PseudoScan.
Variables exprType exprTypmod exprCollation : Node -> Z.

(** What the walker does to the reference flags of one variable. *)
Definition marked (mode r r' : Z) : Prop := r' = r \/ r' = Z.lor r mode.

Lemma mark_varref_spec node mode : forall vars refs nums refs',
  mark_varref node mode vars refs nums = Some refs' ->
  Forall2 (marked mode) refs refs'.
Proof.
  induction vars as [|v vars IH]; intros [|r refs] [|n nums] refs' Hm;
    try discriminate.
  cbn [mark_varref] in Hm. destruct (equal node v).
  - injection Hm as <-. constructor; [right; reflexivity|].
    apply Forall2_same_length_lookup. split; [reflexivity|].
    intros i x y Hx Hy. left. congruence.
  - destruct (mark_varref node mode vars refs nums) eqn:Hrec; [|discriminate].
    injection Hm as <-. constructor; [left; reflexivity|].
    eapply IH. exact Hrec.
Qed.

(** The numbers the walker gives to the variables: 1, 2, ... *)
Definition numbering (n : nat) : list Z :=
  map (fun i => Z.of_nat i + 1) (seq 0 n).

Lemma numbering_S n : numbering (S n) = numbering n ++ [Z.of_nat n + 1].
Proof. unfold numbering. rewrite seq_S, map_app. reflexivity. Qed.

Lemma length_numbering n : length (numbering n) = n.
Proof. unfold numbering. rewrite length_map, length_seq. reflexivity. Qed.

Lemma lookup_numbering n i x :
  numbering n !! i = Some x -> x = Z.of_nat i + 1 /\ (i < n)%nat.
Proof.
  unfold numbering. rewrite list_lookup_fmap.
  intros Hx. destruct (seq 0 n !! i) as [j|] eqn:Hj; [|discriminate].
  apply lookup_seq in Hj as [-> Hlt]. injection Hx as <-. split; [reflexivity|lia].
Qed.

(** The context while the walker runs with [refmode] at [mode]: the
    first [k] variables were found by the host walks, the others by the
    device walks only. *)
Definition varlist_inv (mode : Z) (k : nat) (c : pscan_varlist_context) : Prop :=
  refmode c = mode
  /\ length (varlist c) = length (varrefs c)
  /\ resnums c = numbering (length (varrefs c))
  /\ exists h d, varrefs c = h ++ d /\ length h = k
                 /\ Forall (fun r => r = 1 \/ r = 3) h /\ Forall (eq 2) d.

Lemma Forall_marked (P : Z -> Prop) mode l l' :
  (forall r, P r -> P (Z.lor r mode)) ->
  Forall2 (marked mode) l l' -> Forall P l -> Forall P l'.
Proof.
  intros HP H2. induction H2 as [|r r' l l' Hm _ IH]; intros Hl; [constructor|].
  inversion Hl; subst. constructor; [|apply IH; assumption].
  destruct Hm as [-> | ->]; auto.
Qed.

(** The host walks: every variable found is referenced by the host. *)
Lemma walker_leaf_host node k c :
  varlist_inv 1 k c -> length (varrefs c) = k ->
  exists k', varlist_inv 1 k' (walker_leaf node c)
             /\ length (varrefs (walker_leaf node c)) = k'.
Proof.
  intros (Hmode & Hlen & Hnums & h & d & Hrefs & Hh & Hfh & Hfd) Hk.
  assert (d = []) as ->.
  { apply nil_length_inv. rewrite Hrefs, length_app in Hk. lia. }
  rewrite app_nil_r in Hrefs. subst h.
  unfold walker_leaf. rewrite Hmode.
  destruct (mark_varref node 1 (varlist c) (varrefs c) (resnums c)) as [refs'|] eqn:Hm.
  - apply mark_varref_spec in Hm. pose proof (Forall2_length _ _ _ Hm) as Hl.
    exists (length refs'). split; [|reflexivity].
    split; [reflexivity|]. cbn [varlist varrefs resnums].
    split; [lia|]. split; [rewrite <- Hl; exact Hnums|].
    exists refs', []. rewrite app_nil_r. split; [reflexivity|].
    split; [reflexivity|]. split; [|constructor].
    eapply Forall_marked; [|exact Hm|exact Hfh].
    intros r [-> | ->]; [left|right]; reflexivity.
  - exists (S (length (varrefs c))). unfold varlist_inv.
    cbn [varlist varrefs resnums refmode].
    rewrite !length_app. cbn [length]. split; [|lia].
    split; [reflexivity|]. split; [lia|]. split.
    + rewrite Hnums, length_numbering.
      replace (length (varrefs c) + 1)%nat with (S (length (varrefs c))) by lia.
      rewrite numbering_S. reflexivity.
    + exists (varrefs c ++ [1]), []. rewrite app_nil_r.
      split; [reflexivity|]. split; [rewrite length_app; cbn; lia|].
      split; [|constructor]. apply Forall_app. split; [exact Hfh|].
      constructor; [left; reflexivity|constructor].
Qed.

(** The device walks: the variables the host walks found keep their
    host flag, the new ones are referenced by the device only. *)
Lemma walker_leaf_device node k c :
  varlist_inv 2 k c -> varlist_inv 2 k (walker_leaf node c).
Proof.
  intros (Hmode & Hlen & Hnums & h & d & Hrefs & Hh & Hfh & Hfd).
  unfold walker_leaf. rewrite Hmode.
  destruct (mark_varref node 2 (varlist c) (varrefs c) (resnums c)) as [refs'|] eqn:Hm.
  - apply mark_varref_spec in Hm. pose proof (Forall2_length _ _ _ Hm) as Hl.
    split; [reflexivity|]. cbn [varlist varrefs resnums].
    split; [lia|]. split; [rewrite <- Hl; exact Hnums|].
    rewrite Hrefs in Hm. apply Forall2_app_inv_l in Hm
      as (h' & d' & Hmh & Hmd & ->).
    exists h', d'. split; [reflexivity|].
    split; [rewrite <- (Forall2_length _ _ _ Hmh); exact Hh|]. split.
    + eapply Forall_marked; [|exact Hmh|exact Hfh].
      intros r [-> | ->]; right; reflexivity.
    + eapply Forall_marked; [|exact Hmd|exact Hfd].
      intros r <-. reflexivity.
  - unfold varlist_inv. cbn [varlist varrefs resnums refmode].
    split; [reflexivity|]. rewrite !length_app. cbn [length]. split; [lia|]. split.
    + rewrite Hnums, length_numbering.
      replace (length (varrefs c) + 1)%nat with (S (length (varrefs c))) by lia.
      rewrite numbering_S. reflexivity.
    + exists h, (d ++ [2]). split; [rewrite Hrefs, app_assoc; reflexivity|].
      split; [exact Hh|]. split; [exact Hfh|].
      apply Forall_app. split; [exact Hfd|]. constructor; [reflexivity|constructor].
Qed.

(** A property of the context that the walker keeps at every variable
    is kept by the whole walk. *)
Lemma build_pscan_varlist_walker_keeps (P : pscan_varlist_context -> Prop) :
  (forall node c, P c -> P (walker_leaf node c)) ->
  forall node c, P c -> P (build_pscan_varlist_walker node c).
Proof.
  intros Hleaf. fix IH 1. intros [n a | p | tag args] c Hc.
  - apply Hleaf. exact Hc.
  - apply Hleaf. exact Hc.
  - cbn [build_pscan_varlist_walker]. revert c Hc.
    induction args as [|x args IHargs]; intros c Hc; [exact Hc|].
    apply IHargs. apply IH. exact Hc.
Qed.

Lemma walk_list_keeps (P : pscan_varlist_context -> Prop) :
  (forall node c, P c -> P (walker_leaf node c)) ->
  forall l c, P c -> P (walk_list l c).
Proof.
  intros Hleaf l. unfold walk_list.
  induction l as [|x l IH]; intros c Hc; [exact Hc|].
  cbn [fold_left]. apply IH. apply build_pscan_varlist_walker_keeps; assumption.
Qed.

Definition host_walk_inv (c : pscan_varlist_context) : Prop :=
  varlist_inv 1 (length (varrefs c)) c.

Lemma collect_pscan_vars_inv ghjoin :
  exists k, varlist_inv 2 k (collect_pscan_vars ghjoin).
Proof.
  unfold collect_pscan_vars.
  set (c0 := {| varlist := []; varrefs := []; resnums := []; refmode := 1 |}).
  assert (Hhost : forall node c, host_walk_inv c -> host_walk_inv (walker_leaf node c)).
  { intros node c Hc.
    destruct (walker_leaf_host node _ c Hc eq_refl) as (k' & Hinv & Hk').
    unfold host_walk_inv. rewrite Hk'. exact Hinv. }
  assert (H0 : host_walk_inv c0).
  { split; [reflexivity|]. split; [reflexivity|]. split; [reflexivity|].
    exists [], []. repeat split; constructor. }
  pose proof (walk_list_keeps _ Hhost (targetlist ghjoin) _ H0) as H1.
  pose proof (walk_list_keeps _ Hhost (qual ghjoin) _ H1) as H2.
  pose proof (walk_list_keeps _ Hhost (host_clauses ghjoin) _ H2) as H3.
  set (c3 := walk_list (host_clauses ghjoin) _) in *.
  exists (length (varrefs c3)).
  apply (walk_list_keeps (varlist_inv 2 (length (varrefs c3))));
    [intros; apply walker_leaf_device; assumption|].
  apply (walk_list_keeps (varlist_inv 2 (length (varrefs c3))));
    [intros; apply walker_leaf_device; assumption|].
  destruct H3 as (_ & Hlen & Hnums & Hparts).
  split; [reflexivity|]. split; [exact Hlen|]. split; [exact Hnums|exact Hparts].
Qed.

(** The column of an entry: its number in the pseudo scan and whether
    the host refers to it. *)
Definition column (v : vartrans_info) : Z * bool := (vt_resno v, ref_host v).

Definition host_bit (mode : Z) : bool := negb (Z.land mode 1 =? 0).

(** The columns the pending variables stand for. *)
Definition columns (refs nums : list Z) : list (Z * bool) :=
  zip_with (fun mode num => (num, host_bit mode)) refs nums.

(** One depth moves columns from the pending variables to the entries. *)
Lemma match_depth_columns depth tlist : forall vars refs nums,
  length vars = length refs -> length refs = length nums ->
  forall out vars' refs' nums',
    match_depth exprType exprTypmod exprCollation depth tlist vars refs nums
    = (out, (vars', refs', nums')) ->
    map column out ++ columns refs' nums' ≡ₚ columns refs nums
    /\ length vars' = length refs' /\ length refs' = length nums'.
Proof.
  induction vars as [|node vars IH]; intros [|mode refs] [|num nums] Hl1 Hl2;
    try discriminate; intros out vars' refs' nums' Hm.
  { injection Hm as <- <- <- <-. repeat split; reflexivity. }
  cbn [match_depth] in Hm.
  destruct (match_depth exprType exprTypmod exprCollation depth tlist vars refs nums)
    as [temp [[vars2 refs2] nums2]] eqn:Hrec.
  injection Hl1 as Hl1. injection Hl2 as Hl2.
  destruct (IH refs nums Hl1 Hl2 _ _ _ _ Hrec) as (Hp & Hv & Hr).
  destruct (List.find _ tlist) as [tle|].
  - injection Hm as <- <- <- <-. split; [|split; assumption].
    cbn [map column vt_resno ref_host columns zip_with app].
    constructor. exact Hp.
  - injection Hm as <- <- <- <-. split; [|split; cbn [length]; congruence].
    cbn [columns zip_with]. rewrite <- Permutation_middle.
    constructor. exact Hp.
Qed.

Lemma match_depths_columns : forall tlists depth vars refs nums,
  length vars = length refs -> length refs = length nums ->
  forall out vars' refs' nums',
    match_depths exprType exprTypmod exprCollation depth tlists vars refs nums
    = (out, (vars', refs', nums')) ->
    map column out ++ columns refs' nums' ≡ₚ columns refs nums
    /\ length vars' = length refs' /\ length refs' = length nums'.
Proof.
  induction tlists as [|tlist tlists IH]; intros depth vars refs nums Hl1 Hl2
    out vars' refs' nums' Hm.
  { injection Hm as <- <- <- <-. repeat split; assumption || reflexivity. }
  cbn [match_depths] in Hm.
  destruct (match_depth exprType exprTypmod exprCollation depth tlist vars refs nums)
    as [temp [[vars1 refs1] nums1]] eqn:H1.
  destruct (match_depth_columns _ _ _ _ _ Hl1 Hl2 _ _ _ _ H1) as (Hp1 & Hv1 & Hr1).
  destruct (match_depths exprType exprTypmod exprCollation (depth + 1) tlists
              vars1 refs1 nums1) as [rest [[vars2 refs2] nums2]] eqn:H2.
  destruct (IH _ _ _ _ Hv1 Hr1 _ _ _ _ H2) as (Hp2 & Hv2 & Hr2).
  injection Hm as <- <- <- <-. split; [|split; assumption].
  rewrite map_app, <- app_assoc, Hp2. exact Hp1.
Qed.

(** The columns the walks leave: number [i + 1] for the variable at
    position [i], referenced by the host exactly if it is one of the
    first [k]. *)
Lemma columns_varlist_inv k c num host :
  varlist_inv 2 k c ->
  (num, host) ∈ columns (varrefs c) (resnums c) <->
  1 <= num <= Z.of_nat (length (varrefs c))
  /\ host = bool_decide (num <= Z.of_nat k).
Proof.
  intros (_ & _ & Hnums & h & d & Hrefs & Hh & Hfh & Hfd).
  assert (Hmode : forall i mode, varrefs c !! i = Some mode ->
            host_bit mode = bool_decide (Z.of_nat i + 1 <= Z.of_nat k)).
  { intros i mode Hi. rewrite Hrefs in Hi.
    apply lookup_app_Some in Hi as [Hi | [Hge Hi]].
    - pose proof (lookup_lt_Some _ _ _ Hi).
      rewrite Forall_forall in Hfh.
      destruct (Hfh mode) as [-> | ->];
        [eapply list_elem_of_lookup_2; exact Hi|..];
        rewrite bool_decide_eq_true_2 by lia; reflexivity.
    - rewrite Forall_forall in Hfd.
      rewrite <- (Hfd mode) by (eapply list_elem_of_lookup_2; exact Hi).
      rewrite bool_decide_eq_false_2 by lia. reflexivity. }
  unfold columns. rewrite Hnums. split.
  - intros Hin. apply elem_of_lookup_zip_with in Hin
      as (i & mode & n & [= -> ->] & Hi & Hn).
    apply lookup_numbering in Hn as [-> Hlt].
    split; [lia|]. apply Hmode. exact Hi.
  - intros [Hrange ->].
    assert (Hlt : (Z.to_nat (num - 1) < length (varrefs c))%nat) by lia.
    destruct (lookup_lt_is_Some_2 _ _ Hlt) as [mode Hi].
    apply elem_of_lookup_zip_with. exists (Z.to_nat (num - 1)), mode, num.
    split; [|split; [exact Hi|]].
    + f_equal. rewrite (Hmode _ _ Hi). apply bool_decide_ext. lia.
    + unfold numbering. rewrite list_lookup_fmap, lookup_seq_lt by exact Hlt.
      cbn. f_equal. lia.
Qed.

(** Every entry of the result stands for a column the walks left. *)
Lemma build_pseudo_scan_vartrans_columns ghjoin :
  exists k n,
    (forall v, v ∈ build_pseudo_scan_vartrans exprType exprTypmod exprCollation ghjoin ->
       1 <= vt_resno v <= n
       /\ ref_host v = bool_decide (vt_resno v <= k))
    /\ (snd (build_pseudo_scan_vartrans_pending exprType exprTypmod exprCollation ghjoin) = [] ->
        forall r, 1 <= r <= n ->
          exists v, v ∈ build_pseudo_scan_vartrans exprType exprTypmod exprCollation ghjoin
                    /\ vt_resno v = r)
    /\ 0 <= k <= n.
Proof.
  destruct (collect_pscan_vars_inv ghjoin) as (k & Hinv).
  exists (Z.of_nat k), (Z.of_nat (length (varrefs (collect_pscan_vars ghjoin)))).
  unfold build_pseudo_scan_vartrans, build_pseudo_scan_vartrans_pending.
  destruct (match_depths _ _ _ _ _ _ _ _) as [out [[vars' refs'] nums']] eqn:Hm.
  cbn [fst snd].
  pose proof Hinv as (_ & Hl1 & Hnums & h & d & Hrefs & Hh & _).
  assert (Hl2 : length (varrefs (collect_pscan_vars ghjoin))
                = length (resnums (collect_pscan_vars ghjoin)))
    by (rewrite Hnums, length_numbering; reflexivity).
  destruct (match_depths_columns _ _ _ _ _ Hl1 Hl2 _ _ _ _ Hm) as (Hp & Hv & Hr).
  split; [|split].
  - intros v Hin.
    assert (Hc : column v ∈ columns (varrefs (collect_pscan_vars ghjoin))
                   (resnums (collect_pscan_vars ghjoin))).
    { rewrite <- Hp. apply elem_of_app. left.
      apply list_elem_of_In, in_map, list_elem_of_In. exact Hin. }
    apply (columns_varlist_inv k) in Hc; [|exact Hinv]. exact Hc.
  - intros -> r Hrange.
    destruct refs'; [|discriminate]. cbn [columns zip_with] in Hp.
    rewrite app_nil_r in Hp.
    assert (Hc : (r, bool_decide (r <= Z.of_nat k))
                 ∈ columns (varrefs (collect_pscan_vars ghjoin))
                     (resnums (collect_pscan_vars ghjoin))).
    { apply (columns_varlist_inv k); [exact Hinv|]. split; [exact Hrange|reflexivity]. }
    rewrite <- Hp in Hc. apply list_elem_of_In, in_map_iff in Hc as (v & Hv' & Hin).
    exists v. split; [apply list_elem_of_In; exact Hin|].
    injection Hv' as Hv' _. exact Hv'.
  - rewrite Hrefs, length_app. lia.
Qed.

(** C5: in the list build_pseudo_scan_vartrans returns, an entry the
    host refers to has a smaller column number than any entry only the
    device refers to; and for a plan in which every variable is found in
    the target list of some depth (the source asserts it), the columns
    the host refers to are exactly the numbers 1 to k for some k. *)
Theorem host_columns_form_dense_prefix ghjoin :
  let vartrans :=
    build_pseudo_scan_vartrans exprType exprTypmod exprCollation ghjoin in
  (forall v1 v2, In v1 vartrans -> In v2 vartrans ->
     ref_host v1 = true -> ref_host v2 = false ->
     vt_resno v1 < vt_resno v2)
  /\ (snd (build_pseudo_scan_vartrans_pending exprType exprTypmod exprCollation ghjoin)
      = [] ->
      exists k, forall r,
        1 <= r <= k <->
        exists v, In v vartrans /\ ref_host v = true /\ vt_resno v = r).
Proof.
  intros vartrans.
  destruct (build_pseudo_scan_vartrans_columns ghjoin)
    as (k & n & Hcol & Hall & Hk).
  split.
  - intros v1 v2 H1 H2 Hh1 Hh2.
    apply list_elem_of_In, Hcol in H1 as [_ E1].
    apply list_elem_of_In, Hcol in H2 as [_ E2].
    rewrite Hh1 in E1. rewrite Hh2 in E2.
    symmetry in E1, E2.
    apply bool_decide_eq_true in E1. apply bool_decide_eq_false in E2. lia.
  - intros Hvalid. exists k. intros r. split.
    + intros Hr. destruct (Hall Hvalid r ltac:(lia)) as (v & Hin & Hres).
      exists v. split; [apply list_elem_of_In; exact Hin|]. split; [|exact Hres].
      destruct (Hcol v Hin) as [_ ->]. apply bool_decide_eq_true. lia.
    + intros (v & Hin & Hhost & <-).
      apply list_elem_of_In, Hcol in Hin as [Hr E].
      rewrite Hhost in E. symmetry in E. apply bool_decide_eq_true in E. lia.
Qed.

End PseudoScanColumns.

(** * A plan and its columns *)
Section PseudoScanRuns.
Import PseudoScan.

(** a join of two relations on the second column of the first and the
    column of the second; the host reads the first column of each *)
Definition demo_plan : GpuHashJoin :=
  {| targetlist := [Var 1 1; Var 2 1]; qual := []; host_clauses := [];
     hash_clauses := [Expr 1 [Var 1 2; Var 2 1]]; qual_clauses := [];
     outer_targetlists :=
       [[{| expr := Var 1 1; resno := 1; resname := None |};
         {| expr := Var 1 2; resno := 2; resname := None |}];
        [{| expr := Var 2 1; resno := 1; resname := None |}]] |}.

Definition demo_vartrans : list vartrans_info :=
  build_pseudo_scan_vartrans (fun _ => 23) (fun _ => -1) (fun _ => 0) demo_plan.

Definition no_vartrans : vartrans_info :=
  {| srcdepth := 0; srcresno := 0; vt_resno := 0; vt_resname := None;
     vartype := 0; vartypmod := 0; varcollid := 0; ref_host := false;
     ref_device := false; vt_expr := Var 0 0 |}.

Lemma host_columns_form_dense_prefix_witness :
  vt_resno (nth 2 demo_vartrans no_vartrans)
  < vt_resno (nth 1 demo_vartrans no_vartrans)
  /\ exists k, forall r,
       1 <= r <= k <->
       exists v, In v demo_vartrans /\ ref_host v = true /\ vt_resno v = r.
Proof.
  destruct (host_columns_form_dense_prefix (fun _ => 23) (fun _ => -1)
              (fun _ => 0) demo_plan) as [Hlt Hdense].
  split.
  - apply Hlt.
    + right; right; left; reflexivity.
    + right; left; reflexivity.
    + reflexivity.
    + reflexivity.
  - apply Hdense. reflexivity.
Defined.

End PseudoScanRuns.

(** * What a submission leaves behind *)
Section Residency.
Import Pg Session ClServ.

(** A computation of the body with what holds between the state it
    starts in and the state it leaves through [goto error] ([E]) or by
    running to its end ([Q]). *)
Definition cl_post {A} (E Q : pstate -> pstate -> Prop) (m : CL A) : Prop :=
  forall st,
    match m st with
    | inl (_, st') => E st st'
    | inr (_, st') => Q st st'
    end.

Section Post.
Variables R Q : pstate -> pstate -> Prop.
Hypothesis R_refl : forall st, R st st.
Hypothesis R_trans : forall a b c, R a b -> R b c -> R a c.
Hypothesis RQ_trans : forall a b c, R a b -> Q b c -> Q a c.

Lemma cl_post_bind {A B} (m : CL A) (k : A -> CL B) :
  cl_post R R m -> (forall a, cl_post R Q (k a)) -> cl_post R Q (cl_bind m k).
Proof.
  intros Hm Hk st. unfold cl_bind. specialize (Hm st).
  destruct (m st) as [[rc st1]|[a st1]]; [exact Hm|].
  specialize (Hk a st1).
  destruct (k a st1) as [[rc st2]|[b st2]]; eauto.
Qed.

Lemma cl_post_weaken {A} (m : CL A) :
  (forall a b, R a b -> Q a b) -> cl_post R R m -> cl_post R Q m.
Proof.
  intros HRQ Hm st. specialize (Hm st).
  destruct (m st) as [[rc st1]|[a st1]]; auto.
Qed.

Lemma cl_post_ret {A} (a : A) : cl_post R R (cl_ret a).
Proof. intros st. apply R_refl. Qed.

Lemma cl_post_goto_error {A} rc : cl_post R Q (@goto_error A rc).
Proof. intros st. apply R_refl. Qed.

Lemma cl_post_check dev c : cl_post R R (cl_check dev c).
Proof. intros st. unfold cl_check. destruct (_ =? _); apply R_refl. Qed.

Lemma cl_post_get_clghj : cl_post R R get_clghj.
Proof. intros st. apply R_refl. Qed.

End Post.

(** [mhtables] and the [m_hash] of the state object stay as they are. *)
Definition same_hash_table (st st' : pstate) : Prop :=
  st_mhtables st' = st_mhtables st
  /\ m_hash (st_clghj st') = m_hash (st_clghj st).

Lemma same_hash_table_refl st : same_hash_table st st.
Proof. split; reflexivity. Qed.

Lemma same_hash_table_trans a b c :
  same_hash_table a b -> same_hash_table b c -> same_hash_table a c.
Proof. intros [? ?] [? ?]. split; congruence. Qed.

Ltac post_step Hrefl Htrans :=
  first
    [ apply cl_post_bind; [exact Htrans|exact Htrans| |intros ?]
    | apply cl_post_ret; exact Hrefl
    | apply cl_post_goto_error; exact Hrefl
    | apply cl_post_check; exact Hrefl
    | apply cl_post_get_clghj; exact Hrefl
    | match goal with
      | |- cl_post _ _ (match ?x with _ => _ end) => destruct x
      end ].

Lemma process_submit_keeps dev gpuhashjoin :
  cl_post same_hash_table same_hash_table (process_submit dev gpuhashjoin).
Proof.
  unfold process_submit, clserv_dmasend_data_store, cl_set_kernel_args.
  cbv zeta.
  repeat first
    [ post_step same_hash_table_refl same_hash_table_trans
    | (intros ?; unfold with_clghj, cl_new, cl_submit; cbn; split; reflexivity) ].
Qed.

(** The residency fields as the sections under the lock keep them: the
    buffer and its event are set exactly while a kernel uses them. *)
Definition residency_ok (t : MultiHash.pgstrom_multihash_tables) : Prop :=
  if MultiHash.n_kernel t =? 0
  then MultiHash.m_hash t = None /\ MultiHash.ev_hash t = None
  else is_Some (MultiHash.m_hash t) /\ is_Some (MultiHash.ev_hash t).

Lemma load_hash_table_outcome dev t c w :
  residency_ok t ->
  m_hash c = None ->
  let '(r, t', c', w') := load_hash_table dev t c w in
  match r with
  | inl _ =>
      MultiHash.n_kernel t' = MultiHash.n_kernel t
      /\ MultiHash.m_hash t' = MultiHash.m_hash t
      /\ MultiHash.ev_hash t' = MultiHash.ev_hash t
      /\ m_hash c' = None
  | inr _ =>
      MultiHash.n_kernel t' = MultiHash.n_kernel t + 1
      /\ is_Some (MultiHash.m_hash t') /\ is_Some (MultiHash.ev_hash t')
      /\ m_hash c' = MultiHash.m_hash t'
      /\ (MultiHash.n_kernel t <> 0 ->
          MultiHash.m_hash t' = MultiHash.m_hash t
          /\ MultiHash.ev_hash t' = MultiHash.ev_hash t)
  end.
Proof.
  unfold residency_ok, load_hash_table. intros Hok Hc.
  destruct (Z.eqb_spec (MultiHash.n_kernel t) 0) as [Hn|Hn].
  - destruct (negb (cl_status dev (Call_CreateBuffer BufHash) =? CL_SUCCESS)).
    { cbn. auto. }
    cbn [cl_fresh].
    destruct (negb (cl_status dev (Call_EnqueueWriteBuffer BufHash) =? CL_SUCCESS)).
    { cbn. auto. }
    cbn. repeat split; eauto. all: intros; lia.
  - destruct Hok as [Hm He]. cbn. repeat split; auto.
Qed.

Lemma unload_hash_table_n_kernel t w :
  MultiHash.n_kernel (fst (unload_hash_table t w)) = MultiHash.n_kernel t - 1.
Proof.
  unfold unload_hash_table. cbn [fst]. destruct (_ =? _); reflexivity.
Qed.

Lemma unload_hash_table_residency t w :
  let t' := fst (unload_hash_table t w) in
  if MultiHash.n_kernel t =? 1
  then MultiHash.m_hash t' = None /\ MultiHash.ev_hash t' = None
  else MultiHash.m_hash t' = MultiHash.m_hash t
       /\ MultiHash.ev_hash t' = MultiHash.ev_hash t.
Proof.
  unfold unload_hash_table. cbn [fst].
  destruct (Z.eqb_spec (MultiHash.n_kernel t - 1) 0) as [E|E];
    destruct (Z.eqb_spec (MultiHash.n_kernel t) 1) as [E1|E1]; try lia;
    split; reflexivity.
Qed.

Lemma process_error_path_no_hash st :
  m_hash (st_clghj st) = None ->
  fst (process_error_path st) = st_mhtables st.
Proof. intros Hm. unfold process_error_path. rewrite Hm. reflexivity. Qed.

Lemma process_error_path_unloads st :
  is_Some (m_hash (st_clghj st)) ->
  exists w, fst (process_error_path st) = fst (unload_hash_table (st_mhtables st) w).
Proof.
  intros [m Hm]. unfold process_error_path. rewrite Hm.
  match goal with
  | |- context [unload_hash_table ?t ?w] =>
      exists w; destruct (unload_hash_table t w)
  end.
  reflexivity.
Qed.

Lemma process_outcome_residency dev gpuhashjoin t w :
  residency_ok t ->
  match clserv_process_gpuhashjoin dev gpuhashjoin t w with
  | (InWaitq, t', w') => t' = t /\ w' = w
  | (Replied _, t', _) =>
      MultiHash.n_kernel t' = MultiHash.n_kernel t
      /\ MultiHash.m_hash t' = MultiHash.m_hash t
      /\ MultiHash.ev_hash t' = MultiHash.ev_hash t
  | (Submitted c, t', _) =>
      MultiHash.n_kernel t' = MultiHash.n_kernel t + 1
      /\ is_Some (MultiHash.m_hash t')
      /\ m_hash c = MultiHash.m_hash t'
      /\ (MultiHash.n_kernel t <> 0 ->
          MultiHash.m_hash t' = MultiHash.m_hash t
          /\ MultiHash.ev_hash t' = MultiHash.ev_hash t)
  end.
Proof.
  intros Hok. unfold clserv_process_gpuhashjoin.
  destruct (negb (cl_status dev Call_calloc =? CL_SUCCESS)); [auto|].
  destruct (lookup_device_program dev) as [| |prog]; [auto| |].
  { pose proof (process_error_path_no_hash
                  {| st_clghj := clghj_zero; st_mhtables := t; st_w := w |} eq_refl) as H.
    destruct (process_error_path _) as [t' w']. cbn in H. subst t'. auto. }
  unfold process_body, cl_bind at 1, cl_load_hash_table.
  cbn [st_mhtables st_clghj st_w].
  pose proof (load_hash_table_outcome dev t (set_program (Some prog) clghj_zero) w
                Hok eq_refl) as Hload.
  destruct (load_hash_table dev t (set_program (Some prog) clghj_zero) w)
    as [[[r t1] c1] w1].
  destruct r as [rc|[]].
  - destruct Hload as (Hn & Hm & He & Hc).
    pose proof (process_error_path_no_hash
                  {| st_clghj := c1; st_mhtables := t1; st_w := w1 |} Hc) as H.
    destruct (process_error_path _) as [t' w']. cbn in H. subst t'. auto.
  - destruct Hload as (Hn & Hm & He & Hc & Hsh).
    pose proof (process_submit_keeps dev gpuhashjoin
                  {| st_clghj := c1; st_mhtables := t1; st_w := w1 |}) as Hk.
    destruct (process_submit dev gpuhashjoin _) as [[rc st2]|[[] st2]];
      destruct Hk as [Ht Hmh]; cbn [st_mhtables st_clghj] in Ht, Hmh.
    + assert (Hs : is_Some (m_hash (st_clghj st2))) by (rewrite Hmh, Hc; exact Hm).
      destruct (process_error_path_unloads st2 Hs) as (w' & Hu).
      destruct (process_error_path st2) as [t' w2]. cbn [fst] in Hu. subst t'.
      rewrite Ht. rewrite unload_hash_table_n_kernel.
      pose proof (unload_hash_table_residency t1 w') as Hres. cbv zeta in Hres.
      unfold residency_ok in Hok.
      destruct (Z.eqb_spec (MultiHash.n_kernel t1) 1) as [E1|E1];
        destruct (Z.eqb_spec (MultiHash.n_kernel t) 0) as [E0|E0]; try lia.
      * destruct Hok as [-> ->]. destruct Hres as [-> ->]. repeat split. lia.
      * destruct Hres as [-> ->]. destruct (Hsh E0) as [-> ->]. repeat split. lia.
    + rewrite Ht, Hmh. auto.
Qed.


(** X1: whatever the runtime answers to the calls of
    clserv_process_gpuhashjoin, a message that is answered at once
    leaves n_kernel, m_hash and ev_hash of the shared hash table as they
    were; a message that waits for its program leaves everything as it
    was; and a message whose commands are submitted holds one more use
    of the buffer published in [mhtables]. *)
Theorem process_failure_restores_residency dev gpuhashjoin t w :
  residency_ok t ->
  match clserv_process_gpuhashjoin dev gpuhashjoin t w with
  | (InWaitq, t', w') => t' = t /\ w' = w
  | (Replied _, t', _) =>
      MultiHash.n_kernel t' = MultiHash.n_kernel t
      /\ MultiHash.m_hash t' = MultiHash.m_hash t
      /\ MultiHash.ev_hash t' = MultiHash.ev_hash t
  | (Submitted c, t', _) =>
      MultiHash.n_kernel t' = MultiHash.n_kernel t + 1
      /\ is_Some (MultiHash.m_hash t')
      /\ m_hash c = MultiHash.m_hash t'
  end.
Proof.
  intros Hok. pose proof (process_outcome_residency dev gpuhashjoin t w Hok) as H.
  destruct (clserv_process_gpuhashjoin dev gpuhashjoin t w) as [[[| c | m] t'] w'];
    [exact H| |exact H].
  destruct H as (? & ? & ? & _). auto.
Qed.

Section Callback.
Context `{Env} `{DataStore}.

(** X2: clserv_respond_hashjoin, whatever the status of the event and
    the result of the device, gives back the one use of the hash table
    the session held: n_kernel goes down by one, and the buffer and its
    event are cleared from [mhtables] exactly when it reaches 0.  It puts
    no command into the queue.  When the event did not complete, the
    message is answered with StromError_OpenCLInternal, also if the
    result buffer reports StromError_DataStoreNoSpace: nothing is
    allocated and nothing is retried. *)
Theorem respond_returns_hash_table ev_status clghj gpuhashjoin t w shm :
  let '(action, t', w', shm') :=
    clserv_respond_hashjoin ev_status clghj gpuhashjoin t w shm in
  MultiHash.n_kernel t' = MultiHash.n_kernel t - 1
  /\ (if MultiHash.n_kernel t =? 1
      then MultiHash.m_hash t' = None /\ MultiHash.ev_hash t' = None
      else MultiHash.m_hash t' = MultiHash.m_hash t
           /\ MultiHash.ev_hash t' = MultiHash.ev_hash t)
  /\ cl_queue w' = cl_queue w
  /\ (if ev_status =? CL_COMPLETE then True
      else action = Reply (set_msg_errcode StromError_OpenCLInternal gpuhashjoin)
           /\ shm' = shm).
Proof.
  unfold clserv_respond_hashjoin.
  match goal with
  | |- context [unload_hash_table t ?w0] =>
      pose proof (unload_hash_table_n_kernel t w0) as Hn;
      pose proof (unload_hash_table_residency t w0) as Hr;
      assert (Hq : cl_queue (snd (unload_hash_table t w0)) = cl_queue w);
      [|destruct (unload_hash_table t w0) as [t' w']]
  end.
  { unfold unload_hash_table, release_events. cbn [snd].
    assert (Hrel : forall h w0, cl_queue (cl_release_opt h w0) = cl_queue w0)
      by (intros [h|] w0; reflexivity).
    rewrite !Hrel. induction (drop 1 (events clghj)) as [|h l IH]; [reflexivity|].
    exact IH. }
  cbn [fst snd] in Hn, Hr, Hq. cbv zeta in Hr.
  destruct (Z.eqb_spec ev_status CL_COMPLETE) as [Hc|Hc].
  - destruct (bool_decide _).
    + destruct (respond_expand_result _ _) as [action shm'].
      repeat split; assumption.
    + repeat split; assumption.
  - cbn [msg_errcode set_msg_errcode].
    rewrite bool_decide_eq_false_2 by discriminate.
    repeat split; assumption.
Qed.

(** X6: a session from its submission to the end of its callback: the
    shared hash table is left with the n_kernel, the buffer and the event
    it had before, whatever the device answered in between.  (A table no
    kernel was using is taken off the device again.) *)
Theorem session_gives_back_hash_table dev ev_status gpuhashjoin result t w shm :
  residency_ok t ->
  match clserv_process_gpuhashjoin dev gpuhashjoin t w with
  | (Submitted c, t1, w1) =>
      let '(_, t2, _, _) :=
        clserv_respond_hashjoin ev_status c result t1 w1 shm in
      MultiHash.n_kernel t2 = MultiHash.n_kernel t
      /\ MultiHash.m_hash t2 = MultiHash.m_hash t
      /\ MultiHash.ev_hash t2 = MultiHash.ev_hash t
  | _ => True
  end.
Proof.
  intros Hok. pose proof (process_outcome_residency dev gpuhashjoin t w Hok) as Hp.
  destruct (clserv_process_gpuhashjoin dev gpuhashjoin t w) as [[[| c | m] t1] w1];
    [exact I| |exact I].
  destruct Hp as (Hn & _ & _ & Hsh).
  unfold clserv_respond_hashjoin.
  match goal with
  | |- context [unload_hash_table t1 ?w0] =>
      pose proof (unload_hash_table_n_kernel t1 w0) as Hn2;
      pose proof (unload_hash_table_residency t1 w0) as Hr;
      destruct (unload_hash_table t1 w0) as [t2 w2]
  end.
  cbn [fst] in Hn2, Hr. cbv zeta in Hr.
  assert (Hgoal : MultiHash.n_kernel t2 = MultiHash.n_kernel t
                  /\ MultiHash.m_hash t2 = MultiHash.m_hash t
                  /\ MultiHash.ev_hash t2 = MultiHash.ev_hash t).
  { unfold residency_ok in Hok.
    destruct (Z.eqb_spec (MultiHash.n_kernel t1) 1) as [E1|E1];
      destruct (Z.eqb_spec (MultiHash.n_kernel t) 0) as [E0|E0]; try lia.
    - destruct Hok as [-> ->]. destruct Hr as [-> ->]. repeat split. lia.
    - destruct Hr as [-> ->]. destruct (Hsh E0) as [-> ->]. repeat split. lia. }
  destruct (bool_decide _); [destruct (respond_expand_result _ _)|]; exact Hgoal.
Qed.

End Callback.

(** ** The callback *)

Definition is_callback (c : cl_command) : bool :=
  match c with
  | SetEventCallback _ => true
  | _ => false
  end.

(** The queue has grown, by commands other than the callback. *)
Definition queue_grows (st st' : pstate) : Prop :=
  exists cmds,
    cl_queue (st_w st') = cl_queue (st_w st) ++ cmds
    /\ Forall (fun c => is_callback c = false) cmds.

(** The queue has grown, and the callback, on the last event recorded,
    is the last command. *)
Definition callback_last (st st' : pstate) : Prop :=
  exists cmds,
    cl_queue (st_w st')
    = cl_queue (st_w st) ++ cmds
      ++ [SetEventCallback (default 0%nat (last (events (st_clghj st'))))]
    /\ Forall (fun c => is_callback c = false) cmds.

Lemma queue_grows_refl st : queue_grows st st.
Proof. exists []. rewrite app_nil_r. split; [reflexivity|constructor]. Qed.

Lemma queue_grows_trans a b c :
  queue_grows a b -> queue_grows b c -> queue_grows a c.
Proof.
  intros (l1 & E1 & F1) (l2 & E2 & F2). exists (l1 ++ l2).
  rewrite E2, E1, app_assoc. split; [reflexivity|]. apply Forall_app; auto.
Qed.

Lemma queue_grows_callback_last a b c :
  queue_grows a b -> callback_last b c -> callback_last a c.
Proof.
  intros (l1 & E1 & F1) (l2 & E2 & F2). exists (l1 ++ l2).
  rewrite E2, E1, <- !app_assoc. split; [reflexivity|]. apply Forall_app; auto.
Qed.

Ltac queue_step :=
  first
    [ match goal with
      | |- cl_post _ callback_last (cl_bind get_clghj _) =>
          intros ?; unfold cl_bind, get_clghj; cbn; exists [];
          split; [reflexivity|constructor]
      end
    | apply cl_post_bind;
      [exact queue_grows_trans
      |first [exact queue_grows_trans | exact queue_grows_callback_last]
      | |intros ?]
    | apply cl_post_ret; exact queue_grows_refl
    | apply cl_post_goto_error; exact queue_grows_refl
    | apply cl_post_check; exact queue_grows_refl
    | apply cl_post_get_clghj; exact queue_grows_refl
    | match goal with
      | |- cl_post _ _ (match ?x with _ => _ end) => destruct x
      end
    | (intros ?; unfold with_clghj, cl_new; cbn; exists [];
       rewrite app_nil_r; split; [reflexivity|constructor])
    | (intros ?; unfold cl_submit; cbn; eexists [_];
       split; [reflexivity|repeat constructor]) ].

Lemma process_submit_callback dev gpuhashjoin :
  cl_post queue_grows callback_last (process_submit dev gpuhashjoin).
Proof.
  unfold process_submit, clserv_dmasend_data_store, cl_set_kernel_args.
  cbv zeta. repeat queue_step.
Qed.

Lemma cl_release_opt_queue h w : cl_queue (cl_release_opt h w) = cl_queue w.
Proof. destruct h; reflexivity. Qed.

Lemma release_events_queue c w : cl_queue (release_events c w) = cl_queue w.
Proof.
  unfold release_events. induction (drop 1 (events c)) as [|h l IH];
    [reflexivity|exact IH].
Qed.

Lemma unload_hash_table_queue t w :
  cl_queue (snd (unload_hash_table t w)) = cl_queue w.
Proof. unfold unload_hash_table. cbn [snd]. now rewrite !cl_release_opt_queue. Qed.

Lemma process_error_path_queue st :
  cl_queue (snd (process_error_path st)) = cl_queue (st_w st).
Proof.
  unfold process_error_path.
  destruct (m_hash (st_clghj st)).
  - match goal with
    | |- context [unload_hash_table ?t ?w] =>
        pose proof (unload_hash_table_queue t w) as Hu;
        destruct (unload_hash_table t w) as [t' w']
    end.
    cbn [snd] in *. rewrite !cl_release_opt_queue, Hu, !cl_release_opt_queue.
    apply release_events_queue.
  - cbn [snd]. rewrite !cl_release_opt_queue. apply release_events_queue.
Qed.

Lemma load_hash_table_queue dev t c w :
  let '(_, _, _, w') := load_hash_table dev t c w in
  exists cmds,
    cl_queue w' = cl_queue w ++ cmds
    /\ Forall (fun c => is_callback c = false) cmds.
Proof.
  unfold load_hash_table.
  destruct (MultiHash.n_kernel t =? 0).
  - destruct (negb (cl_status dev (Call_CreateBuffer BufHash) =? CL_SUCCESS)).
    { exists []. rewrite app_nil_r. split; [reflexivity|constructor]. }
    cbn [cl_fresh].
    destruct (negb (cl_status dev (Call_EnqueueWriteBuffer BufHash) =? CL_SUCCESS)).
    { exists []. rewrite app_nil_r. split; [reflexivity|constructor]. }
    eexists [_]. split; [reflexivity|repeat constructor].
  - exists []. rewrite app_nil_r. split; [|constructor].
    destruct (MultiHash.m_hash t), (MultiHash.ev_hash t); reflexivity.
Qed.

(** X3: the message is either answered by clserv_process_gpuhashjoin
    itself or left to the callback, never both: when the message is
    answered at once no callback has been registered, whatever was put
    into the queue before the call that failed; when the commands are
    submitted the callback is the last of them and the only one, on the
    last event recorded. *)
Theorem reply_or_callback dev gpuhashjoin t w :
  match clserv_process_gpuhashjoin dev gpuhashjoin t w with
  | (InWaitq, _, w') => w' = w
  | (Replied _, _, w') =>
      exists cmds,
        cl_queue w' = cl_queue w ++ cmds
        /\ Forall (fun c => is_callback c = false) cmds
  | (Submitted c, _, w') =>
      exists cmds,
        cl_queue w'
        = cl_queue w ++ cmds ++ [SetEventCallback (default 0%nat (last (events c)))]
        /\ Forall (fun c => is_callback c = false) cmds
  end.
Proof.
  unfold clserv_process_gpuhashjoin.
  destruct (negb (cl_status dev Call_calloc =? CL_SUCCESS)).
  { exists []. rewrite app_nil_r. split; [reflexivity|constructor]. }
  destruct (lookup_device_program dev) as [| |prog]; [reflexivity| |].
  { pose proof (process_error_path_queue
                  {| st_clghj := clghj_zero; st_mhtables := t; st_w := w |}) as Hq.
    destruct (process_error_path _) as [t' w']. cbn [snd st_w] in Hq.
    exists []. rewrite app_nil_r. split; [exact Hq|constructor]. }
  unfold process_body, cl_bind at 1, cl_load_hash_table.
  cbn [st_mhtables st_clghj st_w].
  pose proof (load_hash_table_queue dev t (set_program (Some prog) clghj_zero) w)
    as Hload.
  destruct (load_hash_table dev t (set_program (Some prog) clghj_zero) w)
    as [[[r t1] c1] w1].
  destruct Hload as (l1 & E1 & F1).
  destruct r as [rc|[]].
  - pose proof (process_error_path_queue
                  {| st_clghj := c1; st_mhtables := t1; st_w := w1 |}) as Hq.
    destruct (process_error_path _) as [t' w']. cbn [snd st_w] in Hq.
    exists l1. rewrite Hq. split; assumption.
  - pose proof (process_submit_callback dev gpuhashjoin
                  {| st_clghj := c1; st_mhtables := t1; st_w := w1 |}) as Hs.
    destruct (process_submit dev gpuhashjoin _) as [[rc st2]|[[] st2]].
    + destruct Hs as (l2 & E2 & F2). cbn [st_w] in E2.
      pose proof (process_error_path_queue st2) as Hq.
      destruct (process_error_path st2) as [t' w']. cbn [snd] in Hq.
      exists (l1 ++ l2). rewrite Hq, E2, E1, app_assoc.
      split; [reflexivity|]. apply Forall_app; auto.
    + destruct Hs as (l2 & E2 & F2). cbn [st_w] in E2.
      exists (l1 ++ l2). rewrite E2, E1, <- !app_assoc.
      split; [reflexivity|]. apply Forall_app; auto.
Qed.

(** ** The order of the commands *)

Definition cmd_event (c : cl_command) : nat :=
  match c with
  | EnqueueWriteBuffer _ _ ev => ev
  | EnqueueNDRangeKernel _ _ _ ev => ev
  | EnqueueReadBuffer _ _ _ ev => ev
  | SetEventCallback ev => ev
  end.

(** a transfer to the device of anything but the hash table *)
Definition is_data_write (c : cl_command) : bool :=
  match c with
  | EnqueueWriteBuffer BufHash _ _ => false
  | EnqueueWriteBuffer _ _ _ => true
  | _ => false
  end.

(** The kernels, the reads and the callback of a submission whose
    transfers signal the events [evs]. *)
Definition kernels_after (gpuhashjoin : pgstrom_gpuhashjoin) (evs : list nat)
  (e_main e_proj e_rj e_rd m_j m_r : nat) : list cl_command :=
  [EnqueueNDRangeKernel KernMain
     (if nvalids (krowmap gpuhashjoin) <? 0
      then kds_nitems (kds (pds gpuhashjoin))
      else nvalids (krowmap gpuhashjoin)) evs e_main;
   EnqueueNDRangeKernel KernProj (kds_nrooms (kds (pds_dest gpuhashjoin)))
     [e_main] e_proj;
   EnqueueReadBuffer BufJoin m_j [e_proj] e_rj;
   EnqueueReadBuffer BufDest m_r [e_rj] e_rd;
   SetEventCallback e_rd].

Ltac cl_run :=
  cbv beta iota zeta delta
    [cl_bind cl_ret cl_new cl_submit with_clghj get_clghj cl_fresh cl_enqueue
     goto_error
     st_clghj st_mhtables st_w cl_next cl_queue cl_refcnt
     program kern_main kern_proj m_join m_hash m_dstore m_ktoast m_rowmap
     m_kresult dindex hash_loader ev_kern_main ev_kern_proj events
     set_program set_kern_main set_kern_proj set_m_join set_m_hash set_m_dstore
     set_m_ktoast set_m_rowmap set_m_kresult set_dindex set_hash_loader
     set_ev_kern_main set_ev_kern_proj set_events].

Lemma cons_app_tail {A} (x : A) l p t : l = p ++ t -> x :: l = (x :: p) ++ t.
Proof. intros ->. reflexivity. Qed.

Lemma nil_app_tail {A} (t : list A) : t = [] ++ t.
Proof. reflexivity. Qed.

Lemma process_submit_chain dev gpuhashjoin st :
  (forall c, cl_status dev c = CL_SUCCESS) ->
  supported_format (kds_format_of (kds (pds_dest gpuhashjoin))) ->
  exists st' writes e_main e_proj e_rj e_rd m_j m_r,
    process_submit dev gpuhashjoin st = inr ((), st')
    /\ cl_queue (st_w st')
       = cl_queue (st_w st) ++ writes
         ++ kernels_after gpuhashjoin
              (events (st_clghj st) ++ map cmd_event writes)
              e_main e_proj e_rj e_rd m_j m_r
    /\ events (st_clghj st')
       = events (st_clghj st) ++ map cmd_event writes
         ++ [e_main; e_proj; e_rj; e_rd]
    /\ forallb is_data_write writes = true.
Proof.
  intros Hok Hfmt.
  unfold process_submit, clserv_dmasend_data_store, cl_set_kernel_args.
  unfold cl_check. rewrite !Hok. change (CL_SUCCESS =? CL_SUCCESS) with true.
  cbv iota.
  destruct st as [c t w]. destruct c, w.
  unfold kernels_after.
  destruct Hfmt as [-> | ->];
  destruct (ktoast (pds gpuhashjoin));
  destruct (nvalids (krowmap gpuhashjoin) <? 0).
  all: cl_run; unfold last_event; cl_run; rewrite ?last_snoc.
  all: match goal with
       | |- ex (fun st' => ex (fun writes => ex (fun e1 => ex (fun e2 =>
              ex (fun e3 => ex (fun e4 => ex (fun m1 => ex (fun m2 =>
              ?lhs = _ /\ _)))))))) =>
           remember lhs as r eqn:E
       end.
  all: rewrite <- ?app_assoc in E; cbn [app option_list default] in E; subst r.
  all: eexists _, _, _, _, _, _, _, _.
  all: split; [reflexivity|].
  all: cbn [st_w cl_queue st_clghj events].
  all: split;
         [cbn; f_equal; repeat first [apply nil_app_tail | apply cons_app_tail]|].
  all: split; reflexivity.
Qed.

(** the buffer a command transfers to the device *)
Definition written_buffer (c : cl_command) : option cl_buffer :=
  match c with
  | EnqueueWriteBuffer b _ _ => Some b
  | _ => None
  end.

(** The transfers of a session, the hash table apart: the join buffer,
    the row map if the message has one, the outer data store and its
    toast store if it has one, and the destination. *)
Definition session_transfers (gpuhashjoin : pgstrom_gpuhashjoin)
  : list (option cl_buffer) :=
  [Some BufJoin]
  ++ (if nvalids (krowmap gpuhashjoin) <? 0 then [] else [Some BufRowmap])
  ++ [Some BufDstore]
  ++ match ktoast (pds gpuhashjoin) with
     | Some _ => [Some BufKtoast]
     | None => []
     end
  ++ [Some BufDest].

Lemma process_submit_transfers dev gpuhashjoin st :
  (forall c, cl_status dev c = CL_SUCCESS) ->
  supported_format (kds_format_of (kds (pds_dest gpuhashjoin))) ->
  exists st' writes e_main e_proj e_rj e_rd m_j m_r,
    process_submit dev gpuhashjoin st = inr ((), st')
    /\ cl_queue (st_w st')
       = cl_queue (st_w st) ++ writes
         ++ kernels_after gpuhashjoin
              (events (st_clghj st) ++ map cmd_event writes)
              e_main e_proj e_rj e_rd m_j m_r
    /\ map written_buffer writes = session_transfers gpuhashjoin.
Proof.
  intros Hok Hfmt.
  unfold process_submit, clserv_dmasend_data_store, cl_set_kernel_args.
  unfold cl_check. rewrite !Hok. change (CL_SUCCESS =? CL_SUCCESS) with true.
  cbv iota.
  destruct st as [c t w]. destruct c, w.
  unfold kernels_after, session_transfers.
  destruct Hfmt as [-> | ->];
  destruct (ktoast (pds gpuhashjoin));
  destruct (nvalids (krowmap gpuhashjoin) <? 0).
  all: cl_run; unfold last_event; cl_run; rewrite ?last_snoc.
  all: match goal with
       | |- ex (fun st' => ex (fun writes => ex (fun e1 => ex (fun e2 =>
              ex (fun e3 => ex (fun e4 => ex (fun m1 => ex (fun m2 =>
              ?lhs = _ /\ _)))))))) =>
           remember lhs as r eqn:E
       end.
  all: rewrite <- ?app_assoc in E; cbn [app option_list default] in E; subst r.
  all: eexists _, _, _, _, _, _, _, _.
  all: split; [reflexivity|].
  all: cbn [st_w cl_queue st_clghj events].
  all: split;
         [cbn; f_equal; repeat first [apply nil_app_tail | apply cons_app_tail]|].
  all: reflexivity.
Qed.

(** With a runtime in which every call succeeds, the commands of a
    submission, the transfers by the buffers they fill. *)
Lemma clserv_process_gpuhashjoin_transfers dev gpuhashjoin t w :
  device_works dev ->
  supported_format (kds_format_of (kds (pds_dest gpuhashjoin))) ->
  residency_ok t ->
  exists c t' w' m ev writes e_main e_proj e_rj e_rd m_j m_r,
    clserv_process_gpuhashjoin dev gpuhashjoin t w = (Submitted c, t', w')
    /\ MultiHash.m_hash t' = Some m
    /\ MultiHash.ev_hash t' = Some ev
    /\ map written_buffer writes = session_transfers gpuhashjoin
    /\ cl_queue w'
       = cl_queue w
         ++ (if MultiHash.n_kernel t =? 0
             then [EnqueueWriteBuffer BufHash m ev] else [])
         ++ writes
         ++ kernels_after gpuhashjoin (ev :: map cmd_event writes)
              e_main e_proj e_rj e_rd m_j m_r.
Proof.
  intros [Hok [prog Hprog]] Hfmt Hres.
  unfold clserv_process_gpuhashjoin.
  rewrite Hok, Hprog. change (negb (CL_SUCCESS =? CL_SUCCESS)) with false.
  cbv iota. unfold process_body, cl_bind at 1, cl_load_hash_table.
  cbn [st_mhtables st_clghj st_w].
  unfold residency_ok in Hres.
  destruct (Z.eqb_spec (MultiHash.n_kernel t) 0) as [Hn|Hn].
  - rewrite load_hash_table_first by assumption.
    match goal with
    | |- context [process_submit dev gpuhashjoin ?st] =>
        pose proof (process_submit_keeps dev gpuhashjoin st) as Hk;
        destruct (process_submit_transfers dev gpuhashjoin st Hok Hfmt)
          as (st' & writes & e1 & e2 & e3 & e4 & m1 & m2 & Hrun & Hq & Hw)
    end.
    rewrite Hrun in Hk |- *. destruct Hk as [Ht _].
    cbn [st_mhtables st_clghj st_w cl_queue events set_hash_loader set_events app]
      in Hq, Ht.
    exists (st_clghj st'), (st_mhtables st'), (st_w st'), (cl_next w),
      (S (cl_next w)), writes, e1, e2, e3, e4, m1, m2.
    split; [reflexivity|]. rewrite Ht. split; [reflexivity|].
    split; [reflexivity|]. split; [exact Hw|].
    rewrite Hq, <- !app_assoc. reflexivity.
  - destruct Hres as [[m Hm] [ev Hev]].
    rewrite (load_hash_table_retains dev t _ w m ev Hn Hm Hev).
    match goal with
    | |- context [process_submit dev gpuhashjoin ?st] =>
        pose proof (process_submit_keeps dev gpuhashjoin st) as Hk;
        destruct (process_submit_transfers dev gpuhashjoin st Hok Hfmt)
          as (st' & writes & e1 & e2 & e3 & e4 & m1 & m2 & Hrun & Hq & Hw)
    end.
    rewrite Hrun in Hk |- *. destruct Hk as [Ht _].
    cbn [st_mhtables st_clghj st_w cl_queue events set_events app cl_retain]
      in Hq, Ht.
    exists (st_clghj st'), (st_mhtables st'), (st_w st'), m, ev, writes,
      e1, e2, e3, e4, m1, m2.
    split; [reflexivity|]. rewrite Ht. split; [reflexivity|].
    split; [reflexivity|]. split; [exact Hw|].
    rewrite Hq. reflexivity.
Qed.




(** X4: with a runtime in which every call succeeds, the join kernel
    waits for the event of the hash table published in [mhtables],
    whether this session transferred the table or found it on the
    device, and for the event of every transfer of its own; the
    projection kernel waits for the join kernel, the read of the result
    status for the projection, the read of the destination for that
    read, and the callback is registered on the last read. *)
Theorem join_kernel_waits_for_hash_table dev gpuhashjoin t w :
  device_works dev ->
  supported_format (kds_format_of (kds (pds_dest gpuhashjoin))) ->
  residency_ok t ->
  exists c t' w' m ev writes e_main e_proj e_rj e_rd m_j m_r,
    clserv_process_gpuhashjoin dev gpuhashjoin t w = (Submitted c, t', w')
    /\ MultiHash.m_hash t' = Some m
    /\ MultiHash.ev_hash t' = Some ev
    /\ forallb is_data_write writes = true
    /\ cl_queue w'
       = cl_queue w
         ++ (if MultiHash.n_kernel t =? 0
             then [EnqueueWriteBuffer BufHash m ev] else [])
         ++ writes
         ++ kernels_after gpuhashjoin (ev :: map cmd_event writes)
              e_main e_proj e_rj e_rd m_j m_r.
Proof.
  intros [Hok [prog Hprog]] Hfmt Hres.
  unfold clserv_process_gpuhashjoin.
  rewrite Hok, Hprog. change (negb (CL_SUCCESS =? CL_SUCCESS)) with false.
  cbv iota. unfold process_body, cl_bind at 1, cl_load_hash_table.
  cbn [st_mhtables st_clghj st_w].
  unfold residency_ok in Hres.
  destruct (Z.eqb_spec (MultiHash.n_kernel t) 0) as [Hn|Hn].
  - rewrite load_hash_table_first by assumption.
    match goal with
    | |- context [process_submit dev gpuhashjoin ?st] =>
        pose proof (process_submit_keeps dev gpuhashjoin st) as Hk;
        destruct (process_submit_chain dev gpuhashjoin st Hok Hfmt)
          as (st' & writes & e1 & e2 & e3 & e4 & m1 & m2 & Hrun & Hq & _ & Hw)
    end.
    rewrite Hrun in Hk |- *. destruct Hk as [Ht _].
    cbn [st_mhtables st_clghj st_w cl_queue events set_hash_loader set_events app]
      in Hq, Ht.
    exists (st_clghj st'), (st_mhtables st'), (st_w st'), (cl_next w),
      (S (cl_next w)), writes, e1, e2, e3, e4, m1, m2.
    split; [reflexivity|]. rewrite Ht. split; [reflexivity|].
    split; [reflexivity|]. split; [exact Hw|].
    rewrite Hq, <- !app_assoc. reflexivity.
  - destruct Hres as [[m Hm] [ev Hev]].
    rewrite (load_hash_table_retains dev t _ w m ev Hn Hm Hev).
    match goal with
    | |- context [process_submit dev gpuhashjoin ?st] =>
        pose proof (process_submit_keeps dev gpuhashjoin st) as Hk;
        destruct (process_submit_chain dev gpuhashjoin st Hok Hfmt)
          as (st' & writes & e1 & e2 & e3 & e4 & m1 & m2 & Hrun & Hq & _ & Hw)
    end.
    rewrite Hrun in Hk |- *. destruct Hk as [Ht _].
    cbn [st_mhtables st_clghj st_w cl_queue events set_events app cl_retain]
      in Hq, Ht.
    exists (st_clghj st'), (st_mhtables st'), (st_w st'), m, ev, writes,
      e1, e2, e3, e4, m1, m2.
    split; [reflexivity|]. rewrite Ht. split; [reflexivity|].
    split; [reflexivity|]. split; [exact Hw|].
    rewrite Hq. reflexivity.
Qed.

Lemma process_submit_unexpected_format dev gpuhashjoin st :
  (forall c, cl_status dev c = CL_SUCCESS) ->
  ~ supported_format (kds_format_of (kds (pds_dest gpuhashjoin))) ->
  exists st',
    process_submit dev gpuhashjoin st = inl (CL_SUCCESS, st')
    /\ cl_queue (st_w st') = cl_queue (st_w st).
Proof.
  intros Hok Hfmt. unfold process_submit, supported_format in *.
  unfold cl_check. rewrite !Hok. change (CL_SUCCESS =? CL_SUCCESS) with true.
  cbv iota zeta.
  destruct (kds_format_of (kds (pds_dest gpuhashjoin))); try tauto.
  all: cl_run; eexists; split; reflexivity.
Qed.

(** X5: a destination store in a format other than the tuple-slot and
    the flat row format makes clserv_process_gpuhashjoin leave through
    [goto error] with [rc] as the last successful call left it: the
    message is answered with StromError_Success although no kernel was
    put into the queue.  The hash table has been transferred by then if
    no kernel was using it, and its use is given back. *)
Theorem unexpected_format_answered_as_success dev gpuhashjoin t w :
  device_works dev ->
  ~ supported_format (kds_format_of (kds (pds_dest gpuhashjoin))) ->
  residency_ok t ->
  exists t' w',
    clserv_process_gpuhashjoin dev gpuhashjoin t w
    = (Replied (set_msg_errcode StromError_Success gpuhashjoin), t', w')
    /\ MultiHash.n_kernel t' = MultiHash.n_kernel t
    /\ cl_queue w'
       = cl_queue w
         ++ (if MultiHash.n_kernel t =? 0
             then [EnqueueWriteBuffer BufHash (cl_next w) (S (cl_next w))]
             else []).
Proof.
  intros [Hok [prog Hprog]] Hfmt Hres.
  pose proof (process_outcome_residency dev gpuhashjoin t w Hres) as Hout.
  assert (Hmain : exists t' w',
            clserv_process_gpuhashjoin dev gpuhashjoin t w
            = (Replied (set_msg_errcode StromError_Success gpuhashjoin), t', w')
            /\ cl_queue w'
               = cl_queue w
                 ++ (if MultiHash.n_kernel t =? 0
                     then [EnqueueWriteBuffer BufHash (cl_next w) (S (cl_next w))]
                     else [])).
  { clear Hout. unfold clserv_process_gpuhashjoin.
    rewrite Hok, Hprog. change (negb (CL_SUCCESS =? CL_SUCCESS)) with false.
    cbv iota. unfold process_body, cl_bind at 1, cl_load_hash_table.
    cbn [st_mhtables st_clghj st_w].
    assert (Hload : exists t1 c1 w1,
              load_hash_table dev t (set_program (Some prog) clghj_zero) w
              = (inr (), t1, c1, w1)
              /\ cl_queue w1
                 = cl_queue w
                   ++ (if MultiHash.n_kernel t =? 0
                       then [EnqueueWriteBuffer BufHash (cl_next w) (S (cl_next w))]
                       else [])).
    { destruct (Z.eqb_spec (MultiHash.n_kernel t) 0) as [Hn|Hn].
      - rewrite load_hash_table_first by assumption. eexists _, _, _.
        split; reflexivity.
      - destruct (load_hash_table_shared dev t (set_program (Some prog) clghj_zero)
                    w Hn) as (w1 & -> & Hq & _).
        eexists _, _, _. split; [reflexivity|]. rewrite Hq, app_nil_r. reflexivity. }
    destruct Hload as (t1 & c1 & w1 & -> & Hq1).
    destruct (process_submit_unexpected_format dev gpuhashjoin
                {| st_clghj := c1; st_mhtables := t1; st_w := w1 |} Hok Hfmt)
      as (st' & -> & Hq2).
    pose proof (process_error_path_queue st') as Hq3.
    destruct (process_error_path st') as [t' w']. cbn [snd st_w] in Hq2, Hq3.
    exists t', w'. split; [reflexivity|]. rewrite Hq3, Hq2. exact Hq1. }
  destruct Hmain as (t' & w' & Heq & Hq). rewrite Heq in Hout.
  exists t', w'. split; [exact Heq|]. split; [apply Hout|exact Hq].
Qed.

End Residency.

Section ResidencyRuns.
Import Pg Session ClServ.

(** a runtime that refuses to enqueue the join kernel *)
Definition demo_device_refusing : Device :=
  {| cl_status := fun c =>
       match c with
       | Call_EnqueueNDRangeKernel KernMain => -5
       | _ => CL_SUCCESS
       end;
     lookup_device_program := ProgramReady 1000;
     device_schedule := 0 |}.

Lemma demo_residency_ok : residency_ok demo_mhtables.
Proof. split; reflexivity. Qed.

Lemma process_failure_restores_residency_witness :
  match clserv_process_gpuhashjoin demo_device_refusing
          (demo_message KDS_FORMAT_TUPSLOT 2) demo_mhtables demo_clworld with
  | (InWaitq, t', w') => t' = demo_mhtables /\ w' = demo_clworld
  | (Replied _, t', _) =>
      MultiHash.n_kernel t' = MultiHash.n_kernel demo_mhtables
      /\ MultiHash.m_hash t' = MultiHash.m_hash demo_mhtables
      /\ MultiHash.ev_hash t' = MultiHash.ev_hash demo_mhtables
  | (Submitted c, t', _) =>
      MultiHash.n_kernel t' = MultiHash.n_kernel demo_mhtables + 1
      /\ is_Some (MultiHash.m_hash t')
      /\ m_hash c = MultiHash.m_hash t'
  end.
Proof.
  apply (process_failure_restores_residency demo_device_refusing
           (demo_message KDS_FORMAT_TUPSLOT 2) demo_mhtables demo_clworld).
  split; reflexivity.
Defined.

Lemma session_gives_back_hash_table_witness :
  match clserv_process_gpuhashjoin demo_device (demo_message KDS_FORMAT_TUPSLOT 2)
          demo_mhtables demo_clworld with
  | (Submitted c, t1, w1) =>
      let '(_, t2, _, _) :=
        clserv_respond_hashjoin (H:=Demo.env) (H0:=Demo.store) CL_COMPLETE c
          (device_execute 7 (demo_message KDS_FORMAT_TUPSLOT 2)) t1 w1
          (Demo.shmem [Some 176; Some 64]) in
      MultiHash.n_kernel t2 = MultiHash.n_kernel demo_mhtables
      /\ MultiHash.m_hash t2 = MultiHash.m_hash demo_mhtables
      /\ MultiHash.ev_hash t2 = MultiHash.ev_hash demo_mhtables
  | _ => True
  end.
Proof.
  apply (session_gives_back_hash_table (H:=Demo.env) (H0:=Demo.store) demo_device
           CL_COMPLETE (demo_message KDS_FORMAT_TUPSLOT 2)
           (device_execute 7 (demo_message KDS_FORMAT_TUPSLOT 2))
           demo_mhtables demo_clworld (Demo.shmem [Some 176; Some 64])).
  split; reflexivity.
Defined.

Lemma join_kernel_waits_for_hash_table_witness :
  exists c t' w' m ev writes e_main e_proj e_rj e_rd m_j m_r,
    clserv_process_gpuhashjoin demo_device (demo_message KDS_FORMAT_TUPSLOT 2)
      demo_mhtables demo_clworld = (Submitted c, t', w')
    /\ MultiHash.m_hash t' = Some m
    /\ MultiHash.ev_hash t' = Some ev
    /\ forallb is_data_write writes = true
    /\ cl_queue w'
       = cl_queue demo_clworld
         ++ (if MultiHash.n_kernel demo_mhtables =? 0
             then [EnqueueWriteBuffer BufHash m ev] else [])
         ++ writes
         ++ kernels_after (demo_message KDS_FORMAT_TUPSLOT 2)
              (ev :: map cmd_event writes) e_main e_proj e_rj e_rd m_j m_r.
Proof.
  apply (join_kernel_waits_for_hash_table demo_device
           (demo_message KDS_FORMAT_TUPSLOT 2) demo_mhtables demo_clworld).
  - exact demo_device_works.
  - left; reflexivity.
  - split; reflexivity.
Defined.

Lemma unexpected_format_answered_as_success_witness :
  exists t' w',
    clserv_process_gpuhashjoin demo_device (demo_message KDS_FORMAT_ROW 2)
      demo_mhtables demo_clworld
    = (Replied (set_msg_errcode StromError_Success (demo_message KDS_FORMAT_ROW 2)),
       t', w')
    /\ MultiHash.n_kernel t' = MultiHash.n_kernel demo_mhtables
    /\ cl_queue w'
       = cl_queue demo_clworld
         ++ (if MultiHash.n_kernel demo_mhtables =? 0
             then [EnqueueWriteBuffer BufHash (cl_next demo_clworld)
                     (S (cl_next demo_clworld))]
             else []).
Proof.
  apply (unexpected_format_answered_as_success demo_device
           (demo_message KDS_FORMAT_ROW 2) demo_mhtables demo_clworld).
  - exact demo_device_works.
  - intros [Hf|Hf]; discriminate Hf.
  - split; reflexivity.
Defined.

End ResidencyRuns.

(** * The retry of a session *)
Section RetrySteps.
Import Pg Session ClServ.
Context `{Env} `{DataStore}.

(** the length of the destination "Expand the result buffer then retry"
    allocates *)
Definition expanded_length (old_kds : kern_data_store) : Z :=
  let ncols := kds_ncols old_kds in
  let nitems := kds_nitems old_kds in
  let head_len := STROMALIGN (kds_colmeta_offset ncols) in
  match kds_format_of old_kds with
  | KDS_FORMAT_TUPSLOT =>
      STROMALIGN (head_len + (LONGALIGN (8 * ncols) + LONGALIGN (1 * ncols)) * nitems)
  | _ =>
      head_len + STROMALIGN (sizeof_kern_blkitem * kds_maxblocks old_kds)
      + STROMALIGN (sizeof_kern_rowitem * nitems)
      + STROMALIGN (kds_usage old_kds)
  end.

Lemma respond_expand_result_length msg shm m' shm' :
  supported_format (kds_format_of (kds (pds_dest msg))) ->
  respond_expand_result msg shm = (Enqueue m', shm') ->
  kds_length (kds (pds_dest m')) = expanded_length (kds (pds_dest msg))
  /\ shmem_log shm'
     = shmem_log shm
       ++ [(expanded_length (kds (pds_dest msg)),
            default None (shmem_script shm !! 0%nat));
           (sizeof_pgstrom_data_store,
            default None (shmem_script shm !! 1%nat))].
Proof.
  intros Hfmt. unfold respond_expand_result, expanded_length.
  unfold pgstrom_shmem_alloc, pgstrom_shmem_alloc_alap.
  destruct shm as [script log]. cbn [shmem_script shmem_log].
  destruct Hfmt as [-> | ->].
  all: destruct script as [|[a|] [|[b|] rest]]; cbn.
  all: intros [= <- <-] || discriminate.
  all: cbn; rewrite <- app_assoc; split; reflexivity.
Qed.

(** C2 (as amended): when a completed session reports
    StromError_DataStoreNoSpace and the shared memory for a new
    destination is granted, clserv_respond_hashjoin sets kresults->nrooms
    to the number of rows the device reported, allocates a destination
    whose length is computed from that number (with exactly that many
    rooms in the tuple-slot format, with the rooms its length holds in
    the flat row format) and enqueues the message again;
    clserv_process_gpuhashjoin then submits for it, as for a new
    message: the transfer of the hash table if no kernel is using it,
    the transfers of the join buffer, of the row map if there is one,
    of the outer data store with its toast store if there is one, and
    of the destination; the join kernel over the outer chunk, waiting
    for all of these; the projection kernel over the new rooms; the two
    reads and the callback. *)
Theorem no_space_retry_resubmits_all_steps
  dev clghj msg t w shm t2 w2 :
  kr_errcode (kresults msg) = StromError_DataStoreNoSpace ->
  supported_format (kds_format_of (kds (pds_dest msg))) ->
  granted_twice shm ->
  device_works dev ->
  residency_ok t2 ->
  exists m' t' w' shm',
    clserv_respond_hashjoin CL_COMPLETE clghj msg t w shm
    = (Enqueue m', t', w', shm')
    /\ nrooms (kresults m') = kds_nitems (kds (pds_dest msg))
    /\ nitems (kresults m') = 0
    /\ kds_length (kds (pds_dest m')) = expanded_length (kds (pds_dest msg))
    /\ kds_nrooms (kds (pds_dest m')) = expanded_rooms (kds (pds_dest msg))
    /\ exists c t3 w3 m ev writes e_main e_proj e_rj e_rd m_j m_r,
         clserv_process_gpuhashjoin dev m' t2 w2 = (Submitted c, t3, w3)
         /\ MultiHash.m_hash t3 = Some m
         /\ MultiHash.ev_hash t3 = Some ev
         /\ map written_buffer writes = session_transfers msg
         /\ cl_queue w3
            = cl_queue w2
              ++ (if MultiHash.n_kernel t2 =? 0
                  then [EnqueueWriteBuffer BufHash m ev] else [])
              ++ writes
              ++ [EnqueueNDRangeKernel KernMain
                    (if nvalids (krowmap msg) <? 0
                     then kds_nitems (kds (pds msg))
                     else nvalids (krowmap msg))
                    (ev :: map cmd_event writes) e_main;
                  EnqueueNDRangeKernel KernProj
                    (expanded_rooms (kds (pds_dest msg))) [e_main] e_proj;
                  EnqueueReadBuffer BufJoin m_j [e_proj] e_rj;
                  EnqueueReadBuffer BufDest m_r [e_rj] e_rd;
                  SetEventCallback e_rd].
Proof.
  intros Hno Hfmt Hshm Hdev Hres.
  destruct (clserv_respond_hashjoin_no_space clghj msg t w shm Hno)
    as (t' & w' & ->).
  destruct (respond_expand_result_spec
              (set_msg_errcode StromError_DataStoreNoSpace msg) shm Hfmt)
    as (shm' & [(_ & m' & Hexp & Hretry & Hrooms) | (Hn & _)]);
    [|contradiction].
  destruct (respond_expand_result_length
              (set_msg_errcode StromError_DataStoreNoSpace msg) shm m' shm' Hfmt Hexp)
    as [Hlen _].
  rewrite Hexp.
  destruct Hretry as (Hpds & Hmap & _ & _ & Hnr & Hni & _ & Hf & _).
  cbn [fst snd set_msg_errcode pds pds_dest krowmap] in *.
  exists m', t', w', shm'.
  split; [reflexivity|]. split; [exact Hnr|]. split; [exact Hni|].
  split; [exact Hlen|]. split; [exact Hrooms|].
  assert (Hfmt' : supported_format (kds_format_of (kds (pds_dest m'))))
    by (rewrite Hf; exact Hfmt).
  destruct (clserv_process_gpuhashjoin_transfers dev m' t2 w2 Hdev Hfmt' Hres)
    as (c & t3 & w3 & m & ev & writes & e1 & e2 & e3 & e4 & m1 & m2
        & Hp & Hm & Hev & Hw & Hq).
  exists c, t3, w3, m, ev, writes, e1, e2, e3, e4, m1, m2.
  split; [exact Hp|]. split; [exact Hm|]. split; [exact Hev|].
  split.
  - rewrite Hw. unfold session_transfers. rewrite Hpds, Hmap. reflexivity.
  - rewrite Hq. unfold kernels_after. rewrite Hpds, Hmap, Hrooms. reflexivity.
Qed.

End RetrySteps.

Section RetryRuns.
Import Pg Session ClServ.

Lemma no_space_retry_resubmits_all_steps_witness :
  exists m' t' w' shm',
    clserv_respond_hashjoin (H:=Demo.env) (H0:=Demo.store) CL_COMPLETE
      (submitted_clghj demo_submitted.1.1)
      (device_execute 7 (demo_message KDS_FORMAT_TUPSLOT 2))
      demo_submitted.1.2 demo_submitted.2 (Demo.shmem [Some 176; Some 64])
    = (Enqueue m', t', w', shm')
    /\ nrooms (kresults m') = 7
    /\ kds_nrooms (kds (pds_dest m')) = 7
    /\ exists c t3 w3 m ev writes e_main e_proj e_rj e_rd m_j m_r,
         clserv_process_gpuhashjoin demo_device m' t' w' = (Submitted c, t3, w3)
         /\ map written_buffer writes = [Some BufJoin; Some BufDstore; Some BufDest]
         /\ cl_queue w3
            = cl_queue w'
              ++ (if MultiHash.n_kernel t' =? 0
                  then [EnqueueWriteBuffer BufHash m ev] else [])
              ++ writes
              ++ [EnqueueNDRangeKernel KernMain 2 (ev :: map cmd_event writes) e_main;
                  EnqueueNDRangeKernel KernProj 7 [e_main] e_proj;
                  EnqueueReadBuffer BufJoin m_j [e_proj] e_rj;
                  EnqueueReadBuffer BufDest m_r [e_rj] e_rd;
                  SetEventCallback e_rd].
Proof.
  assert (Hrun :
    exists m' t' w' shm',
      clserv_respond_hashjoin (H:=Demo.env) (H0:=Demo.store) CL_COMPLETE
        (submitted_clghj demo_submitted.1.1)
        (device_execute 7 (demo_message KDS_FORMAT_TUPSLOT 2))
        demo_submitted.1.2 demo_submitted.2 (Demo.shmem [Some 176; Some 64])
      = (Enqueue m', t', w', shm')
      /\ residency_ok t').
  { eexists _, _, _, _. split; [vm_compute; reflexivity|]. split; reflexivity. }
  destruct Hrun as (m0 & t0 & w0 & shm0 & Hrun0 & Hres0).
  destruct (no_space_retry_resubmits_all_steps (H:=Demo.env) (H0:=Demo.store)
              demo_device (submitted_clghj demo_submitted.1.1)
              (device_execute 7 (demo_message KDS_FORMAT_TUPSLOT 2))
              demo_submitted.1.2 demo_submitted.2
              (Demo.shmem [Some 176; Some 64])
              t0 w0)
    as (m' & t' & w' & shm' & Hr & Hn & _ & _ & Hk & Hsub).
  - vm_compute; reflexivity.
  - left; reflexivity.
  - exists 176, 64, []; reflexivity.
  - exact demo_device_works.
  - exact Hres0.
  - rewrite Hrun0 in Hr. injection Hr as <- <- <- <-.
    exists m0, t0, w0, shm0. split; [exact Hrun0|]. split; [exact Hn|].
    split; [exact Hk|]. 
    destruct Hsub as (c & t3 & w3 & m & ev & writes & e1 & e2 & e3 & e4 & m1 & m2
                      & Hp & _ & _ & Hw & Hq).
    exists c, t3, w3, m, ev, writes, e1, e2, e3, e4, m1, m2.
    split; [exact Hp|]. split; [exact Hw|exact Hq].
Defined.

(** C2 (counterexample): a session with a destination of two rooms whose
    join yields seven rows.  The message enqueued again by
    clserv_respond_hashjoin is handed to clserv_process_gpuhashjoin, which
    puts the join kernel into the queue again, before the projection
    kernel.  And the same session with a destination in the flat row
    format: kresults->nrooms is set to the seven rows reported, but the
    new destination has eight rooms. *)
Lemma retry_runs_join_kernel_again :
  (exists c t1 w1 m' t2 w2 shm' c' t3 w3,
     clserv_process_gpuhashjoin demo_device (demo_message KDS_FORMAT_TUPSLOT 2)
       demo_mhtables demo_clworld
     = (Submitted c, t1, w1)
     /\ clserv_respond_hashjoin (H:=Demo.env) (H0:=Demo.store) CL_COMPLETE c
          (device_execute 7 (demo_message KDS_FORMAT_TUPSLOT 2)) t1 w1
          (Demo.shmem [Some 176; Some 64])
        = (Enqueue m', t2, w2, shm')
     /\ clserv_process_gpuhashjoin demo_device m' t2 w2 = (Submitted c', t3, w3)
     /\ drop (length (cl_queue w2)) (cl_queue w3)
        = [EnqueueWriteBuffer BufHash 15 16;
           EnqueueWriteBuffer BufJoin 19 22;
           EnqueueWriteBuffer BufDstore 20 23;
           EnqueueWriteBuffer BufDest 21 24;
           EnqueueNDRangeKernel KernMain 2 [16; 22; 23; 24]%nat 25;
           EnqueueNDRangeKernel KernProj 7 [25%nat] 26;
           EnqueueReadBuffer BufJoin 19 [26%nat] 27;
           EnqueueReadBuffer BufDest 21 [27%nat] 28;
           SetEventCallback 28])
  /\ (exists c t1 w1 m' t2 w2 shm',
        clserv_process_gpuhashjoin demo_device (demo_message KDS_FORMAT_ROW_FLAT 2)
          demo_mhtables demo_clworld
        = (Submitted c, t1, w1)
        /\ kds_nitems (kds (pds_dest (device_execute 7
                                        (demo_message KDS_FORMAT_ROW_FLAT 2)))) = 7
        /\ clserv_respond_hashjoin (H:=Demo.env) (H0:=Demo.store) CL_COMPLETE c
             (device_execute 7 (demo_message KDS_FORMAT_ROW_FLAT 2)) t1 w1
             (Demo.shmem [Some 176; Some 64])
           = (Enqueue m', t2, w2, shm')
        /\ nrooms (kresults m') = 7
        /\ kds_nrooms (kds (pds_dest m')) = 8).
Proof.
  split.
  - eexists _, _, _, _, _, _, _, _, _, _.
    split; [vm_compute; reflexivity|].
    split; [vm_compute; reflexivity|].
    split; [vm_compute; reflexivity|].
    vm_compute; reflexivity.
  - eexists _, _, _, _, _, _, _.
    split; [vm_compute; reflexivity|].
    split; [vm_compute; reflexivity|].
    split; [vm_compute; reflexivity|].
    split; vm_compute; reflexivity.
Qed.

End RetryRuns.

(** * The OpenCL objects of a session *)
Section Objects.
Import Pg Session ClServ.

(** The reference count of an object; an object the runtime does not
    know has none. *)
Definition refcount (w : ClWorld) (h : nat) : Z := default 0 (cl_refcnt w !! h).

(** 1 if the field holds the handle *)
Definition ind (o : option nat) (h : nat) : Z :=
  if decide (o = Some h) then 1 else 0.

(** how often the handle is in the list *)
Fixpoint occurs (l : list nat) (h : nat) : Z :=
  match l with
  | [] => 0
  | x :: l => ind (Some x) h + occurs l h
  end.

(** The references the state object holds: one for every handle in one
    of its fields and in [events]. *)
Definition holds (c : clstate_gpuhashjoin) (h : nat) : Z :=
  ind (program c) h + ind (kern_main c) h + ind (kern_proj c) h
  + ind (m_join c) h + ind (m_hash c) h + ind (m_dstore c) h
  + ind (m_ktoast c) h + ind (m_rowmap c) h + ind (m_kresult c) h
  + occurs (events c) h.

Lemma ind_None h : ind None h = 0.
Proof. reflexivity. Qed.

Lemma ind_same h : ind (Some h) h = 1.
Proof. unfold ind. rewrite decide_True by reflexivity. reflexivity. Qed.

Lemma ind_other a h : a <> h -> ind (Some a) h = 0.
Proof. intros Hne. unfold ind. rewrite decide_False by congruence. reflexivity. Qed.

Lemma ind_range o h : 0 <= ind o h <= 1.
Proof. unfold ind. destruct (decide _); lia. Qed.

Lemma occurs_nonneg l h : 0 <= occurs l h.
Proof.
  induction l as [|x l IH]; cbn [occurs]; [lia|].
  pose proof (ind_range (Some x) h). lia.
Qed.

Lemma occurs_app l1 l2 h : occurs (l1 ++ l2) h = occurs l1 h + occurs l2 h.
Proof. induction l1 as [|x l1 IH]; cbn [occurs app]; [lia|rewrite IH; lia]. Qed.

Lemma occurs_option_list o h : occurs (option_list o) h = ind o h.
Proof. destruct o; simpl; rewrite ?ind_None; lia. Qed.

Lemma refcount_fresh w h :
  refcount (snd (cl_fresh w)) h
  = if decide (h = cl_next w) then 1 else refcount w h.
Proof.
  unfold refcount, cl_fresh. cbn [snd cl_refcnt].
  destruct (decide (h = cl_next w)) as [->|Hne].
  - rewrite lookup_insert_eq. reflexivity.
  - rewrite lookup_insert_ne by congruence. reflexivity.
Qed.

Lemma refcount_enqueue c w h : refcount (cl_enqueue c w) h = refcount w h.
Proof. reflexivity. Qed.

Lemma refcount_retain a w h :
  refcount (cl_retain a w) h = refcount w h + ind (Some a) h.
Proof.
  unfold refcount, cl_retain, ind. cbn [cl_refcnt].
  destruct (decide (Some a = Some h)) as [E|E].
  - injection E as ->. rewrite lookup_insert_eq. reflexivity.
  - rewrite lookup_insert_ne by congruence. lia.
Qed.

Lemma refcount_release a w h :
  refcount (cl_release a w) h = refcount w h - ind (Some a) h.
Proof.
  unfold refcount, cl_release, ind. cbn [cl_refcnt].
  destruct (decide (Some a = Some h)) as [E|E].
  - injection E as ->. rewrite lookup_insert_eq. reflexivity.
  - rewrite lookup_insert_ne by congruence. lia.
Qed.

Lemma refcount_release_opt o w h :
  refcount (cl_release_opt o w) h = refcount w h - ind o h.
Proof.
  destruct o as [a|]; cbn [cl_release_opt].
  - apply refcount_release.
  - rewrite ind_None. lia.
Qed.

Lemma cl_next_release_opt o w : cl_next (cl_release_opt o w) = cl_next w.
Proof. destruct o; reflexivity. Qed.

Lemma refcount_release_list l w h :
  refcount (foldr cl_release w l) h = refcount w h - occurs l h.
Proof.
  induction l as [|x l IH]; cbn [foldr occurs]; [lia|].
  rewrite refcount_release, IH. lia.
Qed.

Lemma cl_next_release_list l w : cl_next (foldr cl_release w l) = cl_next w.
Proof. induction l as [|x l IH]; [reflexivity|exact IH]. Qed.

Lemma refcount_unload_hash_table t w h :
  refcount (snd (unload_hash_table t w)) h
  = refcount w h - ind (MultiHash.m_hash t) h - ind (MultiHash.ev_hash t) h.
Proof.
  unfold unload_hash_table. cbn [snd]. rewrite !refcount_release_opt. lia.
Qed.

Lemma cl_next_unload_hash_table t w :
  cl_next (snd (unload_hash_table t w)) = cl_next w.
Proof.
  unfold unload_hash_table. cbn [snd]. rewrite !cl_next_release_opt. reflexivity.
Qed.

(** A computation of the body with what holds before it ([P]), where it
    leaves through [goto error] ([E]) and where it goes on ([Q], which
    sees the value computed). *)
Definition cl_hoare {A} (P E : pstate -> Prop) (Q : A -> pstate -> Prop)
  (m : CL A) : Prop :=
  forall st, P st ->
    match m st with
    | inl (_, st') => E st'
    | inr (a, st') => Q a st'
    end.

Lemma cl_hoare_bind {A B} (P E : pstate -> Prop) (Q1 : A -> pstate -> Prop)
  (Q2 : B -> pstate -> Prop) (m : CL A) (k : A -> CL B) :
  cl_hoare P E Q1 m -> (forall a, cl_hoare (Q1 a) E Q2 (k a)) ->
  cl_hoare P E Q2 (cl_bind m k).
Proof.
  intros Hm Hk st HP. unfold cl_bind. specialize (Hm st HP).
  destruct (m st) as [[rc st1]|[a st1]]; [exact Hm|].
  exact (Hk a st1 Hm).
Qed.

Lemma cl_hoare_ret {A} (P E : pstate -> Prop) (a : A) :
  cl_hoare P E (fun _ => P) (cl_ret a).
Proof. intros st HP. exact HP. Qed.

Lemma cl_hoare_goto_error {A} (P E : pstate -> Prop) (Q : A -> pstate -> Prop) rc :
  (forall st, P st -> E st) -> cl_hoare P E Q (goto_error rc).
Proof. intros HE st HP. exact (HE st HP). Qed.

Lemma cl_hoare_check (P E : pstate -> Prop) dev c :
  (forall st, P st -> cl_status dev c <> CL_SUCCESS -> E st) ->
  cl_hoare P E (fun _ => P) (cl_check dev c).
Proof.
  intros HE st HP. unfold cl_check.
  destruct (Z.eqb_spec (cl_status dev c) CL_SUCCESS) as [Heq|Hne]; [exact HP|].
  exact (HE st HP Hne).
Qed.

Lemma cl_hoare_get_clghj (P E : pstate -> Prop) :
  cl_hoare P E (fun _ => P) get_clghj.
Proof. intros st HP. exact HP. Qed.

(** The calls of clserv_process_gpuhashjoin up to the one that creates
    [m_rowmap]. *)
Definition before_rowmap (c : cl_call) : bool :=
  match c with
  | Call_calloc => true
  | Call_CreateKernel _ => true
  | Call_EnqueueWriteBuffer BufHash => true
  | Call_CreateBuffer BufDest => false
  | Call_CreateBuffer _ => true
  | _ => false
  end.

(** The handles published in [mhtables] are objects of the runtime. *)
Definition known_handles (t : MultiHash.pgstrom_multihash_tables) (w : ClWorld)
  : Prop :=
  (forall m, MultiHash.m_hash t = Some m -> (m < cl_next w)%nat)
  /\ (forall ev, MultiHash.ev_hash t = Some ev -> (ev < cl_next w)%nat).

(** What a session leaves of the objects of the runtime [w] it started
    with: its reference to the program is given back, every object that
    was there has the count it had, and of the objects created since,
    only [leaked] is still referenced. *)
Definition settled (w : ClWorld) (prog : nat) (leaked : option nat)
  (w' : ClWorld) : Prop :=
  (cl_next w <= cl_next w')%nat
  /\ (forall h, (h < cl_next w)%nat ->
        refcount w' h = refcount w h - ind (Some prog) h)
  /\ (forall h, (cl_next w <= h < cl_next w')%nat -> refcount w' h = ind leaked h)
  /\ (forall m, leaked = Some m -> (cl_next w <= m < cl_next w')%nat).

Section Accounting.
Variable dev : Device.
Variable gpuhashjoin : pgstrom_gpuhashjoin.
(** the first handle the session can create, and the counts the objects
    have without the references of the session *)
Variable n0 : nat.
Variable b : nat -> Z.
Hypothesis b_fresh : forall h, (n0 <= h)%nat -> b h = 0.

(** [m_hash] of the state object is the buffer published in [mhtables],
    and the first event is the one published with it. *)
Definition linked (st : pstate) : Prop :=
  match m_hash (st_clghj st) with
  | Some m =>
      MultiHash.m_hash (st_mhtables st) = Some m
      /\ exists ev rest,
           events (st_clghj st) = ev :: rest
           /\ MultiHash.ev_hash (st_mhtables st) = Some ev
  | None => events (st_clghj st) = []
  end.

(** Every reference is accounted for: an object has the count it has
    without the session, and one more for each field of the state
    object that holds it; [pend] is an object created and not stored
    yet. *)
Definition accounted (pend : option nat) (st : pstate) : Prop :=
  (n0 <= cl_next (st_w st))%nat
  /\ (forall h, (h < cl_next (st_w st))%nat ->
        refcount (st_w st) h = b h + ind pend h + holds (st_clghj st) h)
  /\ (forall h, (cl_next (st_w st) <= h)%nat ->
        ind pend h + holds (st_clghj st) h = 0)
  /\ (forall a, pend = Some a -> (n0 <= a)%nat)
  /\ linked st.

(** The fields of the state object not assigned before the [k]-th
    object of the body is created are as calloc left them. *)
Definition unset_from (k : nat) (c : clstate_gpuhashjoin) : Prop :=
  ((k <= 0)%nat -> kern_main c = None)
  /\ ((k <= 1)%nat -> kern_proj c = None)
  /\ ((k <= 2)%nat -> m_join c = None)
  /\ ((k <= 3)%nat -> m_dstore c = None)
  /\ ((k <= 4)%nat -> m_ktoast c = None)
  /\ ((k <= 5)%nat -> m_rowmap c = None)
  /\ ((k <= 6)%nat -> m_kresult c = None).

Definition rowmap_known (k : nat) (c : clstate_gpuhashjoin) : Prop :=
  (nvalids (krowmap gpuhashjoin) < 0 -> m_rowmap c = None)
  /\ (forall m, m_rowmap c = Some m -> (n0 <= m)%nat)
  /\ ((6 <= k)%nat -> 0 <= nvalids (krowmap gpuhashjoin) -> is_Some (m_rowmap c)).

Definition Inv (k : nat) (pend : option nat) (st : pstate) : Prop :=
  accounted pend st /\ is_Some (m_hash (st_clghj st))
  /\ unset_from k (st_clghj st) /\ rowmap_known k (st_clghj st).

(** What holds at the label [error]. *)
Definition on_error (st : pstate) : Prop :=
  accounted None st
  /\ (nvalids (krowmap gpuhashjoin) < 0 -> m_rowmap (st_clghj st) = None)
  /\ (forall m, m_rowmap (st_clghj st) = Some m -> (n0 <= m)%nat)
  /\ ((forall c, before_rowmap c = true -> cl_status dev c = CL_SUCCESS) ->
      supported_format (kds_format_of (kds (pds_dest gpuhashjoin))) ->
      0 <= nvalids (krowmap gpuhashjoin) ->
      is_Some (m_rowmap (st_clghj st))).

Lemma Inv_on_error_call k st c :
  Inv k None st -> cl_status dev c <> CL_SUCCESS ->
  before_rowmap c = true \/ (6 <= k)%nat ->
  on_error st.
Proof.
  intros (Hacc & _ & _ & Hnone & Hge & Hsome) Hfail Hc.
  split; [exact Hacc|]. split; [exact Hnone|]. split; [exact Hge|].
  intros Hearly _ Hnv. destruct Hc as [Hc|Hc].
  - contradiction (Hfail (Hearly c Hc)).
  - exact (Hsome Hc Hnv).
Qed.

Lemma Inv_on_error_format k st :
  Inv k None st ->
  ~ supported_format (kds_format_of (kds (pds_dest gpuhashjoin))) ->
  on_error st.
Proof.
  intros (Hacc & _ & _ & Hnone & Hge & Hsome) Hfmt.
  split; [exact Hacc|]. split; [exact Hnone|]. split; [exact Hge|].
  intros _ Hf. contradiction.
Qed.

Lemma Inv_on_error_late k st : Inv k None st -> (6 <= k)%nat -> on_error st.
Proof.
  intros (Hacc & _ & _ & Hnone & Hge & Hsome) Hk.
  split; [exact Hacc|]. split; [exact Hnone|]. split; [exact Hge|].
  intros _ _ Hnv. exact (Hsome Hk Hnv).
Qed.

(** [clCreate...] gave an object that is not stored yet *)
Lemma cl_hoare_new k E :
  cl_hoare (Inv k None) E (fun a => Inv k (Some a)) cl_new.
Proof.
  intros st ((Hn & Hcnt & Hfree & _ & Hl) & Hmh & Hun & Hrk).
  unfold cl_new. cbn [cl_fresh].
  split; [|split; [exact Hmh|split; assumption]].
  unfold accounted. cbn [st_w st_clghj cl_next].
  split; [lia|]. split; [|split; [|split]].
  - intros h Hh.
    change (refcount (snd (cl_fresh (st_w st))) h
            = b h + ind (Some (cl_next (st_w st))) h + holds (st_clghj st) h).
    rewrite refcount_fresh.
    destruct (decide (h = cl_next (st_w st))) as [->|Hne].
    + rewrite ind_same, b_fresh by exact Hn.
      specialize (Hfree (cl_next (st_w st)) ltac:(lia)).
      rewrite ind_None in Hfree. lia.
    + rewrite ind_other by congruence.
      rewrite Hcnt by lia. rewrite ind_None. lia.
  - intros h Hh. rewrite ind_other by lia.
    specialize (Hfree h ltac:(lia)). rewrite ind_None in Hfree. lia.
  - intros a [= <-]. exact Hn.
  - exact Hl.
Qed.

(** the object is stored in a field that was not assigned *)
Lemma Inv_store k a st c' :
  Inv k (Some a) st ->
  m_hash c' = m_hash (st_clghj st) ->
  events c' = events (st_clghj st) ->
  (forall h, holds c' h = ind (Some a) h + holds (st_clghj st) h) ->
  unset_from (S k) c' ->
  ((nvalids (krowmap gpuhashjoin) < 0 -> m_rowmap c' = None)
   /\ (m_rowmap c' = m_rowmap (st_clghj st) \/ m_rowmap c' = Some a)
   /\ ((6 <= S k)%nat -> 0 <= nvalids (krowmap gpuhashjoin) ->
       is_Some (m_rowmap c'))) ->
  Inv (S k) None
    {| st_clghj := c'; st_mhtables := st_mhtables st; st_w := st_w st |}.
Proof.
  intros ((Hn & Hcnt & Hfree & Hpend & Hl) & Hmh & Hun & Hrk) Hm He Hh Hun'
    (Hr1 & Hr2 & Hr3).
  split; [|split; [cbn [st_clghj]; rewrite Hm; exact Hmh|split; [exact Hun'|]]].
  - unfold accounted. cbn [st_w st_clghj]. split; [exact Hn|]. split; [|split; [|split]].
    + intros h Hlt. rewrite Hh, ind_None, (Hcnt h Hlt). lia.
    + intros h Hge. rewrite Hh, ind_None. specialize (Hfree h Hge). lia.
    + discriminate.
    + unfold linked in *. cbn [st_clghj st_mhtables]. rewrite Hm, He. exact Hl.
  - split; [exact Hr1|]. split; [|exact Hr3].
    intros m Hm'. cbn [st_clghj] in Hm'. destruct Hr2 as [Hr2|Hr2].
    + destruct Hrk as (_ & Hge & _). apply Hge. congruence.
    + apply Hpend. congruence.
Qed.

(** a field is left without an object *)
Lemma Inv_skip k st c' :
  Inv k None st ->
  m_hash c' = m_hash (st_clghj st) ->
  events c' = events (st_clghj st) ->
  (forall h, holds c' h = holds (st_clghj st) h) ->
  unset_from (S k) c' ->
  ((nvalids (krowmap gpuhashjoin) < 0 -> m_rowmap c' = None)
   /\ m_rowmap c' = m_rowmap (st_clghj st)
   /\ ((6 <= S k)%nat -> 0 <= nvalids (krowmap gpuhashjoin) ->
       is_Some (m_rowmap c'))) ->
  Inv (S k) None
    {| st_clghj := c'; st_mhtables := st_mhtables st; st_w := st_w st |}.
Proof.
  intros ((Hn & Hcnt & Hfree & Hpend & Hl) & Hmh & Hun & Hrk) Hm He Hh Hun'
    (Hr1 & Hr2 & Hr3).
  split; [|split; [cbn [st_clghj]; rewrite Hm; exact Hmh|split; [exact Hun'|]]].
  - unfold accounted. cbn [st_w st_clghj]. split; [exact Hn|]. split; [|split; [|split]].
    + intros h Hlt. rewrite Hh. exact (Hcnt h Hlt).
    + intros h Hge. rewrite Hh. exact (Hfree h Hge).
    + discriminate.
    + unfold linked in *. cbn [st_clghj st_mhtables]. rewrite Hm, He. exact Hl.
  - split; [exact Hr1|]. split; [|exact Hr3].
    intros m Hm'. cbn [st_clghj] in Hm'.
    destruct Hrk as (_ & Hge & _). apply Hge. congruence.
Qed.

Ltac unset_tac Hun :=
  unfold unset_from in Hun |- *; cbn;
  destruct Hun as (? & ? & ? & ? & ? & ? & ?);
  repeat split; intros; auto with lia.

Ltac store_tac :=
  let st := fresh "st" in
  let HI := fresh "HI" in
  intros st HI; unfold with_clghj;
  pose proof HI as (_ & _ & Hun & (Hr1 & Hr2 & Hr3));
  apply (Inv_store _ _ _ _ HI);
  [ reflexivity
  | reflexivity
  | intros h; unfold holds; cbn;
    unfold unset_from in Hun;
    destruct Hun as (U0 & U1 & U2 & U3 & U4 & U5 & U6);
    rewrite ?(U0 ltac:(lia)), ?(U1 ltac:(lia)), ?(U2 ltac:(lia)),
      ?(U3 ltac:(lia)), ?(U4 ltac:(lia)), ?(U5 ltac:(lia)), ?(U6 ltac:(lia)),
      ?ind_None; lia
  | unset_tac Hun
  | cbn; repeat split;
    first [ assumption | left; reflexivity | right; reflexivity
          | intros; lia | intros; eexists; reflexivity
          | intros; apply Hr3; [lia|assumption] | idtac ] ].

Lemma cl_hoare_kern_main a E :
  cl_hoare (Inv 0 (Some a)) E (fun _ => Inv 1 None)
    (with_clghj (set_kern_main (Some a))).
Proof. store_tac. Qed.

Lemma cl_hoare_kern_proj a E :
  cl_hoare (Inv 1 (Some a)) E (fun _ => Inv 2 None)
    (with_clghj (set_kern_proj (Some a))).
Proof. store_tac. Qed.

Lemma cl_hoare_m_join a E :
  cl_hoare (Inv 2 (Some a)) E (fun _ => Inv 3 None)
    (with_clghj (set_m_join (Some a))).
Proof. store_tac. Qed.

Lemma cl_hoare_m_dstore a E :
  cl_hoare (Inv 3 (Some a)) E (fun _ => Inv 4 None)
    (with_clghj (set_m_dstore (Some a))).
Proof. store_tac. Qed.

Lemma cl_hoare_m_ktoast a E :
  cl_hoare (Inv 4 (Some a)) E (fun _ => Inv 5 None)
    (with_clghj (set_m_ktoast (Some a))).
Proof. store_tac. Qed.

Lemma cl_hoare_m_rowmap a E :
  0 <= nvalids (krowmap gpuhashjoin) ->
  cl_hoare (Inv 5 (Some a)) E (fun _ => Inv 6 None)
    (with_clghj (set_m_rowmap (Some a))).
Proof. intros Hnv. store_tac. Qed.

Lemma cl_hoare_m_kresult a E :
  cl_hoare (Inv 6 (Some a)) E (fun _ => Inv 7 None)
    (with_clghj (set_m_kresult (Some a))).
Proof. store_tac. Qed.

Ltac skip_tac :=
  let st := fresh "st" in
  let HI := fresh "HI" in
  intros st HI; unfold with_clghj;
  pose proof HI as (_ & _ & Hun & (Hr1 & Hr2 & Hr3));
  apply (Inv_skip _ _ _ HI);
  [ reflexivity
  | reflexivity
  | intros h; unfold holds; cbn;
    unfold unset_from in Hun;
    destruct Hun as (U0 & U1 & U2 & U3 & U4 & U5 & U6);
    rewrite ?(U0 ltac:(lia)), ?(U1 ltac:(lia)), ?(U2 ltac:(lia)),
      ?(U3 ltac:(lia)), ?(U4 ltac:(lia)), ?(U5 ltac:(lia)), ?(U6 ltac:(lia)),
      ?ind_None; lia
  | unset_tac Hun
  | cbn; repeat split;
    first [ assumption | reflexivity | intros; lia
          | unfold unset_from in Hun;
            destruct Hun as (U0 & U1 & U2 & U3 & U4 & U5 & U6);
            symmetry; apply U5; lia
          | idtac ] ].

Lemma cl_hoare_no_ktoast E :
  cl_hoare (Inv 4 None) E (fun _ => Inv 5 None) (with_clghj (set_m_ktoast None)).
Proof. skip_tac. Qed.

Lemma cl_hoare_no_rowmap E :
  nvalids (krowmap gpuhashjoin) < 0 ->
  cl_hoare (Inv 5 None) E (fun _ => Inv 6 None) (with_clghj (set_m_rowmap None)).
Proof. intros Hnv. skip_tac. Qed.

(** an enqueue call stores the event of its command *)
Lemma cl_hoare_submit k E cmd :
  cl_hoare (Inv k None) E (fun _ => Inv k None) (cl_submit cmd).
Proof.
  intros st ((Hn & Hcnt & Hfree & _ & Hl) & Hmh & Hun & Hrk).
  unfold cl_submit. cbn [cl_fresh].
  assert (Hholds : forall h,
    holds (set_events (events (st_clghj st) ++ [cl_next (st_w st)]) (st_clghj st)) h
    = holds (st_clghj st) h + ind (Some (cl_next (st_w st))) h).
  { intros h. unfold holds. cbn. rewrite occurs_app. cbn [occurs]. lia. }
  split; [|split; [exact Hmh|split; [exact Hun|exact Hrk]]].
  unfold accounted. cbn [st_w st_clghj cl_next cl_enqueue].
  split; [lia|]. split; [|split; [|split]].
  - intros h Hh. rewrite Hholds.
    change (refcount (snd (cl_fresh (st_w st))) h
            = b h + ind None h
              + (holds (st_clghj st) h + ind (Some (cl_next (st_w st))) h)).
    rewrite refcount_fresh, ind_None.
    destruct (decide (h = cl_next (st_w st))) as [->|Hne].
    + rewrite ind_same, b_fresh by exact Hn.
      specialize (Hfree (cl_next (st_w st)) ltac:(lia)).
      rewrite ind_None in Hfree. lia.
    + rewrite ind_other by congruence.
      rewrite Hcnt by lia. rewrite ind_None. lia.
  - intros h Hh. rewrite Hholds, ind_other by lia.
    specialize (Hfree h ltac:(lia)). lia.
  - discriminate.
  - unfold linked in *. cbn [st_clghj st_mhtables].
    change (m_hash (set_events (events (st_clghj st) ++ [cl_next (st_w st)])
                      (st_clghj st)))
      with (m_hash (st_clghj st)).
    destruct (m_hash (st_clghj st)) as [m|]; [|destruct Hmh as [? [=]]].
    destruct Hl as (Hm & ev & rest & He & Hev).
    split; [exact Hm|]. exists ev, (rest ++ [cl_next (st_w st)]).
    cbn. rewrite He. split; [reflexivity|exact Hev].
Qed.

Lemma cl_hoare_ev_kern_main k E v :
  cl_hoare (Inv k None) E (fun _ => Inv k None) (with_clghj (set_ev_kern_main v)).
Proof. intros st HI. exact HI. Qed.

Lemma cl_hoare_ev_kern_proj k E v :
  cl_hoare (Inv k None) E (fun _ => Inv k None) (with_clghj (set_ev_kern_proj v)).
Proof. intros st HI. exact HI. Qed.

Lemma cl_hoare_callback k E cmd :
  cl_hoare (Inv k None) E (fun _ => Inv k None)
    (fun st =>
       inr ((), {| st_clghj := st_clghj st; st_mhtables := st_mhtables st;
                   st_w := cl_enqueue cmd (st_w st) |})).
Proof. intros st HI. exact HI. Qed.

Ltac call_side :=
  let st := fresh "st" in
  let HP := fresh "HP" in
  let Hf := fresh "Hf" in
  intros st HP Hf; apply (Inv_on_error_call _ _ _ HP Hf);
  first [ left; reflexivity | right; lia ].

Ltac goto_side :=
  let st := fresh "st" in
  let HP := fresh "HP" in
  let Hs := fresh "Hs" in
  intros st HP;
  first [ apply (Inv_on_error_late _ _ HP); lia
        | apply (Inv_on_error_format _ _ HP); intros [Hs|Hs]; congruence ].

Ltac hoare_prim :=
  lazymatch goal with
  | |- cl_hoare _ _ _ (cl_check _ _) => apply cl_hoare_check; call_side
  | |- cl_hoare _ _ _ cl_new => apply cl_hoare_new
  | |- cl_hoare _ _ _ (with_clghj (set_kern_main (Some _))) =>
      apply cl_hoare_kern_main
  | |- cl_hoare _ _ _ (with_clghj (set_kern_proj (Some _))) =>
      apply cl_hoare_kern_proj
  | |- cl_hoare _ _ _ (with_clghj (set_m_join (Some _))) =>
      apply cl_hoare_m_join
  | |- cl_hoare _ _ _ (with_clghj (set_m_dstore (Some _))) =>
      apply cl_hoare_m_dstore
  | |- cl_hoare _ _ _ (with_clghj (set_m_ktoast (Some _))) =>
      apply cl_hoare_m_ktoast
  | |- cl_hoare _ _ _ (with_clghj (set_m_rowmap (Some _))) =>
      apply cl_hoare_m_rowmap; apply Z.ltb_ge; assumption
  | |- cl_hoare _ _ _ (with_clghj (set_m_kresult (Some _))) =>
      apply cl_hoare_m_kresult
  | |- cl_hoare _ _ _ (with_clghj (set_m_ktoast None)) =>
      apply cl_hoare_no_ktoast
  | |- cl_hoare _ _ _ (with_clghj (set_m_rowmap None)) =>
      apply cl_hoare_no_rowmap; apply Z.ltb_lt; assumption
  | |- cl_hoare _ _ _ (cl_submit _) => apply cl_hoare_submit
  | |- cl_hoare _ _ _ (with_clghj (set_ev_kern_main _)) =>
      apply cl_hoare_ev_kern_main
  | |- cl_hoare _ _ _ (with_clghj (set_ev_kern_proj _)) =>
      apply cl_hoare_ev_kern_proj
  | |- cl_hoare _ _ _ get_clghj => exact (cl_hoare_get_clghj _ _)
  | |- cl_hoare _ _ _ (cl_ret _) => exact (cl_hoare_ret _ _ _)
  | |- cl_hoare _ _ _ (goto_error _) => apply cl_hoare_goto_error; goto_side
  | |- cl_hoare _ _ _ (fun _ => _) => exact (cl_hoare_callback _ _ _)
  end.

Ltac hoare_run :=
  lazymatch goal with
  | |- cl_hoare (Inv 7 None) _ _ (cl_bind _ _) =>
      eapply (cl_hoare_bind _ _ (fun _ => Inv 7 None));
      [hoare_run|intros ?; cbv beta; hoare_run]
  | |- cl_hoare (Inv ?k None) _ _ (cl_bind (match ?x with _ => _ end) _) =>
      eapply (cl_hoare_bind _ _ (fun _ => Inv (S k) None));
      [destruct x eqn:?; hoare_run|intros ?; cbv beta; hoare_run]
  | |- cl_hoare _ _ _ (cl_bind _ _) =>
      eapply cl_hoare_bind; [hoare_prim|intros ?; cbv beta; hoare_run]
  | |- cl_hoare _ _ _ (match ?x with _ => _ end) => destruct x eqn:?; hoare_run
  | |- cl_hoare _ _ _ _ => hoare_prim
  end.

(** The body after the hash table keeps the account: every object it
    creates is stored in a field that was not assigned, or in
    [events]. *)
Lemma process_submit_accounts :
  cl_hoare (Inv 0 None) on_error (fun _ => Inv 7 None)
    (process_submit dev gpuhashjoin).
Proof.
  unfold process_submit, clserv_dmasend_data_store, cl_set_kernel_args.
  cbv zeta.
  hoare_run.
Qed.

(** What holds when the body starts: nothing is assigned but the
    program. *)
Definition at_start (st : pstate) : Prop :=
  accounted None st
  /\ m_hash (st_clghj st) = None
  /\ unset_from 0 (st_clghj st)
  /\ residency_ok (st_mhtables st)
  /\ known_handles (st_mhtables st) (st_w st).

Lemma on_error_early st c :
  accounted None st -> m_rowmap (st_clghj st) = None ->
  cl_status dev c <> CL_SUCCESS -> before_rowmap c = true ->
  on_error st.
Proof.
  intros Hacc Hr Hfail Hc.
  split; [exact Hacc|]. split; [intros _; exact Hr|]. split.
  - intros m Hm. congruence.
  - intros Hearly _ _. contradiction (Hfail (Hearly c Hc)).
Qed.

Lemma load_hash_table_accounts :
  cl_hoare at_start on_error (fun _ => Inv 0 None) (cl_load_hash_table dev).
Proof.
  intros st ((Hn & Hcnt & Hfree & _ & Hl) & Hmh & Hun & Hres & Hk1 & Hk2).
  unfold linked in Hl. rewrite Hmh in Hl.
  assert (Hrow : m_rowmap (st_clghj st) = None)
    by (destruct Hun as (_ & _ & _ & _ & _ & U5 & _); apply U5; lia).
  unfold cl_load_hash_table, load_hash_table, residency_ok in *.
  destruct (Z.eqb_spec (MultiHash.n_kernel (st_mhtables st)) 0) as [Hz|Hnz].
  - destruct (Z.eqb_spec (cl_status dev (Call_CreateBuffer BufHash)) CL_SUCCESS)
      as [Hc1|Hc1]; cbn [negb].
    2:{ apply (on_error_early _ (Call_CreateBuffer BufHash));
          [|exact Hrow|exact Hc1|reflexivity].
        unfold accounted, linked. cbn [st_w st_clghj st_mhtables].
        change (m_hash (set_dindex (device_schedule dev) (st_clghj st)))
          with (m_hash (st_clghj st)).
        rewrite Hmh. repeat split; try assumption. discriminate. }
    cbn [cl_fresh].
    destruct (Z.eqb_spec (cl_status dev (Call_EnqueueWriteBuffer BufHash))
                CL_SUCCESS) as [Hc2|Hc2]; cbn [negb].
    2:{ apply (on_error_early _ (Call_EnqueueWriteBuffer BufHash));
          [|exact Hrow|exact Hc2|reflexivity].
        assert (Hholds : forall h,
          holds (set_m_hash None
                   (set_m_hash (Some (cl_next (st_w st)))
                      (set_dindex (device_schedule dev) (st_clghj st)))) h
          = holds (st_clghj st) h).
        { intros h. unfold holds. cbn. rewrite Hmh. reflexivity. }
        unfold accounted, linked. cbn [st_w st_clghj st_mhtables cl_next cl_release].
        split; [lia|]. split; [|split; [|split; [discriminate|exact Hl]]].
        - intros h Hh. rewrite Hholds.
          change (refcount (cl_release (cl_next (st_w st)) (snd (cl_fresh (st_w st)))) h
                  = b h + ind None h + holds (st_clghj st) h).
          rewrite refcount_release, refcount_fresh, ind_None.
          destruct (decide (h = cl_next (st_w st))) as [->|Hne].
          + rewrite ind_same, b_fresh by exact Hn.
            specialize (Hfree (cl_next (st_w st)) ltac:(lia)).
            rewrite ind_None in Hfree. lia.
          + rewrite ind_other by congruence.
            rewrite Hcnt by lia. rewrite ind_None. lia.
        - intros h Hh. rewrite Hholds. exact (Hfree h ltac:(lia)). }
    cbn [cl_fresh cl_next].
    set (m := cl_next (st_w st)).
    assert (Hholds : forall h,
      holds (set_hash_loader true
               (set_events (events (st_clghj st) ++ [S m])
                  (set_m_hash (Some m)
                     (set_dindex (device_schedule dev) (st_clghj st))))) h
      = holds (st_clghj st) h + ind (Some m) h + ind (Some (S m)) h).
    { intros h. unfold holds. cbn. rewrite Hmh, Hl, ind_None. cbn [app occurs]. lia. }
    split; [|split; [eexists; reflexivity|split]].
    + unfold accounted, linked.
      cbn [st_w st_clghj st_mhtables cl_next cl_enqueue].
      split; [lia|]. split; [|split; [|split; [discriminate|]]].
      * intros h Hh. rewrite Hholds, ind_None.
        change (refcount (snd (cl_fresh (snd (cl_fresh (st_w st))))) h
                = b h + 0
                  + (holds (st_clghj st) h + ind (Some m) h + ind (Some (S m)) h)).
        rewrite !refcount_fresh. cbn [cl_fresh snd cl_next]. fold m.
        destruct (decide (h = S m)) as [->|Hne1].
        { rewrite ind_same, ind_other, b_fresh by lia.
          specialize (Hfree (S m) ltac:(lia)). rewrite ind_None in Hfree. lia. }
        destruct (decide (h = m)) as [->|Hne2].
        { rewrite ind_same, ind_other, b_fresh by lia.
          specialize (Hfree m ltac:(lia)). rewrite ind_None in Hfree. lia. }
        rewrite !ind_other by congruence.
        rewrite Hcnt by lia. rewrite ind_None. lia.
      * intros h Hh. rewrite Hholds, !ind_other by lia.
        specialize (Hfree h ltac:(lia)). lia.
      * cbn. split; [reflexivity|]. exists (S m), []. rewrite Hl. split; reflexivity.
    + exact Hun.
    + split; [intros _; exact Hrow|]. split; [|intros; lia].
      intros a Ha. cbn in Ha. congruence.
  - destruct Hres as [[m Hm] [ev Hev]].
    rewrite Hm, Hev. cbn [cl_release_opt option_list].
    assert (Hholds : forall h,
      holds (set_events (events (st_clghj st) ++ option_list (Some ev))
               (set_m_hash (Some m)
                  (set_dindex (MultiHash.dindex (st_mhtables st)) (st_clghj st)))) h
      = holds (st_clghj st) h + ind (Some m) h + ind (Some ev) h).
    { intros h. unfold holds. cbn. rewrite Hmh, Hl, ind_None. cbn [app occurs]. lia. }
    specialize (Hk1 m Hm). specialize (Hk2 ev Hev).
    split; [|split; [eexists; reflexivity|split]].
    + unfold accounted, linked.
      cbn [st_w st_clghj st_mhtables cl_next cl_retain].
      split; [lia|]. split; [|split; [|split; [discriminate|]]].
      * intros h Hh. rewrite Hholds, ind_None.
        change (refcount (cl_retain ev (cl_retain m (st_w st))) h
                = b h + 0
                  + (holds (st_clghj st) h + ind (Some m) h + ind (Some ev) h)).
        rewrite !refcount_retain, Hcnt by exact Hh. rewrite ind_None. lia.
      * intros h Hh. rewrite Hholds, !ind_other by lia.
        specialize (Hfree h Hh). lia.
      * cbn. split; [reflexivity|]. exists ev, []. rewrite Hl. split; reflexivity.
    + exact Hun.
    + split; [intros _; exact Hrow|]. split; [|intros; lia].
      intros a Ha. cbn in Ha. congruence.
Qed.

Lemma process_body_accounts :
  cl_hoare at_start on_error (fun _ => Inv 7 None) (process_body dev gpuhashjoin).
Proof.
  unfold process_body.
  eapply cl_hoare_bind; [exact load_hash_table_accounts|].
  intros a. exact process_submit_accounts.
Qed.

Lemma holds_rowmap c h : holds c h = 0 -> ind (m_rowmap c) h = 0.
Proof.
  unfold holds. intros Hh.
  pose proof (ind_range (program c) h). pose proof (ind_range (kern_main c) h).
  pose proof (ind_range (kern_proj c) h). pose proof (ind_range (m_join c) h).
  pose proof (ind_range (m_hash c) h). pose proof (ind_range (m_dstore c) h).
  pose proof (ind_range (m_ktoast c) h). pose proof (ind_range (m_rowmap c) h).
  pose proof (ind_range (m_kresult c) h). pose proof (occurs_nonneg (events c) h).
  lia.
Qed.

(** The references the error path gives back are all the state object
    holds but the one to [m_rowmap]. *)
Lemma process_error_path_accounts st :
  accounted None st ->
  let w' := snd (process_error_path st) in
  cl_next w' = cl_next (st_w st)
  /\ forall h, (h < cl_next (st_w st))%nat ->
       refcount w' h = b h + ind (m_rowmap (st_clghj st)) h.
Proof.
  intros (Hn & Hcnt & Hfree & _ & Hl). cbv zeta.
  unfold process_error_path, release_events, linked in *.
  destruct (m_hash (st_clghj st)) as [m|] eqn:Hm.
  - destruct Hl as (Ht & ev & rest & He & Hev).
    match goal with
    | |- context [unload_hash_table ?t ?w0] =>
        pose proof (refcount_unload_hash_table t w0) as Hu;
        pose proof (cl_next_unload_hash_table t w0) as Hnu;
        destruct (unload_hash_table t w0) as [t2 w2]
    end.
    cbn [snd] in *. rewrite !cl_next_release_opt, Hnu, !cl_next_release_opt,
      cl_next_release_list.
    split; [reflexivity|]. intros h Hh.
    rewrite !refcount_release_opt, Hu, !refcount_release_opt,
      refcount_release_list, (Hcnt h Hh), Ht, Hev, He, ind_None.
    unfold holds. rewrite Hm, He. cbn [drop occurs]. rewrite ?drop_0. lia.
  - cbn [snd]. rewrite !cl_next_release_opt, cl_next_release_list.
    split; [reflexivity|]. intros h Hh.
    rewrite !refcount_release_opt, refcount_release_list, (Hcnt h Hh), Hl, ind_None.
    unfold holds. rewrite Hm, Hl, ind_None. cbn [drop occurs]. rewrite ?drop_0. lia.
Qed.

End Accounting.

(** the counts of the objects of [w] without the reference to the
    program the session is given *)
Definition base (w : ClWorld) (prog : nat) (h : nat) : Z :=
  if decide (h < cl_next w)%nat then refcount w h - ind (Some prog) h else 0.

Lemma base_fresh w prog h : (cl_next w <= h)%nat -> base w prog h = 0.
Proof. intros Hh. unfold base. rewrite decide_False by lia. reflexivity. Qed.

Lemma at_start_body t w prog :
  (prog < cl_next w)%nat -> residency_ok t -> known_handles t w ->
  at_start (cl_next w) (base w prog)
    {| st_clghj := set_program (Some prog) clghj_zero; st_mhtables := t; st_w := w |}.
Proof.
  intros Hp Hres Hk.
  split; [|split; [reflexivity|split; [|split; assumption]]].
  - unfold accounted, linked. cbn [st_w st_clghj st_mhtables].
    split; [lia|]. split; [|split; [|split; [discriminate|reflexivity]]].
    + intros h Hh. unfold base, holds. cbn. rewrite decide_True by exact Hh.
      rewrite !ind_None. lia.
    + intros h Hh. unfold holds. cbn. rewrite !ind_None, ind_other by lia. lia.
  - repeat split; reflexivity.
Qed.

Lemma accounted_settled w prog st leaked w' :
  accounted (cl_next w) (base w prog) None st ->
  cl_next w' = cl_next (st_w st) ->
  (forall h, (h < cl_next (st_w st))%nat ->
     refcount w' h = base w prog h + ind leaked h) ->
  (forall m, leaked = Some m -> (cl_next w <= m)%nat /\ m_rowmap (st_clghj st) = Some m) ->
  settled w prog leaked w'.
Proof.
  intros (Hn & Hcnt & Hfree & _ & Hl) Hnext Hw' Hleak.
  unfold settled. rewrite Hnext.
  split; [exact Hn|]. split; [|split].
  - intros h Hh. rewrite Hw' by lia. unfold base. rewrite decide_True by exact Hh.
    destruct leaked as [m|]; [|rewrite ind_None; lia].
    destruct (Hleak m eq_refl) as [Hm _]. rewrite (ind_other m h) by lia. lia.
  - intros h Hh. rewrite Hw' by lia. rewrite base_fresh by lia. lia.
  - intros m ->. destruct (Hleak m eq_refl) as [Hm Hr]. split; [exact Hm|].
    destruct (Nat.lt_ge_cases m (cl_next (st_w st))) as [Hlt|Hge]; [exact Hlt|].
    specialize (Hfree m Hge). rewrite ind_None in Hfree.
    assert (Hz : holds (st_clghj st) m = 0) by lia.
    apply holds_rowmap in Hz. rewrite Hr, ind_same in Hz. discriminate.
Qed.

(** X8: a message that clserv_process_gpuhashjoin answers at once
    because a call failed leaves the counts of the objects that were
    there as they were (but for its reference to the program, which is
    given back), and of the objects it created every one is released
    again except the row map buffer: the code at [error] releases
    m_kresult, m_ktoast, m_dstore, m_join, the hash table, the kernels
    and the program, not m_rowmap.  When the message has a row map and
    the calls up to the creation of m_rowmap succeed, that buffer is
    left with its reference. *)
Theorem failed_submission_keeps_rowmap dev gpuhashjoin t w prog :
  cl_status dev Call_calloc = CL_SUCCESS ->
  lookup_device_program dev = ProgramReady prog ->
  (prog < cl_next w)%nat ->
  residency_ok t ->
  known_handles t w ->
  match clserv_process_gpuhashjoin dev gpuhashjoin t w with
  | (Replied _, _, w') =>
      exists leaked,
        settled w prog leaked w'
        /\ (nvalids (krowmap gpuhashjoin) < 0 -> leaked = None)
        /\ ((forall c, before_rowmap c = true -> cl_status dev c = CL_SUCCESS) ->
            supported_format (kds_format_of (kds (pds_dest gpuhashjoin))) ->
            0 <= nvalids (krowmap gpuhashjoin) ->
            is_Some leaked)
  | _ => True
  end.
Proof.
  intros Hcalloc Hprog Hp Hres Hk.
  unfold clserv_process_gpuhashjoin. rewrite Hcalloc, Hprog.
  change (negb (CL_SUCCESS =? CL_SUCCESS)) with false. cbv iota.
  pose proof (process_body_accounts dev gpuhashjoin (cl_next w) (base w prog)
                (base_fresh w prog) _ (at_start_body t w prog Hp Hres Hk))
    as Hbody.
  destruct (process_body dev gpuhashjoin _) as [[rc st]|[[] st]]; [|exact I].
  destruct Hbody as (Hacc & Hnone & Hge & Hsome).
  pose proof (process_error_path_accounts (cl_next w) (base w prog) st Hacc) as Herr.
  cbv zeta in Herr.
  destruct (process_error_path st) as [t' w']. cbn [snd] in Herr.
  destruct Herr as [Hnext Hcnt].
  exists (m_rowmap (st_clghj st)). split; [|split; assumption].
  apply (accounted_settled w prog st _ w' Hacc Hnext Hcnt).
  intros m Hm. split; [exact (Hge m Hm)|exact Hm].
Qed.

Section Answered.
Context `{Env} `{DataStore}.

(** The references clserv_respond_hashjoin gives back. *)
Lemma respond_hashjoin_releases ev_status c result t w shm :
  let '(_, _, w', _) := clserv_respond_hashjoin ev_status c result t w shm in
  cl_next w' = cl_next w
  /\ forall h,
       refcount w' h
       = refcount w h
         - (occurs (drop 1 (events c)) h + ind (m_kresult c) h + ind (m_rowmap c) h
            + ind (m_ktoast c) h + ind (m_dstore c) h + ind (m_join c) h
            + ind (kern_main c) h + ind (kern_proj c) h + ind (program c) h
            + ind (MultiHash.m_hash t) h + ind (MultiHash.ev_hash t) h).
Proof.
  unfold clserv_respond_hashjoin, release_events.
  match goal with
  | |- context [unload_hash_table t ?w0] =>
      pose proof (refcount_unload_hash_table t w0) as Hu;
      pose proof (cl_next_unload_hash_table t w0) as Hnu;
      destruct (unload_hash_table t w0) as [t2 w2]
  end.
  cbn [snd] in Hu, Hnu.
  assert (Hgoal :
    cl_next w2 = cl_next w
    /\ forall h,
         refcount w2 h
         = refcount w h
           - (occurs (drop 1 (events c)) h + ind (m_kresult c) h + ind (m_rowmap c) h
              + ind (m_ktoast c) h + ind (m_dstore c) h + ind (m_join c) h
              + ind (kern_main c) h + ind (kern_proj c) h + ind (program c) h
              + ind (MultiHash.m_hash t) h + ind (MultiHash.ev_hash t) h)).
  { rewrite Hnu, !cl_next_release_opt, cl_next_release_list.
    split; [reflexivity|]. intros h.
    rewrite Hu, !refcount_release_opt, refcount_release_list. lia. }
  destruct (bool_decide _); [destruct (respond_expand_result _ _)|]; exact Hgoal.
Qed.

(** X7: a session whose commands were submitted and whose callback has
    run holds no OpenCL object any more, whatever the device answered:
    every object created for it, the hash table it may have loaded
    included, is released as often as it was created or retained, the
    objects that were there before have the counts they had, and the
    reference to the program is given back. *)
Theorem session_releases_every_object dev ev_status gpuhashjoin result t w shm prog :
  lookup_device_program dev = ProgramReady prog ->
  (prog < cl_next w)%nat ->
  residency_ok t ->
  known_handles t w ->
  match clserv_process_gpuhashjoin dev gpuhashjoin t w with
  | (Submitted c, t1, w1) =>
      let '(_, _, w2, _) :=
        clserv_respond_hashjoin ev_status c result t1 w1 shm in
      settled w prog None w2
  | _ => True
  end.
Proof.
  intros Hprog Hp Hres Hk.
  unfold clserv_process_gpuhashjoin. rewrite Hprog.
  destruct (negb (cl_status dev Call_calloc =? CL_SUCCESS)); [exact I|].
  pose proof (process_body_accounts dev gpuhashjoin (cl_next w) (base w prog)
                (base_fresh w prog) _ (at_start_body t w prog Hp Hres Hk))
    as Hbody.
  destruct (process_body dev gpuhashjoin _) as [[rc st]|[[] st]].
  { destruct (process_error_path st). exact I. }
  destruct Hbody as (Hacc & [m Hm] & _ & _).
  pose proof (respond_hashjoin_releases ev_status (st_clghj st) result
                (st_mhtables st) (st_w st) shm) as Hresp.
  destruct (clserv_respond_hashjoin ev_status (st_clghj st) result
              (st_mhtables st) (st_w st) shm) as [[[action t2] w2] shm'].
  destruct Hresp as [Hnext Hcnt].
  apply (accounted_settled w prog st None w2 Hacc Hnext); [|discriminate].
  intros h Hh. rewrite Hcnt, ind_None.
  destruct Hacc as (_ & Hc & _ & _ & Hl).
  rewrite (Hc h Hh), ind_None.
  unfold linked in Hl. rewrite Hm in Hl.
  destruct Hl as (Ht & ev & rest & He & Hev).
  unfold holds. rewrite Hm, Ht, Hev, He. cbn [drop occurs]. rewrite ?drop_0. lia.
Qed.

End Answered.
End Objects.

Section ObjectRuns.
Import Pg Session ClServ.

(** a runtime that holds the program of the session *)
Definition demo_clworld_program : ClWorld :=
  {| cl_next := 1001; cl_queue := []; cl_refcnt := {[1000%nat := 1]} |}.

(** the session of [demo_message] over the first two rows of a chunk
    that was filtered before *)
Definition demo_message_rowmap : pgstrom_gpuhashjoin :=
  let m := demo_message KDS_FORMAT_TUPSLOT 2 in
  {| msg_errcode := msg_errcode m; mhtables := mhtables m; pds := pds m;
     pds_dest := pds_dest m; kparams_length := kparams_length m;
     kresults := kresults m;
     krowmap := {| nvalids := 2; rindex := [0; 1] |} |}.

Lemma demo_known_handles : known_handles demo_mhtables demo_clworld_program.
Proof. split; intros h Hh; discriminate Hh. Qed.

Lemma failed_submission_keeps_rowmap_witness :
  match clserv_process_gpuhashjoin demo_device_refusing demo_message_rowmap
          demo_mhtables demo_clworld_program with
  | (Replied _, _, w') =>
      exists leaked,
        settled demo_clworld_program 1000 leaked w'
        /\ (nvalids (krowmap demo_message_rowmap) < 0 -> leaked = None)
        /\ ((forall c, before_rowmap c = true ->
               cl_status demo_device_refusing c = CL_SUCCESS) ->
            supported_format (kds_format_of (kds (pds_dest demo_message_rowmap))) ->
            0 <= nvalids (krowmap demo_message_rowmap) ->
            is_Some leaked)
  | _ => True
  end.
Proof.
  apply (failed_submission_keeps_rowmap demo_device_refusing demo_message_rowmap
           demo_mhtables demo_clworld_program 1000).
  - reflexivity.
  - reflexivity.
  - cbn. lia.
  - split; reflexivity.
  - exact demo_known_handles.
Defined.

Lemma session_releases_every_object_witness :
  match clserv_process_gpuhashjoin demo_device (demo_message KDS_FORMAT_TUPSLOT 2)
          demo_mhtables demo_clworld_program with
  | (Submitted c, t1, w1) =>
      let '(_, _, w2, _) :=
        clserv_respond_hashjoin (H:=Demo.env) (H0:=Demo.store) CL_COMPLETE c
          (device_execute 7 (demo_message KDS_FORMAT_TUPSLOT 2)) t1 w1
          (Demo.shmem [Some 176; Some 64]) in
      settled demo_clworld_program 1000 None w2
  | _ => True
  end.
Proof.
  apply (session_releases_every_object (H:=Demo.env) (H0:=Demo.store) demo_device
           CL_COMPLETE (demo_message KDS_FORMAT_TUPSLOT 2)
           (device_execute 7 (demo_message KDS_FORMAT_TUPSLOT 2))
           demo_mhtables demo_clworld_program (Demo.shmem [Some 176; Some 64]) 1000).
  - reflexivity.
  - cbn. lia.
  - split; reflexivity.
  - exact demo_known_handles.
Defined.

End ObjectRuns.

(** * Looking up what the preload inserted *)
Section Lookup.
Import Pg MultiHash.
Context `{Env}.

Lemma TYPEALIGN_pow2 k x :
  0 <= k -> TYPEALIGN (2 ^ k) x = 2 ^ k * ((x + (2 ^ k - 1)) / 2 ^ k).
Proof.
  intros Hk. unfold TYPEALIGN. rewrite <- Z.ldiff_land.
  replace (2 ^ k - 1) with (Z.ones k) by (rewrite Z.ones_equiv; lia).
  rewrite Z.ldiff_ones_r by exact Hk.
  rewrite Z.shiftl_mul_pow2, Z.shiftr_div_pow2 by exact Hk. lia.
Qed.

Lemma TYPEALIGN_pow2_le k x : 0 <= k -> x <= TYPEALIGN (2 ^ k) x.
Proof.
  intros Hk. rewrite TYPEALIGN_pow2 by exact Hk.
  assert (Hp : 0 < 2 ^ k) by (apply Z.pow_pos_nonneg; lia).
  pose proof (Z.div_mod (x + (2 ^ k - 1)) (2 ^ k) ltac:(lia)).
  pose proof (Z.mod_pos_bound (x + (2 ^ k - 1)) (2 ^ k) Hp). lia.
Qed.

Lemma LONGALIGN_le x : x <= LONGALIGN x.
Proof. apply (TYPEALIGN_pow2_le 3). lia. Qed.

(** The size of the entry of a row, and the offsets the rows get when
    the first one is written at [consumed]. *)
Definition entry_size (slot : TupleTableSlot) : Z :=
  LONGALIGN (hentry_htup_offset + t_len (tts_tuple slot)).

Fixpoint placed (consumed : Z) (rows : list TupleTableSlot)
  : list (Z * TupleTableSlot) :=
  match rows with
  | [] => []
  | r :: rows' => (consumed, r) :: placed (consumed + entry_size r) rows'
  end.

(** the rows of slot [i] *)
Definition in_slot (mhs : MultiHashState) (nslots : Z) (i : nat)
  (p : Z * TupleTableSlot) : bool :=
  bool_decide (Z.to_nat (hash_value mhs (snd p) mod nslots) = i).

Definition slot_rows (mhs : MultiHashState) (nslots : Z) (i : nat)
  (consumed : Z) (rows : list TupleTableSlot) : list (Z * TupleTableSlot) :=
  List.filter (in_slot mhs nslots i) (placed consumed rows).

(** the entry written for a row *)
Definition entry_of (mhs : MultiHashState) (r : TupleTableSlot)
  (e : kern_hashentry) : Prop :=
  hash e = hash_value mhs r
  /\ he_t_len e = t_len (tts_tuple r)
  /\ htup e = take (Z.to_nat (t_len (tts_tuple r))) (t_data (tts_tuple r)).

Lemma slot_chain_other khtable consumed ntuples hash scan_tuple (j : nat) n :
  0 < consumed ->
  links_below khtable consumed ->
  j <> Z.to_nat (hash mod nslots khtable) ->
  slot_chain n (preload_insert_entry khtable consumed ntuples hash scan_tuple) j
  = slot_chain n khtable j.
Proof.
  intros Hc [Hslots Hent] Hj. unfold slot_chain, preload_insert_entry.
  cbn [hash_slots hentries].
  rewrite list_lookup_insert_ne by congruence.
  apply chain_insert_above.
  - intros off e He. apply (Hent off e He).
  - destruct (hash_slots khtable !! j) as [h|] eqn:Eh; cbn.
    + eapply Hslots; eauto.
    + lia.
Qed.

Lemma slot_rows_cons mhs ns i consumed r rows :
  slot_rows mhs ns i consumed (r :: rows)
  = if bool_decide (Z.to_nat (hash_value mhs r mod ns) = i)
    then (consumed, r) :: slot_rows mhs ns i (consumed + entry_size r) rows
    else slot_rows mhs ns i (consumed + entry_size r) rows.
Proof. reflexivity. Qed.

Lemma insert_rows_advances mhs : forall rows khtable consumed ntuples,
  0 < hentry_htup_offset ->
  Forall (fun r => 0 <= t_len (tts_tuple r)) rows ->
  consumed <= snd (fst (insert_rows mhs khtable consumed ntuples rows)).
Proof.
  induction rows as [|r rows IH]; intros khtable consumed ntuples Hoff Hrows;
    [cbn; lia|].
  inversion Hrows; subst. cbn [insert_rows].
  etransitivity; [|apply IH; assumption].
  pose proof (LONGALIGN_le (hentry_htup_offset + t_len (tts_tuple r))). lia.
Qed.

Lemma insert_rows_lookup mhs : forall rows khtable consumed ntuples,
  0 < hentry_htup_offset ->
  0 < nslots khtable ->
  length (hash_slots khtable) = Z.to_nat (nslots khtable) ->
  Forall (fun r => 0 <= hash_value mhs r) rows ->
  Forall (fun r => 0 <= t_len (tts_tuple r)) rows ->
  0 < consumed ->
  links_below khtable consumed ->
  forall khtable' consumed' ntuples',
    insert_rows mhs khtable consumed ntuples rows = (khtable', consumed', ntuples') ->
    consumed' < 2 ^ 32 ->
    consumed <= consumed'
    /\ (forall (i : nat) n,
          slot_chain (n + length (slot_rows mhs (nslots khtable) i consumed rows))
            khtable' i
          = rev (map fst (slot_rows mhs (nslots khtable) i consumed rows))
            ++ slot_chain n khtable i)
    /\ (forall off r, In (off, r) (placed consumed rows) ->
          exists e, hentries khtable' !! off = Some e /\ entry_of mhs r e)
    /\ (forall off, off < consumed ->
          hentries khtable' !! off = hentries khtable !! off).
Proof.
  induction rows as [|r rows IH];
    intros khtable consumed ntuples Hoff Hn Hlen Hhash Hrows Hc Hlinks
      khtable' consumed' ntuples' Hins Hbound.
  { cbn in Hins. injection Hins as <- <- <-.
    split; [lia|]. split; [|split].
    - intros i n. cbn. rewrite Nat.add_0_r. reflexivity.
    - intros off r [].
    - reflexivity. }
  cbn [insert_rows] in Hins. inversion Hrows as [|? ? Hr Hrows']; subst.
  inversion Hhash as [|? ? Hhr Hhash']; subst.
  fold (entry_size r) in Hins.
  assert (Hsize : 0 < entry_size r).
  { unfold entry_size. pose proof (LONGALIGN_le (hentry_htup_offset + t_len (tts_tuple r))).
    lia. }
  set (kht1 := preload_insert_entry khtable consumed ntuples (hash_value mhs r)
                 (tts_tuple r)) in *.
  assert (Hadv : consumed + entry_size r <= consumed').
  { pose proof (insert_rows_advances mhs rows kht1 (consumed + entry_size r)
                  (cl_uint (ntuples + 1)) Hoff Hrows') as Ha.
    rewrite Hins in Ha. exact Ha. }
  assert (Hn1 : nslots kht1 = nslots khtable) by reflexivity.
  assert (Hlen1 : length (hash_slots kht1) = Z.to_nat (nslots kht1)).
  { unfold kht1, preload_insert_entry. cbn [hash_slots nslots].
    rewrite length_insert. exact Hlen. }
  destruct (IH kht1 (consumed + entry_size r) (cl_uint (ntuples + 1)) Hoff
              ltac:(rewrite Hn1; exact Hn) Hlen1 Hhash' Hrows' ltac:(lia))
    with (khtable' := khtable') (consumed' := consumed') (ntuples' := ntuples')
    as (Hle & Hchains & Hentries & Hbelow); [| exact Hins | exact Hbound |].
  { apply preload_insert_entry_links_below; [lia|lia|exact Hlinks]. }
  pose proof (preload_insert_entry_spec khtable consumed ntuples (hash_value mhs r)
                (tts_tuple r) Hn Hlen Hhr) as Hspec.
  cbv zeta in Hspec. fold kht1 in Hspec.
  destruct Hspec as (Hentry & _ & _ & _ & Hhead).
  specialize (Hhead ltac:(lia) Hlinks).
  split; [lia|]. split; [|split].
  - intros i n. rewrite slot_rows_cons. rewrite Hn1 in Hchains.
    destruct (decide (Z.to_nat (hash_value mhs r mod nslots khtable) = i)) as [Hi|Hi].
    + rewrite bool_decide_eq_true_2 by exact Hi. cbn [length map fst rev].
      rewrite Nat.add_succ_r, <- Nat.add_succ_l.
      rewrite Hchains. subst i. rewrite Hhead. rewrite <- app_assoc. reflexivity.
    + rewrite bool_decide_eq_false_2 by exact Hi.
      rewrite Hchains. f_equal.
      apply slot_chain_other; [exact Hc|exact Hlinks|congruence].
  - intros off r0 [[= <- <-]|Hin].
    + exists {| hash := hash_value mhs r;
                next := default 0 (hash_slots khtable
                                   !! Z.to_nat (hash_value mhs r mod nslots khtable));
                rowid := ntuples; he_t_len := t_len (tts_tuple r);
                htup := take (Z.to_nat (t_len (tts_tuple r))) (t_data (tts_tuple r)) |}.
      split; [|repeat split].
      rewrite Hbelow by lia. exact Hentry.
    + apply Hentries. exact Hin.
  - intros off Hlt. rewrite Hbelow by lia.
    unfold kht1, preload_insert_entry. cbn [hentries].
    apply lookup_insert_ne. lia.
Qed.

Lemma chain_zero n entries : chain n entries 0 = [].
Proof. destruct n; reflexivity. Qed.

Lemma empty_khtable_chain mhs n i : slot_chain n (empty_khtable mhs) i = [].
Proof.
  unfold slot_chain, empty_khtable. cbn [hash_slots hentries].
  destruct (replicate (Z.to_nat (mhs_nslots mhs)) 0 !! i) as [h|] eqn:Eh; cbn.
  - apply lookup_replicate in Eh as [-> _]. apply chain_zero.
  - apply chain_zero.
Qed.

Lemma empty_khtable_links mhs bound :
  0 < bound -> links_below (empty_khtable mhs) bound.
Proof.
  intros Hb. split.
  - intros j h Hj. cbn in Hj. apply lookup_replicate in Hj as [-> _]. exact Hb.
  - intros off e He. cbn in He. rewrite lookup_empty in He. discriminate.
Qed.

(** X9: the table multihash_preload_khashtable builds can be searched
    as the device does.  The rows it took, [done], are a prefix of the
    rows pending; every one of them has its entry, with its hash value
    and its tuple, at the offset the entries before it left; and walking
    the chain of a slot from its head yields the offsets of exactly the
    rows whose hash value modulo nslots is that slot, the row inserted
    last first.  (Offsets are kept as cl_uint, hence the bound on the
    length of the table.) *)
Theorem preloaded_rows_are_found mhs inner mht w :
  0 < hentry_htup_offset ->
  0 <= khtable_slot_offset (natts (outer_tupdesc mhs)) ->
  0 < mhs_nslots mhs ->
  Forall (fun r => 0 <= hash_value mhs r) (pending mhs) ->
  Forall (fun r => 0 <= t_len (tts_tuple r)) (pending mhs) ->
  threshold_exceeded mhs (header_required mhs mht) (mh_length mht) = false ->
  exists mhs' inner' mht' w' kht done,
    multihash_preload_khashtable mhs inner mht true w = Ok (mhs', inner', mht', w')
    /\ curr_chunk mhs' = Some kht
    /\ htables (kern mht') !! usage mht = Some kht
    /\ pending mhs = done ++ pending mhs'
    /\ (kh_length kht < 2 ^ 32 ->
        (forall (i : nat) n,
           slot_chain
             (n + length (slot_rows mhs (mhs_nslots mhs) i (first_entry_offset mhs) done))
             kht i
           = rev (map fst (slot_rows mhs (mhs_nslots mhs) i (first_entry_offset mhs) done)))
        /\ (forall off r, In (off, r) (placed (first_entry_offset mhs) done) ->
              exists e, hentries kht !! off = Some e /\ entry_of mhs r e)).
Proof.
  intros Hoff Hslot Hn Hcrc Hrows Hthr.
  destruct (multihash_preload_forward_spec mhs inner mht w Hthr)
    as (mhs' & inner' & mht' & w' & l & done & Hrun & _ & Hcc & Htab & _ & _ & Hend).
  exists mhs', inner', mht', w', (khtable_of_rows mhs done), done.
  split; [exact Hrun|]. split; [exact Hcc|]. split; [exact Htab|].
  assert (Hp : pending mhs = done ++ pending mhs').
  { destruct Hend as [(_ & -> & Ho & _ & Hr)|(l0 & req & r & _ & _ & Ho & _ & Hp)].
    - assert (pending mhs' = []) as -> by (unfold pending; rewrite Ho, Hr; reflexivity).
      rewrite app_nil_r. reflexivity.
    - rewrite Hp. unfold pending. rewrite Ho. reflexivity. }
  split; [exact Hp|].
  unfold khtable_of_rows.
  destruct (insert_rows mhs (empty_khtable mhs) (first_entry_offset mhs) 0 done)
    as [[kht' consumed'] ntuples'] eqn:Hins.
  cbn [kh_length set_kh_length]. intros Hbound.
  assert (Hfirst : 0 < first_entry_offset mhs).
  { unfold first_entry_offset.
    pose proof (LONGALIGN_le (khtable_slot_offset (natts (outer_tupdesc mhs))
                              + 4 * mhs_nslots mhs)). lia. }
  assert (Hdone : Forall (fun r => 0 <= t_len (tts_tuple r)) done).
  { rewrite Hp in Hrows. apply Forall_app in Hrows. apply Hrows. }
  assert (Hdone' : Forall (fun r => 0 <= hash_value mhs r) done).
  { rewrite Hp in Hcrc. apply Forall_app in Hcrc. apply Hcrc. }
  destruct (insert_rows_lookup mhs done (empty_khtable mhs) (first_entry_offset mhs) 0
              Hoff Hn ltac:(cbn; rewrite length_replicate; reflexivity)
              Hdone' Hdone Hfirst
              (empty_khtable_links mhs _ Hfirst) _ _ _ Hins Hbound)
    as (_ & Hchains & Hentries & _).
  split.
  - intros i n. specialize (Hchains i n).
    change (nslots (empty_khtable mhs)) with (mhs_nslots mhs) in Hchains.
    rewrite empty_khtable_chain, app_nil_r in Hchains. exact Hchains.
  - exact Hentries.
Qed.

End Lookup.

(** * The column descriptions of a hash table *)
Section ColMeta.
Import Pg MultiHash.
Context `{Env}.

(** the alignment of every column is a power of two *)
Definition aligned_widths (atts : list Form_pg_attribute) : Prop :=
  Forall (fun a => exists k, 0 <= k /\ typealign_get_width (attalign a) = 2 ^ k) atts.

Lemma preload_colmeta_lookup atts off (i : nat) c :
  preload_colmeta atts off !! i = Some c ->
  exists a, atts !! i = Some a
            /\ cm_attlen c = attlen a /\ cm_attbyval c = attbyval a
            /\ cm_attnum c = attnum a
            /\ cm_attalign c = typealign_get_width (attalign a).
Proof.
  revert off i. induction atts as [|a atts IH]; intros off i Hc; [discriminate|].
  destruct i as [|i]; cbn in Hc.
  - injection Hc as <-. exists a. repeat split.
  - apply IH in Hc. exact Hc.
Qed.

(** After a column without a cached offset no column has one. *)
Lemma preload_colmeta_uncached atts (i : nat) c :
  preload_colmeta atts (-1) !! i = Some c -> cm_attcacheoff c = -1.
Proof.
  revert i. induction atts as [|a atts IH]; intros i Hc; [discriminate|].
  destruct i as [|i]; cbn in Hc.
  - injection Hc as <-. reflexivity.
  - apply IH in Hc. exact Hc.
Qed.

Lemma preload_colmeta_fixed atts : forall off (i : nat) c a,
  0 < off ->
  aligned_widths atts ->
  preload_colmeta atts off !! i = Some c ->
  atts !! i = Some a ->
  Forall (fun b => 0 < attlen b) (take (S i) atts) ->
  off <= cm_attcacheoff c
  /\ cm_attcacheoff c mod typealign_get_width (attalign a) = 0.
Proof.
  induction atts as [|a0 atts IH]; intros off i c a Hoff Hal Hc Ha Hfix;
    [discriminate|].
  inversion Hal as [|? ? (k & Hk & Hw) Hal']; subst.
  cbn [take] in Hfix. inversion Hfix as [|? ? Hlen0 Hfix']; subst.
  cbn [preload_colmeta] in Hc.
  destruct (Z.ltb_spec 0 off) as [_|]; [|lia].
  destruct (Z.ltb_spec 0 (attlen a0)) as [_|]; [|lia].
  rewrite Hw in Hc.
  pose proof (TYPEALIGN_pow2_le k off Hk) as Hle.
  destruct (Z.leb_spec 0 (TYPEALIGN (2 ^ k) off)) as [_|]; [|lia].
  destruct i as [|i]; cbn in Hc, Ha.
  - injection Hc as <-. injection Ha as <-. cbn [cm_attcacheoff].
    split; [exact Hle|]. rewrite Hw, TYPEALIGN_pow2 by exact Hk.
    rewrite Z.mul_comm. apply Z_mod_mult.
  - destruct (IH (TYPEALIGN (2 ^ k) off + attlen a0) i c a ltac:(lia) Hal' Hc Ha Hfix')
      as [Hlow Hmod].
    split; [lia|exact Hmod].
Qed.

Lemma preload_colmeta_variable atts : forall off (i : nat) c,
  0 < off ->
  aligned_widths atts ->
  preload_colmeta atts off !! i = Some c ->
  Exists (fun b => attlen b <= 0) (take (S i) atts) ->
  cm_attcacheoff c = -1.
Proof.
  induction atts as [|a0 atts IH]; intros off i c Hoff Hal Hc Hvar; [discriminate|].
  inversion Hal as [|? ? (k & Hk & Hw) Hal']; subst.
  cbn [preload_colmeta] in Hc.
  destruct (Z.ltb_spec 0 off) as [_|]; [|lia].
  destruct (Z.ltb_spec 0 (attlen a0)) as [Hlen|Hlen].
  - rewrite Hw in Hc.
    pose proof (TYPEALIGN_pow2_le k off Hk) as Hle.
    destruct (Z.leb_spec 0 (TYPEALIGN (2 ^ k) off)) as [_|]; [|lia].
    cbn [take] in Hvar. inversion Hvar as [? ? Hv|? ? Hv]; subst; [lia|].
    destruct i as [|i]; cbn in Hc.
    + cbn in Hv. inversion Hv.
    + apply (IH (TYPEALIGN (2 ^ k) off + attlen a0) i c ltac:(lia) Hal' Hc Hv).
  - change (0 <=? -1) with false in Hc. cbv iota in Hc.
    destruct i as [|i]; cbn in Hc.
    + injection Hc as <-. reflexivity.
    + apply preload_colmeta_uncached in Hc. exact Hc.
Qed.

Lemma preload_colmeta_disjoint atts : forall off (i j : nat) ci cj ai,
  0 < off ->
  aligned_widths atts ->
  (i < j)%nat ->
  preload_colmeta atts off !! i = Some ci ->
  preload_colmeta atts off !! j = Some cj ->
  atts !! i = Some ai ->
  Forall (fun b => 0 < attlen b) (take (S j) atts) ->
  cm_attcacheoff ci + attlen ai <= cm_attcacheoff cj.
Proof.
  induction atts as [|a0 atts IH]; intros off i j ci cj ai Hoff Hal Hij Hci Hcj Hai Hfix;
    [discriminate|].
  inversion Hal as [|? ? (k & Hk & Hw) Hal']; subst.
  cbn [take] in Hfix. inversion Hfix as [|? ? Hlen0 Hfix']; subst.
  cbn [preload_colmeta] in Hci, Hcj.
  destruct (Z.ltb_spec 0 off) as [_|]; [|lia].
  destruct (Z.ltb_spec 0 (attlen a0)) as [_|]; [|lia].
  rewrite Hw in Hci, Hcj.
  pose proof (TYPEALIGN_pow2_le k off Hk) as Hle.
  destruct (Z.leb_spec 0 (TYPEALIGN (2 ^ k) off)) as [_|]; [|lia].
  destruct j as [|j]; [lia|]. cbn in Hcj.
  destruct i as [|i]; cbn in Hci, Hai.
  - injection Hci as <-. injection Hai as <-. cbn [cm_attcacheoff].
    destruct (preload_colmeta_lookup _ _ _ _ Hcj) as (aj & Haj & _).
    destruct (preload_colmeta_fixed atts (TYPEALIGN (2 ^ k) off + attlen a0) j cj aj
                ltac:(lia) Hal' Hcj Haj Hfix')
      as [Hlow _].
    exact Hlow.
  - apply (IH (TYPEALIGN (2 ^ k) off + attlen a0) i j ci cj ai ltac:(lia) Hal'
             ltac:(lia) Hci Hcj Hai Hfix').
Qed.

(** X10: the cached offsets multihash_preload_khashtable writes into
    [colmeta].  As long as all columns so far are of fixed length, a
    column gets an offset that is a multiple of its alignment, not below
    the start offset and not below the end of any column before it.
    From the first column of variable length on, every column gets -1. *)
Theorem colmeta_cached_offsets atts off (i : nat) c a :
  0 < off ->
  aligned_widths atts ->
  preload_colmeta atts off !! i = Some c ->
  atts !! i = Some a ->
  (Forall (fun b => 0 < attlen b) (take (S i) atts) ->
   off <= cm_attcacheoff c
   /\ cm_attcacheoff c mod typealign_get_width (attalign a) = 0
   /\ forall (j : nat) cj aj,
        (j < i)%nat -> preload_colmeta atts off !! j = Some cj ->
        atts !! j = Some aj ->
        cm_attcacheoff cj + attlen aj <= cm_attcacheoff c)
  /\ (Exists (fun b => attlen b <= 0) (take (S i) atts) ->
      cm_attcacheoff c = -1).
Proof.
  intros Hoff Hal Hc Ha. split.
  - intros Hfix.
    destruct (preload_colmeta_fixed atts off i c a Hoff Hal Hc Ha Hfix) as [H1 H2].
    split; [exact H1|]. split; [exact H2|].
    intros j cj aj Hj Hcj Haj.
    apply (preload_colmeta_disjoint atts off j i cj c aj Hoff Hal Hj Hcj Hc Haj Hfix).
  - intros Hvar. apply (preload_colmeta_variable atts off i c Hoff Hal Hc Hvar).
Qed.

End ColMeta.

Section LookupRuns.
Import Pg MultiHash.

Lemma preloaded_rows_are_found_witness :
  exists mhs' inner' mht' w' kht done,
    multihash_preload_khashtable (H := Demo.env) demo_mhs [] demo_mhtables true
      (Demo.shmem [None]) = Ok (mhs', inner', mht', w')
    /\ curr_chunk mhs' = Some kht
    /\ htables (kern mht') !! usage demo_mhtables = Some kht
    /\ pending demo_mhs = done ++ pending mhs'
    /\ (kh_length kht < 2 ^ 32 ->
        (forall (i : nat) n,
           slot_chain
             (n + length (slot_rows (H := Demo.env) demo_mhs (mhs_nslots demo_mhs) i
                            (first_entry_offset (H := Demo.env) demo_mhs) done)) kht i
           = rev (map fst (slot_rows (H := Demo.env) demo_mhs (mhs_nslots demo_mhs) i
                             (first_entry_offset (H := Demo.env) demo_mhs) done)))
        /\ (forall off r,
              In (off, r) (placed (H := Demo.env)
                             (first_entry_offset (H := Demo.env) demo_mhs) done) ->
              exists e, hentries kht !! off = Some e
                        /\ entry_of (H := Demo.env) demo_mhs r e)).
Proof.
  apply (preloaded_rows_are_found (H := Demo.env) demo_mhs [] demo_mhtables
           (Demo.shmem [None])).
  - reflexivity.
  - apply Z.leb_le. vm_compute; reflexivity.
  - reflexivity.
  - repeat constructor; apply Z.leb_le; vm_compute; reflexivity.
  - repeat constructor; apply Z.leb_le; vm_compute; reflexivity.
  - vm_compute; reflexivity.
Defined.

Definition demo_atts : list Form_pg_attribute :=
  [ {| attbyval := true; attalign := 4; attlen := 4; attnum := 1 |};
    {| attbyval := true; attalign := 8; attlen := 8; attnum := 2 |};
    {| attbyval := false; attalign := 4; attlen := -1; attnum := 3 |};
    {| attbyval := true; attalign := 4; attlen := 4; attnum := 4 |} ].

Definition demo_att1 : Form_pg_attribute :=
  {| attbyval := true; attalign := 8; attlen := 8; attnum := 2 |}.

Definition demo_colmeta1 : kern_colmeta :=
  {| cm_attbyval := true; cm_attalign := 8; cm_attlen := 8; cm_attnum := 2;
     cm_attcacheoff := 32 |}.

Lemma colmeta_cached_offsets_witness :
  (Forall (fun b => 0 < attlen b) (take 2 demo_atts) ->
   24 <= cm_attcacheoff demo_colmeta1
   /\ cm_attcacheoff demo_colmeta1
      mod typealign_get_width (Env := Demo.env) (attalign demo_att1) = 0
   /\ forall (j : nat) cj aj,
        (j < 1)%nat ->
        preload_colmeta (H := Demo.env) demo_atts 24 !! j = Some cj ->
        demo_atts !! j = Some aj ->
        cm_attcacheoff cj + attlen aj <= cm_attcacheoff demo_colmeta1)
  /\ (Exists (fun b => attlen b <= 0) (take 2 demo_atts) ->
      cm_attcacheoff demo_colmeta1 = -1).
Proof.
  apply (colmeta_cached_offsets (H := Demo.env) demo_atts 24 1 demo_colmeta1 demo_att1).
  - lia.
  - repeat constructor; [exists 2|exists 3|exists 2|exists 2];
      (split; [lia|reflexivity]).
  - vm_compute; reflexivity.
  - reflexivity.
Defined.

End LookupRuns.

(** * The links of the table the preload builds *)
Section Links.
Import Pg MultiHash.
Context `{Env}.

(** The offset the buffer is used up to after the entries of [rows] were
    written from [consumed] on. *)
Definition offset_after (consumed : Z) (rows : list TupleTableSlot) : Z :=
  fold_left (fun c r => c + entry_size r) rows consumed.

(** The slot of a row. *)
Definition slot_of (mhs : MultiHashState) (r : TupleTableSlot) : nat :=
  Z.to_nat (hash_value mhs r mod mhs_nslots mhs).

(** The offset of the row of slot [i] written last among [rows], the
    first of which is written at [consumed]; [head] if there is none. *)
Definition last_in_slot (mhs : MultiHashState) (i : nat) (head consumed : Z)
  (rows : list TupleTableSlot) : Z :=
  hd head (rev (map fst (slot_rows mhs (mhs_nslots mhs) i consumed rows))).

Lemma hd_snoc {A} (d x : A) l : hd d (l ++ [x]) = hd x l.
Proof. destruct l; reflexivity. Qed.

Lemma last_in_slot_cons mhs i head consumed r rows :
  last_in_slot mhs i head consumed (r :: rows)
  = last_in_slot mhs i (if bool_decide (slot_of mhs r = i) then consumed else head)
      (consumed + entry_size r) rows.
Proof.
  unfold last_in_slot, slot_of. rewrite slot_rows_cons.
  destruct (bool_decide _); [|reflexivity].
  cbn [map fst rev]. apply hd_snoc.
Qed.

Lemma entry_size_pos r :
  0 < hentry_htup_offset -> 0 <= t_len (tts_tuple r) -> 0 < entry_size r.
Proof.
  intros Hoff Hr. unfold entry_size.
  pose proof (LONGALIGN_le (hentry_htup_offset + t_len (tts_tuple r))). lia.
Qed.

Lemma slot_of_lt mhs r : 0 < mhs_nslots mhs ->
  (slot_of mhs r < Z.to_nat (mhs_nslots mhs))%nat.
Proof.
  intros Hn. unfold slot_of.
  pose proof (Z.mod_pos_bound (hash_value mhs r) (mhs_nslots mhs) Hn). lia.
Qed.

(** What the rounds leave in the table: the offset the buffer is used up
    to, the head of every slot, the entry of every row with its [next]
    field, and the entries that were there. *)
Lemma insert_rows_links mhs : forall rows khtable consumed ntuples,
  0 < hentry_htup_offset ->
  0 < mhs_nslots mhs ->
  nslots khtable = mhs_nslots mhs ->
  length (hash_slots khtable) = Z.to_nat (mhs_nslots mhs) ->
  Forall (fun r => 0 <= t_len (tts_tuple r)) rows ->
  0 < consumed ->
  forall khtable' consumed' ntuples',
    insert_rows mhs khtable consumed ntuples rows = (khtable', consumed', ntuples') ->
    consumed' < 2 ^ 32 ->
    consumed' = offset_after consumed rows
    /\ (forall i : nat, (i < Z.to_nat (mhs_nslots mhs))%nat ->
          hash_slots khtable' !! i
          = Some (last_in_slot mhs i (default 0 (hash_slots khtable !! i))
                    consumed rows))
    /\ (forall before r after, rows = before ++ r :: after ->
          exists e,
            hentries khtable' !! offset_after consumed before = Some e
            /\ entry_of mhs r e
            /\ next e
               = last_in_slot mhs (slot_of mhs r)
                   (default 0 (hash_slots khtable !! slot_of mhs r))
                   consumed before)
    /\ (forall off, off < consumed ->
          hentries khtable' !! off = hentries khtable !! off).
Proof.
  induction rows as [|r0 rows IH];
    intros khtable consumed ntuples Hoff Hn Hns Hlen Hrows Hc
      khtable' consumed' ntuples' Hins Hbound.
  { cbn in Hins. injection Hins as <- <- <-.
    split; [reflexivity|]. split; [|split].
    - intros i Hi. unfold last_in_slot. cbn.
      destruct (hash_slots khtable !! i) as [h|] eqn:Eh; [reflexivity|].
      apply lookup_ge_None in Eh. exfalso. lia.
    - intros [|? ?] r after [=].
    - reflexivity. }
  cbn [insert_rows] in Hins. inversion Hrows as [|? ? Hr Hrows']; subst.
  fold (entry_size r0) in Hins.
  pose proof (entry_size_pos r0 Hoff Hr) as Hsize.
  set (kht1 := preload_insert_entry khtable consumed ntuples (hash_value mhs r0)
                 (tts_tuple r0)) in *.
  assert (Hadv : consumed + entry_size r0 <= consumed').
  { pose proof (insert_rows_advances mhs rows kht1 (consumed + entry_size r0)
                  (cl_uint (ntuples + 1)) Hoff Hrows') as Ha.
    rewrite Hins in Ha. exact Ha. }
  assert (Hlen1 : length (hash_slots kht1) = Z.to_nat (mhs_nslots mhs)).
  { unfold kht1, preload_insert_entry. cbn [hash_slots].
    rewrite length_insert. exact Hlen. }
  assert (Hc1 : 0 < consumed + entry_size r0) by lia.
  destruct (IH kht1 (consumed + entry_size r0) (cl_uint (ntuples + 1)) Hoff Hn Hns
              Hlen1 Hrows' Hc1 khtable' consumed' ntuples' Hins Hbound)
    as (Hcons & Hheads & Hentries & Hbelow).
  assert (Hslot0 : Z.to_nat (hash_value mhs r0 mod nslots khtable) = slot_of mhs r0)
    by (rewrite Hns; reflexivity).
  assert (Hhead1 : forall i : nat,
            default 0 (hash_slots kht1 !! i)
            = if bool_decide (slot_of mhs r0 = i) then consumed
              else default 0 (hash_slots khtable !! i)).
  { intros i. unfold kht1, preload_insert_entry. cbn [hash_slots].
    rewrite Hslot0.
    destruct (decide (slot_of mhs r0 = i)) as [<-|Hne].
    - rewrite bool_decide_eq_true_2 by reflexivity.
      rewrite list_lookup_insert_eq
        by (rewrite Hlen; apply slot_of_lt; exact Hn).
      cbn. apply cl_uint_small. lia.
    - rewrite bool_decide_eq_false_2 by exact Hne.
      rewrite list_lookup_insert_ne by exact Hne. reflexivity. }
  split; [exact Hcons|]. split; [|split].
  - intros i Hi. rewrite (Hheads i Hi), last_in_slot_cons, Hhead1. reflexivity.
  - intros [|b before] r after Hsplit; injection Hsplit as <- ->.
    + exists {| hash := hash_value mhs r0;
                next := default 0 (hash_slots khtable !! slot_of mhs r0);
                rowid := ntuples; he_t_len := t_len (tts_tuple r0);
                htup := take (Z.to_nat (t_len (tts_tuple r0)))
                          (t_data (tts_tuple r0)) |}.
      split; [|split; [repeat split|reflexivity]].
      cbn [offset_after fold_left]. rewrite Hbelow by lia.
      unfold kht1, preload_insert_entry. cbn [hentries].
      rewrite Hslot0. apply lookup_insert_eq.
    + destruct (Hentries before r after eq_refl) as (e & He & Hof & Hnext).
      exists e. split; [exact He|]. split; [exact Hof|].
      rewrite Hnext, last_in_slot_cons, Hhead1. reflexivity.
  - intros off Hlt. rewrite Hbelow by lia.
    unfold kht1, preload_insert_entry. cbn [hentries].
    apply lookup_insert_ne. lia.
Qed.

Lemma offset_after_le rows : forall consumed,
  0 < hentry_htup_offset ->
  Forall (fun r => 0 <= t_len (tts_tuple r)) rows ->
  consumed <= offset_after consumed rows.
Proof.
  induction rows as [|r rows IH]; intros consumed Hoff Hrows; [reflexivity|].
  apply Forall_cons in Hrows as [Hr Hrows].
  pose proof (entry_size_pos r Hoff Hr).
  specialize (IH (consumed + entry_size r) Hoff Hrows).
  change (offset_after consumed (r :: rows))
    with (offset_after (consumed + entry_size r) rows). lia.
Qed.

Lemma offset_after_app consumed rows rest :
  offset_after consumed (rows ++ rest)
  = offset_after (offset_after consumed rows) rest.
Proof. unfold offset_after. apply fold_left_app. Qed.

Lemma preload_next_slot_threshold mhs :
  threshold_exceeded (snd (preload_next_slot mhs)) = threshold_exceeded mhs.
Proof.
  unfold preload_next_slot, ExecProcNode.
  destruct (outer_overflow mhs); [reflexivity|].
  destruct (ps_rest (outer_ps mhs)); reflexivity.
Qed.

(** The first round of the loop for a row the buffer has room for
    without an expansion: the row is among the rows the loop takes. *)
Lemma preload_scan_takes_first n v r :
  hd_error (pending (pv_mhs v)) = Some r ->
  threshold_exceeded (pv_mhs v)
    (usage (pv_mhtables v) + pv_consumed v + entry_size r)
    (mh_length (pv_mhtables v)) = false ->
  (length (pending (pv_mhs v)) <= n)%nat ->
  exists v' done',
    preload_scan (S n) v = Ok v'
    /\ pending (pv_mhs v) = (r :: done') ++ pending (pv_mhs v').
Proof.
  intros Hhd Hthr Hn.
  pose proof (preload_next_slot_spec (pv_mhs v)) as (Hrow & _ & _).
  pose proof (preload_next_slot_threshold (pv_mhs v)) as Hthr1.
  destruct (preload_next_slot (pv_mhs v)) as [[slot|] mhs1] eqn:Hnext;
    cbn [snd] in Hthr1.
  2:{ destruct Hrow as [Hp _]. rewrite Hp in Hhd. discriminate. }
  destruct Hrow as [Hp _]. rewrite Hp in Hhd. injection Hhd as ->.
  rewrite (preload_scan_round_fits n v r mhs1 Hnext)
    by (rewrite Hthr1; exact Hthr).
  match goal with |- context [preload_scan n ?v1] =>
    destruct (preload_scan_spec n v1) as (v' & l & done & Hscan & _ & _ & _ & _ & Hend)
  end.
  { cbn [pv_mhs]. rewrite Hp in Hn. cbn [length] in Hn. lia. }
  exists v', done. split; [exact Hscan|].
  cbn [pv_mhs] in Hend. rewrite Hp. cbn [app]. f_equal.
  destruct Hend as [(_ & Hd & Ho & _ & Hr)|(l0 & req & r' & _ & _ & Ho & _ & Hp')].
  - assert (Hnil : pending (pv_mhs v') = [])
      by (unfold pending; rewrite Ho, Hr; reflexivity).
    rewrite Hnil, app_nil_r. symmetry. exact Hd.
  - assert (Hrest : pending (pv_mhs v') = r' :: ps_rest (outer_ps (pv_mhs v')))
      by (unfold pending; rewrite Ho; reflexivity).
    rewrite Hrest. exact Hp'.
Qed.

(** multihash_preload_khashtable takes the first pending row if the
    buffer has room for its entry without an expansion. *)
Lemma multihash_preload_takes_first mhs inner mht w r :
  threshold_exceeded mhs (header_required mhs mht) (mh_length mht) = false ->
  hd_error (pending mhs) = Some r ->
  threshold_exceeded mhs (usage mht + first_entry_offset mhs + entry_size r)
    (mh_length mht) = false ->
  exists mhs' inner' mht' w' done',
    multihash_preload_khashtable mhs inner mht true w = Ok (mhs', inner', mht', w')
    /\ pending mhs = (r :: done') ++ pending mhs'.
Proof.
  intros Hthr Hhd Hfit. unfold multihash_preload_khashtable. cbn [negb].
  unfold header_required in Hthr.
  cbn [usage set_htable_offset mh_length].
  rewrite preload_header_loop_fits by exact Hthr.
  cbn [mbind result_bind rbind].
  match goal with |- context [preload_scan (S ?n) ?v] =>
    destruct (preload_scan_takes_first n v r) as (v' & done' & Hscan & Hp)
  end.
  - exact Hhd.
  - exact Hfit.
  - cbn [pv_mhs]. unfold pending. rewrite length_app.
    destruct (outer_overflow mhs); cbn; lia.
  - rewrite Hscan. cbn [pv_mhs] in Hp.
    eexists _, _, _, _, done'. split; [reflexivity|]. exact Hp.
Qed.

(** The call of multihash_preload_khashtable that scans forward, with
    the table it leaves and the links of that table. *)
Lemma multihash_preload_forward_links mhs inner mht w :
  0 < hentry_htup_offset ->
  0 <= khtable_slot_offset (natts (outer_tupdesc mhs)) ->
  0 < mhs_nslots mhs ->
  Forall (fun r => 0 <= t_len (tts_tuple r)) (pending mhs) ->
  threshold_exceeded mhs (header_required mhs mht) (mh_length mht) = false ->
  exists mhs' inner' mht' w' kht done,
    multihash_preload_khashtable mhs inner mht true w = Ok (mhs', inner', mht', w')
    /\ kht = khtable_of_rows mhs done
    /\ curr_chunk mhs' = Some kht
    /\ htables (kern mht') !! usage mht = Some kht
    /\ pending mhs = done ++ pending mhs'
    /\ (outer_overflow mhs' = None -> pending mhs' = [])
    /\ kh_length kht = offset_after (first_entry_offset mhs) done
    /\ kh_length kht <= offset_after (first_entry_offset mhs) (pending mhs)
    /\ (forall r, hd_error (pending mhs) = Some r ->
          threshold_exceeded mhs (usage mht + first_entry_offset mhs + entry_size r)
            (mh_length mht) = false ->
          exists done', done = r :: done')
    /\ (exists l, shmem_log w' = shmem_log w ++ l
                  /\ (Forall granted l -> done = pending mhs))
    /\ (kh_length kht < 2 ^ 32 ->
        (forall i : nat, (i < Z.to_nat (mhs_nslots mhs))%nat ->
           hash_slots kht !! i
           = Some (last_in_slot mhs i 0 (first_entry_offset mhs) done))
        /\ (forall before r after, done = before ++ r :: after ->
              exists e,
                hentries kht !! offset_after (first_entry_offset mhs) before = Some e
                /\ entry_of mhs r e
                /\ next e
                   = last_in_slot mhs (slot_of mhs r) 0 (first_entry_offset mhs)
                       before)).
Proof.
  intros Hoff Hslot Hn Hrows Hthr.
  destruct (multihash_preload_forward_spec mhs inner mht w Hthr)
    as (mhs' & inner' & mht' & w' & l & done & Hrun & Hlog & Hcc & Htab & _ & _ & Hend).
  exists mhs', inner', mht', w', (khtable_of_rows mhs done), done.
  split; [exact Hrun|]. split; [reflexivity|].
  split; [exact Hcc|]. split; [exact Htab|].
  assert (Hp : pending mhs = done ++ pending mhs'
               /\ (outer_overflow mhs' = None -> pending mhs' = [])).
  { destruct Hend as [(_ & -> & Ho & _ & Hr)|(l0 & req & r & _ & _ & Ho & _ & Hp)].
    - assert (pending mhs' = []) as -> by (unfold pending; rewrite Ho, Hr; reflexivity).
      rewrite app_nil_r. split; reflexivity.
    - split; [|rewrite Ho; discriminate].
      rewrite Hp. unfold pending. rewrite Ho. reflexivity. }
  destruct Hp as [Hp Hnone]. split; [exact Hp|]. split; [exact Hnone|].
  unfold khtable_of_rows.
  destruct (insert_rows mhs (empty_khtable mhs) (first_entry_offset mhs) 0 done)
    as [[kht' consumed'] ntuples'] eqn:Hins.
  cbn [kh_length set_kh_length hash_slots hentries].
  assert (Hfirst : 0 < first_entry_offset mhs).
  { unfold first_entry_offset.
    pose proof (LONGALIGN_le (khtable_slot_offset (natts (outer_tupdesc mhs))
                              + 4 * mhs_nslots mhs)). lia. }
  assert (Hdone : Forall (fun r => 0 <= t_len (tts_tuple r)) done).
  { rewrite Hp in Hrows. apply Forall_app in Hrows. apply Hrows. }
  assert (Hadv : consumed' = offset_after (first_entry_offset mhs) done).
  { clear -Hins. revert Hins. generalize (empty_khtable mhs) (first_entry_offset mhs) 0.
    induction done as [|r done IH]; intros k c n Hins.
    - cbn in Hins. injection Hins as _ <- _. reflexivity.
    - cbn [insert_rows] in Hins. apply IH in Hins. exact Hins. }
  split; [exact Hadv|].
  split.
  { rewrite Hadv, Hp, offset_after_app. apply offset_after_le; [exact Hoff|].
    rewrite Hp in Hrows. apply Forall_app in Hrows. apply Hrows. }
  split.
  { intros r Hhd Hfit.
    destruct (multihash_preload_takes_first mhs inner mht w r Hthr Hhd Hfit)
      as (mhs2 & inner2 & mht2 & w2 & done' & Hrun2 & Hp2).
    rewrite Hrun in Hrun2. injection Hrun2 as <- <- <- <-.
    exists done'. rewrite Hp in Hp2. apply app_inv_tail in Hp2. exact Hp2. }
  split.
  { exists l. split; [exact Hlog|]. intros Hall.
    destruct Hend as [(_ & Hd & _)|(l0 & req & r & Hl & _)]; [exact Hd|].
    rewrite Hl in Hall. apply Forall_app in Hall as [_ Hall].
    apply Forall_cons in Hall as [[x Hx] _]. discriminate Hx. }
  intros Hbound.
  destruct (insert_rows_links mhs done (empty_khtable mhs) (first_entry_offset mhs) 0
              Hoff Hn eq_refl ltac:(cbn; rewrite length_replicate; reflexivity)
              Hdone Hfirst _ _ _ Hins Hbound)
    as (_ & Hheads & Hentries & _).
  assert (Hzero : forall i : nat, (i < Z.to_nat (mhs_nslots mhs))%nat ->
            default 0 (hash_slots (empty_khtable mhs) !! i) = 0).
  { intros i Hi. cbn [empty_khtable hash_slots].
    rewrite lookup_replicate_2 by exact Hi. reflexivity. }
  split.
  - intros i Hi. rewrite (Hheads i Hi), (Hzero i Hi). reflexivity.
  - intros before r after Hsplit.
    destruct (Hentries before r after Hsplit) as (e & He & Hof & Hnext).
    exists e. split; [exact He|]. split; [exact Hof|].
    rewrite Hnext, Hzero by (apply slot_of_lt; exact Hn). reflexivity.
Qed.

(** C6: multihash_preload_khashtable appends the entry of every row it
    takes to the used region of the table and links it at the head of
    its slot.  Of the table it leaves (the one in the buffer and in
    curr_chunk), whatever expansions of the buffer the scan went
    through: the rows taken, [done], are the pending rows up to where
    the scan stopped; the entry of a row is at the offset the entries of
    the rows before it end at, and the length used is where the entries
    of all of them end; its [next] field is the head its slot [hash %
    nslots] had when the row was inserted, that is the offset of the
    row of that slot inserted last before it, or 0; every slot holds the
    offset (counted from the start of the table, kept as cl_uint) of the
    row inserted last into it, or 0; and so the chain of a slot walked
    from its head yields the rows of the slot, the row inserted last
    first.  The first pending row is among the rows taken if the buffer
    has room for its entry as it is. *)
Theorem preload_links_rows_at_slot_heads mhs inner mht w :
  0 < hentry_htup_offset ->
  0 <= khtable_slot_offset (natts (outer_tupdesc mhs)) ->
  0 < mhs_nslots mhs ->
  Forall (fun r => 0 <= hash_value mhs r) (pending mhs) ->
  Forall (fun r => 0 <= t_len (tts_tuple r)) (pending mhs) ->
  threshold_exceeded mhs (header_required mhs mht) (mh_length mht) = false ->
  exists mhs' inner' mht' w' kht done,
    multihash_preload_khashtable mhs inner mht true w = Ok (mhs', inner', mht', w')
    /\ curr_chunk mhs' = Some kht
    /\ htables (kern mht') !! usage mht = Some kht
    /\ pending mhs = done ++ pending mhs'
    /\ kh_length kht = offset_after (first_entry_offset mhs) done
    /\ kh_length kht <= offset_after (first_entry_offset mhs) (pending mhs)
    /\ (forall r, hd_error (pending mhs) = Some r ->
          threshold_exceeded mhs (usage mht + first_entry_offset mhs + entry_size r)
            (mh_length mht) = false ->
          exists done', done = r :: done')
    /\ (kh_length kht < 2 ^ 32 ->
        (forall before r after, done = before ++ r :: after ->
           exists e,
             hentries kht !! offset_after (first_entry_offset mhs) before = Some e
             /\ entry_of mhs r e
             /\ next e
                = last_in_slot mhs (slot_of mhs r) 0 (first_entry_offset mhs) before)
        /\ (forall i : nat, (i < Z.to_nat (mhs_nslots mhs))%nat ->
              hash_slots kht !! i
              = Some (last_in_slot mhs i 0 (first_entry_offset mhs) done))
        /\ (forall (i : nat) n,
              slot_chain
                (n + length (slot_rows mhs (mhs_nslots mhs) i (first_entry_offset mhs)
                               done))
                kht i
              = rev (map fst (slot_rows mhs (mhs_nslots mhs) i (first_entry_offset mhs)
                                done)))).
Proof.
  intros Hoff Hslot Hn Hcrc Hrows Hthr.
  destruct (multihash_preload_forward_links mhs inner mht w Hoff Hslot Hn Hrows Hthr)
    as (mhs' & inner' & mht' & w' & kht & done & Hrun & Hkht & Hcc & Htab & Hp & _
        & Hlen & Hle & Hfirst1 & _ & Hlinks).
  exists mhs', inner', mht', w', kht, done.
  split; [exact Hrun|]. split; [exact Hcc|]. split; [exact Htab|].
  split; [exact Hp|]. split; [exact Hlen|]. split; [exact Hle|].
  split; [exact Hfirst1|]. intros Hbound.
  destruct (Hlinks Hbound) as [Hheads Hentries].
  split; [exact Hentries|]. split; [exact Hheads|].
  subst kht. unfold khtable_of_rows in *.
  destruct (insert_rows mhs (empty_khtable mhs) (first_entry_offset mhs) 0 done)
    as [[kht' consumed'] ntuples'] eqn:Hins.
  cbn [kh_length set_kh_length] in Hbound.
  assert (Hfirst : 0 < first_entry_offset mhs).
  { unfold first_entry_offset.
    pose proof (LONGALIGN_le (khtable_slot_offset (natts (outer_tupdesc mhs))
                              + 4 * mhs_nslots mhs)). lia. }
  assert (Hdone : Forall (fun r => 0 <= t_len (tts_tuple r)) done).
  { rewrite Hp in Hrows. apply Forall_app in Hrows. apply Hrows. }
  assert (Hdone' : Forall (fun r => 0 <= hash_value mhs r) done).
  { rewrite Hp in Hcrc. apply Forall_app in Hcrc. apply Hcrc. }
  destruct (insert_rows_lookup mhs done (empty_khtable mhs) (first_entry_offset mhs) 0
              Hoff Hn ltac:(cbn; rewrite length_replicate; reflexivity)
              Hdone' Hdone Hfirst
              (empty_khtable_links mhs _ Hfirst) _ _ _ Hins Hbound)
    as (_ & Hchains & _ & _).
  intros i n. specialize (Hchains i n).
  change (nslots (empty_khtable mhs)) with (mhs_nslots mhs) in Hchains.
  rewrite empty_khtable_chain, app_nil_r in Hchains. exact Hchains.
Qed.

(** C10: a hash key that evaluates to NULL for a row is skipped when the
    hash of the row is computed, so the hash is the one the row has with
    that key absent; and multihash_preload_khashtable inserts the row
    all the same.  The rows the call takes are the pending rows, none
    left out, up to the end of the scan or to the row it keeps in
    outer_overflow because the buffer could not be expanded; and each of
    them, with whatever hash keys NULL, has its entry in the table the
    call leaves, with its tuple and with that hash.  The scan stops
    short only when pgstrom_shmem_alloc_alap returned NULL for an
    expansion, and never before the first row if the buffer has room for
    its entry as it is. *)
Theorem null_hash_key_row_is_inserted mhs inner mht w :
  0 < hentry_htup_offset ->
  0 <= khtable_slot_offset (natts (outer_tupdesc mhs)) ->
  0 < mhs_nslots mhs ->
  Forall (fun r => 0 <= t_len (tts_tuple r)) (pending mhs) ->
  threshold_exceeded mhs (header_required mhs mht) (mh_length mht) = false ->
  exists mhs' inner' mht' w' kht done,
    multihash_preload_khashtable mhs inner mht true w = Ok (mhs', inner', mht', w')
    /\ curr_chunk mhs' = Some kht
    /\ htables (kern mht') !! usage mht = Some kht
    /\ pending mhs = done ++ pending mhs'
    /\ (outer_overflow mhs' = None -> pending mhs' = [])
    /\ (exists l, shmem_log w' = shmem_log w ++ l
                  /\ (Forall granted l -> done = pending mhs))
    /\ (forall r, hd_error (pending mhs) = Some r ->
          threshold_exceeded mhs (usage mht + first_entry_offset mhs + entry_size r)
            (mh_length mht) = false ->
          exists done', done = r :: done')
    /\ kh_length kht <= offset_after (first_entry_offset mhs) (pending mhs)
    /\ (kh_length kht < 2 ^ 32 ->
        forall before r after (i : nat) (clause : ExprState),
          done = before ++ r :: after ->
          hash_keys mhs !! i = Some clause ->
          snd (clause r) = true ->
          hash_value mhs r = hash_value (without_hash_key i mhs) r
          /\ exists e,
               hentries kht !! offset_after (first_entry_offset mhs) before = Some e
               /\ hash e = hash_value (without_hash_key i mhs) r
               /\ he_t_len e = t_len (tts_tuple r)
               /\ htup e = take (Z.to_nat (t_len (tts_tuple r))) (t_data (tts_tuple r))).
Proof.
  intros Hoff Hslot Hn Hrows Hthr.
  destruct (multihash_preload_forward_links mhs inner mht w Hoff Hslot Hn Hrows Hthr)
    as (mhs' & inner' & mht' & w' & kht & done & Hrun & _ & Hcc & Htab & Hp & Hnone
        & _ & Hle & Hfirst1 & Hall & Hlinks).
  exists mhs', inner', mht', w', kht, done.
  split; [exact Hrun|]. split; [exact Hcc|]. split; [exact Htab|].
  split; [exact Hp|]. split; [exact Hnone|]. split; [exact Hall|].
  split; [exact Hfirst1|]. split; [exact Hle|]. intros Hbound.
  destruct (Hlinks Hbound) as [_ Hentries].
  intros before r after i clause Hsplit Hk Hnull.
  pose proof (hash_value_skips_null_key mhs r i clause Hk Hnull) as Hhash.
  split; [exact Hhash|].
  destruct (Hentries before r after Hsplit) as (e & He & (Hh & Hl & Ht) & _).
  exists e. split; [exact He|]. split; [congruence|]. split; assumption.
Qed.

End Links.

Section LinksRuns.
Import Pg MultiHash.

Lemma preload_links_rows_at_slot_heads_witness :
  exists mhs' inner' mht' w' kht e,
    multihash_preload_khashtable (H := Demo.env) demo_mhs [] demo_mhtables true
      (Demo.shmem [None]) = Ok (mhs', inner', mht', w')
    /\ curr_chunk mhs' = Some kht
    /\ htables (kern mht') !! usage demo_mhtables = Some kht
    /\ hentries kht !! first_entry_offset (H := Demo.env) demo_mhs = Some e
    /\ entry_of (H := Demo.env) demo_mhs (Demo.row Byte.x01) e
    /\ next e = 0.
Proof.
  destruct (preload_links_rows_at_slot_heads (H := Demo.env) demo_mhs []
              demo_mhtables (Demo.shmem [None]))
    as (mhs' & inner' & mht' & w' & kht & done & Hrun & Hc & Hh & _ & _ & Hle
        & Hfirst & Hrows).
  - reflexivity.
  - apply Z.leb_le. vm_compute; reflexivity.
  - reflexivity.
  - repeat constructor; apply Z.leb_le; vm_compute; reflexivity.
  - repeat constructor; apply Z.leb_le; vm_compute; reflexivity.
  - vm_compute; reflexivity.
  - destruct (Hfirst (Demo.row Byte.x01)) as [done' Hd].
    + reflexivity.
    + vm_compute; reflexivity.
    + assert (Hb : kh_length kht < 2 ^ 32).
      { eapply Z.le_lt_trans; [exact Hle|]. vm_compute; reflexivity. }
      destruct (proj1 (Hrows Hb) [] (Demo.row Byte.x01) done' Hd)
        as (e & He & Hent & Hnext).
      exists mhs', inner', mht', w', kht, e.
      split; [exact Hrun|]. split; [exact Hc|]. split; [exact Hh|].
      split; [exact He|]. split; [exact Hent|exact Hnext].
Defined.

Lemma null_hash_key_row_is_inserted_witness :
  exists mhs' inner' mht' w' kht e,
    multihash_preload_khashtable (H := Demo.env) demo_mhs [] demo_mhtables true
      (Demo.shmem [None]) = Ok (mhs', inner', mht', w')
    /\ curr_chunk mhs' = Some kht
    /\ hash_keys demo_mhs !! 0%nat = Some Demo.key_null
    /\ snd (Demo.key_null (Demo.row Byte.x01)) = true
    /\ hash_value (H := Demo.env) demo_mhs (Demo.row Byte.x01)
       = hash_value (H := Demo.env) (without_hash_key 0 demo_mhs) (Demo.row Byte.x01)
    /\ hentries kht !! first_entry_offset (H := Demo.env) demo_mhs = Some e
    /\ hash e = hash_value (H := Demo.env) (without_hash_key 0 demo_mhs)
                  (Demo.row Byte.x01)
    /\ htup e = t_data (tts_tuple (Demo.row Byte.x01)).
Proof.
  destruct (null_hash_key_row_is_inserted (H := Demo.env) demo_mhs []
              demo_mhtables (Demo.shmem [None]))
    as (mhs' & inner' & mht' & w' & kht & done & Hrun & Hc & _ & _ & _ & _
        & Hfirst & Hle & Hrows).
  - reflexivity.
  - apply Z.leb_le. vm_compute; reflexivity.
  - reflexivity.
  - repeat constructor; apply Z.leb_le; vm_compute; reflexivity.
  - vm_compute; reflexivity.
  - destruct (Hfirst (Demo.row Byte.x01)) as [done' Hd].
    + reflexivity.
    + vm_compute; reflexivity.
    + assert (Hb : kh_length kht < 2 ^ 32).
      { eapply Z.le_lt_trans; [exact Hle|]. vm_compute; reflexivity. }
      destruct (Hrows Hb [] (Demo.row Byte.x01) done' 0%nat Demo.key_null Hd
                  eq_refl eq_refl)
        as (Hhash & e & He & Hh & _ & Ht).
      exists mhs', inner', mht', w', kht, e.
      split; [exact Hrun|]. split; [exact Hc|]. split; [reflexivity|].
      split; [reflexivity|]. split; [exact Hhash|]. split; [exact He|].
      split; [exact Hh|exact Ht].
Defined.

End LinksRuns.

(** * The inner relation in chunks *)
Section Resuming.
Import Pg MultiHash.
Context `{Env} `{Session.DataStore}.




End Resuming.

Section ResumingRuns.
Import Pg MultiHash.



End ResumingRuns.

(** * The pseudo scan: sources and reference flags of its columns *)
Section PseudoScanSources.
Import PseudoScan.
Variables exprType exprTypmod exprCollation : Node -> Z.

(** The variables and place holders of an expression, from left to
    right. *)
Fixpoint leaves (node : Node) : list Node :=
  match node with
  | Var _ _ | PlaceHolderVar _ => [node]
  | Expr _ args =>
      (fix go (l : list Node) : list Node :=
         match l with
         | [] => []
         | x :: l' => leaves x ++ go l'
         end) args
  end.

Definition host_leaves (ghjoin : GpuHashJoin) : list Node :=
  flat_map leaves (targetlist ghjoin ++ qual ghjoin ++ host_clauses ghjoin).

Definition device_leaves (ghjoin : GpuHashJoin) : list Node :=
  flat_map leaves (hash_clauses ghjoin ++ qual_clauses ghjoin).

Lemma equal_eq : forall a b, equal a b = true <-> a = b.
Proof.
  fix IH 1. intros [n1 a1 | p1 | t1 l1] [n2 a2 | p2 | t2 l2];
    cbn [equal]; try (split; [discriminate|intros [=]]).
  - rewrite andb_true_iff, !Z.eqb_eq. split; [intros [-> ->]; reflexivity|].
    intros [= -> ->]. auto.
  - rewrite Z.eqb_eq. split; [intros ->; reflexivity|intros [= ->]; reflexivity].
  - rewrite andb_true_iff, Z.eqb_eq.
    assert (Hl : (fix equal_list (l1 l2 : list Node) {struct l1} : bool :=
                    match l1, l2 with
                    | [], [] => true
                    | x :: l1', y :: l2' => equal x y && equal_list l1' l2'
                    | _, _ => false
                    end) l1 l2 = true <-> l1 = l2).
    { revert l2. induction l1 as [|x l1 IHl]; intros [|y l2];
        try (split; [discriminate|intros [=]]); [split; reflexivity|].
      rewrite andb_true_iff, IH, IHl. split; [intros [-> ->]; reflexivity|].
      intros [= -> ->]. auto. }
    rewrite Hl. split; [intros [-> ->]; reflexivity|intros [= -> ->]; auto].
Qed.

Lemma equal_refl a : equal a a = true.
Proof. apply equal_eq. reflexivity. Qed.

(** The walker visits the leaves of the expression one after the other. *)
Lemma build_pscan_varlist_walker_leaves : forall node c,
  build_pscan_varlist_walker node c
  = fold_left (fun c x => walker_leaf x c) (leaves node) c.
Proof.
  fix IH 1. intros [n a | p | tag args] c; [reflexivity..|].
  cbn [build_pscan_varlist_walker leaves]. revert c.
  induction args as [|x args IHargs]; intros c; [reflexivity|].
  rewrite fold_left_app, <- IH. apply IHargs.
Qed.

Lemma walk_list_leaves l : forall c,
  walk_list l c = fold_left (fun c x => walker_leaf x c) (flat_map leaves l) c.
Proof.
  unfold walk_list. induction l as [|x l IH]; intros c; [reflexivity|].
  cbn [fold_left flat_map]. rewrite fold_left_app, <- build_pscan_varlist_walker_leaves.
  apply IH.
Qed.


Definition dev_bit (mode : Z) : bool := negb (Z.land mode 2 =? 0).

Lemma mark_varref_Some node mode : forall vars refs nums refs',
  mark_varref node mode vars refs nums = Some refs' ->
  exists (i : nat) r,
    vars !! i = Some node /\ refs !! i = Some r
    /\ refs' = <[i := Z.lor r mode]> refs.
Proof.
  induction vars as [|v vars IH]; intros [|r refs] [|n nums] refs' Hm;
    try discriminate.
  cbn [mark_varref] in Hm. destruct (equal node v) eqn:He.
  - injection Hm as <-. apply equal_eq in He as ->.
    exists 0%nat, r. repeat split.
  - destruct (mark_varref node mode vars refs nums) as [refs1|] eqn:Hrec;
      [|discriminate].
    injection Hm as <-. destruct (IH _ _ _ Hrec) as (i & r0 & Hv & Hr & ->).
    exists (S i), r0. repeat split; assumption.
Qed.

Lemma mark_varref_None node mode : forall vars refs nums,
  length vars = length refs -> length refs = length nums ->
  mark_varref node mode vars refs nums = None -> node ∉ vars.
Proof.
  induction vars as [|v vars IH]; intros [|r refs] [|n nums] Hl1 Hl2 Hm;
    try discriminate; [apply not_elem_of_nil|].
  cbn [mark_varref] in Hm. destruct (equal node v) eqn:He; [discriminate|].
  destruct (mark_varref node mode vars refs nums) eqn:Hrec; [discriminate|].
  injection Hl1 as Hl1. injection Hl2 as Hl2.
  apply not_elem_of_cons. split; [|eapply IH; eassumption].
  intros ->. rewrite equal_refl in He. discriminate.
Qed.

(** What the walks have done after visiting the leaves [evs], each with
    the reference mode of its walk: the variables are listed once each,
    and the flags of a variable tell the modes it was visited with. *)
Definition flags_inv (evs : list (Node * Z)) (c : pscan_varlist_context) : Prop :=
  length (varlist c) = length (varrefs c)
  /\ length (varrefs c) = length (resnums c)
  /\ NoDup (varlist c)
  /\ (forall x, x ∈ varlist c <-> exists m, (x, m) ∈ evs)
  /\ (forall (i : nat) x r,
        varlist c !! i = Some x -> varrefs c !! i = Some r ->
        (r = 1 \/ r = 2 \/ r = 3)
        /\ (host_bit r = true <-> (x, 1) ∈ evs)
        /\ (dev_bit r = true <-> (x, 2) ∈ evs)).

Lemma walker_leaf_refmode node c : refmode (walker_leaf node c) = refmode c.
Proof. unfold walker_leaf. destruct (mark_varref _ _ _ _ _); reflexivity. Qed.

Lemma elem_of_snoc_other (x node : Node) (k m : Z) evs :
  x <> node -> (x, k) ∈ evs ++ [(node, m)] <-> (x, k) ∈ evs.
Proof.
  intros Hne. rewrite elem_of_app, list_elem_of_singleton. split; [|auto].
  intros [Hx|[= ? ?]]; [exact Hx|contradiction].
Qed.

Lemma elem_of_snoc_same (node : Node) (k m : Z) evs :
  (node, k) ∈ evs ++ [(node, m)] <-> (node, k) ∈ evs \/ k = m.
Proof.
  rewrite elem_of_app, list_elem_of_singleton. split.
  - intros [Hx|[= ?]]; auto.
  - intros [Hx| ->]; auto.
Qed.

Lemma walker_leaf_flags node evs c :
  refmode c = 1 \/ refmode c = 2 ->
  flags_inv evs c ->
  flags_inv (evs ++ [(node, refmode c)]) (walker_leaf node c).
Proof.
  intros Hmode (Hl1 & Hl2 & Hnd & Hin & Hfl). unfold walker_leaf.
  assert (Hmem : forall x, (exists m, (x, m) ∈ evs ++ [(node, refmode c)])
                           <-> (exists m, (x, m) ∈ evs) \/ x = node).
  { intros x. split.
    - intros [m Hx]. apply elem_of_app in Hx as [Hx|Hx]; [left; exists m; exact Hx|].
      apply list_elem_of_singleton in Hx. injection Hx as -> _. right; reflexivity.
    - intros [[m Hx] | ->]; [exists m|exists (refmode c)]; apply elem_of_app;
        [left; exact Hx|right; apply list_elem_of_singleton; reflexivity]. }
  destruct (mark_varref node (refmode c) (varlist c) (varrefs c) (resnums c))
    as [refs'|] eqn:Hm.
  - apply mark_varref_Some in Hm as (i & r & Hv & Hr & ->).
    pose proof (lookup_lt_Some _ _ _ Hr) as Hlt.
    unfold flags_inv. cbn [varlist varrefs resnums].
    rewrite length_insert. split; [exact Hl1|]. split; [exact Hl2|].
    split; [exact Hnd|]. split.
    + intros x. rewrite Hmem, Hin. split; [auto|].
      intros [Hx | ->]; [exact Hx|].
      apply Hin. eapply list_elem_of_lookup_2. exact Hv.
    + intros j x r' Hx Hr'. destruct (decide (j = i)) as [->|Hne].
      * rewrite list_lookup_insert_eq in Hr' by exact Hlt. injection Hr' as <-.
        rewrite Hv in Hx. injection Hx as <-.
        destruct (Hfl i node r Hv Hr) as (Hr3 & Hh & Hd).
        rewrite !elem_of_snoc_same, <- Hh, <- Hd.
        destruct Hmode as [-> | ->], Hr3 as [-> | [-> | ->]]; cbn;
          intuition (try discriminate; auto).
      * rewrite list_lookup_insert_ne in Hr' by congruence.
        destruct (Hfl j x r' Hx Hr') as (Hr3 & Hh & Hd).
        assert (Hxn : x <> node).
        { intros ->. apply Hne. eapply NoDup_lookup; eassumption. }
        rewrite !elem_of_snoc_other by exact Hxn. auto.
  - apply mark_varref_None in Hm; [|assumption..].
    unfold flags_inv. cbn [varlist varrefs resnums].
    rewrite !length_app. cbn [length]. split; [lia|]. split; [lia|].
    split.
    { apply NoDup_app. split; [exact Hnd|]. split; [|apply NoDup_singleton].
      intros x Hx Hx'. apply list_elem_of_singleton in Hx' as ->. contradiction. }
    split.
    + intros x. rewrite Hmem, elem_of_app, list_elem_of_singleton, Hin. tauto.
    + intros j x r Hx Hr.
      apply lookup_app_Some in Hx as [Hx | [Hge Hx]].
      * pose proof (lookup_lt_Some _ _ _ Hx) as Hlt.
        rewrite lookup_app_l in Hr by lia.
        destruct (Hfl j x r Hx Hr) as (Hr3 & Hh & Hd).
        assert (Hxn : x <> node).
        { intros ->. apply Hm. eapply list_elem_of_lookup_2. exact Hx. }
        rewrite !elem_of_snoc_other by exact Hxn. auto.
      * apply list_lookup_singleton_Some in Hx as [Hj <-].
        rewrite lookup_app_r in Hr by lia.
        replace (j - length (varrefs c))%nat with 0%nat in Hr by lia.
        injection Hr as <-.
        assert (Hno : forall m, (node, m) ∉ evs).
        { intros m Hx. apply Hm, Hin. exists m. exact Hx. }
        rewrite !elem_of_snoc_same.
        pose proof (Hno 1) as Hno1. pose proof (Hno 2) as Hno2.
        destruct Hmode as [-> | ->]; cbn; intuition (try discriminate; auto).
Qed.

Lemma walk_leaves_flags m l : forall evs c,
  refmode c = m -> m = 1 \/ m = 2 ->
  flags_inv evs c ->
  flags_inv (evs ++ map (fun x => (x, m)) l)
    (fold_left (fun c x => walker_leaf x c) l c)
  /\ refmode (fold_left (fun c x => walker_leaf x c) l c) = m.
Proof.
  induction l as [|x l IH]; intros evs c Hm Hm12 Hinv.
  - cbn. rewrite app_nil_r. auto.
  - cbn [fold_left map].
    replace (evs ++ (x, m) :: map (fun x => (x, m)) l)
      with ((evs ++ [(x, m)]) ++ map (fun x => (x, m)) l)
      by (rewrite <- app_assoc; reflexivity).
    apply IH; [rewrite walker_leaf_refmode; exact Hm|exact Hm12|].
    rewrite <- Hm. apply walker_leaf_flags; [rewrite Hm; exact Hm12|exact Hinv].
Qed.

Lemma collect_pscan_vars_flags ghjoin :
  flags_inv (map (fun x => (x, 1)) (host_leaves ghjoin)
             ++ map (fun x => (x, 2)) (device_leaves ghjoin))
    (collect_pscan_vars ghjoin).
Proof.
  unfold collect_pscan_vars, host_leaves, device_leaves.
  rewrite !walk_list_leaves, !flat_map_app, !map_app.
  set (c0 := {| varlist := []; varrefs := []; resnums := []; refmode := 1 |}).
  assert (H0 : flags_inv [] c0).
  { split; [reflexivity|]. split; [reflexivity|]. split; [constructor|].
    split.
    - intros x. split; [intros Hx; inversion Hx|intros [m Hx]; inversion Hx].
    - intros i x r Hx. discriminate Hx. }
  destruct (walk_leaves_flags 1 (flat_map leaves (targetlist ghjoin)) [] c0
              eq_refl (or_introl eq_refl) H0) as [H1 M1].
  destruct (walk_leaves_flags 1 (flat_map leaves (qual ghjoin)) _ _
              M1 (or_introl eq_refl) H1) as [H2 M2].
  destruct (walk_leaves_flags 1 (flat_map leaves (host_clauses ghjoin)) _ _
              M2 (or_introl eq_refl) H2) as [H3 M3].
  match type of H3 with
  | flags_inv ?evs ?c =>
      assert (H3' : flags_inv evs (set_refmode 2 c)) by exact H3;
      destruct (walk_leaves_flags 2 (flat_map leaves (hash_clauses ghjoin)) evs
                  (set_refmode 2 c) eq_refl (or_intror eq_refl) H3') as [H4 M4]
  end.
  destruct (walk_leaves_flags 2 (flat_map leaves (qual_clauses ghjoin)) _ _
              M4 (or_intror eq_refl) H4) as [H5 _].
  match goal with
  | H : flags_inv ?e1 ?c |- flags_inv ?e2 ?c => replace e2 with e1; [exact H|]
  end.
  rewrite app_nil_l, <- !app_assoc. reflexivity.
Qed.


(** ** From the variables to the entries *)

(** What an entry says about its variable, and what the three lists say
    about the variables still pending. *)
Definition cell (v : vartrans_info) : Node * Z * bool * bool :=
  (vt_expr v, vt_resno v, ref_host v, ref_device v).

Fixpoint cells (vars : list Node) (refs nums : list Z)
  : list (Node * Z * bool * bool) :=
  match vars, refs, nums with
  | x :: vars', r :: refs', n :: nums' =>
      (x, n, host_bit r, dev_bit r) :: cells vars' refs' nums'
  | _, _, _ => []
  end.

Lemma match_depth_cells depth tlist : forall vars refs nums out vars' refs' nums',
  match_depth exprType exprTypmod exprCollation depth tlist vars refs nums
  = (out, (vars', refs', nums')) ->
  map cell out ++ cells vars' refs' nums' ≡ₚ cells vars refs nums.
Proof.
  induction vars as [|node vars IH]; intros refs nums out vars' refs' nums' Hm.
  { cbn in Hm. injection Hm as <- <- <- <-. reflexivity. }
  destruct refs as [|mode refs]; [cbn in Hm; injection Hm as <- <- <- <-; reflexivity|].
  destruct nums as [|num nums]; [cbn in Hm; injection Hm as <- <- <- <-; reflexivity|].
  cbn [match_depth] in Hm.
  destruct (match_depth exprType exprTypmod exprCollation depth tlist vars refs nums)
    as [temp [[vars2 refs2] nums2]] eqn:Hrec.
  specialize (IH _ _ _ _ _ _ Hrec).
  destruct (List.find _ tlist) as [tle|]; injection Hm as <- <- <- <-.
  - cbn [map cell vt_expr vt_resno ref_host ref_device cells app].
    constructor. exact IH.
  - cbn [cells]. rewrite <- Permutation_middle. constructor. exact IH.
Qed.

Lemma match_depths_cells : forall tlists depth vars refs nums out vars' refs' nums',
  match_depths exprType exprTypmod exprCollation depth tlists vars refs nums
  = (out, (vars', refs', nums')) ->
  map cell out ++ cells vars' refs' nums' ≡ₚ cells vars refs nums.
Proof.
  induction tlists as [|tlist tlists IH]; intros depth vars refs nums
    out vars' refs' nums' Hm.
  { injection Hm as <- <- <- <-. reflexivity. }
  cbn [match_depths] in Hm.
  destruct (match_depth exprType exprTypmod exprCollation depth tlist vars refs nums)
    as [temp [[vars1 refs1] nums1]] eqn:H1.
  apply match_depth_cells in H1.
  destruct (match_depths exprType exprTypmod exprCollation (depth + 1) tlists
              vars1 refs1 nums1) as [rest [[vars2 refs2] nums2]] eqn:H2.
  apply IH in H2. injection Hm as <- <- <- <-.
  rewrite map_app, <- app_assoc, H2. exact H1.
Qed.

Lemma cells_lookup : forall vars refs nums x n h d,
  (x, n, h, d) ∈ cells vars refs nums ->
  exists (i : nat) r,
    vars !! i = Some x /\ refs !! i = Some r /\ nums !! i = Some n
    /\ h = host_bit r /\ d = dev_bit r.
Proof.
  induction vars as [|y vars IH]; intros [|r refs] [|m nums] x n h d Hin;
    try (inversion Hin; fail).
  cbn [cells] in Hin. apply elem_of_cons in Hin as [[= -> -> -> ->] | Hin].
  - exists 0%nat, r. repeat split.
  - destruct (IH _ _ _ _ _ _ Hin) as (i & r0 & Hi). exists (S i), r0. exact Hi.
Qed.

Lemma cells_vars : forall vars refs nums,
  length vars = length refs -> length refs = length nums ->
  map (fun c => c.1.1.1) (cells vars refs nums) = vars
  /\ map (fun c => c.1.1.2) (cells vars refs nums) = nums.
Proof.
  induction vars as [|y vars IH]; intros [|r refs] [|m nums] Hl1 Hl2;
    try discriminate; [split; reflexivity|].
  injection Hl1 as Hl1. injection Hl2 as Hl2.
  destruct (IH _ _ Hl1 Hl2) as [Hv Hn]. cbn. rewrite Hv, Hn. split; reflexivity.
Qed.

Lemma cells_of_var : forall vars refs nums (i : nat) x,
  length vars = length refs -> length refs = length nums ->
  vars !! i = Some x ->
  exists n h d, (x, n, h, d) ∈ cells vars refs nums.
Proof.
  induction vars as [|y vars IH]; intros [|r refs] [|m nums] i x Hl1 Hl2 Hi;
    try discriminate.
  injection Hl1 as Hl1. injection Hl2 as Hl2. destruct i as [|i].
  - injection Hi as ->. eexists _, _, _. cbn [cells]. apply elem_of_cons. left.
    reflexivity.
  - destruct (IH _ _ _ _ Hl1 Hl2 Hi) as (n & h & d & Hin).
    exists n, h, d. cbn [cells]. apply elem_of_cons. right. exact Hin.
Qed.

Lemma leaf_event_host host dev x :
  (x, 1) ∈ map (fun x : Node => (x, 1)) host ++ map (fun x : Node => (x, 2)) dev
  <-> In x host.
Proof.
  rewrite elem_of_app, !list_elem_of_In, !in_map_iff. split.
  - intros [(y & [= ->] & Hy) | (y & [=] & _)]. exact Hy.
  - intros Hx. left. exists x. auto.
Qed.

Lemma leaf_event_device host dev x :
  (x, 2) ∈ map (fun x : Node => (x, 1)) host ++ map (fun x : Node => (x, 2)) dev
  <-> In x dev.
Proof.
  rewrite elem_of_app, !list_elem_of_In, !in_map_iff. split.
  - intros [(y & [=] & _) | (y & [= ->] & Hy)]. exact Hy.
  - intros Hx. right. exists x. auto.
Qed.

(** No two entries stand for the same variable or have the same column
    number. *)
Lemma build_pseudo_scan_vartrans_distinct ghjoin :
  NoDup (map vt_expr
           (build_pseudo_scan_vartrans exprType exprTypmod exprCollation ghjoin))
  /\ NoDup (map vt_resno
              (build_pseudo_scan_vartrans exprType exprTypmod exprCollation ghjoin)).
Proof.
  unfold build_pseudo_scan_vartrans, build_pseudo_scan_vartrans_pending.
  pose proof (collect_pscan_vars_flags ghjoin) as (Hl1 & Hl2 & Hnd & _).
  destruct (collect_pscan_vars_inv ghjoin) as (k & _ & _ & Hnums & _).
  destruct (match_depths _ _ _ _ _ _ _ _) as [out [[vars' refs'] nums']] eqn:Hm.
  cbn [fst snd]. apply match_depths_cells in Hm.
  destruct (cells_vars _ _ _ Hl1 Hl2) as [Hcv Hcn]. split.
  - assert (Hp : map (fun c => c.1.1.1) (map cell out ++ cells vars' refs' nums')
                 ≡ₚ varlist (collect_pscan_vars ghjoin))
      by (rewrite Hm, Hcv; reflexivity).
    rewrite map_app, map_map in Hp. rewrite <- Hp in Hnd.
    apply NoDup_app in Hnd as [Hnd _]. exact Hnd.
  - assert (Hp : map (fun c => c.1.1.2) (map cell out ++ cells vars' refs' nums')
                 ≡ₚ resnums (collect_pscan_vars ghjoin))
      by (rewrite Hm, Hcn; reflexivity).
    rewrite map_app, map_map in Hp.
    assert (Hndn : NoDup (resnums (collect_pscan_vars ghjoin))).
    { rewrite Hnums. unfold numbering. apply NoDup_fmap_2; [|apply NoDup_seq].
      intros a b Hab. lia. }
    rewrite <- Hp in Hndn. apply NoDup_app in Hndn as [Hndn _]. exact Hndn.
Qed.

(** X12: the reference flags of the entries build_pseudo_scan_vartrans
    returns.  An entry is marked [ref_host] exactly if its variable
    occurs in the target list, the qualifiers or the host clauses of the
    node, and [ref_device] exactly if it occurs in the hash clauses or
    the device qualifiers.  No two entries stand for the same variable
    or have the same column number, and every variable that occurs in
    one of these expressions has an entry unless no depth provides it. *)
Theorem vartrans_reference_flags ghjoin :
  let vartrans :=
    build_pseudo_scan_vartrans exprType exprTypmod exprCollation ghjoin in
  (forall v, In v vartrans ->
     (ref_host v = true <-> In (vt_expr v) (host_leaves ghjoin))
     /\ (ref_device v = true <-> In (vt_expr v) (device_leaves ghjoin)))
  /\ NoDup (map vt_expr vartrans)
  /\ NoDup (map vt_resno vartrans)
  /\ (forall x, In x (host_leaves ghjoin ++ device_leaves ghjoin) ->
        (exists v, In v vartrans /\ vt_expr v = x)
        \/ In x (snd (build_pseudo_scan_vartrans_pending exprType exprTypmod
                        exprCollation ghjoin))).
Proof.
  intros vartrans. subst vartrans.
  destruct (build_pseudo_scan_vartrans_distinct ghjoin) as [Hndx Hndr].
  split; [|split; [exact Hndx|split; [exact Hndr|]]];
    unfold build_pseudo_scan_vartrans, build_pseudo_scan_vartrans_pending;
    pose proof (collect_pscan_vars_flags ghjoin) as (Hl1 & Hl2 & Hnd & Hin & Hfl);
    destruct (match_depths _ _ _ _ _ _ _ _) as [out [[vars' refs'] nums']] eqn:Hm;
    cbn [fst snd]; apply match_depths_cells in Hm.
  - intros v Hv.
    assert (Hc : cell v ∈ cells (varlist (collect_pscan_vars ghjoin))
                   (varrefs (collect_pscan_vars ghjoin))
                   (resnums (collect_pscan_vars ghjoin))).
    { rewrite <- Hm. apply elem_of_app. left.
      apply list_elem_of_In, in_map. exact Hv. }
    apply cells_lookup in Hc as (i & r & Hx & Hr & _ & -> & ->).
    destruct (Hfl i _ r Hx Hr) as (_ & Hh & Hd).
    rewrite Hh, Hd, leaf_event_host, leaf_event_device. split; reflexivity.
  - intros x Hx.
    assert (Hxv : x ∈ varlist (collect_pscan_vars ghjoin)).
    { apply Hin. apply in_app_or in Hx as [Hx|Hx].
      - exists 1. apply leaf_event_host. exact Hx.
      - exists 2. apply leaf_event_device. exact Hx. }
    apply list_elem_of_lookup in Hxv as [i Hi].
    destruct (cells_of_var _ _ _ _ _ Hl1 Hl2 Hi) as (n & h & d & Hc).
    rewrite <- Hm in Hc. apply elem_of_app in Hc as [Hc|Hc].
    + left. apply list_elem_of_In, in_map_iff in Hc as (v & Hv & Hvin).
      exists v. split; [exact Hvin|]. injection Hv as Hv _ _ _. exact Hv.
    + right. apply cells_lookup in Hc as (j & r & Hj & _).
      apply list_elem_of_In. eapply list_elem_of_lookup_2. exact Hj.
Qed.


(** ** The source of an entry *)

(** The entry [v] was made from the target entry [tle]. *)
Definition entry_from (v : vartrans_info) (tle : TargetEntry) : Prop :=
  srcresno v = resno tle
  /\ vt_resname v = resname tle
  /\ vartype v = exprType (expr tle)
  /\ vartypmod v = exprTypmod (expr tle)
  /\ varcollid v = exprCollation (expr tle).

(** The first entry of a target list whose expression is [x]. *)
Definition provider (tlist : list TargetEntry) (x : Node) : option TargetEntry :=
  List.find (fun tle => equal x (expr tle)) tlist.

Lemma match_depth_source depth tlist : forall vars refs nums out vars' refs' nums',
  length vars = length refs -> length refs = length nums ->
  match_depth exprType exprTypmod exprCollation depth tlist vars refs nums
  = (out, (vars', refs', nums')) ->
  (forall v, v ∈ out ->
     srcdepth v = depth /\ vt_expr v ∈ vars
     /\ exists tle, provider tlist (vt_expr v) = Some tle /\ entry_from v tle)
  /\ (forall x, x ∈ vars' -> x ∈ vars /\ provider tlist x = None).
Proof.
  induction vars as [|node vars IH]; intros [|mode refs] [|num nums]
    out vars' refs' nums' Hl1 Hl2 Hm; try discriminate.
  { injection Hm as <- <- <- <-. split; intros ? Hx; inversion Hx. }
  injection Hl1 as Hl1. injection Hl2 as Hl2. cbn [match_depth] in Hm.
  destruct (match_depth exprType exprTypmod exprCollation depth tlist vars refs nums)
    as [temp [[vars2 refs2] nums2]] eqn:Hrec.
  destruct (IH _ _ _ _ _ _ Hl1 Hl2 Hrec) as [Hout Hrest].
  destruct (List.find (fun tle => equal node (expr tle)) tlist) as [tle|] eqn:Hf;
    injection Hm as <- <- <- <-.
  - split.
    + intros v Hv. apply elem_of_cons in Hv as [-> | Hv].
      * cbn [srcdepth vt_expr]. split; [reflexivity|].
        split; [apply elem_of_cons; left; reflexivity|].
        exists tle. split; [exact Hf|]. repeat split.
      * destruct (Hout v Hv) as (Hd & Hx & Htle).
        split; [exact Hd|]. split; [apply elem_of_cons; right; exact Hx|exact Htle].
    + intros x Hx. destruct (Hrest x Hx) as [Hin Hnone].
      split; [apply elem_of_cons; right; exact Hin|exact Hnone].
  - split.
    + intros v Hv. destruct (Hout v Hv) as (Hd & Hx & Htle).
      split; [exact Hd|]. split; [apply elem_of_cons; right; exact Hx|exact Htle].
    + intros x Hx. apply elem_of_cons in Hx as [-> | Hx].
      * split; [apply elem_of_cons; left; reflexivity|exact Hf].
      * destruct (Hrest x Hx) as [Hin Hnone].
        split; [apply elem_of_cons; right; exact Hin|exact Hnone].
Qed.

Lemma match_depths_source : forall tlists depth vars refs nums out rest,
  length vars = length refs -> length refs = length nums ->
  match_depths exprType exprTypmod exprCollation depth tlists vars refs nums
  = (out, rest) ->
  forall v, v ∈ out ->
    vt_expr v ∈ vars
    /\ exists (i : nat) tlist tle,
         srcdepth v = depth + Z.of_nat i
         /\ tlists !! i = Some tlist
         /\ provider tlist (vt_expr v) = Some tle
         /\ entry_from v tle
         /\ forall (j : nat) tl,
              (j < i)%nat -> tlists !! j = Some tl -> provider tl (vt_expr v) = None.
Proof.
  induction tlists as [|tlist tlists IH]; intros depth vars refs nums out rest
    Hl1 Hl2 Hm v Hv.
  { injection Hm as <- _. inversion Hv. }
  cbn [match_depths] in Hm.
  destruct (match_depth exprType exprTypmod exprCollation depth tlist vars refs nums)
    as [temp [[vars1 refs1] nums1]] eqn:H1.
  destruct (match_depth_columns exprType exprTypmod exprCollation _ _ _ _ _ Hl1 Hl2
              _ _ _ _ H1) as (_ & Hv1 & Hr1).
  destruct (match_depth_source _ _ _ _ _ _ _ _ _ Hl1 Hl2 H1) as [Hout Hrest].
  destruct (match_depths exprType exprTypmod exprCollation (depth + 1) tlists
              vars1 refs1 nums1) as [more rest'] eqn:H2.
  injection Hm as <- <-. apply elem_of_app in Hv as [Hv|Hv].
  - destruct (Hout v Hv) as (Hd & Hx & tle & Hp & Hfrom).
    split; [exact Hx|]. exists 0%nat, tlist, tle.
    split; [lia|]. split; [reflexivity|]. split; [exact Hp|]. split; [exact Hfrom|].
    intros j tl Hj. lia.
  - destruct (IH _ _ _ _ _ _ Hv1 Hr1 H2 v Hv)
      as (Hx & i & tl & tle & Hd & Hi & Hp & Hfrom & Hfirst).
    destruct (Hrest _ Hx) as [Hin Hnone].
    split; [exact Hin|]. exists (S i), tl, tle.
    split; [lia|]. split; [exact Hi|]. split; [exact Hp|]. split; [exact Hfrom|].
    intros [|j] tl' Hj Htl'.
    + injection Htl' as <-. exact Hnone.
    + apply (Hfirst j tl'); [lia|exact Htl'].
Qed.

(** X11: where the entries build_pseudo_scan_vartrans returns come from.
    The variable of an entry is provided by the target list of the outer
    plan at depth [srcdepth] and by none at a smaller depth; [srcresno],
    the name, the type, the type modifier and the collation are those of
    the first entry of that target list whose expression is the
    variable. *)
Theorem vartrans_entry_source ghjoin v :
  In v (build_pseudo_scan_vartrans exprType exprTypmod exprCollation ghjoin) ->
  exists (i : nat) tlist tle,
    srcdepth v = Z.of_nat i
    /\ outer_targetlists ghjoin !! i = Some tlist
    /\ provider tlist (vt_expr v) = Some tle
    /\ entry_from v tle
    /\ forall (j : nat) tl,
         (j < i)%nat -> outer_targetlists ghjoin !! j = Some tl ->
         provider tl (vt_expr v) = None.
Proof.
  unfold build_pseudo_scan_vartrans, build_pseudo_scan_vartrans_pending.
  pose proof (collect_pscan_vars_flags ghjoin) as (Hl1 & Hl2 & _).
  destruct (match_depths _ _ _ _ _ _ _ _) as [out rest] eqn:Hm.
  assert (Hout : fst (let '(pscan_vartrans, (pending, _, _)) := (out, rest) in
                      (pscan_vartrans, pending)) = out)
    by (destruct rest as [[? ?] ?]; reflexivity).
  rewrite Hout. intros Hv. apply list_elem_of_In in Hv.
  destruct (match_depths_source _ _ _ _ _ _ _ Hl1 Hl2 Hm v Hv)
    as (_ & i & tlist & tle & Hd & Hrest).
  exists i, tlist, tle. split; [lia|exact Hrest].
Qed.

End PseudoScanSources.

Section PseudoScanSourceRuns.
Import PseudoScan.

Lemma vartrans_entry_source_witness :
  exists (i : nat) tlist tle,
    srcdepth (nth 2 demo_vartrans no_vartrans) = Z.of_nat i
    /\ outer_targetlists demo_plan !! i = Some tlist
    /\ provider tlist (vt_expr (nth 2 demo_vartrans no_vartrans)) = Some tle
    /\ entry_from (fun _ => 23) (fun _ => -1) (fun _ => 0)
         (nth 2 demo_vartrans no_vartrans) tle
    /\ forall (j : nat) tl,
         (j < i)%nat -> outer_targetlists demo_plan !! j = Some tl ->
         provider tl (vt_expr (nth 2 demo_vartrans no_vartrans)) = None.
Proof.
  apply (vartrans_entry_source (fun _ => 23) (fun _ => -1) (fun _ => 0) demo_plan
           (nth 2 demo_vartrans no_vartrans)).
  right; right; left; reflexivity.
Defined.

Lemma vartrans_reference_flags_witness :
  (ref_host (nth 1 demo_vartrans no_vartrans) = true
   <-> In (vt_expr (nth 1 demo_vartrans no_vartrans)) (host_leaves demo_plan))
  /\ (ref_device (nth 1 demo_vartrans no_vartrans) = true
      <-> In (vt_expr (nth 1 demo_vartrans no_vartrans)) (device_leaves demo_plan)).
Proof.
  apply (proj1 (vartrans_reference_flags (fun _ => 23) (fun _ => -1) (fun _ => 0)
                  demo_plan)).
  right; left; reflexivity.
Defined.

End PseudoScanSourceRuns.

Section PseudoSlotColumns.
Import PseudoScan PseudoSlot.
Variables exprType exprTypmod exprCollation : Node -> Z.
Variable typcollation : Z -> Z.
Variable ExecContextForcesOids : option bool.
Variable ProjectionInfo : Type.
Variable tlist_matches_tupdesc : TupleDesc -> bool.
Variable ExecBuildProjectionInfo : TupleDesc -> ProjectionInfo.
Variable qsort : (vartrans_info -> vartrans_info -> Z) -> list vartrans_info
                 -> list vartrans_info.

(** The entries a slot holds, and the attribute an entry describes. *)
Definition slot_holds (is_fallback : bool) (v : vartrans_info) : bool :=
  is_fallback || ref_host v.

Definition attribute_of (v : vartrans_info) : attribute :=
  {| attname := vt_resname v; atttypid := vartype v; atttypmod := vartypmod v;
     attnum := vt_resno v; attcollation := varcollid v |}.

Lemma skip_slot_holds fb v : negb fb && negb (ref_host v) = negb (slot_holds fb v).
Proof. unfold slot_holds. destruct fb, (ref_host v); reflexivity. Qed.

Lemma pscan_slot_nattrs_spec fb : forall vts n0,
  let n := pscan_slot_nattrs fb vts n0 in
  n0 <= n
  /\ (forall v, v ∈ vts -> slot_holds fb v = true -> vt_resno v <= n)
  /\ (n = n0 \/ exists v, v ∈ vts /\ slot_holds fb v = true /\ vt_resno v = n).
Proof.
  induction vts as [|v vts IH]; intros n0; cbn [pscan_slot_nattrs].
  { split; [lia|]. split; [intros v Hv; inversion Hv|left; reflexivity]. }
  rewrite skip_slot_holds. destruct (slot_holds fb v) eqn:Hsel; cbn [negb].
  - destruct (IH (if n0 <? vt_resno v then vt_resno v else n0)) as (Hle & Hall & Hmax).
    destruct (Z.ltb_spec n0 (vt_resno v)) as [Hlt|Hge].
    + split; [lia|]. split.
      * intros v' Hv' Hs. apply elem_of_cons in Hv' as [-> | Hv']; [lia|auto].
      * right. destruct Hmax as [-> | (v' & Hv' & Hs & Hr)].
        -- exists v. split; [apply elem_of_cons; left; reflexivity|auto].
        -- exists v'. split; [apply elem_of_cons; right; exact Hv'|auto].
    + split; [lia|]. split.
      * intros v' Hv' Hs. apply elem_of_cons in Hv' as [-> | Hv']; [lia|auto].
      * destruct Hmax as [-> | (v' & Hv' & Hs & Hr)]; [left; reflexivity|].
        right. exists v'. split; [apply elem_of_cons; right; exact Hv'|auto].
  - destruct (IH n0) as (Hle & Hall & Hmax). split; [exact Hle|]. split.
    + intros v' Hv' Hs. apply elem_of_cons in Hv' as [-> | Hv']; [congruence|auto].
    + destruct Hmax as [-> | (v' & Hv' & Hs & Hr)]; [left; reflexivity|].
      right. exists v'. split; [apply elem_of_cons; right; exact Hv'|auto].
Qed.

Definition dummy_attribute (i : Z) : attribute :=
  {| attname := None; atttypid := INT4OID; atttypmod := -1; attnum := i;
     attcollation := typcollation INT4OID |}.

Lemma pscan_slot_dummy_spec : forall n i desc,
  1 <= i -> i - 1 + Z.of_nat n <= Z.of_nat (length (attrs desc)) ->
  exists desc',
    pscan_slot_dummy typcollation n i desc = Some desc'
    /\ tdhasoid desc' = tdhasoid desc
    /\ length (attrs desc') = length (attrs desc)
    /\ forall (j : nat),
         attrs desc' !! j
         = if bool_decide (i - 1 <= Z.of_nat j < i - 1 + Z.of_nat n)
           then Some (Some (dummy_attribute (Z.of_nat j + 1)))
           else attrs desc !! j.
Proof.
  induction n as [|n IH]; intros i desc Hi Hlen.
  { exists desc. split; [reflexivity|]. split; [reflexivity|]. split; [reflexivity|].
    intros j. rewrite bool_decide_eq_false_2 by lia. reflexivity. }
  cbn [pscan_slot_dummy]. unfold TupleDescInitEntry at 1.
  destruct (Z.leb_spec 1 i); [|lia].
  destruct (Z.leb_spec i (Z.of_nat (length (attrs desc)))); [|lia].
  cbn [andb mbind option_bind].
  match goal with
  | |- context [pscan_slot_dummy _ n (i + 1) ?d] =>
      destruct (IH (i + 1) d) as (desc' & Hrun & Hoid & Hl & Hat)
  end.
  { lia. }
  { cbn [attrs]. rewrite length_insert. lia. }
  exists desc'. split; [exact Hrun|]. split; [exact Hoid|].
  cbn [attrs] in Hl, Hat. rewrite length_insert in Hl. split; [exact Hl|].
  intros j. rewrite Hat.
  destruct (decide (j = Z.to_nat (i - 1))) as [->|Hne].
  - rewrite bool_decide_eq_false_2 by lia.
    rewrite bool_decide_eq_true_2 by lia.
    rewrite list_lookup_insert_eq by lia.
    unfold dummy_attribute. repeat f_equal. lia.
  - rewrite list_lookup_insert_ne by congruence.
    destruct (decide (i + 1 - 1 <= Z.of_nat j < i + 1 - 1 + Z.of_nat n)).
    + rewrite !bool_decide_eq_true_2 by lia. reflexivity.
    + rewrite !bool_decide_eq_false_2 by lia. reflexivity.
Qed.

Lemma list_alter_insert_eq {A} (f : A -> A) (x : A) : forall (l : list A) (i : nat),
  alter f i (<[i := x]> l) = <[i := f x]> l.
Proof.
  induction l as [|y l IH]; intros [|i]; cbn; try reflexivity.
  f_equal. apply IH.
Qed.

Lemma pscan_slot_entry desc v :
  1 <= vt_resno v <= Z.of_nat (length (attrs desc)) ->
  (tupdesc ← TupleDescInitEntry typcollation desc (vt_resno v) (vt_resname v)
               (vartype v) (vartypmod v);
   TupleDescInitEntryCollation tupdesc (vt_resno v) (varcollid v))
  = Some {| tdhasoid := tdhasoid desc;
            attrs := <[Z.to_nat (vt_resno v - 1) := Some (attribute_of v)]>
                       (attrs desc) |}.
Proof.
  intros Hr. unfold TupleDescInitEntry, TupleDescInitEntryCollation.
  destruct (Z.leb_spec 1 (vt_resno v)); [|lia].
  destruct (Z.leb_spec (vt_resno v) (Z.of_nat (length (attrs desc)))); [|lia].
  cbn [andb mbind option_bind attrs tdhasoid]. rewrite length_insert.
  destruct (Z.leb_spec (vt_resno v) (Z.of_nat (length (attrs desc)))); [|lia].
  cbn [andb]. rewrite list_alter_insert_eq. reflexivity.
Qed.

Lemma pscan_slot_entries_spec fb : forall vts desc,
  NoDup (map vt_resno vts) ->
  (forall v, v ∈ vts -> slot_holds fb v = true ->
     1 <= vt_resno v <= Z.of_nat (length (attrs desc))) ->
  exists desc',
    pscan_slot_entries typcollation fb vts desc = Some desc'
    /\ tdhasoid desc' = tdhasoid desc
    /\ length (attrs desc') = length (attrs desc)
    /\ (forall v, v ∈ vts -> slot_holds fb v = true ->
          attrs desc' !! Z.to_nat (vt_resno v - 1) = Some (Some (attribute_of v)))
    /\ (forall (i : nat),
          (forall v, v ∈ vts -> slot_holds fb v = true -> vt_resno v <> Z.of_nat i + 1) ->
          attrs desc' !! i = attrs desc !! i).
Proof.
  induction vts as [|v vts IH]; intros desc Hnd Hrange.
  { exists desc. repeat split; try reflexivity. intros v Hv. inversion Hv. }
  cbn [map] in Hnd. apply NoDup_cons in Hnd as [Hfresh Hnd].
  cbn [pscan_slot_entries]. rewrite skip_slot_holds.
  destruct (slot_holds fb v) eqn:Hsel; cbn [negb].
  - assert (Hr : 1 <= vt_resno v <= Z.of_nat (length (attrs desc)))
      by (apply Hrange; [apply elem_of_cons; left; reflexivity|exact Hsel]).
    pose proof (pscan_slot_entry desc v Hr) as Hent.
    destruct (TupleDescInitEntry typcollation desc (vt_resno v) (vt_resname v)
                (vartype v) (vartypmod v)) as [d1|]; [|discriminate].
    cbn [mbind option_bind] in Hent |- *.
    rewrite Hent. cbn [mbind option_bind].
    match goal with
    | |- context [pscan_slot_entries _ fb vts ?d] =>
        destruct (IH d Hnd) as (desc' & Hrun & Hoid & Hl & Hat & Hframe)
    end.
    { intros v' Hv' Hs. cbn [attrs]. rewrite length_insert.
      apply Hrange; [apply elem_of_cons; right; exact Hv'|exact Hs]. }
    cbn [attrs tdhasoid] in Hoid, Hl, Hframe. rewrite length_insert in Hl.
    exists desc'. split; [exact Hrun|]. split; [exact Hoid|]. split; [exact Hl|].
    split.
    + intros v' Hv' Hs. apply elem_of_cons in Hv' as [-> | Hv']; [|auto].
      rewrite Hframe.
      * apply list_lookup_insert_eq. lia.
      * intros v' Hv' _ Heq. apply Hfresh.
        apply list_elem_of_fmap. exists v'. split; [lia|exact Hv'].
    + intros i Hi. rewrite Hframe.
      * apply list_lookup_insert_ne.
        specialize (Hi v ltac:(apply elem_of_cons; left; reflexivity) Hsel). lia.
      * intros v' Hv'. apply Hi. apply elem_of_cons. right. exact Hv'.
  - destruct (IH desc Hnd) as (desc' & Hrun & Hoid & Hl & Hat & Hframe).
    { intros v' Hv' Hs. apply Hrange; [apply elem_of_cons; right; exact Hv'|exact Hs]. }
    exists desc'. split; [exact Hrun|]. split; [exact Hoid|]. split; [exact Hl|].
    split.
    + intros v' Hv' Hs. apply elem_of_cons in Hv' as [-> | Hv']; [congruence|auto].
    + intros i Hi. apply Hframe. intros v' Hv'. apply Hi.
      apply elem_of_cons. right. exact Hv'.
Qed.

(** The slot of an array whose column numbers are distinct, start at 1
    and leave no gap. *)
Lemma setup_pseudo_scan_slot_spec fb arr :
  NoDup (map vt_resno arr) ->
  (forall v, v ∈ arr -> slot_holds fb v = true -> 1 <= vt_resno v) ->
  (forall r, 1 <= r <= pscan_slot_nattrs fb arr 0 ->
     exists v, v ∈ arr /\ slot_holds fb v = true /\ vt_resno v = r) ->
  exists d,
    setup_pseudo_scan_slot typcollation ExecContextForcesOids ProjectionInfo
      tlist_matches_tupdesc ExecBuildProjectionInfo arr fb
    = Some (d, if tlist_matches_tupdesc d then None
               else Some (ExecBuildProjectionInfo d))
    /\ forall (i : nat) a,
         attrs d !! i = Some a <->
         exists v, v ∈ arr /\ slot_holds fb v = true
                   /\ vt_resno v = Z.of_nat i + 1 /\ a = Some (attribute_of v).
Proof.
  intros Hnd Hpos Hdense. unfold setup_pseudo_scan_slot.
  destruct (pscan_slot_nattrs_spec fb arr 0) as (Hn0 & Hmax & _).
  set (n := pscan_slot_nattrs fb arr 0) in *.
  destruct (pscan_slot_dummy_spec (Z.to_nat n) 1
              (CreateTemplateTupleDesc n (default false ExecContextForcesOids)))
    as (d0 & Hrun0 & _ & Hl0 & _); [lia| |].
  { cbn [CreateTemplateTupleDesc attrs]. rewrite length_replicate. lia. }
  cbn [CreateTemplateTupleDesc attrs] in Hl0. rewrite length_replicate in Hl0.
  rewrite Hrun0. cbn [mbind option_bind].
  destruct (pscan_slot_entries_spec fb arr d0 Hnd)
    as (d & Hrun & _ & Hl & Hat & _).
  { intros v Hv Hs. rewrite Hl0. specialize (Hmax v Hv Hs).
    specialize (Hpos v Hv Hs). lia. }
  rewrite Hrun. cbn [mbind option_bind]. exists d. split; [reflexivity|].
  assert (Hback : forall v, v ∈ arr -> slot_holds fb v = true ->
            forall i : nat, vt_resno v = Z.of_nat i + 1 ->
            attrs d !! i = Some (Some (attribute_of v))).
  { intros v Hv Hs i Hi. rewrite <- (Hat v Hv Hs). f_equal. lia. }
  intros i a. split.
  - intros Hi. pose proof (lookup_lt_Some _ _ _ Hi) as Hlt.
    rewrite Hl, Hl0 in Hlt.
    destruct (Hdense (Z.of_nat i + 1) ltac:(lia)) as (v & Hv & Hs & Hr).
    exists v. split; [exact Hv|]. split; [exact Hs|]. split; [exact Hr|].
    rewrite (Hback v Hv Hs i Hr) in Hi. congruence.
  - intros (v & Hv & Hs & Hr & ->). apply Hback; assumption.
Qed.


(** X13: the two slots gpuhashjoin_begin sets up for a plan in which
    every variable is provided by some depth, whatever order qsort
    leaves the entries in.  No dummy column is left: column [i + 1] of
    the wider slot has the name, type, type modifier and collation of
    the entry with that column number, for every entry; the slot of the
    host has exactly the columns of the entries the host refers to, and
    it is a prefix of the wider slot. *)
Theorem pseudo_scan_slots_describe_columns ghjoin :
  (forall cmp l, qsort cmp l ≡ₚ l) ->
  snd (build_pseudo_scan_vartrans_pending exprType exprTypmod exprCollation ghjoin)
  = [] ->
  let vartrans :=
    build_pseudo_scan_vartrans exprType exprTypmod exprCollation ghjoin in
  exists arr d p dw pw,
    gpuhashjoin_begin_pscan typcollation ExecContextForcesOids ProjectionInfo
      tlist_matches_tupdesc ExecBuildProjectionInfo qsort vartrans
    = Some (arr, (d, p), (dw, pw))
    /\ arr ≡ₚ vartrans
    /\ (forall (i : nat) a,
          attrs dw !! i = Some a <->
          exists v, In v vartrans /\ vt_resno v = Z.of_nat i + 1
                    /\ a = Some (attribute_of v))
    /\ (forall (i : nat) a,
          attrs d !! i = Some a <->
          exists v, In v vartrans /\ ref_host v = true
                    /\ vt_resno v = Z.of_nat i + 1 /\ a = Some (attribute_of v))
    /\ attrs d = take (length (attrs d)) (attrs dw).
Proof.
  intros Hsort Hvalid vartrans.
  destruct (build_pseudo_scan_vartrans_columns exprType exprTypmod exprCollation ghjoin)
    as (k & n & Hcol & Hall & Hk).
  specialize (Hall Hvalid).
  destruct (build_pseudo_scan_vartrans_distinct exprType exprTypmod exprCollation
              ghjoin) as [_ Hnd].
  fold vartrans in Hcol, Hall, Hnd.
  set (arr := qsort pscan_vartrans_comp vartrans).
  assert (Hperm : arr ≡ₚ vartrans) by apply Hsort.
  assert (Hnda : NoDup (map vt_resno arr)) by (rewrite Hperm; exact Hnd).
  assert (Hin : forall v, v ∈ arr <-> v ∈ vartrans).
  { intros v. rewrite Hperm. reflexivity. }
  assert (Hdense : forall fb r, 1 <= r <= pscan_slot_nattrs fb arr 0 ->
            exists v, v ∈ arr /\ slot_holds fb v = true /\ vt_resno v = r).
  { intros fb r Hr.
    destruct (pscan_slot_nattrs_spec fb arr 0) as (_ & _ & [H0 | (v & Hv & Hs & Hm)]);
      [lia|].
    destruct (Hcol v (proj1 (Hin v) Hv)) as [Hrv Hhv].
    destruct (Hall r ltac:(lia)) as (v' & Hv' & Hr').
    exists v'. split; [apply Hin; exact Hv'|]. split; [|exact Hr'].
    unfold slot_holds in *. destruct fb; [reflexivity|]. cbn [orb] in Hs |- *.
    destruct (Hcol v' Hv') as [_ ->]. rewrite Hs in Hhv. symmetry in Hhv.
    apply bool_decide_eq_true in Hhv. apply bool_decide_eq_true. lia. }
  assert (Hpos : forall fb v, v ∈ arr -> slot_holds fb v = true -> 1 <= vt_resno v).
  { intros fb v Hv _. apply Hin, Hcol in Hv. lia. }
  destruct (setup_pseudo_scan_slot_spec false arr Hnda (Hpos false) (Hdense false))
    as (d & Hd & Hdat).
  destruct (setup_pseudo_scan_slot_spec true arr Hnda (Hpos true) (Hdense true))
    as (dw & Hdw & Hdwat).
  exists arr, d, (if tlist_matches_tupdesc d then None
                  else Some (ExecBuildProjectionInfo d)),
    dw, (if tlist_matches_tupdesc dw then None
         else Some (ExecBuildProjectionInfo dw)).
  assert (Hwide : forall (i : nat) a,
            attrs dw !! i = Some a <->
            exists v, In v vartrans /\ vt_resno v = Z.of_nat i + 1
                      /\ a = Some (attribute_of v)).
  { intros i a. rewrite Hdwat. split.
    - intros (v & Hv & _ & Hr & Ha). exists v.
      split; [apply list_elem_of_In, Hin; exact Hv|auto].
    - intros (v & Hv & Hr & Ha). exists v.
      split; [apply Hin, list_elem_of_In; exact Hv|auto]. }
  assert (Hhost : forall (i : nat) a,
            attrs d !! i = Some a <->
            exists v, In v vartrans /\ ref_host v = true
                      /\ vt_resno v = Z.of_nat i + 1 /\ a = Some (attribute_of v)).
  { intros i a. rewrite Hdat. split.
    - intros (v & Hv & Hs & Hr & Ha). exists v.
      split; [apply list_elem_of_In, Hin; exact Hv|auto].
    - intros (v & Hv & Hs & Hr & Ha). exists v.
      split; [apply Hin, list_elem_of_In; exact Hv|auto]. }
  split.
  { unfold gpuhashjoin_begin_pscan. fold vartrans. fold arr.
    rewrite Hd, Hdw. reflexivity. }
  split; [exact Hperm|]. split; [exact Hwide|]. split; [exact Hhost|].
  apply list_eq. intros i.
  destruct (attrs d !! i) as [a|] eqn:Hi.
  - pose proof (lookup_lt_Some _ _ _ Hi) as Hlt.
    rewrite lookup_take_lt by exact Hlt. symmetry.
    apply Hhost in Hi as (v & Hv & _ & Hr & Ha).
    apply Hwide. exists v. auto.
  - apply lookup_ge_None in Hi. symmetry. apply lookup_take_ge. exact Hi.
Qed.

End PseudoSlotColumns.

Section PseudoSlotRuns.
Import PseudoScan PseudoSlot.

(** a sort by insertion in the place of qsort *)
Fixpoint demo_insert (cmp : vartrans_info -> vartrans_info -> Z)
  (x : vartrans_info) (l : list vartrans_info) : list vartrans_info :=
  match l with
  | [] => [x]
  | y :: l' => if cmp x y <=? 0 then x :: l else y :: demo_insert cmp x l'
  end.

Definition demo_qsort (cmp : vartrans_info -> vartrans_info -> Z)
  (l : list vartrans_info) : list vartrans_info :=
  foldr (demo_insert cmp) [] l.

Lemma demo_insert_perm cmp x l : demo_insert cmp x l ≡ₚ x :: l.
Proof.
  induction l as [|y l IH]; [reflexivity|]. cbn [demo_insert].
  destruct (cmp x y <=? 0); [reflexivity|].
  rewrite IH. apply perm_swap.
Qed.

Lemma demo_qsort_perm cmp l : demo_qsort cmp l ≡ₚ l.
Proof.
  induction l as [|x l IH]; [reflexivity|].
  cbn [demo_qsort foldr]. rewrite demo_insert_perm. constructor. exact IH.
Qed.

Lemma pseudo_scan_slots_describe_columns_witness :
  exists arr d p dw pw,
    gpuhashjoin_begin_pscan (fun _ => 0) None unit (fun _ => true) (fun _ => tt)
      demo_qsort demo_vartrans
    = Some (arr, (d, p), (dw, pw))
    /\ arr ≡ₚ demo_vartrans
    /\ (forall (i : nat) a,
          attrs dw !! i = Some a <->
          exists v, In v demo_vartrans /\ vt_resno v = Z.of_nat i + 1
                    /\ a = Some (attribute_of v))
    /\ (forall (i : nat) a,
          attrs d !! i = Some a <->
          exists v, In v demo_vartrans /\ ref_host v = true
                    /\ vt_resno v = Z.of_nat i + 1 /\ a = Some (attribute_of v))
    /\ attrs d = take (length (attrs d)) (attrs dw).
Proof.
  apply (pseudo_scan_slots_describe_columns (fun _ => 23) (fun _ => -1) (fun _ => 0)
           (fun _ => 0) None unit (fun _ => true) (fun _ => tt) demo_qsort demo_plan).
  - exact demo_qsort_perm.
  - reflexivity.
Defined.

End PseudoSlotRuns.

(** * Sessions in flight at a rescan and at the end *)
Section TakeBack.
Import Pg Session Exec ExecScan.
Context `{Env} `{DataStore}.

(** A message without the answer of the server. *)
Definition unanswered (m : pgstrom_gpuhashjoin) : pgstrom_gpuhashjoin :=
  set_msg_errcode StromError_Success m.

Lemma unanswered_set_msg_errcode e m : unanswered (set_msg_errcode e m) = unanswered m.
Proof. reflexivity. Qed.

Lemma pgstrom_dequeue_message_takes q m q' :
  pgstrom_dequeue_message q = (Some m, q') ->
  mq_closed q' = mq_closed q
  /\ exists m0, unanswered m = unanswered m0
                /\ mq_pending q ≡ₚ m0 :: mq_pending q'.
Proof.
  unfold pgstrom_dequeue_message, pgstrom_try_dequeue_message.
  cbn [mq_script mq_pending mq_closed].
  destruct (mq_script q) as [|[[i e]|] script]; try discriminate.
  destruct (mq_pending q !! i) as [m0|] eqn:Hi; [|discriminate].
  intros [= <- <-]. cbn [mq_closed mq_pending]. split; [reflexivity|].
  exists m0. split; [reflexivity|]. apply delete_Permutation. exact Hi.
Qed.

(** The loop that takes back the running sessions, given enough rounds:
    it fails only when a wait on the queue times out; otherwise it has
    taken [num_running] messages off the queue and put each of them
    once. *)
Lemma rescan_drain_spec n : forall ghjs w,
  (Z.to_nat (num_running ghjs) <= n)%nat ->
  match rescan_drain n ghjs w with
  | Ok (ghjs', w') =>
      num_running ghjs' = Z.min (num_running ghjs) 0
      /\ ghjs' = set_num_running (num_running ghjs') ghjs
      /\ w_shmem w' = w_shmem w /\ w_put_tables w' = w_put_tables w
      /\ mq_closed (w_mqueue w') = mq_closed (w_mqueue w)
      /\ exists ms,
           w_put_messages w' = w_put_messages w ++ ms
           /\ Z.of_nat (length ms) = Z.max (num_running ghjs) 0
           /\ map unanswered (mq_pending (w_mqueue w))
              ≡ₚ map unanswered ms ++ map unanswered (mq_pending (w_mqueue w'))
  | Err e => e = Elog "message queue wait timeout"
  end.
Proof.
  induction n as [|n IH]; intros ghjs w Hn; cbn [rescan_drain].
  - destruct (Z.ltb_spec 0 (num_running ghjs)); [lia|].
    split; [lia|]. split; [destruct ghjs; reflexivity|]. repeat split.
    exists []. rewrite app_nil_r. split; [reflexivity|]. split; [cbn; lia|reflexivity].
  - destruct (Z.ltb_spec 0 (num_running ghjs)) as [Hpos|Hle].
    + destruct (pgstrom_dequeue_message (w_mqueue w)) as [[m|] q] eqn:Hd;
        [|reflexivity].
      apply pgstrom_dequeue_message_takes in Hd as (Hcl & m0 & Hm & Hperm).
      specialize (IH (set_num_running (num_running ghjs - 1) ghjs)
                    (pgstrom_put_message m (set_w_mqueue q w))).
      destruct (rescan_drain n _ _) as [[ghjs' w']|e]; [|apply IH; cbn; lia].
      destruct IH as (Hnum & Hg & Hsh & Hpt & Hclosed & ms & Hput & Hlen & Hp);
        [cbn; lia|].
      cbn [num_running set_num_running w_shmem w_put_tables w_put_messages w_mqueue
             pgstrom_put_message set_w_mqueue] in *.
      split; [lia|]. split; [rewrite Hg; destruct ghjs; reflexivity|].
      split; [exact Hsh|]. split; [exact Hpt|]. split; [congruence|].
      exists (m :: ms). split; [rewrite Hput, <- app_assoc; reflexivity|].
      split; [cbn [length]; lia|].
      rewrite Hperm. cbn [map app]. rewrite Hm. constructor. exact Hp.
    + split; [lia|]. split; [destruct ghjs; reflexivity|]. repeat split.
      exists []. rewrite app_nil_r. split; [reflexivity|].
      split; [cbn; lia|reflexivity].
Qed.


Lemma drained_all (pending ms rest : list pgstrom_gpuhashjoin) :
  length ms = length pending ->
  map unanswered pending ≡ₚ map unanswered ms ++ map unanswered rest ->
  rest = [] /\ map unanswered ms ≡ₚ map unanswered pending.
Proof.
  intros Hlen Hp. pose proof (Permutation_length Hp) as Hl.
  rewrite length_app, !length_map in Hl.
  assert (rest = []) as -> by (apply nil_length_inv; lia).
  split; [reflexivity|]. cbn [map] in Hp. rewrite app_nil_r in Hp.
  symmetry. exact Hp.
Qed.

(** X14: gpuhashjoin_rescan takes back every session in flight.  When
    num_running counts the messages pending in the queue, a rescan that
    returns has waited for each of them and put it exactly once, as well
    as the session whose rows were being handed out; no session is
    running afterwards, the outer scan is marked not done and the stashed
    row is dropped.  It leaves ready_pscans alone, and it fails only when
    a wait on the queue times out. *)
Theorem rescan_takes_back_sessions ghjs w :
  num_running ghjs = Z.of_nat (length (mq_pending (w_mqueue w))) ->
  match gpuhashjoin_rescan ghjs w with
  | Ok (ghjs', w') =>
      num_running ghjs' = 0
      /\ mq_pending (w_mqueue w') = []
      /\ curr_ghjoin ghjs' = None
      /\ outer_done ghjs' = false
      /\ outer_overflow ghjs' = None
      /\ ready_pscans ghjs' = ready_pscans ghjs
      /\ exists ms,
           w_put_messages w'
           = w_put_messages w ++ option_list (curr_ghjoin ghjs) ++ ms
           /\ map unanswered ms ≡ₚ map unanswered (mq_pending (w_mqueue w))
  | Err e => e = Elog "message queue wait timeout"
  end.
Proof.
  intros Hinv. unfold gpuhashjoin_rescan.
  set (p := match curr_ghjoin ghjs with Some _ => _ | None => _ end).
  assert (Hp : num_running (fst p) = num_running ghjs
               /\ curr_ghjoin (fst p) = None
               /\ ready_pscans (fst p) = ready_pscans ghjs
               /\ w_mqueue (snd p) = w_mqueue w
               /\ w_put_messages (snd p)
                  = w_put_messages w ++ option_list (curr_ghjoin ghjs)).
  { subst p. destruct (curr_ghjoin ghjs) eqn:Hc; cbn; rewrite ?app_nil_r;
      repeat split. exact Hc. }
  destruct p as [g1 w1]. cbn [fst snd] in Hp.
  destruct Hp as (Hn1 & Hc1 & Hr1 & Hq1 & Hm1).
  pose proof (rescan_drain_spec (Z.to_nat (num_running g1)) g1 w1 ltac:(lia)) as Hd.
  destruct (rescan_drain _ g1 w1) as [[g2 w2]|e]; [|exact Hd].
  destruct Hd as (Hn2 & Hg2 & _ & _ & _ & ms & Hput & Hlen & Hperm).
  cbn [mbind result_bind rbind].
  rewrite Hq1 in Hperm.
  destruct (drained_all (mq_pending (w_mqueue w)) ms (mq_pending (w_mqueue w2))
              ltac:(lia) Hperm) as [Hrest Hms].
  set (q := match mhtables g2 with Some _ => _ | None => _ end).
  assert (Hq : num_running (fst q) = num_running g2
               /\ curr_ghjoin (fst q) = curr_ghjoin g2
               /\ ready_pscans (fst q) = ready_pscans g2
               /\ w_mqueue (snd q) = w_mqueue w2
               /\ w_put_messages (snd q) = w_put_messages w2).
  { subst q. destruct (mhtables g2) as [mht|]; [|cbn; repeat split].
    destruct (MultiHash.is_divided mht || negb (inner_chgParam g2));
      [|cbn; repeat split].
    destruct (negb (inner_chgParam g2)); cbn; repeat split. }
  destruct q as [g3 w3]. cbn [fst snd] in Hq.
  destruct Hq as (Hn3 & Hc3 & Hr3 & Hq3 & Hm3).
  assert (Hg2' : curr_ghjoin g2 = None /\ ready_pscans g2 = ready_pscans ghjs).
  { rewrite Hg2. cbn. split; [exact Hc1|exact Hr1]. }
  destruct Hg2' as [Hc2 Hr2].
  assert (Hfields : forall g,
            num_running g = num_running g3 -> curr_ghjoin g = curr_ghjoin g3 ->
            ready_pscans g = ready_pscans g3 ->
            outer_done g = false -> outer_overflow g = None ->
            num_running g = 0 /\ mq_pending (w_mqueue w3) = []
            /\ curr_ghjoin g = None /\ outer_done g = false
            /\ outer_overflow g = None /\ ready_pscans g = ready_pscans ghjs
            /\ exists ms0,
                 w_put_messages w3
                 = w_put_messages w ++ option_list (curr_ghjoin ghjs) ++ ms0
                 /\ map unanswered ms0
                    ≡ₚ map unanswered (mq_pending (w_mqueue w))).
  { intros g E1 E2 E3 E4 E5. split; [lia|]. split; [congruence|].
    split; [congruence|]. split; [exact E4|]. split; [exact E5|].
    split; [congruence|]. exists ms. split; [|exact Hms].
    rewrite Hm3, Hput, Hm1, <- app_assoc. reflexivity. }
  destruct (negb (ps_chgParam (op_rows (outer_ps _)))); apply Hfields; reflexivity.
Qed.

(** X15: gpuhashjoin_end gives back what the node holds.  When
    num_running counts the messages pending in the queue, an end that
    returns has waited for every session in flight and put it exactly
    once, as well as the session whose rows were being handed out; the
    hash table the node holds is put once and the queue is closed.  It
    fails only when a wait on the queue times out. *)
Theorem end_gives_back_everything ghjs w :
  num_running ghjs = Z.of_nat (length (mq_pending (w_mqueue w))) ->
  match gpuhashjoin_end ghjs w with
  | Ok (ghjs', w') =>
      num_running ghjs' = 0
      /\ mq_pending (w_mqueue w') = []
      /\ mq_closed (w_mqueue w') = true
      /\ w_put_tables w' = w_put_tables w ++ option_list (mhtables ghjs)
      /\ exists ms,
           w_put_messages w'
           = w_put_messages w ++ option_list (curr_ghjoin ghjs) ++ ms
           /\ map unanswered ms ≡ₚ map unanswered (mq_pending (w_mqueue w))
  | Err e => e = Elog "message queue wait timeout"
  end.
Proof.
  intros Hinv. unfold gpuhashjoin_end.
  set (w1 := match curr_ghjoin ghjs with Some _ => _ | None => _ end).
  assert (Hp : w_mqueue w1 = w_mqueue w
               /\ w_put_tables w1 = w_put_tables w
               /\ w_put_messages w1
                  = w_put_messages w ++ option_list (curr_ghjoin ghjs)).
  { subst w1. destruct (curr_ghjoin ghjs); cbn; rewrite ?app_nil_r; repeat split. }
  destruct Hp as (Hq1 & Ht1 & Hm1).
  pose proof (rescan_drain_spec (Z.to_nat (num_running ghjs)) ghjs w1 ltac:(lia)) as Hd.
  destruct (rescan_drain _ ghjs w1) as [[g2 w2]|e]; [|exact Hd].
  destruct Hd as (Hn2 & Hg2 & _ & Hpt & _ & ms & Hput & Hlen & Hperm).
  cbn [mbind result_bind rbind].
  rewrite Hq1 in Hperm.
  destruct (drained_all (mq_pending (w_mqueue w)) ms (mq_pending (w_mqueue w2))
              ltac:(lia) Hperm) as [Hrest Hms].
  assert (Hmh : mhtables g2 = mhtables ghjs) by (rewrite Hg2; reflexivity).
  rewrite Hmh.
  split; [lia|]. cbn [w_mqueue set_w_mqueue pgstrom_close_queue mq_pending mq_closed
                        w_put_tables w_put_messages].
  destruct (mhtables ghjs) as [mht|];
    cbn [w_mqueue multihash_put_tables w_put_tables w_put_messages option_list].
  - split; [exact Hrest|]. split; [reflexivity|].
    split; [rewrite Hpt, Ht1; reflexivity|].
    exists ms. split; [|exact Hms]. rewrite Hput, Hm1, <- app_assoc. reflexivity.
  - split; [exact Hrest|]. split; [reflexivity|].
    split; [rewrite Hpt, Ht1, app_nil_r; reflexivity|].
    exists ms. split; [|exact Hms]. rewrite Hput, Hm1, <- app_assoc. reflexivity.
Qed.

End TakeBack.

(** * What pgstrom_fetch_gpuhashjoin hands out *)
Section HandOut.
Import Pg Session Exec ExecScan.
Context `{Env} `{DataStore}.
Variable pgstrom_max_async_chunks : Z.

Lemma fetch_issue_loop_ready n : forall fuel ghjs fmt w ghjs' w',
  fetch_issue_loop pgstrom_max_async_chunks n fuel ghjs fmt w = Ok (ghjs', w') ->
  ready_pscans ghjs = [] ->
  ready_pscans ghjs' = [] \/ exists m, ready_pscans ghjs' = [m].
Proof.
  induction n as [|n IH]; intros fuel ghjs fmt w ghjs' w'; cbn [fetch_issue_loop];
    destruct (negb (outer_done ghjs) && (num_running ghjs <=? pgstrom_max_async_chunks));
    try discriminate; try (intros [= <- <-] Hr; left; exact Hr).
  destruct (gpuhashjoin_load_next_chunk fuel ghjs fmt w) as [[[j g1] w1]|e] eqn:Hl;
    [|discriminate].
  apply gpuhashjoin_load_next_chunk_frame in Hl. destruct Hl as (_ & Hr1 & _).
  cbn [mbind result_bind rbind].
  destruct j as [j|]; [|intros [= <- <-] Hr; left; congruence].
  destruct (pgstrom_enqueue_message j (w_mqueue w1)) as [[|] q]; cbn [negb];
    [|discriminate].
  destruct (pgstrom_try_dequeue_message q) as [[msg|] q2].
  - intros [= <- <-] Hr. right. exists msg. cbn. rewrite Hr1, Hr. reflexivity.
  - intros Hloop Hr. apply IH in Hloop; [exact Hloop|]. cbn. congruence.
Qed.

(** What pgstrom_fetch_gpuhashjoin hands out when no session is left
    over in ready_pscans. *)
Lemma pgstrom_fetch_gpuhashjoin_spec fuel ghjs fmt w :
  ready_pscans ghjs = [] ->
  match pgstrom_fetch_gpuhashjoin pgstrom_max_async_chunks fuel ghjs fmt w with
  | Ok (Some (ghjoin, needs_recheck), ghjs', _) =>
      msg_errcode ghjoin = StromError_Success
      /\ needs_recheck = false
      /\ ready_pscans ghjs' = []
  | Ok (None, ghjs', _) => num_running ghjs' = 0 /\ ready_pscans ghjs' = []
  | Err _ => True
  end.
Proof.
  intros Hr. unfold pgstrom_fetch_gpuhashjoin.
  destruct (fetch_issue_loop _ _ fuel ghjs fmt w) as [[g1 w1]|e] eqn:Hloop;
    [|exact I].
  apply fetch_issue_loop_ready in Hloop; [|exact Hr].
  cbn [mbind result_bind rbind].
  destruct Hloop as [Hr1 | [m Hr1]]; rewrite Hr1.
  - destruct (Z.eqb_spec (num_running g1) 0) as [Hz|Hz].
    + cbn [mbind result_bind rbind]. split; assumption.
    + destruct (pgstrom_dequeue_message (w_mqueue w1)) as [[msg|] q]; [|exact I].
      cbn [mbind result_bind rbind ready_pscans set_ready_pscans set_num_running].
      rewrite ?Hr1. cbn [app].
      destruct (bool_decide (msg_errcode msg = StromError_Success)) eqn:He;
        [|exact I].
      apply bool_decide_eq_true in He. repeat split. exact He.
  - cbn [mbind result_bind rbind]. rewrite ?Hr1.
    destruct (bool_decide (msg_errcode m = StromError_Success)) eqn:He; [|exact I].
    apply bool_decide_eq_true in He. repeat split. exact He.
Qed.

(** X16: what pgstrom_fetch_gpuhashjoin hands out, called with no
    session left over in ready_pscans.  A session it returns was answered
    with StromError_Success and needs no recheck: an answer with any
    other code raises an error instead.  It reports the end (NULL) only
    when no session is running any more.  In both cases ready_pscans is
    empty again when it returns, so no finished session is ever left
    where gpuhashjoin_rescan and gpuhashjoin_end do not look. *)
Theorem fetch_hands_out_answered_session fuel ghjs fmt w :
  ready_pscans ghjs = [] ->
  match pgstrom_fetch_gpuhashjoin pgstrom_max_async_chunks fuel ghjs fmt w with
  | Ok (Some (ghjoin, needs_recheck), ghjs', _) =>
      msg_errcode ghjoin = StromError_Success
      /\ needs_recheck = false
      /\ ready_pscans ghjs' = []
  | Ok (None, ghjs', _) => num_running ghjs' = 0 /\ ready_pscans ghjs' = []
  | Err _ => True
  end.
Proof. apply pgstrom_fetch_gpuhashjoin_spec. Qed.

End HandOut.

(** * The rows of the outer relation and the chunks *)
Section OuterRows.
Import Pg Session Exec ExecScan.
Context `{Env} `{DataStore}.

(** The rows the scan has still to deliver: the row stashed when a chunk
    was full, then what the outer plan has left. *)
Definition outer_pending (ghjs : GpuHashJoinState) : list TupleTableSlot :=
  option_list (outer_overflow ghjs) ++ ps_rest (op_rows (outer_ps ghjs)).

Definition chunk_rows (pds : option pgstrom_data_store) : list TupleTableSlot :=
  match pds with
  | Some pds => pds_rows pds
  | None => []
  end.

(** What datastore.c promises: a new store is empty and a row inserted
    comes after the rows already there. *)
Definition data_store_keeps_rows : Prop :=
  (forall tupdesc, pds_rows (pgstrom_create_data_store_row tupdesc) = [])
  /\ (forall pds slot pds',
        pgstrom_data_store_insert_tuple pds slot = Some pds' ->
        pds_rows pds' = pds_rows pds ++ [slot]).

Lemma load_outer_rows_spec n : forall ghjs pds,
  data_store_keeps_rows ->
  (length (outer_pending ghjs) < n)%nat ->
  exists ghjs' pds',
    load_outer_rows n ghjs pds = Ok (ghjs', pds')
    /\ chunk_rows pds ++ outer_pending ghjs = chunk_rows pds' ++ outer_pending ghjs'
    /\ ((outer_done ghjs' = true /\ outer_pending ghjs' = [])
        \/ (exists slot store,
              outer_overflow ghjs' = Some slot /\ pds' = Some store
              /\ pgstrom_data_store_insert_tuple store slot = None
              /\ outer_done ghjs' = outer_done ghjs)).
Proof.
  induction n as [|n IH]; intros ghjs pds [Hnew Hins] Hn; [lia|].
  cbn [load_outer_rows]. unfold outer_pending in Hn |- *.
  assert (Hround : forall slot g1,
            outer_overflow g1 = None -> outer_done g1 = outer_done ghjs ->
            outer_tupdesc g1 = outer_tupdesc ghjs ->
            option_list (outer_overflow ghjs) ++ ps_rest (op_rows (outer_ps ghjs))
            = slot :: ps_rest (op_rows (outer_ps g1)) ->
            exists ghjs' pds',
              match pgstrom_data_store_insert_tuple
                      match pds with
                      | Some pds0 => pds0
                      | None => pgstrom_create_data_store_row (outer_tupdesc g1)
                      end slot with
              | Some pds0 => load_outer_rows n g1 (Some pds0)
              | None =>
                  Ok (set_outer_overflow (Some slot) g1,
                      Some match pds with
                           | Some pds0 => pds0
                           | None => pgstrom_create_data_store_row (outer_tupdesc g1)
                           end)
              end = Ok (ghjs', pds')
              /\ chunk_rows pds
                 ++ option_list (outer_overflow ghjs)
                 ++ ps_rest (op_rows (outer_ps ghjs))
                 = chunk_rows pds' ++ outer_pending ghjs'
              /\ ((outer_done ghjs' = true /\ outer_pending ghjs' = [])
                  \/ (exists slot store,
                        outer_overflow ghjs' = Some slot /\ pds' = Some store
                        /\ pgstrom_data_store_insert_tuple store slot = None
                        /\ outer_done ghjs' = outer_done ghjs))).
  { intros slot g1 Hov Hdone Htd Hpend.
    set (store := match pds with
                  | Some pds0 => pds0
                  | None => pgstrom_create_data_store_row (outer_tupdesc g1)
                  end).
    assert (Hstore : pds_rows store = chunk_rows pds)
      by (subst store; destruct pds; [reflexivity|apply Hnew]).
    destruct (pgstrom_data_store_insert_tuple store slot) as [pds1|] eqn:Hi.
    - destruct (IH g1 (Some pds1) (conj Hnew Hins)) as (ghjs' & pds' & Hrun & Hrows & Hend).
      { unfold outer_pending. rewrite Hov. simpl.
        rewrite Hpend in Hn. simpl in Hn. lia. }
      exists ghjs', pds'. split; [exact Hrun|]. split.
      + rewrite <- Hrows. cbn [chunk_rows]. rewrite (Hins _ _ _ Hi), Hstore, Hpend.
        unfold outer_pending. rewrite Hov, <- app_assoc. reflexivity.
      + destruct Hend as [Hend | (s & st & Ho & Hp & Hf & Hd)]; [left; exact Hend|].
        right. exists s, st. repeat split; try assumption. congruence.
    - exists (set_outer_overflow (Some slot) g1), (Some store).
      split; [reflexivity|]. split.
      + cbn [chunk_rows]. rewrite Hstore, Hpend. unfold outer_pending.
        destruct g1; reflexivity.
      + right. exists slot, store. repeat split; assumption. }
  destruct (outer_overflow ghjs) as [slot|] eqn:Hov.
  - apply Hround; try (destruct ghjs; reflexivity).
  - unfold ExecProcNode.
    destruct (ps_rest (op_rows (outer_ps ghjs))) as [|slot rest] eqn:Hrest.
    + exists (set_outer_done true (set_op_rows (op_rows (outer_ps ghjs)) ghjs)), pds.
      split; [reflexivity|]. split.
      * unfold outer_pending. cbn. rewrite Hov, Hrest. reflexivity.
      * left. split; [reflexivity|]. unfold outer_pending. cbn.
        rewrite Hov, Hrest. reflexivity.
    + apply Hround; try (destruct ghjs; cbn; assumption || reflexivity).
Qed.

(** X17: the row-by-row scan of gpuhashjoin_load_next_chunk loses no row
    of the outer relation and repeats none.  With a data store that
    keeps the rows put into it, the scan returns; the rows it put into
    the chunk followed by the rows still pending afterwards are the rows
    that were pending before, in their order; and it stops either at the
    end of the relation, which it marks done, or at the first row that
    does not fit, which it stashes in outer_overflow for the next
    chunk. *)
Theorem outer_rows_go_into_chunks ghjs :
  data_store_keeps_rows ->
  exists ghjs' pds',
    load_outer_rows (S (S (length (ps_rest (op_rows (outer_ps ghjs)))))) ghjs None
    = Ok (ghjs', pds')
    /\ outer_pending ghjs = chunk_rows pds' ++ outer_pending ghjs'
    /\ ((outer_done ghjs' = true /\ outer_pending ghjs' = [])
        \/ (exists slot store,
              outer_overflow ghjs' = Some slot /\ pds' = Some store
              /\ pgstrom_data_store_insert_tuple store slot = None
              /\ outer_done ghjs' = outer_done ghjs)).
Proof.
  intros Hstore.
  apply (load_outer_rows_spec _ ghjs None Hstore).
  unfold outer_pending. rewrite length_app.
  destruct (outer_overflow ghjs); cbn; lia.
Qed.

(** X18: a row that does not fit into an empty data store blocks the
    scan.  The scan returns an empty chunk with the row stashed in
    outer_overflow, and from the state it leaves every further scan
    returns the same empty chunk and the same state: the row is never
    delivered and the outer relation is never marked done. *)
Theorem row_larger_than_store_blocks_scan ghjs slot rest (n : nat) :
  outer_pending ghjs = slot :: rest ->
  pgstrom_data_store_insert_tuple
    (pgstrom_create_data_store_row (outer_tupdesc ghjs)) slot = None ->
  exists ghjs',
    load_outer_rows (S n) ghjs None
    = Ok (ghjs', Some (pgstrom_create_data_store_row (outer_tupdesc ghjs)))
    /\ outer_pending ghjs' = slot :: rest
    /\ outer_done ghjs' = outer_done ghjs
    /\ load_outer_rows (S n) ghjs' None
       = Ok (ghjs', Some (pgstrom_create_data_store_row (outer_tupdesc ghjs))).
Proof.
  intros Hpend Hfull. unfold outer_pending in Hpend. cbn [load_outer_rows].
  destruct (outer_overflow ghjs) as [s|] eqn:Hov.
  - simpl in Hpend. injection Hpend as -> Hrest.
    replace (outer_tupdesc (set_outer_overflow None ghjs))
      with (outer_tupdesc ghjs) by (destruct ghjs; reflexivity).
    rewrite Hfull.
    exists (set_outer_overflow (Some slot) (set_outer_overflow None ghjs)).
    split; [reflexivity|]. split; [unfold outer_pending; cbn; congruence|].
    split; [reflexivity|]. cbn [outer_overflow set_outer_overflow outer_tupdesc].
    rewrite Hfull. reflexivity.
  - simpl in Hpend. unfold ExecProcNode. rewrite Hpend.
    cbn [outer_tupdesc set_op_rows set_outer_ps]. rewrite Hfull.
    eexists. split; [reflexivity|]. split; [unfold outer_pending; reflexivity|].
    split; [exact eq_refl|].
    cbn [outer_overflow set_outer_overflow outer_tupdesc set_op_rows set_outer_ps].
    rewrite Hfull. reflexivity.
Qed.

End OuterRows.

(** * Handing out the rows of a session *)
Section Rows.
Import Pg Session Exec ExecScan.
Context `{Env} `{DataStore}.
Variable pgstrom_max_async_chunks : Z.
Variable Row : Type.
Variable kern_data_store_row : pgstrom_data_store -> Z -> Row.
Variable pgstrom_fetch_data_store : pgstrom_data_store -> Z -> option Row.

(** Whether row [i] of the store passes the host clauses. *)
Definition passes_host_clauses (host_clauses : option (Row -> bool))
  (pds : pgstrom_data_store) (i : Z) : bool :=
  match host_clauses with
  | Some ExecQual => ExecQual (kern_data_store_row pds i)
  | None => true
  end.

Lemma gpuhashjoin_next_tuple_spec host_clauses gpuhashjoin : forall (n : nat) ghjs,
  curr_ghjoin ghjs = Some gpuhashjoin ->
  0 <= curr_index ghjs ->
  kds_nitems (kds (pds_dest gpuhashjoin)) <= 2 ^ 31 ->
  kds_nitems (kds (pds_dest gpuhashjoin)) - curr_index ghjs <= Z.of_nat n ->
  exists r ghjs',
    gpuhashjoin_next_tuple Row kern_data_store_row host_clauses n ghjs = Ok (r, ghjs')
    /\ ghjs' = set_curr_index (curr_index ghjs') ghjs
    /\ match r with
       | Some row =>
           exists i,
             curr_index ghjs <= i < kds_nitems (kds (pds_dest gpuhashjoin))
             /\ row = kern_data_store_row (pds_dest gpuhashjoin) i
             /\ passes_host_clauses host_clauses (pds_dest gpuhashjoin) i = true
             /\ (forall j, curr_index ghjs <= j < i ->
                   passes_host_clauses host_clauses (pds_dest gpuhashjoin) j = false)
             /\ curr_index ghjs' = i + 1
       | None =>
           (forall j, curr_index ghjs <= j < kds_nitems (kds (pds_dest gpuhashjoin)) ->
              passes_host_clauses host_clauses (pds_dest gpuhashjoin) j = false)
           /\ curr_index ghjs'
              = Z.max (curr_index ghjs) (kds_nitems (kds (pds_dest gpuhashjoin)))
       end.
Proof.
  set (nitems := kds_nitems (kds (pds_dest gpuhashjoin))).
  induction n as [|n IH]; intros ghjs Hcurr Hpos Hmax Hn;
    cbn [gpuhashjoin_next_tuple]; rewrite Hcurr; fold nitems.
  - destruct (Z.ltb_spec (curr_index ghjs) nitems); [lia|].
    exists None, ghjs. split; [reflexivity|]. split; [destruct ghjs; reflexivity|].
    split; [intros j Hj; lia|lia].
  - destruct (Z.ltb_spec (curr_index ghjs) nitems) as [Hlt|Hge].
    2:{ exists None, ghjs. split; [reflexivity|].
        split; [destruct ghjs; reflexivity|]. split; [intros j Hj; lia|lia]. }
    assert (Hidx : to_int (curr_index ghjs) = curr_index ghjs).
    { unfold to_int. destruct (Z.ltb_spec (curr_index ghjs) (2 ^ 31)); lia. }
    assert (Hnext : cl_uint (curr_index ghjs + 1) = curr_index ghjs + 1).
    { unfold cl_uint. apply Z.mod_small. lia. }
    rewrite Hidx, Hnext.
    assert (Hhere : forall g,
              g = set_curr_index (curr_index ghjs + 1) ghjs ->
              passes_host_clauses host_clauses (pds_dest gpuhashjoin) (curr_index ghjs) = true ->
              exists r ghjs',
                Ok (Some (kern_data_store_row (pds_dest gpuhashjoin) (curr_index ghjs)), g)
                = Ok (r, ghjs')
                /\ ghjs' = set_curr_index (curr_index ghjs') ghjs
                /\ match r with
                   | Some row =>
                       exists i,
                         curr_index ghjs <= i < nitems
                         /\ row = kern_data_store_row (pds_dest gpuhashjoin) i
                         /\ passes_host_clauses host_clauses (pds_dest gpuhashjoin) i = true
                         /\ (forall j, curr_index ghjs <= j < i ->
                               passes_host_clauses host_clauses (pds_dest gpuhashjoin) j = false)
                         /\ curr_index ghjs' = i + 1
                   | None =>
                       (forall j, curr_index ghjs <= j < nitems ->
                          passes_host_clauses host_clauses (pds_dest gpuhashjoin) j = false)
                       /\ curr_index ghjs' = Z.max (curr_index ghjs) nitems
                   end).
    { intros g -> Hq. eexists _, _. split; [reflexivity|].
      split; [reflexivity|]. exists (curr_index ghjs).
      split; [lia|]. split; [reflexivity|]. split; [exact Hq|].
      split; [intros j Hj; lia|reflexivity]. }
    unfold passes_host_clauses in Hhere |- *.
    destruct host_clauses as [ExecQual|]; [|apply Hhere; reflexivity].
    destruct (ExecQual (kern_data_store_row (pds_dest gpuhashjoin) (curr_index ghjs)))
      eqn:Hq; cbn [negb]; [apply Hhere; reflexivity|].
    destruct (IH (set_curr_index (curr_index ghjs + 1) ghjs) Hcurr
                ltac:(cbn; lia) Hmax ltac:(cbn; lia))
      as (r & ghjs' & Hrun & Hg & Hr).
    cbn [curr_index set_curr_index] in Hr.
    exists r, ghjs'. split; [exact Hrun|].
    split; [rewrite Hg at 1; destruct ghjs; reflexivity|].
    destruct r as [row|].
    + destruct Hr as (i & Hi & Hrow & Hpass & Hfirst & Hnew).
      exists i. split; [lia|]. split; [exact Hrow|]. split; [exact Hpass|].
      split; [|exact Hnew]. intros j Hj.
      destruct (Z.eq_dec j (curr_index ghjs)) as [->|Hne]; [exact Hq|].
      apply Hfirst. lia.
    + destruct Hr as [Hnone Hnew]. split; [|lia]. intros j Hj.
      destruct (Z.eq_dec j (curr_index ghjs)) as [->|Hne]; [exact Hq|].
      apply Hnone. lia.
Qed.

(** X19: gpuhashjoin_next_tuple on the session being handed out, with
    the rounds gpuhashjoin_exec gives it.  It returns the first row from
    [curr_index] on that passes the host clauses and leaves [curr_index]
    behind that row; no row before it passes.  It returns nothing only
    if no row from [curr_index] on passes, and [curr_index] is then at
    the end of the store. *)
Theorem next_tuple_is_first_passing_row host_clauses ghjs gpuhashjoin :
  curr_ghjoin ghjs = Some gpuhashjoin ->
  0 <= curr_index ghjs ->
  kds_nitems (kds (pds_dest gpuhashjoin)) <= 2 ^ 31 ->
  exists r ghjs',
    gpuhashjoin_next_tuple Row kern_data_store_row host_clauses
      (Z.to_nat (kds_nitems (kds (pds_dest gpuhashjoin)))) ghjs = Ok (r, ghjs')
    /\ ghjs' = set_curr_index (curr_index ghjs') ghjs
    /\ match r with
       | Some row =>
           exists i,
             curr_index ghjs <= i < kds_nitems (kds (pds_dest gpuhashjoin))
             /\ row = kern_data_store_row (pds_dest gpuhashjoin) i
             /\ passes_host_clauses host_clauses (pds_dest gpuhashjoin) i = true
             /\ (forall j, curr_index ghjs <= j < i ->
                   passes_host_clauses host_clauses (pds_dest gpuhashjoin) j = false)
             /\ curr_index ghjs' = i + 1
       | None =>
           (forall j, curr_index ghjs <= j < kds_nitems (kds (pds_dest gpuhashjoin)) ->
              passes_host_clauses host_clauses (pds_dest gpuhashjoin) j = false)
           /\ curr_index ghjs'
              = Z.max (curr_index ghjs) (kds_nitems (kds (pds_dest gpuhashjoin)))
       end.
Proof.
  intros Hcurr Hpos Hmax.
  apply gpuhashjoin_next_tuple_spec; try assumption. lia.
Qed.

(** The indices [i], [i + 1], ... of [n] rows. *)
Definition row_indices (i : Z) (n : nat) : list Z :=
  map (fun k => i + Z.of_nat k) (seq 0 n).

Lemma row_indices_S i n : row_indices i (S n) = i :: row_indices (i + 1) n.
Proof.
  unfold row_indices. cbn [seq map]. f_equal; [lia|].
  rewrite <- seq_shift, map_map. apply map_ext. intros k. lia.
Qed.

(** Whether row [i] of the store passes the qualifiers. *)
Definition passes_qual (ExecQual : Row -> bool) (pds : pgstrom_data_store) (i : Z)
  : bool :=
  match pgstrom_fetch_data_store pds i with
  | Some slot => ExecQual slot
  | None => false
  end.

Lemma exec_multi_reduce_spec ExecQual pds : forall (n : nat) i j rindex rindex' j',
  0 <= j ->
  (Z.to_nat j + n <= length rindex)%nat ->
  exec_multi_reduce Row pgstrom_fetch_data_store ExecQual pds n i j rindex
  = Ok (rindex', j') ->
  take (Z.to_nat j') rindex'
  = take (Z.to_nat j) rindex ++ List.filter (passes_qual ExecQual pds) (row_indices i n)
  /\ j' = j + Z.of_nat (length (List.filter (passes_qual ExecQual pds) (row_indices i n)))
  /\ length rindex' = length rindex
  /\ (forall k, In k (row_indices i n) -> is_Some (pgstrom_fetch_data_store pds k)).
Proof.
  induction n as [|n IH]; intros i j rindex rindex' j' Hj Hlen Hrun.
  { cbn in Hrun. injection Hrun as <- <-. cbn. rewrite app_nil_r.
    repeat split; [lia|]. intros k []. }
  cbn [exec_multi_reduce] in Hrun. rewrite row_indices_S.
  destruct (pgstrom_fetch_data_store pds i) as [slot|] eqn:Hf; [|discriminate].
  assert (Hsome : forall k rest,
            (forall k', In k' rest -> is_Some (pgstrom_fetch_data_store pds k')) ->
            In k (i :: rest) -> is_Some (pgstrom_fetch_data_store pds k)).
  { intros k rest Hrest [<- | Hk]; [rewrite Hf; eexists; reflexivity|auto]. }
  assert (Hhere : passes_qual ExecQual pds i = ExecQual slot)
    by (unfold passes_qual; rewrite Hf; reflexivity).
  cbn [List.filter]. rewrite Hhere.
  destruct (ExecQual slot) eqn:Hq; cbn [negb] in Hrun.
  - apply IH in Hrun as (Htake & Hj' & Hl & Hall);
      [|lia|rewrite length_insert; lia].
    rewrite length_insert in Hl.
    split; [|split; [cbn [length]; lia|split; [exact Hl|eauto]]].
    rewrite Htake. replace (Z.to_nat (j + 1)) with (S (Z.to_nat j)) by lia.
    rewrite (take_S_r _ _ i) by (apply list_lookup_insert_eq; lia).
    rewrite take_insert_ge by lia. rewrite <- app_assoc. reflexivity.
  - apply IH in Hrun as (Htake & Hj' & Hl & Hall); [|lia|lia].
    split; [exact Htake|]. split; [exact Hj'|]. split; [exact Hl|eauto].
Qed.

(** X20: the bulk gpuhashjoin_exec_multi returns.  It is the destination
    store of the session fetched, whose message has been put back.
    Without host qualifiers all rows are valid ([nvalids] is -1).  With
    host qualifiers the first [nvalids] items of [rindex] are, in
    ascending order, exactly the indices below [nitems] of the rows that
    pass them; every row of the store was fetched to decide it. *)
Theorem exec_multi_keeps_passing_rows qual fuel ghjs w bulk ghjs' w' :
  gpuhashjoin_exec_multi pgstrom_max_async_chunks Row pgstrom_fetch_data_store qual
    fuel ghjs w = Ok (Some bulk, ghjs', w') ->
  exists ghjoin,
    bulk_pds bulk = pds_dest ghjoin
    /\ last (w_put_messages w') = Some ghjoin
    /\ length (bulk_rindex bulk) = Z.to_nat (kds_nitems (kds (pds_dest ghjoin)))
    /\ match qual with
       | None => bulk_nvalids bulk = -1
       | Some ExecQual =>
           let kept :=
             List.filter (passes_qual ExecQual (pds_dest ghjoin))
               (row_indices 0 (Z.to_nat (kds_nitems (kds (pds_dest ghjoin))))) in
           bulk_nvalids bulk = Z.of_nat (length kept)
           /\ take (length kept) (bulk_rindex bulk) = kept
           /\ forall k, 0 <= k < kds_nitems (kds (pds_dest ghjoin)) ->
                is_Some (pgstrom_fetch_data_store (pds_dest ghjoin) k)
       end.
Proof.
  unfold gpuhashjoin_exec_multi.
  destruct (pgstrom_fetch_gpuhashjoin _ fuel ghjs KDS_FORMAT_ROW_FLAT w)
    as [[[[[ghjoin recheck]|] g1] w1]|e]; cbn [mbind result_bind rbind];
    try discriminate.
  destruct recheck; [discriminate|].
  destruct qual as [ExecQual|].
  - destruct (exec_multi_reduce _ _ ExecQual (pds_dest ghjoin) _ 0 0 _)
      as [[rindex j]|e] eqn:Hred; cbn [mbind result_bind rbind]; [|discriminate].
    intros [= <- <- <-]. exists ghjoin. cbn [bulk_pds bulk_nvalids bulk_rindex].
    apply exec_multi_reduce_spec in Hred as (Htake & Hj & Hl & Hall);
      [|lia|rewrite length_replicate; lia].
    rewrite length_replicate in Hl. cbn [take app] in Htake.
    split; [reflexivity|].
    split; [cbn [w_put_messages pgstrom_put_message]; apply last_snoc|].
    split; [exact Hl|]. cbv zeta. split; [lia|]. split.
    + change (Z.to_nat 0) with 0%nat in Htake. rewrite take_0 in Htake.
      cbn [app] in Htake. rewrite <- Htake at 2. f_equal. lia.
    + intros k Hk. apply Hall. unfold row_indices. apply in_map_iff.
      exists (Z.to_nat k). split; [lia|]. apply in_seq. lia.
  - intros [= <- <- <-]. exists ghjoin. cbn [bulk_pds bulk_nvalids bulk_rindex].
    split; [reflexivity|].
    split; [cbn [w_put_messages pgstrom_put_message]; apply last_snoc|].
    split; [apply length_replicate|reflexivity].
Qed.

End Rows.

(** * gpuhashjoin_exec *)
Section ExecRows.
Import Pg Session Exec ExecScan.
Context `{Env} `{DataStore}.
Variable pgstrom_max_async_chunks : Z.
Variable Row : Type.
Variable kern_data_store_row : pgstrom_data_store -> Z -> Row.

(** Loading chunks and fetching sessions touch neither the session whose
    rows are being handed out nor the messages put back. *)
Definition same_current (ghjs ghjs' : GpuHashJoinState) (w w' : World) : Prop :=
  curr_ghjoin ghjs' = curr_ghjoin ghjs
  /\ curr_index ghjs' = curr_index ghjs
  /\ w_put_messages w' = w_put_messages w.

Lemma same_current_trans g1 g2 g3 w1 w2 w3 :
  same_current g1 g2 w1 w2 -> same_current g2 g3 w2 w3 -> same_current g1 g3 w1 w3.
Proof. intros (? & ? & ?) (? & ? & ?). repeat split; congruence. Qed.

Lemma load_outer_rows_current n : forall ghjs pds ghjs' pds' w,
  load_outer_rows n ghjs pds = Ok (ghjs', pds') ->
  same_current ghjs ghjs' w w.
Proof.
  induction n as [|n IH]; intros ghjs pds ghjs' pds' w; simpl; [discriminate|].
  destruct (outer_overflow ghjs) as [slot|].
  - destruct (pgstrom_data_store_insert_tuple _ slot) as [p|].
    + intros Hl. apply (IH _ _ _ _ w) in Hl. exact Hl.
    + intros [= <- <-]. repeat split.
  - destruct (ExecProcNode (op_rows (outer_ps ghjs))) as [[slot|] ps].
    + destruct (pgstrom_data_store_insert_tuple _ slot) as [p|].
      * intros Hl. apply (IH _ _ _ _ w) in Hl. exact Hl.
      * intros [= <- <-]. repeat split.
    + intros [= <- <-]. repeat split.
Qed.

Lemma load_inner_hash_table_current ghjs w more ghjs' w' :
  load_inner_hash_table ghjs w = Ok (more, ghjs', w') ->
  same_current ghjs ghjs' w w'.
Proof.
  unfold load_inner_hash_table, same_current.
  destruct (mhtables ghjs) as [mht|];
    cbn [inner_ps set_mhtables w_shmem multihash_put_tables];
    (destruct (MultiHash.multihash_exec_multi _ _) as [[[[mhnode|] inner] shm]|e];
     cbn [mbind result_bind rbind]; [|intros [= <- <- <-]; repeat split|discriminate]);
    cbn [outer_done set_mhtables set_inner_ps];
    destruct (outer_done ghjs); intros [= <- <- <-]; repeat split.
Qed.

Lemma pgstrom_create_gpuhashjoin_current ghjs bulk fmt w j ghjs' w' :
  pgstrom_create_gpuhashjoin ghjs bulk fmt w = Ok (j, ghjs', w') ->
  same_current ghjs ghjs' w w'.
Proof.
  unfold pgstrom_create_gpuhashjoin, same_current.
  destruct (mhtables ghjs) as [mht|]; [|discriminate].
  destruct (pgstrom_shmem_alloc _ _) as [[|] shm]; cbn [negb]; [|discriminate].
  destruct fmt; cbn [mbind result_bind rbind]; try discriminate;
    intros [= <- <- <-]; repeat split.
Qed.

Lemma gpuhashjoin_load_next_chunk_current n : forall ghjs fmt w j ghjs' w',
  gpuhashjoin_load_next_chunk n ghjs fmt w = Ok (j, ghjs', w') ->
  same_current ghjs ghjs' w w'.
Proof.
  induction n as [|n IH]; intros ghjs fmt w j ghjs' w'; [discriminate|].
  cbn [gpuhashjoin_load_next_chunk].
  assert (Hstep1 : forall r,
    (if outer_done ghjs || negb (bool_decide (is_Some (mhtables ghjs)))
     then load_inner_hash_table ghjs w else Ok (true, ghjs, w)) = Ok r ->
    same_current ghjs (snd (fst r)) w (snd r)).
  { intros [[more g1] w1]. destruct (_ || _).
    - apply load_inner_hash_table_current.
    - intros [= <- <- <-]. repeat split. }
  destruct (if outer_done ghjs || _ then _ else _) as [[[more g1] w1]|e];
    [|discriminate].
  specialize (Hstep1 _ eq_refl). cbn [fst snd] in Hstep1.
  cbn [mbind result_bind rbind].
  destruct more; cbn [negb].
  2:{ intros [= <- <- <-]. exact Hstep1. }
  assert (Hstep2 : forall r,
    (if negb (outer_bulkload g1)
     then
       '(ghjs0, pds) ← load_outer_rows
                          (S (S (length (ps_rest (op_rows (outer_ps g1)))))) g1 None;
       Ok (match pds with
           | Some pds =>
               Some {| bulk_pds := pds; bulk_nvalids := -1; bulk_rindex := [] |}
           | None => None
           end, ghjs0)
     else
       let '(bulk, ps) := ExecProcNode (op_bulks (outer_ps g1)) in
       let ghjs0 := set_op_bulks ps g1 in
       Ok (bulk, if bulk is None then set_outer_done true ghjs0 else ghjs0)) = Ok r ->
    same_current g1 (snd r) w1 w1).
  { intros [bulk g2]. destruct (negb (outer_bulkload g1)).
    - destruct (load_outer_rows _ g1 None) as [[g3 pds]|e] eqn:Hl; [|discriminate].
      cbn [mbind result_bind rbind]. intros [= <- <-].
      now apply (load_outer_rows_current _ _ _ _ _ w1) in Hl.
    - destruct (ExecProcNode (op_bulks (outer_ps g1))) as [[b|] ps];
        intros [= <- <-]; repeat split. }
  destruct (if negb (outer_bulkload g1) then _ else _) as [[bulk g2]|e];
    [|discriminate].
  specialize (Hstep2 _ eq_refl). cbn [snd] in Hstep2.
  cbn [mbind result_bind rbind].
  destruct bulk as [bulk|].
  - destruct (pgstrom_create_gpuhashjoin g2 bulk fmt w1) as [[[j3 g3] w3]|e] eqn:Hc;
      [|discriminate].
    cbn [mbind result_bind rbind]. intros [= <- <- <-].
    apply pgstrom_create_gpuhashjoin_current in Hc.
    eapply same_current_trans; [exact Hstep1|].
    eapply same_current_trans; [exact Hstep2|exact Hc].
  - intros Hl. apply IH in Hl.
    eapply same_current_trans; [exact Hstep1|].
    eapply same_current_trans; [exact Hstep2|exact Hl].
Qed.

Lemma fetch_issue_loop_current n : forall fuel ghjs fmt w ghjs' w',
  fetch_issue_loop pgstrom_max_async_chunks n fuel ghjs fmt w = Ok (ghjs', w') ->
  same_current ghjs ghjs' w w'.
Proof.
  induction n as [|n IH]; intros fuel ghjs fmt w ghjs' w'; cbn [fetch_issue_loop];
    destruct (negb (outer_done ghjs) && (num_running ghjs <=? pgstrom_max_async_chunks));
    try discriminate; try (intros [= <- <-]; repeat split).
  destruct (gpuhashjoin_load_next_chunk fuel ghjs fmt w) as [[[j g1] w1]|e] eqn:Hl;
    [|discriminate].
  apply gpuhashjoin_load_next_chunk_current in Hl.
  cbn [mbind result_bind rbind].
  destruct j as [j|]; [|intros [= <- <-]; exact Hl].
  destruct (pgstrom_enqueue_message j (w_mqueue w1)) as [[|] q]; cbn [negb];
    [|discriminate].
  destruct (pgstrom_try_dequeue_message q) as [[msg|] q2].
  - intros [= <- <-]. eapply same_current_trans; [exact Hl|]. repeat split.
  - intros Hloop. apply IH in Hloop.
    eapply same_current_trans; [exact Hl|].
    eapply same_current_trans; [|exact Hloop]. repeat split.
Qed.

Lemma pgstrom_fetch_gpuhashjoin_current fuel ghjs fmt w r ghjs' w' :
  pgstrom_fetch_gpuhashjoin pgstrom_max_async_chunks fuel ghjs fmt w
  = Ok (r, ghjs', w') ->
  same_current ghjs ghjs' w w'.
Proof.
  unfold pgstrom_fetch_gpuhashjoin.
  destruct (fetch_issue_loop _ _ fuel ghjs fmt w) as [[g1 w1]|e] eqn:Hloop;
    [|discriminate].
  apply fetch_issue_loop_current in Hloop.
  cbn [mbind result_bind rbind].
  destruct (ready_pscans g1) as [|m ready] eqn:Hr.
  - destruct (num_running g1 =? 0).
    + cbn [mbind result_bind rbind]. intros [= <- <- <-]. exact Hloop.
    + destruct (pgstrom_dequeue_message (w_mqueue w1)) as [[msg|] q]; [|discriminate].
      cbn [mbind result_bind rbind ready_pscans set_ready_pscans set_num_running].
      rewrite ?Hr. cbn [app].
      destruct (bool_decide (msg_errcode msg = StromError_Success)); [|discriminate].
      intros [= <- <- <-]. eapply same_current_trans; [exact Hloop|]. repeat split.
  - cbn [mbind result_bind rbind]. rewrite ?Hr.
    destruct (bool_decide (msg_errcode m = StromError_Success)); [|discriminate].
    intros [= <- <- <-]. eapply same_current_trans; [exact Hloop|]. repeat split.
Qed.


Lemma gpuhashjoin_next_tuple_result host_clauses gpuhashjoin : forall (n : nat) ghjs r ghjs',
  curr_ghjoin ghjs = Some gpuhashjoin ->
  gpuhashjoin_next_tuple Row kern_data_store_row host_clauses n ghjs = Ok (r, ghjs') ->
  ghjs' = set_curr_index (curr_index ghjs') ghjs
  /\ match r with
     | Some row =>
         exists c,
           c < kds_nitems (kds (pds_dest gpuhashjoin))
           /\ curr_index ghjs' = cl_uint (c + 1)
           /\ row = kern_data_store_row (pds_dest gpuhashjoin) (to_int c)
           /\ passes_host_clauses Row kern_data_store_row host_clauses
                (pds_dest gpuhashjoin) (to_int c) = true
     | None => ~ curr_index ghjs' < kds_nitems (kds (pds_dest gpuhashjoin))
     end.
Proof.
  induction n as [|n IH]; intros ghjs r ghjs' Hcurr;
    cbn [gpuhashjoin_next_tuple]; rewrite Hcurr.
  - destruct (Z.ltb_spec (curr_index ghjs) (kds_nitems (kds (pds_dest gpuhashjoin))));
      [discriminate|].
    intros [= <- <-]. split; [destruct ghjs; reflexivity|lia].
  - destruct (Z.ltb_spec (curr_index ghjs) (kds_nitems (kds (pds_dest gpuhashjoin))))
      as [Hlt|Hge].
    2:{ intros [= <- <-]. split; [destruct ghjs; reflexivity|lia]. }
    assert (Hhere : passes_host_clauses Row kern_data_store_row host_clauses
                      (pds_dest gpuhashjoin) (to_int (curr_index ghjs)) = true ->
                    Ok (Some (kern_data_store_row (pds_dest gpuhashjoin)
                                (to_int (curr_index ghjs))),
                        set_curr_index (cl_uint (curr_index ghjs + 1)) ghjs)
                    = Ok (r, ghjs') ->
                    ghjs' = set_curr_index (curr_index ghjs') ghjs
                    /\ match r with
                       | Some row =>
                           exists c,
                             c < kds_nitems (kds (pds_dest gpuhashjoin))
                             /\ curr_index ghjs' = cl_uint (c + 1)
                             /\ row = kern_data_store_row (pds_dest gpuhashjoin)
                                        (to_int c)
                             /\ passes_host_clauses Row kern_data_store_row
                                  host_clauses (pds_dest gpuhashjoin) (to_int c)
                                = true
                       | None =>
                           ~ curr_index ghjs' < kds_nitems (kds (pds_dest gpuhashjoin))
                       end).
    { intros Hq [= <- <-]. split; [destruct ghjs; reflexivity|].
      exists (curr_index ghjs). repeat split; assumption. }
    unfold passes_host_clauses in Hhere |- *.
    destruct host_clauses as [ExecQual|]; [|apply Hhere; reflexivity].
    destruct (ExecQual (kern_data_store_row (pds_dest gpuhashjoin)
                          (to_int (curr_index ghjs)))) eqn:Hq; cbn [negb];
      [apply Hhere; reflexivity|].
    intros Hrun. apply IH in Hrun; [|exact Hcurr].
    destruct Hrun as [Hg Hr]. split; [|exact Hr].
    rewrite Hg at 1. destruct ghjs; reflexivity.
Qed.

(** What the projection of the slot makes of a row. *)
Definition projected (pscan_projection : option (Row -> Row)) (row : Row) : Row :=
  match pscan_projection with
  | Some ExecProject => ExecProject row
  | None => row
  end.

(** X21: gpuhashjoin_exec, called with no session left over in
    ready_pscans.  A row it returns is a row of the session that is
    current when it returns, it passes the host clauses and has gone
    through the projection of the slot; [curr_index] is just behind it.
    It returns no row only when no session is current and none is
    running.  Every session it held or fetched in between is either
    still current or has been put back exactly once, and the sessions it
    fetched were answered with StromError_Success. *)
Theorem exec_hands_out_passing_rows host_clauses pscan_projection :
  forall (n fuel : nat) ghjs w r ghjs' w',
  ready_pscans ghjs = [] ->
  gpuhashjoin_exec pgstrom_max_async_chunks Row kern_data_store_row host_clauses
    pscan_projection n fuel ghjs w = Ok (r, ghjs', w') ->
  ready_pscans ghjs' = []
  /\ (exists fetched released,
        w_put_messages w' = w_put_messages w ++ released
        /\ option_list (curr_ghjoin ghjs) ++ fetched
           = released ++ option_list (curr_ghjoin ghjs')
        /\ Forall (fun m => msg_errcode m = StromError_Success) fetched)
  /\ match r with
     | Some row =>
         exists gpuhashjoin c,
           curr_ghjoin ghjs' = Some gpuhashjoin
           /\ c < kds_nitems (kds (pds_dest gpuhashjoin))
           /\ curr_index ghjs' = cl_uint (c + 1)
           /\ row = projected pscan_projection
                      (kern_data_store_row (pds_dest gpuhashjoin) (to_int c))
           /\ passes_host_clauses Row kern_data_store_row host_clauses
                (pds_dest gpuhashjoin) (to_int c) = true
     | None => curr_ghjoin ghjs' = None /\ num_running ghjs' = 0
     end.
Proof.
  induction n as [|n IH]; intros fuel ghjs w r ghjs' w' Hready;
    cbn [gpuhashjoin_exec].
  - (* no round left: only a row of the current session can be returned *)
    destruct (curr_ghjoin ghjs) as [g|] eqn:Hc;
      [|cbn [mbind result_bind rbind]; discriminate].
    destruct (gpuhashjoin_next_tuple _ _ _ _ ghjs) as [[[row|] g1]|e] eqn:Hnt;
      cbn [mbind result_bind rbind]; try discriminate.
    intros [= <- <- <-].
    apply (gpuhashjoin_next_tuple_result _ g) in Hnt as [Hg (c & Hlt & Hidx & Hrow & Hq)];
      [|exact Hc].
    assert (Hcur : curr_ghjoin g1 = Some g) by (rewrite Hg; exact Hc).
    split; [rewrite Hg; exact Hready|]. split.
    + exists [], []. rewrite !app_nil_r, Hcur. repeat split. constructor.
    + exists g, c. rewrite Hrow. repeat split; assumption.
  - assert (Hbody : forall g1 w1 released0,
              ready_pscans g1 = [] ->
              option_list (curr_ghjoin ghjs) = released0 ++ option_list (curr_ghjoin g1) ->
              w_put_messages w1 = w_put_messages w ++ released0 ->
              (let '(ghjs0, w0) :=
                 match curr_ghjoin g1 with
                 | Some gpuhashjoin =>
                     (set_curr_index 0 (set_curr_ghjoin None g1),
                      pgstrom_put_message gpuhashjoin w1)
                 | None => (g1, w1)
                 end in
               '(fetched, ghjs1, w2) ←
                 pgstrom_fetch_gpuhashjoin pgstrom_max_async_chunks fuel ghjs0
                   KDS_FORMAT_TUPSLOT w0;
               match fetched with
               | Some (ghjoin, recheck) =>
                   gpuhashjoin_exec pgstrom_max_async_chunks Row kern_data_store_row
                     host_clauses pscan_projection n fuel
                     (set_curr_index 0
                        (set_curr_ghjoin (Some ghjoin) (set_curr_recheck recheck ghjs1)))
                     w2
               | None => Ok (None, ghjs1, w2)
               end) = Ok (r, ghjs', w') ->
              ready_pscans ghjs' = []
              /\ (exists fetched released,
                    w_put_messages w' = w_put_messages w ++ released
                    /\ option_list (curr_ghjoin ghjs) ++ fetched
                       = released ++ option_list (curr_ghjoin ghjs')
                    /\ Forall (fun m => msg_errcode m = StromError_Success) fetched)
              /\ match r with
                 | Some row =>
                     exists gpuhashjoin c,
                       curr_ghjoin ghjs' = Some gpuhashjoin
                       /\ c < kds_nitems (kds (pds_dest gpuhashjoin))
                       /\ curr_index ghjs' = cl_uint (c + 1)
                       /\ row = projected pscan_projection
                                  (kern_data_store_row (pds_dest gpuhashjoin) (to_int c))
                       /\ passes_host_clauses Row kern_data_store_row host_clauses
                            (pds_dest gpuhashjoin) (to_int c) = true
                 | None => curr_ghjoin ghjs' = None /\ num_running ghjs' = 0
                 end).
    { intros g1 w1 released0 Hr1 Hheld Hput1.
      set (p := match curr_ghjoin g1 with Some _ => _ | None => _ end).
      assert (Hp : ready_pscans (fst p) = [] /\ curr_ghjoin (fst p) = None
                   /\ w_put_messages (snd p)
                      = w_put_messages w ++ option_list (curr_ghjoin ghjs)).
      { subst p. destruct (curr_ghjoin g1) as [g|] eqn:Hc1; cbn.
        - split; [exact Hr1|]. split; [reflexivity|].
          rewrite Hput1, Hheld, <- app_assoc. reflexivity.
        - split; [exact Hr1|]. split; [exact Hc1|].
          rewrite Hput1, Hheld. cbn. rewrite app_nil_r. reflexivity. }
      destruct p as [g2 w2]. cbn [fst snd] in Hp. destruct Hp as (Hr2 & Hc2 & Hput2).
      pose proof (pgstrom_fetch_gpuhashjoin_spec pgstrom_max_async_chunks fuel g2
                    KDS_FORMAT_TUPSLOT w2 Hr2) as Hspec.
      destruct (pgstrom_fetch_gpuhashjoin _ fuel g2 KDS_FORMAT_TUPSLOT w2)
        as [[[fetched g3] w3]|e] eqn:Hf; [|discriminate].
      apply pgstrom_fetch_gpuhashjoin_current in Hf as (Hc3 & _ & Hput3).
      cbn [mbind result_bind rbind].
      destruct fetched as [[gj recheck]|].
      - destruct Hspec as (Herr & _ & Hr3). intros Hrun.
        apply IH in Hrun; [|exact Hr3].
        destruct Hrun as (Hrf & (fetched' & released' & Hputf & Hheldf & Hall) & Hres).
        cbn [w_put_messages curr_ghjoin set_curr_index set_curr_ghjoin option_list]
          in Hputf, Hheldf.
        split; [exact Hrf|]. split; [|exact Hres].
        exists (gj :: fetched'), (option_list (curr_ghjoin ghjs) ++ released').
        split; [rewrite Hputf, Hput3, Hput2, <- app_assoc; reflexivity|].
        split; [|constructor; assumption].
        rewrite <- app_assoc, <- Hheldf. reflexivity.
      - destruct Hspec as [Hn3 Hr3]. intros [= <- <- <-].
        split; [exact Hr3|]. split; [|split; [congruence|exact Hn3]].
        exists [], (option_list (curr_ghjoin ghjs)).
        split; [congruence|]. split; [|constructor].
        rewrite Hc3, Hc2. cbn. rewrite !app_nil_r. reflexivity. }
    destruct (curr_ghjoin ghjs) as [g|] eqn:Hc.
    + destruct (gpuhashjoin_next_tuple _ _ _ _ ghjs) as [[[row|] g1]|e] eqn:Hnt;
        cbn [mbind result_bind rbind]; try discriminate.
      * intros [= <- <- <-].
        apply (gpuhashjoin_next_tuple_result _ g) in Hnt
          as [Hg (c & Hlt & Hidx & Hrow & Hq)]; [|exact Hc].
        assert (Hcur : curr_ghjoin g1 = Some g) by (rewrite Hg; exact Hc).
        split; [rewrite Hg; exact Hready|]. split.
        -- exists [], []. rewrite !app_nil_r, Hcur. repeat split. constructor.
        -- exists g, c. rewrite Hrow. repeat split; assumption.
      * apply (gpuhashjoin_next_tuple_result _ g) in Hnt as [Hg _]; [|exact Hc].
        apply (Hbody g1 w []).
        -- rewrite Hg. exact Hready.
        -- rewrite Hg. cbn. rewrite Hc. reflexivity.
        -- rewrite app_nil_r. reflexivity.
    + cbn [mbind result_bind rbind]. apply (Hbody ghjs w []).
      * exact Hready.
      * rewrite Hc. reflexivity.
      * rewrite app_nil_r. reflexivity.
Qed.

End ExecRows.

(** * Runs of the execution node *)
Section ExecScanRuns.
Import Pg Session Exec ExecScan.

(** a queue in which the server answers the third and the fourth attempt
    to dequeue *)
Definition demo_answering_world : World :=
  Demo.world [Some 2000; Some 64; Some 64; Some 64; Some 64]
    [None; None; Some (0%nat, StromError_Success); Some (0%nat, StromError_Success)].

(** the node after its first loop has issued two sessions *)
Definition demo_running : GpuHashJoinState * World :=
  match fetch_issue_loop (H := Demo.env) (H0 := Demo.store) 1 3 5 demo_node
          KDS_FORMAT_TUPSLOT demo_answering_world with
  | Ok p => p
  | Err _ => (demo_node, demo_answering_world)
  end.

Lemma rescan_takes_back_sessions_witness :
  match gpuhashjoin_rescan demo_running.1 demo_running.2 with
  | Ok (ghjs', w') =>
      num_running ghjs' = 0
      /\ mq_pending (w_mqueue w') = []
      /\ curr_ghjoin ghjs' = None
      /\ outer_done ghjs' = false
      /\ outer_overflow ghjs' = None
      /\ ready_pscans ghjs' = ready_pscans demo_running.1
      /\ exists ms,
           w_put_messages w'
           = w_put_messages demo_running.2
             ++ option_list (curr_ghjoin demo_running.1) ++ ms
           /\ map unanswered ms
              ≡ₚ map unanswered (mq_pending (w_mqueue demo_running.2))
  | Err e => e = Elog "message queue wait timeout"
  end.
Proof.
  apply (rescan_takes_back_sessions demo_running.1 demo_running.2).
  vm_compute; reflexivity.
Defined.

Lemma end_gives_back_everything_witness :
  match gpuhashjoin_end demo_running.1 demo_running.2 with
  | Ok (ghjs', w') =>
      num_running ghjs' = 0
      /\ mq_pending (w_mqueue w') = []
      /\ mq_closed (w_mqueue w') = true
      /\ w_put_tables w'
         = w_put_tables demo_running.2 ++ option_list (mhtables demo_running.1)
      /\ exists ms,
           w_put_messages w'
           = w_put_messages demo_running.2
             ++ option_list (curr_ghjoin demo_running.1) ++ ms
           /\ map unanswered ms
              ≡ₚ map unanswered (mq_pending (w_mqueue demo_running.2))
  | Err e => e = Elog "message queue wait timeout"
  end.
Proof.
  apply (end_gives_back_everything demo_running.1 demo_running.2).
  vm_compute; reflexivity.
Defined.

Lemma fetch_hands_out_answered_session_witness :
  match pgstrom_fetch_gpuhashjoin (H := Demo.env) (H0 := Demo.store) 1 5 demo_node
          KDS_FORMAT_TUPSLOT demo_answering_world with
  | Ok (Some (ghjoin, needs_recheck), ghjs', _) =>
      msg_errcode ghjoin = StromError_Success
      /\ needs_recheck = false
      /\ ready_pscans ghjs' = []
  | Ok (None, ghjs', _) => num_running ghjs' = 0 /\ ready_pscans ghjs' = []
  | Err _ => True
  end.
Proof.
  apply (fetch_hands_out_answered_session (H := Demo.env) (H0 := Demo.store) 1 5
           demo_node KDS_FORMAT_TUPSLOT demo_answering_world).
  reflexivity.
Defined.

Lemma demo_store_keeps_rows : data_store_keeps_rows (H0 := Demo.store).
Proof.
  split; [reflexivity|]. intros pds slot pds'. cbn.
  destruct (length (pds_rows pds) <=? 1)%nat; [|discriminate].
  intros [= <-]. reflexivity.
Qed.

Lemma outer_rows_go_into_chunks_witness :
  exists ghjs' pds',
    load_outer_rows (H0 := Demo.store)
      (S (S (length (ps_rest (op_rows (outer_ps demo_node)))))) demo_node None
    = Ok (ghjs', pds')
    /\ outer_pending demo_node = chunk_rows pds' ++ outer_pending ghjs'
    /\ ((outer_done ghjs' = true /\ outer_pending ghjs' = [])
        \/ (exists slot store,
              outer_overflow ghjs' = Some slot /\ pds' = Some store
              /\ pgstrom_data_store_insert_tuple (DataStore := Demo.store) store slot
                 = None
              /\ outer_done ghjs' = outer_done demo_node)).
Proof.
  apply (outer_rows_go_into_chunks (H0 := Demo.store) demo_node).
  exact demo_store_keeps_rows.
Defined.

(** a data store that takes rows of at most four bytes, and an outer
    relation that starts with a row of five *)
Definition demo_narrow_store : DataStore :=
  {| pgstrom_create_data_store_row := pgstrom_create_data_store_row (DataStore := Demo.store);
     pgstrom_data_store_insert_tuple := fun pds slot =>
       if t_len (tts_tuple slot) <=? 4
       then pgstrom_data_store_insert_tuple (DataStore := Demo.store) pds slot
       else None;
     pgstrom_create_data_store_tupslot :=
       pgstrom_create_data_store_tupslot (DataStore := Demo.store);
     pgstrom_create_data_store_row_flat :=
       pgstrom_create_data_store_row_flat (DataStore := Demo.store);
     kds_colmeta_offset := kds_colmeta_offset (DataStore := Demo.store);
     sizeof_kern_rowitem := sizeof_kern_rowitem (DataStore := Demo.store);
     sizeof_kern_blkitem := sizeof_kern_blkitem (DataStore := Demo.store);
     gpuhashjoin_head_size := gpuhashjoin_head_size (DataStore := Demo.store);
     krowmap_rindex_offset := krowmap_rindex_offset (DataStore := Demo.store);
     sizeof_pgstrom_data_store := sizeof_pgstrom_data_store (DataStore := Demo.store) |}.

Definition demo_wide_row : TupleTableSlot :=
  Demo.tuple [Byte.x01; Byte.x02; Byte.x03; Byte.x04; Byte.x05].

Definition demo_wide_node : GpuHashJoinState :=
  Demo.ghjs (demo_wide_row :: demo_outer) demo_rows.

Lemma row_larger_than_store_blocks_scan_witness :
  exists ghjs',
    load_outer_rows (H0 := demo_narrow_store) 7 demo_wide_node None
    = Ok (ghjs',
          Some (pgstrom_create_data_store_row (DataStore := demo_narrow_store)
                  (outer_tupdesc demo_wide_node)))
    /\ outer_pending ghjs' = demo_wide_row :: demo_outer
    /\ outer_done ghjs' = outer_done demo_wide_node
    /\ load_outer_rows (H0 := demo_narrow_store) 7 ghjs' None
       = Ok (ghjs',
             Some (pgstrom_create_data_store_row (DataStore := demo_narrow_store)
                     (outer_tupdesc demo_wide_node))).
Proof.
  apply (row_larger_than_store_blocks_scan (H0 := demo_narrow_store) demo_wide_node
           demo_wide_row demo_outer 6).
  - reflexivity.
  - reflexivity.
Defined.

(** a session whose destination holds five rows, the rows being their
    indices, and host clauses that pass the even ones; two rows have
    been handed out *)
Definition demo_handing_out : GpuHashJoinState :=
  set_curr_index 1
    (set_curr_ghjoin
       (Some (ClServ.device_execute 5 (demo_message KDS_FORMAT_TUPSLOT 8)))
       demo_node).

Lemma next_tuple_is_first_passing_row_witness :
  exists r ghjs',
    gpuhashjoin_next_tuple Z (fun _ i => i) (Some Z.even) 5 demo_handing_out
    = Ok (r, ghjs')
    /\ ghjs' = set_curr_index (curr_index ghjs') demo_handing_out
    /\ match r with
       | Some row =>
           exists i,
             1 <= i < 5
             /\ row = i
             /\ passes_host_clauses Z (fun _ i => i) (Some Z.even)
                  (pds_dest (ClServ.device_execute 5 (demo_message KDS_FORMAT_TUPSLOT 8)))
                  i = true
             /\ (forall j, 1 <= j < i ->
                   passes_host_clauses Z (fun _ i => i) (Some Z.even)
                     (pds_dest (ClServ.device_execute 5
                                  (demo_message KDS_FORMAT_TUPSLOT 8))) j = false)
             /\ curr_index ghjs' = i + 1
       | None =>
           (forall j, 1 <= j < 5 ->
              passes_host_clauses Z (fun _ i => i) (Some Z.even)
                (pds_dest (ClServ.device_execute 5
                             (demo_message KDS_FORMAT_TUPSLOT 8))) j = false)
           /\ curr_index ghjs' = Z.max 1 5
       end.
Proof.
  apply (next_tuple_is_first_passing_row Z (fun _ i => i) (Some Z.even)
           demo_handing_out
           (ClServ.device_execute 5 (demo_message KDS_FORMAT_TUPSLOT 8))).
  - reflexivity.
  - cbn. lia.
  - cbn. lia.
Defined.

Lemma exec_multi_keeps_passing_rows_witness :
  exists bulk ghjs' w' ghjoin,
    gpuhashjoin_exec_multi (H := Demo.env) (H0 := Demo.store) 1 Z
      (fun _ i => Some i) (Some Z.even) 5 demo_node demo_answering_world
    = Ok (Some bulk, ghjs', w')
    /\ bulk_pds bulk = pds_dest ghjoin
    /\ last (w_put_messages w') = Some ghjoin
    /\ bulk_nvalids bulk
       = Z.of_nat
           (length
              (List.filter (passes_qual Z (fun _ i => Some i) Z.even (pds_dest ghjoin))
                 (row_indices 0 (Z.to_nat (kds_nitems (kds (pds_dest ghjoin))))))).
Proof.
  eexists _, _, _.
  destruct (exec_multi_keeps_passing_rows (H := Demo.env) (H0 := Demo.store) 1 Z
              (fun _ i => Some i) (Some Z.even) 5 demo_node demo_answering_world
              _ _ _ ltac:(vm_compute; reflexivity))
    as (ghjoin & Hpds & Hput & _ & Hn & _).
  exists ghjoin. split; [vm_compute; reflexivity|].
  split; [exact Hpds|]. split; [exact Hput|exact Hn].
Defined.

Lemma exec_hands_out_passing_rows_witness :
  exists row ghjs' w',
    gpuhashjoin_exec (H := Demo.env) (H0 := Demo.store) 1 Z (fun _ i => i)
      (Some Z.even) (Some (fun r => 10 * r)) 3 5 demo_handing_out
      demo_answering_world = Ok (Some row, ghjs', w')
    /\ ready_pscans ghjs' = []
    /\ exists gpuhashjoin c,
         curr_ghjoin ghjs' = Some gpuhashjoin
         /\ c < kds_nitems (kds (pds_dest gpuhashjoin))
         /\ curr_index ghjs' = cl_uint (c + 1)
         /\ row = projected Z (Some (fun r => 10 * r)) (to_int c)
         /\ passes_host_clauses Z (fun _ i => i) (Some Z.even)
              (pds_dest gpuhashjoin) (to_int c) = true.
Proof.
  eexists _, _, _. split; [vm_compute; reflexivity|].
  destruct (exec_hands_out_passing_rows (H := Demo.env) (H0 := Demo.store) 1 Z
              (fun _ i => i) (Some Z.even) (Some (fun r => 10 * r)) 3 5
              demo_handing_out demo_answering_world _ _ _
              eq_refl ltac:(vm_compute; reflexivity))
    as (Hr & _ & Hrow).
  split; [exact Hr|exact Hrow].
Defined.

End ExecScanRuns.

(** * The steps of the bitonic sort *)
Section BitonicStep.
Import GpuPreAgg.
Variable gpupreagg_keycomp : Z -> Z -> Z.

Lemma to_cl_int_small x : 0 <= x < 2 ^ 31 -> to_cl_int x = x.
Proof.
  intros Hx. unfold to_cl_int. rewrite Z.mod_small by lia.
  destruct (Z.ltb_spec x (2 ^ 31)); lia.
Qed.

Lemma lor_block_offset k a b :
  0 <= k -> 0 <= b < 2 ^ k -> Z.lor (a * 2 ^ k) b = a * 2 ^ k + b.
Proof.
  intros Hk Hb.
  assert (Hland : Z.land (a * 2 ^ k) b = 0).
  { apply Z.bits_inj'. intros n Hn. rewrite Z.land_spec, Z.bits_0.
    destruct (Z.lt_ge_cases n k) as [Hlt|Hge].
    - rewrite Z.mul_pow2_bits_low by lia. reflexivity.
    - rewrite <- (Z.mod_small b (2 ^ k)) by lia.
      rewrite Z.mod_pow2_bits_high by lia. apply andb_false_r. }
  rewrite (Z.add_nocarry_lxor _ _ Hland). symmetry. apply Z.lxor_lor. exact Hland.
Qed.

(** The position a reversing step pairs [idx0] with: the mirror image of
    [idx0] in its block of [2 ^ k] positions. *)
Lemma reversing_index k idx0 :
  0 <= k -> 0 <= idx0 ->
  Z.lor (Z.land idx0 (Z.lnot (2 ^ k - 1))) (Z.land (Z.lnot idx0) (2 ^ k - 1))
  = idx0 / 2 ^ k * 2 ^ k + (2 ^ k - 1 - idx0 mod 2 ^ k).
Proof.
  intros Hk Hi.
  assert (Hu : 0 < 2 ^ k) by (apply Z.pow_pos_nonneg; lia).
  replace (2 ^ k - 1) with (Z.ones k) by (rewrite Z.ones_equiv; lia).
  rewrite <- Z.ldiff_land, Z.ldiff_ones_r by exact Hk.
  rewrite Z.shiftl_mul_pow2, Z.shiftr_div_pow2 by exact Hk.
  rewrite Z.land_ones by exact Hk.
  pose proof (Z.mod_pos_bound idx0 (2 ^ k) Hu) as Hm.
  assert (Hrev : Z.lnot idx0 mod 2 ^ k = Z.ones k - idx0 mod 2 ^ k).
  { rewrite Z.ones_equiv. symmetry.
    apply (Z.mod_unique_pos _ _ (- (idx0 / 2 ^ k) - 1)); [lia|].
    unfold Z.lnot. pose proof (Z.div_mod idx0 (2 ^ k) ltac:(lia)). lia. }
  rewrite Hrev. apply lor_block_offset; [exact Hk|].
  rewrite Z.ones_equiv. lia.
Qed.

(** The positions of a step in arithmetic: the work-item [q * h + r]
    with [r < h] looks at the positions [r] and, when reversing,
    [2 * h - 1 - r], otherwise [r + h], of the block [q] of [2 * h]
    positions. *)
Definition unit_of (bitonic_unitsz : Z) : Z := Z.abs bitonic_unitsz.

Lemma bitonic_step_indices_spec k bitonic_unitsz globalID :
  1 <= k -> unit_of bitonic_unitsz = 2 ^ k ->
  0 <= globalID -> 2 * globalID + 2 ^ k < 2 ^ 31 ->
  let h := 2 ^ (k - 1) in
  let q := globalID / h in
  let r := globalID mod h in
  bitonic_step_indices bitonic_unitsz globalID
  = (q * 2 ^ k + r,
     q * 2 ^ k + (if bitonic_unitsz <? 0 then 2 ^ k - 1 - r else r + h)).
Proof.
  intros Hk Hu Hg Hfit h q r.
  assert (Hh : 0 < h) by (apply Z.pow_pos_nonneg; lia).
  assert (Huh : 2 ^ k = 2 * h).
  { subst h. rewrite <- Z.pow_succ_r by lia. f_equal. lia. }
  assert (Hunit : (if bitonic_unitsz <? 0 then - bitonic_unitsz else bitonic_unitsz)
                  = 2 ^ k).
  { unfold unit_of in Hu. destruct (Z.ltb_spec bitonic_unitsz 0); lia. }
  unfold bitonic_step_indices. rewrite Hunit.
  assert (Hhalf : Z.quot (2 ^ k) 2 = h).
  { rewrite Z.quot_div_nonneg by lia. rewrite Huh, Z.mul_comm, Z.div_mul by lia.
    reflexivity. }
  rewrite Hhalf.
  pose proof (Z.div_mod globalID h ltac:(lia)) as Hdm.
  pose proof (Z.mod_pos_bound globalID h Hh) as Hr.
  assert (Hq : 0 <= q) by (apply Z.div_pos; lia).
  fold q r in Hdm, Hr.
  rewrite (to_cl_int_small h) by lia.
  rewrite (to_cl_int_small (2 ^ k - 1)) by lia.
  rewrite Z.quot_div_nonneg, Z.rem_mod_nonneg by lia. fold q r.
  assert (Hidx0 : 0 <= q * 2 ^ k + r < 2 ^ 31) by nia.
  rewrite (to_cl_int_small (q * 2 ^ k + r)) by exact Hidx0.
  f_equal. destruct (bitonic_unitsz <? 0).
  - rewrite reversing_index by lia.
    assert (Hdiv : (q * 2 ^ k + r) / 2 ^ k = q).
    { symmetry. apply (Z.div_unique_pos _ _ q r); lia. }
    assert (Hmod : (q * 2 ^ k + r) mod 2 ^ k = r).
    { symmetry. apply (Z.mod_unique_pos _ _ q r); lia. }
    rewrite Hdiv, Hmod. reflexivity.
  - rewrite to_cl_int_small by nia. lia.
Qed.


(** The hypotheses under which a step is run: the unit is a power of two
    of at least 2 and the positions fit [cl_int]. *)
Definition step_fits (k bitonic_unitsz globalID : Z) : Prop :=
  1 <= k /\ unit_of bitonic_unitsz = 2 ^ k
  /\ 0 <= globalID /\ 2 * globalID + 2 ^ k < 2 ^ 31.

Lemma bitonic_step_indices_order k bitonic_unitsz globalID :
  step_fits k bitonic_unitsz globalID ->
  0 <= fst (bitonic_step_indices bitonic_unitsz globalID)
       < snd (bitonic_step_indices bitonic_unitsz globalID).
Proof.
  intros (Hk & Hu & Hg & Hfit).
  rewrite (bitonic_step_indices_spec k) by assumption. cbn [fst snd].
  assert (Hh : 0 < 2 ^ (k - 1)) by (apply Z.pow_pos_nonneg; lia).
  assert (Huh : 2 ^ k = 2 * 2 ^ (k - 1)).
  { rewrite <- Z.pow_succ_r by lia. f_equal. lia. }
  pose proof (Z.mod_pos_bound globalID (2 ^ (k - 1)) Hh) as Hr.
  assert (Hq : 0 <= globalID / 2 ^ (k - 1)) by (apply Z.div_pos; lia).
  destruct (bitonic_unitsz <? 0); nia.
Qed.

Lemma bitonic_step_indices_disjoint k bitonic_unitsz g1 g2 :
  step_fits k bitonic_unitsz g1 -> step_fits k bitonic_unitsz g2 -> g1 <> g2 ->
  let '(a0, a1) := bitonic_step_indices bitonic_unitsz g1 in
  let '(b0, b1) := bitonic_step_indices bitonic_unitsz g2 in
  a0 <> b0 /\ a0 <> b1 /\ a1 <> b0 /\ a1 <> b1.
Proof.
  intros (Hk & Hu & Hg1 & Hfit1) (_ & _ & Hg2 & Hfit2) Hne.
  rewrite !(bitonic_step_indices_spec k) by assumption.
  set (h := 2 ^ (k - 1)).
  assert (Hh : 0 < h) by (apply Z.pow_pos_nonneg; lia).
  assert (Huh : 2 ^ k = 2 * h).
  { subst h. rewrite <- Z.pow_succ_r by lia. f_equal. lia. }
  pose proof (Z.mod_pos_bound g1 h Hh) as Hr1.
  pose proof (Z.mod_pos_bound g2 h Hh) as Hr2.
  pose proof (Z.div_mod g1 h ltac:(lia)) as Hd1.
  pose proof (Z.div_mod g2 h ltac:(lia)) as Hd2.
  set (q1 := g1 / h) in *. set (r1 := g1 mod h) in *.
  set (q2 := g2 / h) in *. set (r2 := g2 mod h) in *.
  assert (Huniq : forall x y, 0 <= x < 2 ^ k -> 0 <= y < 2 ^ k ->
            q1 * 2 ^ k + x = q2 * 2 ^ k + y -> q1 = q2 /\ x = y).
  { intros x y Hx Hy E.
    apply (Z.div_mod_unique (2 ^ k) q1 q2 x y); [left; lia|left; lia|lia]. }
  destruct (bitonic_unitsz <? 0); repeat split; intros E;
    apply Huniq in E; try lia; destruct E as [Eq Er]; apply Hne; nia.
Qed.

Lemma swap_first {A} (l : list A) : forall (j : nat) x y,
  l !! j = Some y -> y :: <[j := x]> l ≡ₚ x :: l.
Proof.
  induction l as [|b l IH]; intros [|j] x y Hj; try discriminate.
  - injection Hj as ->. cbn. apply perm_swap.
  - cbn [insert list_insert]. cbn in Hj.
    change (<[S j := x]> (b :: l)) with (b :: <[j := x]> l).
    rewrite perm_swap, (IH j x y Hj). apply perm_swap.
Qed.

Lemma swap_Permutation {A} (l : list A) : forall (i j : nat) x y,
  (i < j)%nat -> l !! i = Some x -> l !! j = Some y ->
  <[j := x]> (<[i := y]> l) ≡ₚ l.
Proof.
  induction l as [|a l IH]; intros [|i] [|j] x y Hij Hi Hj; try discriminate; try lia.
  - injection Hi as ->. cbn in Hj.
    change (<[S j := x]> (<[0%nat := y]> (x :: l))) with (y :: <[j := x]> l).
    apply swap_first. exact Hj.
  - cbn in Hi, Hj.
    change (<[S j := x]> (<[S i := y]> (a :: l)))
      with (a :: <[j := x]> (<[i := y]> l)).
    constructor. apply (IH i j x y); [lia|exact Hi|exact Hj].
Qed.

(** What a work-item of gpupreagg_bitonic_step does: nothing, or the
    exchange of the items at its two positions, both below [nrows]. *)
Lemma gpupreagg_bitonic_step_cases k nrows bitonic_unitsz globalID rindex :
  step_fits k bitonic_unitsz globalID ->
  let '(idx0, idx1) := bitonic_step_indices bitonic_unitsz globalID in
  gpupreagg_bitonic_step gpupreagg_keycomp nrows bitonic_unitsz globalID rindex
  = (if (idx1 <? nrows)
        && (0 <? gpupreagg_keycomp (rindex !!! Z.to_nat idx0)
                   (rindex !!! Z.to_nat idx1))
     then <[Z.to_nat idx1 := rindex !!! Z.to_nat idx0]>
            (<[Z.to_nat idx0 := rindex !!! Z.to_nat idx1]> rindex)
     else rindex)
  /\ 0 <= idx0 < idx1.
Proof.
  intros Hfit. pose proof (bitonic_step_indices_order _ _ _ Hfit) as Hord.
  unfold gpupreagg_bitonic_step.
  destruct (bitonic_step_indices bitonic_unitsz globalID) as [idx0 idx1].
  cbn [fst snd] in Hord. split; [|exact Hord].
  destruct (Z.leb_spec nrows idx1), (Z.ltb_spec idx1 nrows); try lia; reflexivity.
Qed.

(** X22: the work-items of one step of gpupreagg_bitonic_step are
    independent of each other.  For a unit that is a power of two, two
    different work-items look at four different positions of [rindex],
    so none reads or writes an item another one writes, and the array
    they leave does not depend on the order in which they run. *)
Theorem bitonic_step_items_independent k nrows bitonic_unitsz g1 g2 rindex :
  step_fits k bitonic_unitsz g1 -> step_fits k bitonic_unitsz g2 -> g1 <> g2 ->
  (let '(a0, a1) := bitonic_step_indices bitonic_unitsz g1 in
   let '(b0, b1) := bitonic_step_indices bitonic_unitsz g2 in
   a0 <> b0 /\ a0 <> b1 /\ a1 <> b0 /\ a1 <> b1)
  /\ gpupreagg_bitonic_step gpupreagg_keycomp nrows bitonic_unitsz g1
       (gpupreagg_bitonic_step gpupreagg_keycomp nrows bitonic_unitsz g2 rindex)
     = gpupreagg_bitonic_step gpupreagg_keycomp nrows bitonic_unitsz g2
         (gpupreagg_bitonic_step gpupreagg_keycomp nrows bitonic_unitsz g1 rindex).
Proof.
  intros Hf1 Hf2 Hne.
  pose proof (bitonic_step_indices_disjoint k bitonic_unitsz g1 g2 Hf1 Hf2 Hne) as Hdis.
  split; [exact Hdis|].
  pose proof (fun r => gpupreagg_bitonic_step_cases k nrows bitonic_unitsz g1 r Hf1)
    as H1.
  pose proof (fun r => gpupreagg_bitonic_step_cases k nrows bitonic_unitsz g2 r Hf2)
    as H2.
  destruct (bitonic_step_indices bitonic_unitsz g1) as [a0 a1].
  destruct (bitonic_step_indices bitonic_unitsz g2) as [b0 b1].
  destruct Hdis as (N00 & N01 & N10 & N11).
  destruct (H1 rindex) as [E1 O1]. destruct (H2 rindex) as [E2 O2].
  assert (Hn : Z.to_nat a0 <> Z.to_nat b0 /\ Z.to_nat a0 <> Z.to_nat b1
               /\ Z.to_nat a1 <> Z.to_nat b0 /\ Z.to_nat a1 <> Z.to_nat b1) by lia.
  destruct Hn as (M00 & M01 & M10 & M11).
  rewrite E2, E1.
  set (c1 := (a1 <? nrows)
             && (0 <? gpupreagg_keycomp (rindex !!! Z.to_nat a0)
                        (rindex !!! Z.to_nat a1))).
  set (c2 := (b1 <? nrows)
             && (0 <? gpupreagg_keycomp (rindex !!! Z.to_nat b0)
                        (rindex !!! Z.to_nat b1))).
  destruct c2 eqn:Hc2, c1 eqn:Hc1; subst c1 c2.
  - rewrite (proj1 (H1 _)), (proj1 (H2 _)).
    rewrite !list_lookup_total_insert_ne by congruence.
    rewrite Hc1, Hc2.
    rewrite (list_insert_insert_ne _ (Z.to_nat a0) (Z.to_nat b1)) by congruence.
    rewrite (list_insert_insert_ne _ (Z.to_nat a0) (Z.to_nat b0)) by congruence.
    rewrite (list_insert_insert_ne _ (Z.to_nat a1) (Z.to_nat b1)) by congruence.
    rewrite (list_insert_insert_ne _ (Z.to_nat a1) (Z.to_nat b0)) by congruence.
    reflexivity.
  - rewrite (proj1 (H1 _)), E2.
    rewrite !list_lookup_total_insert_ne by congruence.
    rewrite Hc1, Hc2. reflexivity.
  - rewrite (proj1 (H2 _)), E1.
    rewrite !list_lookup_total_insert_ne by congruence.
    rewrite Hc1, Hc2. reflexivity.
  - rewrite E1, E2, Hc1, Hc2. reflexivity.
Qed.

(** A launch of a kernel: its work-items one after the other. *)
Definition launch (item : Z -> list Z -> list Z) (globalIDs : list Z)
  (rindex : list Z) : list Z :=
  fold_left (fun r g => item g r) globalIDs rindex.

(** The numbers of the rows. *)
Definition row_numbers (nrows : nat) : list Z := map Z.of_nat (seq 0 nrows).

(** a work-item below the number of rows, both within [cl_int] *)
Lemma gpupreagg_set_rindex_row nitems global_id rindex :
  0 <= global_id < nitems -> nitems < 2 ^ 31 ->
  gpupreagg_set_rindex nitems global_id rindex
  = <[Z.to_nat global_id := global_id]> rindex.
Proof.
  intros Hg Hn. unfold gpupreagg_set_rindex.
  rewrite !to_cl_int_small by lia.
  destruct (Z.ltb_spec global_id nitems); [|lia].
  destruct (Z.ltb_spec global_id 0); [lia|reflexivity].
Qed.

Lemma gpupreagg_set_rindex_launch nrows : forall (n : nat) rindex,
  Z.of_nat nrows < 2 ^ 31 ->
  (n <= nrows)%nat -> (nrows <= length rindex)%nat ->
  take n (launch (gpupreagg_set_rindex (Z.of_nat nrows)) (row_numbers n) rindex)
  = row_numbers n
  /\ length (launch (gpupreagg_set_rindex (Z.of_nat nrows)) (row_numbers n) rindex)
     = length rindex.
Proof.
  induction n as [|n IH]; intros rindex Hint Hn Hlen; [split; reflexivity|].
  unfold launch, row_numbers in *. rewrite seq_S, map_app, fold_left_app.
  cbn [map fold_left]. destruct (IH rindex Hint ltac:(lia) Hlen) as [Htake Hl].
  rewrite gpupreagg_set_rindex_row by lia.
  rewrite length_insert. split; [|exact Hl].
  replace (Z.to_nat (Z.of_nat (0 + n))) with n by lia.
  rewrite (take_S_r _ _ (Z.of_nat (0 + n))) by (apply list_lookup_insert_eq; lia).
  rewrite take_insert_ge by lia. rewrite Htake. reflexivity.
Qed.

Lemma gpupreagg_bitonic_step_rows k nrows bitonic_unitsz globalID rindex :
  step_fits k bitonic_unitsz globalID ->
  (nrows <= length rindex)%nat ->
  take nrows (gpupreagg_bitonic_step gpupreagg_keycomp (Z.of_nat nrows)
                bitonic_unitsz globalID rindex)
  ≡ₚ take nrows rindex
  /\ drop nrows (gpupreagg_bitonic_step gpupreagg_keycomp (Z.of_nat nrows)
                   bitonic_unitsz globalID rindex)
     = drop nrows rindex
  /\ length (gpupreagg_bitonic_step gpupreagg_keycomp (Z.of_nat nrows)
               bitonic_unitsz globalID rindex) = length rindex.
Proof.
  intros Hfit Hlen.
  pose proof (gpupreagg_bitonic_step_cases k (Z.of_nat nrows) bitonic_unitsz globalID
                rindex Hfit) as Hc.
  destruct (bitonic_step_indices bitonic_unitsz globalID) as [idx0 idx1].
  destruct Hc as [-> Hord].
  destruct (Z.ltb_spec idx1 (Z.of_nat nrows)) as [Hin|Hout]; cbn [andb];
    [|repeat split; reflexivity].
  destruct (0 <? _); [|repeat split; reflexivity].
  rewrite !length_insert. split; [|split; [|reflexivity]].
  - rewrite !take_insert_lt by lia.
    apply swap_Permutation; [lia|..];
      (rewrite lookup_take_lt by lia; apply list_lookup_lookup_total_lt; lia).
  - rewrite !drop_insert_lt by lia. reflexivity.
Qed.

(** X23: the row index stays a permutation of the row numbers, for a
    store of fewer than 2^31 rows (so that the [cl_int nrows] of both
    kernels is [kds->nitems]).  After gpupreagg_set_rindex has run for
    the work-items 0 to nrows - 1, and after any number of work-items of
    gpupreagg_bitonic_step with units that are powers of two, in
    whatever order, the first [nrows] items of [rindex] are the numbers
    0 to nrows - 1, each exactly once, and nothing behind them was
    written. *)
Theorem rindex_stays_permutation (nrows : nat) rindex
  (steps : list (Z * Z)) :
  Z.of_nat nrows < 2 ^ 31 ->
  (nrows <= length rindex)%nat ->
  Forall (fun s => exists k, step_fits k (fst s) (snd s)) steps ->
  let sorted :=
    fold_left
      (fun r s => gpupreagg_bitonic_step gpupreagg_keycomp (Z.of_nat nrows)
                    (fst s) (snd s) r)
      steps
      (launch (gpupreagg_set_rindex (Z.of_nat nrows)) (row_numbers nrows) rindex) in
  take nrows sorted ≡ₚ row_numbers nrows
  /\ drop nrows sorted = drop nrows rindex.
Proof.
  intros Hint Hlen Hsteps.
  destruct (gpupreagg_set_rindex_launch nrows nrows rindex Hint ltac:(lia) Hlen)
    as [Htake Hl].
  assert (Hdrop : drop nrows (launch (gpupreagg_set_rindex (Z.of_nat nrows))
                                (row_numbers nrows) rindex)
                  = drop nrows rindex).
  { clear Htake Hl Hsteps. unfold launch.
    assert (Hgen : forall (n : nat) r, (n <= nrows)%nat ->
              drop nrows (fold_left (fun r g => gpupreagg_set_rindex (Z.of_nat nrows) g r)
                            (row_numbers n) r) = drop nrows r).
    { induction n as [|n IH]; intros r Hn; [reflexivity|].
      unfold row_numbers in *. rewrite seq_S, map_app, fold_left_app.
      cbn [map fold_left]. rewrite gpupreagg_set_rindex_row by lia.
      rewrite drop_insert_lt by lia. apply IH. lia. }
    apply Hgen. lia. }
  assert (Htake' : take nrows (launch (gpupreagg_set_rindex (Z.of_nat nrows))
                                 (row_numbers nrows) rindex) ≡ₚ row_numbers nrows)
    by (rewrite Htake; reflexivity).
  clear Htake. revert Htake' Hl Hdrop.
  generalize (launch (gpupreagg_set_rindex (Z.of_nat nrows)) (row_numbers nrows) rindex).
  induction Hsteps as [|[u g] steps (k & Hfit) _ IH]; intros r Htake Hl Hdrop.
  - cbn. split; [exact Htake|exact Hdrop].
  - cbn [fold_left fst snd] in *.
    destruct (gpupreagg_bitonic_step_rows k nrows u g r Hfit ltac:(lia))
      as (Hp & Hd & Hl').
    apply IH.
    + rewrite Hp. exact Htake.
    + congruence.
    + congruence.
Qed.

End BitonicStep.

Section BitonicRuns.
Import GpuPreAgg.

(** rows compared by their numbers, the larger number first *)
Definition demo_keycomp (x y : Z) : Z := y - x.

Lemma demo_step_fits (u g : Z) :
  (u = 2 \/ u = -2 \/ u = 4 \/ u = -4) -> 0 <= g < 1000 ->
  exists k, step_fits k u g.
Proof.
  intros Hu Hg.
  destruct Hu as [-> | [-> | [-> | ->]]];
    [exists 1|exists 1|exists 2|exists 2];
    (split; [lia|]; split; [reflexivity|]; split; [lia|];
     change (2 ^ 1) with 2; change (2 ^ 2) with 4; change (2 ^ 31) with 2147483648;
     lia).
Qed.

Lemma bitonic_step_items_independent_witness :
  (let '(a0, a1) := bitonic_step_indices (-4) 0 in
   let '(b0, b1) := bitonic_step_indices (-4) 1 in
   a0 <> b0 /\ a0 <> b1 /\ a1 <> b0 /\ a1 <> b1)
  /\ gpupreagg_bitonic_step demo_keycomp 4 (-4) 0
       (gpupreagg_bitonic_step demo_keycomp 4 (-4) 1 [0; 1; 2; 3])
     = gpupreagg_bitonic_step demo_keycomp 4 (-4) 1
         (gpupreagg_bitonic_step demo_keycomp 4 (-4) 0 [0; 1; 2; 3]).
Proof.
  apply (bitonic_step_items_independent demo_keycomp 2 4 (-4) 0 1 [0; 1; 2; 3]).
  - split; [lia|]. split; [reflexivity|]. split; [lia|reflexivity].
  - split; [lia|]. split; [reflexivity|]. split; [lia|reflexivity].
  - discriminate.
Defined.

Definition demo_steps : list (Z * Z) :=
  [(2, 0); (2, 1); (-4, 0); (-4, 1); (2, 0); (2, 1)].

Lemma rindex_stays_permutation_witness :
  let sorted :=
    fold_left
      (fun r s => gpupreagg_bitonic_step demo_keycomp 4 (fst s) (snd s) r)
      demo_steps
      (launch (gpupreagg_set_rindex 4) (row_numbers 4) [7; 7; 7; 7; 9]) in
  take 4 sorted ≡ₚ row_numbers 4 /\ drop 4 sorted = drop 4 [7; 7; 7; 7; 9].
Proof.
  apply (rindex_stays_permutation demo_keycomp 4 [7; 7; 7; 7; 9] demo_steps).
  - reflexivity.
  - cbn. lia.
  - repeat constructor; apply demo_step_fits; cbn; lia.
Defined.

End BitonicRuns.
